(** * bun-queue: a Redis-backed job queue

    A shallow embedding of the parts of [packages/bun-queue/src] that the
    testable properties of the design document talk about: the Redis
    command subset the queue uses, the job record, submission, the worker
    loop with its retry and dead-letter path, the priority pump, the
    rate-limit script, the distributed lock, the work coordinator and the
    cron scheduler, and with them the stalled-job check, the reading
    side of the dead-letter queue, the listing and counting of jobs and
    the parser of cron expressions.

    Conventions.
    - JavaScript numbers that hold counts, ids and millisecond timestamps
      are integers in [Z]; places where the source really computes in
      IEEE doubles are pointed out where they occur.
    - The Redis server is a finite map from keys to typed values; a
      command applied to a key of the wrong type throws, as the client
      does on a WRONGTYPE reply.
    - Asynchronous code is sequentialised: every [await] is a bind of the
      state-and-exception monad [M]. MULTI and EXEC only group commands
      on one connection, so they are no-ops here. *)

From Stdlib Require Import ZArith List String Lia Bool Permutation.
From stdpp Require Import gmap strings list pretty.
Import ListNotations.

Local Open Scope string_scope.
Local Open Scope Z_scope.

(** ** JavaScript truthiness helpers *)

(** [x || d] on an optional number: [undefined], [null] and [0] select [d]. *)
Definition orZ (x : option Z) (d : Z) : Z :=
  match x with
  | Some v => if v =? 0 then d else v
  | None => d
  end.

(** [x || d] on an optional string: [undefined] and [''] select [d]. *)
Definition orS (x : option string) (d : string) : string :=
  match x with
  | Some v => if String.eqb v "" then d else v
  | None => d
  end.

(** Truthiness of an optional boolean flag. *)
Definition truthyB (x : option bool) : bool :=
  match x with Some b => b | None => false end.

(** ** The Redis server *)

Module Redis.

(** A hash field holds a string on the wire; numbers are stored as
    decimal strings and nested objects as JSON. The embedding keeps the
    value that string denotes. *)
Inductive hval {J : Type} : Type :=
| HStr (s : string)
| HNum (z : Z)
| HJson (o : J)
| HList (l : list string).
Arguments hval : clear implicits.

(** Values a key can hold. A sorted set is kept ordered by score and
    then by member, which is the order ZRANGE reports. *)
Inductive rval {J : Type} : Type :=
| VStr (s : string)
| VList (l : list string)
| VSet (s : list string)
| VZSet (z : list (string * Z))
| VHash (h : gmap string (hval J)).
Arguments rval : clear implicits.

Section Values.
Context {J : Type}.
Abbreviation store := (gmap string (rval J)).

(** Redis never keeps an empty list, set, sorted set or hash: the key
    disappears with its last element. *)
Definition putList (k : string) (l : list string) (s : store) : store :=
  match l with [] => delete k s | _ => <[k := VList l]> s end.
Definition putSet (k : string) (l : list string) (s : store) : store :=
  match l with [] => delete k s | _ => <[k := VSet l]> s end.
Definition putZSet (k : string) (z : list (string * Z)) (s : store) : store :=
  match z with [] => delete k s | _ => <[k := VZSet z]> s end.

(** LREM: [count > 0] removes the first [count] occurrences from the
    head, [count < 0] from the tail, [count = 0] all of them. *)
Fixpoint lremHead (n : nat) (x : string) (l : list string) : list string * Z :=
  match l with
  | [] => ([], 0)
  | y :: r =>
      if String.eqb x y then
        match n with
        | O => (y :: r, 0)
        | S n' => let '(r', c) := lremHead n' x r in (r', c + 1)
        end
      else let '(r', c) := lremHead n x r in (y :: r', c)
  end.

Definition lremAll (x : string) (l : list string) : list string * Z :=
  (List.filter (fun y => negb (String.eqb x y)) l,
   Z.of_nat (List.length (List.filter (fun y => String.eqb x y) l))).

Definition lrem (count : Z) (x : string) (l : list string) : list string * Z :=
  if count =? 0 then lremAll x l
  else if 0 <? count then lremHead (Z.to_nat count) x l
  else let '(r, c) := lremHead (Z.to_nat (- count)) x (rev l) in (rev r, c).

(** LRANGE and ZRANGE index arithmetic: negative indices count from
    the tail, out-of-range bounds are clamped. *)
Definition rangeOf {A : Type} (start stop : Z) (l : list A) : list A :=
  let len := Z.of_nat (List.length l) in
  let a := if start <? 0 then Z.max 0 (len + start) else start in
  let b := if stop <? 0 then len + stop else Z.min stop (len - 1) in
  if b <? a then []
  else firstn (Z.to_nat (b - a + 1)) (skipn (Z.to_nat a) l).

(** Sorted-set order: by score, ties by member. *)
Definition zbefore (a b : string * Z) : bool :=
  (snd a <? snd b) || ((snd a =? snd b) && String.leb (fst a) (fst b)).

Fixpoint zinsert (e : string * Z) (z : list (string * Z)) : list (string * Z) :=
  match z with
  | [] => [e]
  | x :: r => if zbefore e x then e :: x :: r else x :: zinsert e r
  end.

Definition zremMember (m : string) (z : list (string * Z)) : list (string * Z) :=
  List.filter (fun e => negb (String.eqb m (fst e))) z.

Definition zhas (m : string) (z : list (string * Z)) : bool :=
  existsb (fun e => String.eqb m (fst e)) z.

(** ZADD: a member already present gets the new score. *)
Definition zadd (score : Z) (m : string) (z : list (string * Z)) : list (string * Z) :=
  zinsert (m, score) (zremMember m z).

Definition inScore (lo hi : Z) (e : string * Z) : bool :=
  (lo <=? snd e) && (snd e <=? hi).

Definition sadd (x : string) (l : list string) : list string :=
  if existsb (String.eqb x) l then l else l ++ [x].

Definition srem (x : string) (l : list string) : list string :=
  List.filter (fun y => negb (String.eqb x y)) l.
End Values.

End Redis.

(** ** Submission options ([types.ts]) *)

Inductive BackoffType := fixed | exponential.

Record Backoff := { bo_type : BackoffType; bo_delay : Z }.

Record DeadLetterQueueOptions := {
  dl_queueSuffix : option string;
  dl_maxRetries : option Z;
  dl_processFailed : option bool;
  dl_removeFromOriginalQueue : option bool;
  dl_enabled : option bool
}.

(** [deadLetter?: boolean | DeadLetterQueueOptions] *)
Inductive DeadLetterOpt :=
| DLFlag (b : bool)
| DLOptions (o : DeadLetterQueueOptions).

(** [dependsOn?: string | string[]] *)
Inductive DependsOn :=
| DepOne (id : string)
| DepMany (ids : list string).

(** The fields of [JobOptions] that the modelled code reads. *)
Record JobOptions := {
  opt_delay : option Z;
  opt_attempts : option Z;
  opt_backoff : option Backoff;
  opt_priority : option Z;
  opt_lifo : option bool;
  opt_jobId : option string;
  opt_dependsOn : option DependsOn;
  opt_deadLetter : option DeadLetterOpt
}.

Definition noOptions : JobOptions :=
  {| opt_delay := None; opt_attempts := None; opt_backoff := None;
     opt_priority := None; opt_lifo := None; opt_jobId := None;
     opt_dependsOn := None; opt_deadLetter := None |}.

(** Object spread [{...a, ...b}]: a field present in [b] wins. *)
Definition orElse {A : Type} (b a : option A) : option A :=
  match b with Some _ => b | None => a end.

Definition spread (a b : JobOptions) : JobOptions :=
  {| opt_delay := orElse (opt_delay b) (opt_delay a);
     opt_attempts := orElse (opt_attempts b) (opt_attempts a);
     opt_backoff := orElse (opt_backoff b) (opt_backoff a);
     opt_priority := orElse (opt_priority b) (opt_priority a);
     opt_lifo := orElse (opt_lifo b) (opt_lifo a);
     opt_jobId := orElse (opt_jobId b) (opt_jobId a);
     opt_dependsOn := orElse (opt_dependsOn b) (opt_dependsOn a);
     opt_deadLetter := orElse (opt_deadLetter b) (opt_deadLetter a) |}.

Definition spreadOpt (o : option JobOptions) : JobOptions :=
  match o with Some x => x | None => noOptions end.

Definition withDelay (o : JobOptions) (d : Z) : JobOptions :=
  {| opt_delay := Some d;
     opt_attempts := opt_attempts o;
     opt_backoff := opt_backoff o;
     opt_priority := opt_priority o;
     opt_lifo := opt_lifo o;
     opt_jobId := opt_jobId o;
     opt_dependsOn := opt_dependsOn o;
     opt_deadLetter := opt_deadLetter o |}.

(** ** Events ([events.ts]) as an append-only log *)

Inductive Event :=
| JobAdded (id name : string)
| JobDelayed (id : string) (delay : Z)
| JobRemoved (id : string)
| JobCompleted (id : string)
| JobFailed (id : string)
| JobStalled (id : string)
| JobMovedToDeadLetter (id dlq reason : string)
| ErrorEvent (msg : string).

(** ** The world the code runs in *)

(** A job payload is opaque to the queue. The only code that looks inside
    is the rate limiter's [data[keyPrefix]], so a payload is a flat
    object: property names with string values. *)
Abbreviation Data := (list (string * string)).

Definition property (d : Data) (f : string) : option string :=
  match List.find (fun kv => String.eqb f (fst kv)) d with
  | Some kv => Some (snd kv)
  | None => None
  end.

(** What [JSON.stringify] writes into a hash field. *)
Inductive Json :=
| JOpts (o : JobOptions)
| JData (d : Data)
| JNull.

Abbreviation Store := (gmap string (Redis.rval Json)).
Abbreviation Hash := (gmap string (Redis.hval Json)).

(** [clock] is what [Date.now()] last returned; [ticks] are the readings
    still to come (the clock stands still once they are used up).
    [ids] feeds [generateId] and [randoms] feeds Lua's [math.random()],
    printed as it is when concatenated to a string. [events] is the event
    log and [handled] the order in which the worker handed jobs to the
    handler. *)
Record World := {
  redis : Store;
  clock : Z;
  ticks : list Z;
  ids : list string;
  randoms : list string;
  events : list Event;
  handled : list string
}.

Definition setRedis (w : World) (s : Store) : World :=
  {| redis := s; clock := clock w; ticks := ticks w; ids := ids w;
     randoms := randoms w; events := events w; handled := handled w |}.

Definition setClock (w : World) (t : Z) (r : list Z) : World :=
  {| redis := redis w; clock := t; ticks := r; ids := ids w;
     randoms := randoms w; events := events w; handled := handled w |}.

Definition setIds (w : World) (r : list string) : World :=
  {| redis := redis w; clock := clock w; ticks := ticks w; ids := r;
     randoms := randoms w; events := events w; handled := handled w |}.

Definition setRandoms (w : World) (r : list string) : World :=
  {| redis := redis w; clock := clock w; ticks := ticks w; ids := ids w;
     randoms := r; events := events w; handled := handled w |}.

Definition setEvents (w : World) (e : list Event) : World :=
  {| redis := redis w; clock := clock w; ticks := ticks w; ids := ids w;
     randoms := randoms w; events := e; handled := handled w |}.

Definition setHandled (w : World) (h : list string) : World :=
  {| redis := redis w; clock := clock w; ticks := ticks w; ids := ids w;
     randoms := randoms w; events := events w; handled := h |}.

(** Outcome of a computation: a value or a thrown error. *)
Inductive Res (A : Type) : Type :=
| Ok (a : A)
| Throw (msg : string).
Arguments Ok {A} a.
Arguments Throw {A} msg.

(** State and exceptions: effects made before a throw stay made. *)
Definition M (A : Type) : Type := World -> Res A * World.

Definition ret {A : Type} (a : A) : M A := fun w => (Ok a, w).

Definition bind {A B : Type} (m : M A) (f : A -> M B) : M B :=
  fun w => match m w with
           | (Ok a, w') => f a w'
           | (Throw e, w') => (Throw e, w')
           end.

Definition throw {A : Type} (msg : string) : M A := fun w => (Throw msg, w).

(** [try { m } catch (err) { h err }] *)
Definition tryCatch {A : Type} (m : M A) (h : string -> M A) : M A :=
  fun w => match m w with
           | (Ok a, w') => (Ok a, w')
           | (Throw e, w') => h e w'
           end.

(** [try { m } finally { f }] *)
Definition tryFinally {A : Type} (m : M A) (f : M unit) : M A :=
  fun w => match m w with
           | (r, w') =>
               match f w' with
               | (Ok _, w'') => (r, w'')
               | (Throw e, w'') => (Throw e, w'')
               end
           end.

(** [M] is a monad in stdpp's sense, which gives the notations
    [x ← m; k] and [m ;; k] for sequencing awaited calls. *)
#[global] Instance M_ret : MRet M := @ret.
#[global] Instance M_bind : MBind M := fun A B f m => bind m f.

(** [for (const x of xs) { await body x }] *)
Fixpoint forEach {A : Type} (xs : list A) (body : A -> M unit) : M unit :=
  match xs with
  | [] => ret tt
  | x :: r => _ ← body x; forEach r body
  end.

Definition getWorld : M World := fun w => (Ok w, w).
Definition getStore : M Store := fun w => (Ok (redis w), w).
Definition putStore (s : Store) : M unit := fun w => (Ok tt, setRedis w s).

Definition emit (e : Event) : M unit :=
  fun w => (Ok tt, setEvents w (events w ++ [e])).

Definition noteHandled (id : string) : M unit :=
  fun w => (Ok tt, setHandled w (handled w ++ [id])).

(** [Date.now()] *)
Definition Date_now : M Z :=
  fun w => match ticks w with
           | [] => (Ok (clock w), w)
           | t :: r => (Ok t, setClock w t r)
           end.

(** [Number.prototype.toString(36)] on an integer. *)
Definition digit36 (d : Z) : Ascii.ascii :=
  Ascii.ascii_of_nat (Z.to_nat (if d <? 10 then 48 + d else 87 + d)).

Fixpoint digits36 (fuel : nat) (n : Z) (acc : string) : string :=
  match fuel with
  | O => acc
  | S fuel' =>
      let acc' := String (digit36 (n mod 36)) acc in
      if n <? 36 then acc' else digits36 fuel' (n / 36) acc'
  end.

Definition toString36 (n : Z) : string :=
  if n <? 0 then "-" +:+ digits36 (S (Z.to_nat (Z.log2 (- n)))) (- n) ""
  else digits36 (S (Z.to_nat (Z.log2 n))) n "".

(** [generateId] of [utils.ts]:
    [Date.now().toString(36) + Math.random().toString(36).substring(2, 15)].
    The function always returns a string. The strings that the calls
    return are taken from the supply [ids] of the world, one per call;
    a world whose supply is used up answers with the clock reading
    alone, which is what the source returns when the random part is
    empty. *)
Definition generateId : M string :=
  fun w => match ids w with
           | [] => (Ok (toString36 (clock w)), w)
           | i :: r => (Ok i, setIds w r)
           end.

(** Lua's [math.random()], already printed. *)
Definition math_random : M string :=
  fun w => match randoms w with
           | [] => (Ok "0", w)
           | x :: r => (Ok x, setRandoms w r)
           end.

(** ** Redis commands ([redisClient.send], [.get], [.set], [.del], [.exists])

    Key expiry (PX, EXPIRE, PEXPIRE) is left to the environment: a key
    whose time to live has run out is a key that is absent. *)

Module Cmd.
Import Redis.

Definition wrongType {A : Type} : M A :=
  throw "WRONGTYPE Operation against a key holding the wrong kind of value".

Definition EXISTS (k : string) : M bool :=
  s ← getStore;
  ret (match s !! k with Some _ => true | None => false end).

Definition GET (k : string) : M (option string) :=
  s ← getStore;
  match s !! k with
  | None => ret None
  | Some (VStr v) => ret (Some v)
  | Some _ => wrongType
  end.

Definition SET (k v : string) : M unit :=
  s ← getStore; putStore (<[k := VStr v]> s).

(** [SET key value NX ...]: true stands for the reply OK. *)
Definition SETNX (k v : string) : M bool :=
  s ← getStore;
  match s !! k with
  | None => _ ← putStore (<[k := VStr v]> s); ret true
  | Some _ => ret false
  end.

Definition DEL (ks : list string) : M Z :=
  s ← getStore;
  _ ← putStore (fold_right (fun k acc => delete k acc) s ks);
  ret (Z.of_nat (List.length
         (List.filter (fun k => match s !! k with Some _ => true | None => false end) ks))).

Definition asList (k : string) : M (list string) :=
  s ← getStore;
  match s !! k with
  | None => ret []
  | Some (VList l) => ret l
  | Some _ => wrongType
  end.

Definition asSet (k : string) : M (list string) :=
  s ← getStore;
  match s !! k with
  | None => ret []
  | Some (VSet l) => ret l
  | Some _ => wrongType
  end.

Definition asZSet (k : string) : M (list (string * Z)) :=
  s ← getStore;
  match s !! k with
  | None => ret []
  | Some (VZSet z) => ret z
  | Some _ => wrongType
  end.

Definition asHash (k : string) : M Hash :=
  s ← getStore;
  match s !! k with
  | None => ret ∅
  | Some (VHash h) => ret h
  | Some _ => wrongType
  end.

Definition LPUSH (k x : string) : M Z :=
  l ← asList k; s ← getStore;
  _ ← putStore (<[k := VList (x :: l)]> s);
  ret (Z.of_nat (S (List.length l))).

Definition RPUSH (k x : string) : M Z :=
  l ← asList k; s ← getStore;
  _ ← putStore (<[k := VList (l ++ [x])]> s);
  ret (Z.of_nat (S (List.length l))).

Definition LREM (k : string) (count : Z) (x : string) : M Z :=
  l ← asList k; s ← getStore;
  let '(l', c) := lrem count x l in
  _ ← putStore (putList k l' s);
  ret c.

Definition LRANGE (k : string) (start stop : Z) : M (list string) :=
  l ← asList k; ret (rangeOf start stop l).

Definition LLEN (k : string) : M Z :=
  l ← asList k; ret (Z.of_nat (List.length l)).

Definition ZADD (k : string) (score : Z) (m : string) : M Z :=
  z ← asZSet k; s ← getStore;
  _ ← putStore (<[k := VZSet (zadd score m z)]> s);
  ret (if zhas m z then 0 else 1).

Definition ZREM (k m : string) : M Z :=
  z ← asZSet k; s ← getStore;
  _ ← putStore (putZSet k (zremMember m z) s);
  ret (if zhas m z then 1 else 0).

Definition ZRANGEBYSCORE (k : string) (lo hi : Z) : M (list string) :=
  z ← asZSet k; ret (List.map fst (List.filter (inScore lo hi) z)).

Definition ZREMRANGEBYSCORE (k : string) (lo hi : Z) : M Z :=
  z ← asZSet k; s ← getStore;
  _ ← putStore (putZSet k (List.filter (fun e => negb (inScore lo hi e)) z) s);
  ret (Z.of_nat (List.length (List.filter (inScore lo hi) z))).

Definition ZRANGE (k : string) (start stop : Z) : M (list string) :=
  z ← asZSet k; ret (List.map fst (rangeOf start stop z)).

Definition ZRANGE_WITHSCORES (k : string) (start stop : Z) : M (list (string * Z)) :=
  z ← asZSet k; ret (rangeOf start stop z).

Definition ZCARD (k : string) : M Z :=
  z ← asZSet k; ret (Z.of_nat (List.length z)).

Definition SADD (k x : string) : M Z :=
  l ← asSet k; s ← getStore;
  _ ← putStore (<[k := VSet (sadd x l)]> s);
  ret (if existsb (String.eqb x) l then 0 else 1).

Definition SREM (k x : string) : M Z :=
  l ← asSet k; s ← getStore;
  _ ← putStore (putSet k (srem x l) s);
  ret (if existsb (String.eqb x) l then 1 else 0).

Definition SMEMBERS (k : string) : M (list string) := asSet k.

Definition HMSET (k : string) (fields : list (string * hval Json)) : M unit :=
  h ← asHash k; s ← getStore;
  putStore (<[k := VHash (fold_left (fun acc fv => <[fst fv := snd fv]> acc) fields h)]> s).

Definition HSET (k f : string) (v : hval Json) : M unit := HMSET k [(f, v)].

Definition HGETALL (k : string) : M Hash := asHash k.

End Cmd.

(** ** Distributed lock ([distributed-lock.ts]) *)

Module DistributedLock.

Record t := { prefix : string }.

Definition getLockKey (this : t) (resource : string) : string :=
  prefix this +:+ ":" +:+ resource.

(** [release(resource, token)]: read the key, and delete it when the
    value read is the caller's token. *)
Definition release (this : t) (resource token : string) : M bool :=
  let lockKey := getLockKey this resource in
  currentToken ← Cmd.GET lockKey;
  if bool_decide (currentToken = Some token) then
    _ ← Cmd.DEL [lockKey];
    ret true
  else
    ret false.

(** [isLocked(resource)] *)
Definition isLocked (this : t) (resource : string) : M bool :=
  Cmd.EXISTS (getLockKey this resource).

(** [acquire]: SET NX PX in the loop
    [for (attempt = 0; attempt <= retries; attempt++)] with
    [retries = options.retries || 0]: [retries + 1] attempts, and none
    at all when [retries] is negative. The token is drawn before the
    loop; the pause between attempts and the auto-extension timer pass
    no data and are not modelled. *)
Fixpoint acquireLoop (lockKey token : string) (attempts : nat) : M (option string) :=
  match attempts with
  | O => ret None
  | S n =>
      ok ← Cmd.SETNX lockKey token;
      if (ok : bool) then ret (Some token) else acquireLoop lockKey token n
  end.

Definition acquire (this : t) (resource : string) (retries : option Z) : M (option string) :=
  let lockKey := getLockKey this resource in
  token ← generateId;
  acquireLoop lockKey token (Z.to_nat (orZ retries 0 + 1)).

(** [withLock]: acquire, run, and release on every exit path. The
    test [!token] also rejects an empty token. *)
Definition withLock {A : Type} (this : t) (resource : string)
    (fn : M A) (retries : option Z) : M A :=
  token ← acquire this resource retries;
  match token with
  | None => throw ("Failed to acquire lock for resource " +:+ resource)
  | Some tok =>
      if String.eqb tok "" then
        throw ("Failed to acquire lock for resource " +:+ resource)
      else
        tryFinally fn (_ ← release this resource tok; ret tt)
  end.

End DistributedLock.

(** ** Rate limiter ([commands/rateLimit-1.lua], [rate-limiter.ts]) *)

Module RateLimit.

(** The script. [key] is KEYS[1]; the remaining arguments are ARGV[1]
    to ARGV[4]. The reply is [{limited, remaining, timeToReset}]. *)
Definition rateLimit (key identifier : string) (max duration now : Z)
    : M (Z * Z * Z) :=
  let rateLimitKey := key +:+ ":" +:+ identifier in
  (* Clean up old tokens *)
  _ ← Cmd.ZREMRANGEBYSCORE rateLimitKey 0 (now - duration);
  (* Count tokens in current window *)
  tokenCount ← Cmd.ZCARD rateLimitKey;
  (* Check if limit exceeded *)
  let limited := if max <=? tokenCount then 1 else 0 in
  (* Get time to reset (when the oldest token expires) *)
  timeToReset ←
    (if 0 <? tokenCount then
       oldest ← Cmd.ZRANGE_WITHSCORES rateLimitKey 0 0;
       match oldest with
       | (_, oldestToken) :: _ => ret (Z.max 0 ((oldestToken + duration) - now))
       | [] => throw "attempt to perform arithmetic on a nil value"
       end
     else ret 0);
  (* If not limited, add new token *)
  tokenCount' ←
    (if limited =? 0 then
       rnd ← math_random;
       _ ← Cmd.ZADD rateLimitKey now (pretty now +:+ ":" +:+ rnd);
       ret (tokenCount + 1)
     else ret tokenCount);
  let remaining := Z.max 0 (max - tokenCount') in
  ret (limited, remaining, timeToReset).

End RateLimit.

Module RateLimiter.

(** [keyPrefix?: string | ((data: any) => string)] *)
Inductive KeyPrefix :=
| KPField (field : string)
| KPFun (f : Data -> string).

Record Options := {
  max : Z;
  duration : Z;
  keyPrefix : option KeyPrefix
}.

Record RateLimitResult := {
  limited : bool;
  remaining : Z;
  resetIn : Z
}.

(** The identifier [check] derives from the payload. *)
Definition identifierOf (queueName : string) (o : Options) (data : option Data) : string :=
  match keyPrefix o, data with
  | Some (KPFun f), Some d => queueName +:+ ":" +:+ f d
  | Some (KPField field), Some d =>
      if String.eqb field "" then queueName
      else match property d field with
           | Some keyValue =>
               if String.eqb keyValue "" then queueName
               else queueName +:+ ":" +:+ keyValue
           | None => queueName
           end
  | _, _ => queueName
  end.

(** [check(data)]; [limitKey] is [queue.getKey('limit')]. *)
Definition check (limitKey queueName : string) (o : Options) (data : option Data)
    : M RateLimitResult :=
  now ← Date_now;
  let identifier := identifierOf queueName o data in
  result ← RateLimit.rateLimit limitKey identifier (max o) (duration o) now;
  let '(l, rem, reset) := result in
  ret {| limited := l =? 1; remaining := rem; resetIn := reset |}.

(** [checkByKey(key)] *)
Definition checkByKey (limitKey queueName : string) (o : Options) (key : string)
    : M RateLimitResult :=
  let identifier := queueName +:+ ":" +:+ key in
  now ← Date_now;
  result ← RateLimit.rateLimit limitKey identifier (max o) (duration o) now;
  let '(l, rem, reset) := result in
  ret {| limited := l =? 1; remaining := rem; resetIn := reset |}.

End RateLimiter.

(** ** Job record ([job.ts]) and queue ([queue.ts]) *)

Record Job := {
  job_id : string;
  job_data : Data;
  job_name : string;
  job_opts : JobOptions;
  job_progress : Z;
  job_delay : Z;
  job_timestamp : Z;
  job_attemptsMade : Z;
  job_stacktrace : list string;
  job_returnvalue : option string;
  job_finishedOn : option Z;
  job_processedOn : option Z;
  job_failedReason : option string;
  job_dependencies : list string
}.

(** The configuration a [Queue] object carries. [q_lock] is absent when
    the queue was built with [distributedLock: false]. *)
Record Queue := {
  q_name : string;
  q_prefix : string;
  q_limiter : option RateLimiter.Options;
  q_defaultJobOptions : option JobOptions;
  q_lock : option DistributedLock.t;
  q_defaultDeadLetterOptions : option DeadLetterQueueOptions
}.

Module Codec.
Import Redis.

Definition num (h : Hash) (f : string) (d : Z) : Z :=
  match h !! f with Some (HNum z) => z | _ => d end.

Definition numOpt (h : Hash) (f : string) : option Z :=
  match h !! f with Some (HNum z) => Some z | _ => None end.

Definition str (h : Hash) (f : string) : string :=
  match h !! f with Some (HStr s) => s | _ => "" end.

(** A field that is passed on as it is: absent when the hash has none. *)
Definition raw (h : Hash) (f : string) : option string :=
  match h !! f with
  | Some (HStr s) => Some s
  | _ => None
  end.

Definition strings (h : Hash) (f : string) : list string :=
  match h !! f with Some (HList l) => l | _ => [] end.

(** [parseJob] of [utils.ts], followed by the assignments of
    [Job.refresh], which copies the parsed fields into the job object
    and keeps the id it was built with. A JSON or numeric field that is
    missing or was reset to the empty string takes its default: an
    empty payload, no options, 0, no stack traces, no dependencies,
    [null] for the return value (a stored return value is the handler's
    result), [undefined] for [finishedOn] and [processedOn]. [name] and
    [failedReason] are passed on as the hash has them. The record has a
    string for the name: for a hash without that field, where the
    source has [undefined], it holds the empty string; [Queue.add]
    writes the field in every hash it stores. *)
Definition parseJob (id : string) (h : Hash) : Job :=
  {| job_id := id;
     job_data := match h !! "data" with Some (HJson (JData d)) => d | _ => [] end;
     job_name := str h "name";
     job_opts := match h !! "opts" with Some (HJson (JOpts o)) => o | _ => noOptions end;
     job_progress := num h "progress" 0;
     job_delay := num h "delay" 0;
     job_timestamp := num h "timestamp" 0;
     job_attemptsMade := num h "attemptsMade" 0;
     job_stacktrace := strings h "stacktrace";
     job_returnvalue := raw h "returnvalue";
     job_finishedOn := numOpt h "finishedOn";
     job_processedOn := numOpt h "processedOn";
     job_failedReason := raw h "failedReason";
     job_dependencies := strings h "dependencies" |}.

(** [config.defaultJobOptions] as [defaultConfig] of [config.ts] sets
    it, which is what [loadConfig] returns for a project without a
    queue configuration of its own: three attempts and an exponential
    backoff of one second (the other defaults are fields no code of
    the embedding reads). *)
Definition defaultJobOptions : JobOptions :=
  {| opt_delay := None; opt_attempts := Some 3;
     opt_backoff := Some {| bo_type := exponential; bo_delay := 1000 |};
     opt_priority := None; opt_lifo := None; opt_jobId := None;
     opt_dependsOn := None; opt_deadLetter := None |}.

(** [mergeOptions] of [utils.ts]:
    [{ ...config.defaultJobOptions, ...options }]. *)
Definition mergeOptions (options : option JobOptions) : JobOptions :=
  spread defaultJobOptions (spreadOpt options).
End Codec.

(** [!job.finishedOn] *)
Definition notFinished (j : Job) : bool :=
  match job_finishedOn j with
  | None => true
  | Some t => t =? 0
  end.

Module QueueKeys.
Definition keyPrefix (q : Queue) : string := q_prefix q +:+ ":" +:+ q_name q.
Definition getKey (q : Queue) (name : string) : string := keyPrefix q +:+ ":" +:+ name.
Definition getJobKey (q : Queue) (jobId : string) : string :=
  keyPrefix q +:+ ":job:" +:+ jobId.
End QueueKeys.
Import QueueKeys.

(** [Job.refresh] applied to a fresh [new Job(queue, jobId)] *)
Definition refresh (q : Queue) (jobId : string) : M Job :=
  jobData ← Cmd.HGETALL (getJobKey q jobId);
  if bool_decide (jobData = ∅) then throw ("Job " +:+ jobId +:+ " not found")
  else ret (Codec.parseJob jobId jobData).

(** [Queue.getJob] *)
Definition getJob (q : Queue) (jobId : string) : M (option Job) :=
  tryCatch
    (exists_ ← Cmd.EXISTS (getJobKey q jobId);
     if (exists_ : bool) then
       job ← refresh q jobId; ret (Some job)
     else ret None)
    (fun _ => ret None).

(** The inner loop shared by [processDependents] and [removeJob]: false
    as soon as a dependency other than [skip] exists and is unfinished. *)
Fixpoint allDependenciesCompleted (q : Queue) (skip : option string)
    (deps : list string) : M bool :=
  match deps with
  | [] => ret true
  | dependency :: r =>
      if bool_decide (skip = Some dependency) then allDependenciesCompleted q skip r
      else
        depJob ← getJob q dependency;
        match depJob with
        | Some j => if notFinished j then ret false
                    else allDependenciesCompleted q skip r
        | None => allDependenciesCompleted q skip r
        end
  end.

(** [Job.processDependents] *)
Definition processDependents (q : Queue) (this : Job) : M unit :=
  let dependentKey := getJobKey q (job_id this) +:+ ":dependents" in
  dependents ← Cmd.SMEMBERS dependentKey;
  forEach dependents (fun depJobId =>
    depJob ← getJob q depJobId;
    match depJob with
    | None => ret tt
    | Some dj =>
        done ← allDependenciesCompleted q None (job_dependencies dj);
        if (done : bool) then
          _ ← Cmd.SREM (getKey q "dependency-wait") depJobId;
          _ ← Cmd.LPUSH (getKey q "waiting") depJobId;
          ret tt
        else ret tt
    end).

Definition setFinished (j : Job) (now : Z) (rv : option string)
    (reason : option string) (st : list string) (attempts : Z) : Job :=
  {| job_id := job_id j; job_data := job_data j; job_name := job_name j;
     job_opts := job_opts j; job_progress := job_progress j;
     job_delay := job_delay j; job_timestamp := job_timestamp j;
     job_attemptsMade := attempts; job_stacktrace := st;
     job_returnvalue := rv; job_finishedOn := Some now;
     job_processedOn := job_processedOn j; job_failedReason := reason;
     job_dependencies := job_dependencies j |}.

(** [Job.moveToCompleted] *)
Definition moveToCompleted (q : Queue) (this : Job) (returnvalue : string) : M Job :=
  let jobKey := getJobKey q (job_id this) in
  (* Remove from active *)
  _ ← Cmd.LREM (getKey q "active") 0 (job_id this);
  (* Add to completed *)
  _ ← Cmd.LPUSH (getKey q "completed") (job_id this);
  (* Update job data *)
  now ← Date_now;
  _ ← Cmd.HMSET jobKey [("finishedOn", Redis.HNum now);
                        ("returnvalue", Redis.HStr returnvalue)];
  let this' := setFinished this now (Some returnvalue) (job_failedReason this)
                 (job_stacktrace this) (job_attemptsMade this) in
  _ ← emit (JobCompleted (job_id this));
  _ ← processDependents q this';
  ret this'.

(** [stacktrace.splice(0, stacktrace.length - 10)] when longer than 10 *)
Definition trimStacktrace (st : list string) : list string :=
  if (10 <? List.length st)%nat then skipn (List.length st - 10) st else st.

(** [Job.moveToFailed]; returns the job object with its fields updated. *)
Definition moveToFailed (q : Queue) (this : Job) (err : string)
    (failedReason : option string) : M Job :=
  let jobKey := getJobKey q (job_id this) in
  (* Remove from active *)
  _ ← Cmd.LREM (getKey q "active") 0 (job_id this);
  (* Add to failed *)
  _ ← Cmd.LPUSH (getKey q "failed") (job_id this);
  (* Update stacktrace, trimmed to the last 10 items *)
  let stacktrace := trimStacktrace (job_stacktrace this ++ [err]) in
  (* Update job data *)
  now ← Date_now;
  let reason := orS failedReason err in
  _ ← Cmd.HMSET jobKey [("finishedOn", Redis.HNum now);
                        ("failedReason", Redis.HStr reason);
                        ("stacktrace", Redis.HList stacktrace);
                        ("attemptsMade", Redis.HNum (job_attemptsMade this + 1))];
  let this' := setFinished this now (job_returnvalue this) (Some reason)
                 stacktrace (job_attemptsMade this + 1) in
  _ ← emit (JobFailed (job_id this));
  ret this'.

(** [Job.retry] *)
Definition retry (q : Queue) (this : Job) : M unit :=
  let jobKey := getJobKey q (job_id this) in
  (* Remove from failed list *)
  _ ← Cmd.LREM (getKey q "failed") 0 (job_id this);
  (* Reset job state *)
  _ ← Cmd.HMSET jobKey [("finishedOn", Redis.HStr "");
                        ("failedReason", Redis.HStr "");
                        ("processedOn", Redis.HStr "")];
  (* Add back to waiting list *)
  _ ← Cmd.LPUSH (getKey q "waiting") (job_id this);
  ret tt.

(** The dependency list [add] derives from [opts.dependsOn]. *)
Definition dependenciesOf (opts : JobOptions) : option (list string) :=
  match opt_dependsOn opts with
  | Some (DepOne id) => if String.eqb id "" then None else Some [id]
  | Some (DepMany ids) => Some ids
  | None => None
  end.

(** The loop of [add] that parks a job with an unfinished dependency:
    true when the job went to the dependency-wait set. *)
Fixpoint parkOnDependency (q : Queue) (jobId : string) (deps : list string) : M bool :=
  match deps with
  | [] => ret false
  | depId :: r =>
      depJob ← getJob q depId;
      match depJob with
      | Some j =>
          if notFinished j then
            _ ← Cmd.SADD (getKey q "dependency-wait") jobId;
            ret true
          else parkOnDependency q jobId r
      | None => parkOnDependency q jobId r
      end
  end.

(** The options [add] re-submits with when the limiter reports limited. *)
Definition rateLimitedOptions (q : Queue) (options : option JobOptions)
    (limiterResult : RateLimiter.RateLimitResult) : JobOptions :=
  withDelay (spread (spreadOpt (q_defaultJobOptions q)) (spreadOpt options))
            (RateLimiter.resetIn limiterResult).

(** [Queue.add] past the rate-limit check. *)
Definition addJob (q : Queue) (data : Data) (options : option JobOptions) : M Job :=
  let opts := Codec.mergeOptions options in
  jobId ← (match opt_jobId opts with
           | Some i => if String.eqb i "" then generateId else ret i
           | None => generateId
           end);
  timestamp ← Date_now;
  (* Store the job *)
  let jobKey := getJobKey q jobId in
  (* Check if we have dependencies *)
  let dependencies := dependenciesOf opts in
  (* Store the job data *)
  _ ← Cmd.HMSET jobKey [("id", Redis.HStr jobId);
                        ("name", Redis.HStr (q_name q));
                        ("data", Redis.HJson (JData data));
                        ("timestamp", Redis.HNum timestamp);
                        ("delay", Redis.HNum (orZ (opt_delay opts) 0));
                        ("opts", Redis.HJson (JOpts opts));
                        ("attemptsMade", Redis.HNum 0);
                        ("progress", Redis.HNum 0)];
  parked ← (match dependencies with
            | Some (d :: ds) =>
                (* Store the dependencies with the job *)
                _ ← Cmd.HSET jobKey "dependencies" (Redis.HList (d :: ds));
                (* The source then checks that every dependency exists; the
                   outcome is only logged. *)
                (* Register the job with each dependency *)
                _ ← forEach (d :: ds) (fun depId =>
                       _ ← Cmd.SADD (getJobKey q depId +:+ ":dependents") jobId;
                       ret tt);
                (* Park it if any dependency is not completed *)
                parkOnDependency q jobId (d :: ds)
            | _ => ret false
            end);
  if (parked : bool) then
    job ← refresh q jobId;
    _ ← emit (JobAdded jobId (q_name q));
    ret job
  else
    _ ← (if 0 <? orZ (opt_delay opts) 0 then
           (* Add to delayed set *)
           let processAt := timestamp + orZ (opt_delay opts) 0 in
           _ ← Cmd.ZADD (getKey q "delayed") processAt jobId;
           emit (JobDelayed jobId (orZ (opt_delay opts) 0))
         else
           (* Add to waiting list *)
           if truthyB (opt_lifo opts)
           then _ ← Cmd.RPUSH (getKey q "waiting") jobId; ret tt
           else _ ← Cmd.LPUSH (getKey q "waiting") jobId; ret tt);
    job ← refresh q jobId;
    _ ← emit (JobAdded jobId (q_name q));
    ret job.

(** What the [try] block of [add] comes to: the options of a
    re-submission, or the job that was stored. *)
Inductive Submission :=
| Resubmit (opts : JobOptions)
| Stored (job : Job).

(** [Queue.add]. The method calls itself while the limiter reports
    limited; [fuel] bounds the depth of that recursion. The inner call
    is returned without [await], so its promise leaves the [try] block
    unsettled: an error of the inner call is not caught here again. *)
Fixpoint add (fuel : nat) (q : Queue) (data : Data) (options : option JobOptions) : M Job :=
  match fuel with
  | O => throw "add: recursion budget exhausted"
  | S fuel' =>
      submission ←
        tryCatch
          (limited ←
             (match q_limiter q with
              | Some lim =>
                  limiterResult ←
                    RateLimiter.check (getKey q "limit") (q_name q) lim (Some data);
                  if RateLimiter.limited limiterResult
                  then ret (Some (rateLimitedOptions q options limiterResult))
                  else ret None
              | None => ret None
              end);
           match limited with
           | Some opts => ret (Resubmit opts)
           | None => job ← addJob q data options; ret (Stored job)
           end)
          (fun err => _ ← emit (ErrorEvent err); throw err);
      match submission with
      | Resubmit opts => add fuel' q data (Some opts)
      | Stored job => ret job
      end
  end.

(** The body of the [for (const list of statusLists)] loop of [removeJob]. *)
Definition removeFromStatus (q : Queue) (jobId list : string) : M unit :=
  _ ← Cmd.LREM (getKey q list) 0 jobId;
  (* Also remove from sets *)
  _ ← Cmd.SREM (getKey q list) jobId;
  ret tt.

(** [Queue.removeJob] *)
Definition removeJob (q : Queue) (jobId : string) : M unit :=
  tryCatch
    (let jobKey := getJobKey q jobId in
     (* Get job data first to check for dependencies *)
     job ← getJob q jobId;
     match job with
     | None => ret tt
     | Some _ =>
         (* Remove from all possible lists *)
         _ ← forEach ["active"; "waiting"; "completed"; "failed"; "dependency-wait"]
               (removeFromStatus q jobId);
         (* Remove from delayed set *)
         _ ← Cmd.ZREM (getKey q "delayed") jobId;
         (* Remove dependent jobs link *)
         let dependentKey := jobKey +:+ ":dependents" in
         dependents ← Cmd.SMEMBERS dependentKey;
         _ ← forEach dependents (fun depJobId =>
               depJob ← getJob q depJobId;
               match depJob with
               | None => ret tt
               | Some dj =>
                   done ← allDependenciesCompleted q (Some jobId) (job_dependencies dj);
                   if (done : bool) then
                     _ ← Cmd.SREM (getKey q "dependency-wait") depJobId;
                     _ ← Cmd.LPUSH (getKey q "waiting") depJobId;
                     ret tt
                   else ret tt
               end);
         (* Remove the job hash and the dependent key *)
         _ ← Cmd.DEL [jobKey; dependentKey];
         (* Emit event *)
         emit (JobRemoved jobId)
     end)
    (fun _ => ret tt).

(** ** Dead-letter queue ([dead-letter-queue.ts]) *)

Module DeadLetterQueue.

Record t := {
  queueSuffix : string;
  maxRetries : Z;
  removeFromOriginalQueue : bool
}.

(** The constructor's defaults; [getDeadLetterQueue] builds the object
    from the queue's default dead-letter options. *)
Definition make (options : option DeadLetterQueueOptions) : t :=
  match options with
  | Some o =>
      {| queueSuffix := orS (dl_queueSuffix o) "-dead-letter";
         maxRetries := orZ (dl_maxRetries o) 3;
         removeFromOriginalQueue :=
           match dl_removeFromOriginalQueue o with Some false => false | _ => true end |}
  | None =>
      {| queueSuffix := "-dead-letter"; maxRetries := 3;
         removeFromOriginalQueue := true |}
  end.

Definition deadLetterQueueName (q : Queue) (this : t) : string :=
  q_name q +:+ queueSuffix this.

Definition deadLetterQueueKey (q : Queue) (this : t) : string :=
  q_prefix q +:+ ":" +:+ deadLetterQueueName q this.

(** [moveToDeadLetter(job, reason)] *)
Definition moveToDeadLetter (q : Queue) (this : t) (job : Job) (reason : string)
    : M string :=
  let deadLetterKey := deadLetterQueueKey q this +:+ ":" +:+ job_id job in
  now ← Date_now;
  (* Store the job data in the dead letter queue *)
  _ ← Cmd.HMSET deadLetterKey
        [("id", Redis.HStr (job_id job));
         ("originalQueue", Redis.HStr (job_name job));
         ("data", Redis.HJson (JData (job_data job)));
         ("failedReason", Redis.HStr (orS (Some reason) (orS (job_failedReason job) "")));
         ("attemptsMade", Redis.HNum (job_attemptsMade job));
         ("stacktrace", Redis.HList (job_stacktrace job));
         ("timestamp", Redis.HNum now);
         ("originalTimestamp", Redis.HNum (job_timestamp job))];
  (* Add to dead letter list *)
  _ ← Cmd.LPUSH (deadLetterQueueKey q this) (job_id job);
  (* If configured, remove from failed list *)
  _ ← (if removeFromOriginalQueue this
       then _ ← Cmd.LREM (getKey q "failed") 0 (job_id job); ret tt
       else ret tt);
  _ ← emit (JobMovedToDeadLetter (job_id job) (deadLetterQueueName q this) reason);
  ret (job_id job).

End DeadLetterQueue.

(** [Queue.moveToDeadLetter] *)
Definition moveToDeadLetter (q : Queue) (jobId reason : string) : M bool :=
  job ← getJob q jobId;
  match job with
  | None => ret false
  | Some j =>
      let dlq := DeadLetterQueue.make (q_defaultDeadLetterOptions q) in
      _ ← DeadLetterQueue.moveToDeadLetter q dlq j reason;
      ret true
  end.

(** [Queue.processJobWithLock]. With locks disabled the job is loaded and
    handled directly; otherwise under the per-job lock (three retries). *)
Definition processJobWithLock (q : Queue) (jobId : string)
    (handler : Job -> M (option string)) : M (option string) :=
  match q_lock q with
  | None =>
      job ← getJob q jobId;
      match job with
      | None => ret None
      | Some j => handler j
      end
  | Some lock =>
      let lockResource := "job:" +:+ jobId in
      DistributedLock.withLock lock lockResource
        (job ← getJob q jobId;
         match job with
         | None => ret None
         | Some j => handler j
         end)
        (Some 3)
  end.

(** ** Worker loop ([worker.ts]) *)

Module Worker.

(** [handler] is the user's function: it returns a value or throws. *)
Record t := {
  queue : Queue;
  concurrency : Z;
  handler : Job -> Res string
}.

(** [moveToActive] *)
Definition moveToActive (this : t) (jobId : string) : M unit :=
  _ ← Cmd.LREM (getKey (queue this) "waiting") 1 jobId;
  _ ← Cmd.LPUSH (getKey (queue this) "active") jobId;
  ret tt.

(** [moveDelayedJobsToWaiting] *)
Definition moveDelayedJobsToWaiting (this : t) : M unit :=
  now ← Date_now;
  (* Get delayed jobs that are ready *)
  jobs ← Cmd.ZRANGEBYSCORE (getKey (queue this) "delayed") 0 now;
  forEach jobs (fun jobId =>
    _ ← Cmd.ZREM (getKey (queue this) "delayed") jobId;
    _ ← Cmd.LPUSH (getKey (queue this) "waiting") jobId;
    ret tt).

(** The retry delay computed in the [catch] block of [processJob]. *)
Definition retryDelay (job : Job) : Z :=
  match opt_backoff (job_opts job) with
  | Some b =>
      match bo_type b with
      | fixed => bo_delay b
      | exponential => bo_delay b * 2 ^ (job_attemptsMade job - 1)
      end
  | None => 0
  end.

(** [job.opts.deadLetter !== undefined ? job.opts.deadLetter
      : this.queue.getDefaultDeadLetterOptions()?.enabled] *)
Definition useDeadLetter (this : t) (job : Job) : bool :=
  match opt_deadLetter (job_opts job) with
  | Some (DLFlag b) => b
  | Some (DLOptions _) => true
  | None =>
      match q_defaultDeadLetterOptions (queue this) with
      | Some o => truthyB (dl_enabled o)
      | None => false
      end
  end.

Definition deadLetterMaxRetries (this : t) (job : Job) : Z :=
  orZ (match opt_deadLetter (job_opts job) with
       | Some (DLOptions o) => dl_maxRetries o
       | _ =>
           match q_defaultDeadLetterOptions (queue this) with
           | Some o => dl_maxRetries o
           | None => None
           end
       end) 3.

(** The [catch] block of [processJob]. *)
Definition onError (this : t) (jobId err : string) : M unit :=
  (* Get the job again to ensure we have latest data *)
  job ← getJob (queue this) jobId;
  match job with
  | None => ret tt
  | Some job0 =>
      job ← moveToFailed (queue this) job0 err None;
      (* Check for retry *)
      let maxAttempts := orZ (opt_attempts (job_opts job)) 1 in
      (* Move to dead letter queue if we've exceeded max retries *)
      if useDeadLetter this job && (deadLetterMaxRetries this job <=? job_attemptsMade job) then
        _ ← moveToDeadLetter (queue this) (job_id job)
              ("Failed after " +:+ pretty (job_attemptsMade job) +:+ " attempts");
        ret tt
      else if job_attemptsMade job <? maxAttempts then
        (* Calculate delay for retry based on backoff strategy *)
        let delay := retryDelay job in
        if 0 <? delay then
          (* Add to delayed set *)
          now ← Date_now;
          let processAt := now + delay in
          _ ← Cmd.ZADD (getKey (queue this) "delayed") processAt jobId;
          ret tt
        else
          (* Retry immediately *)
          retry (queue this) job
      else ret tt
  end.

(** What the worker runs on a job it was handed: stamp [processedOn],
    call the handler, and mark the job completed. *)
Definition runHandler (this : t) (jobId : string) (job : Job) : M (option string) :=
  let jobKey := getJobKey (queue this) jobId in
  now ← Date_now;
  _ ← Cmd.HSET jobKey "processedOn" (Redis.HNum now);
  _ ← noteHandled jobId;
  match handler this job with
  | Ok result =>
      _ ← moveToCompleted (queue this) job result;
      ret (Some result)
  | Throw err => throw err
  end.

(** [processJob]. [Queue] always has [processJobWithLock], so the
    fallback branch of the source is never taken. The promise is not
    awaited by the caller: an error escaping the [catch] block is an
    unhandled rejection and goes nowhere. *)
Definition processJob (this : t) (jobId : string) : M unit :=
  tryCatch
    (tryCatch
       (_ ← processJobWithLock (queue this) jobId (runHandler this jobId); ret tt)
       (fun err => onError this jobId err))
    (fun _ => ret tt).

(** The loop of [processJobs] over the ids it read. [processJob] puts
    the id of a job it starts into [this.processing], where it stays
    until the promise of the job settles; the loop goes on at the
    first [await] of the job, so an id that comes up a second time in
    the same tick finds the first run in flight and is skipped. The
    embedding runs the commands of a job at the point where it is
    started and keeps the id in [processing] for the rest of the tick. *)
Fixpoint dispatch (this : t) (processing waitingJobs : list string) : M unit :=
  match waitingJobs with
  | [] => ret tt
  | jobId :: r =>
      (* Skip if already processing *)
      if existsb (String.eqb jobId) processing then dispatch this processing r
      else
        (* Move to active and process *)
        _ ← moveToActive this jobId;
        _ ← processJob this jobId;
        dispatch this (jobId :: processing) r
  end.

(** [processJobs]: one tick with [processing] the ids in flight. *)
Definition processJobs (this : t) (processing : list string) : M unit :=
  tryCatch
    (isPaused ← Cmd.EXISTS (getKey (queue this) "paused");
     if (isPaused : bool) then ret tt
     else
       (* Process delayed jobs that are ready *)
       _ ← moveDelayedJobsToWaiting this;
       (* Get jobs to process *)
       let availableSlots := concurrency this - Z.of_nat (List.length processing) in
       if availableSlots <=? 0 then ret tt
       else
         waitingJobs ← Cmd.LRANGE (getKey (queue this) "waiting") 0 (availableSlots - 1);
         (* Move jobs to active and process them *)
         dispatch this processing waitingJobs)
    (fun _ => ret tt).

End Worker.

(** ** Priority queue ([priority-queue.ts]) *)

Module PriorityQueue.

Record t := {
  baseQueue : Queue;
  priorityLevels : Z;
  defaultPriorityLevel : Z
}.

Definition getPriorityKey (this : t) (priority : Z) : string :=
  keyPrefix (baseQueue this) +:+ ":priority:" +:+ pretty priority.

(** [add]: as [Queue.add] without the limiter, with the job pushed to
    the list of its priority level instead of the waiting list. *)
Definition add (this : t) (data : Data) (options : option JobOptions) : M Job :=
  let q := baseQueue this in
  let priority :=
    match opt_priority (spreadOpt options) with
    | Some p => p
    | None => defaultPriorityLevel this
    end in
  if (priority <? 0) || (priorityLevels this <=? priority) then
    throw ("Priority level must be between 0 and " +:+ pretty (priorityLevels this - 1))
  else
    let o := spreadOpt options in
    let opts :=
      {| opt_delay := opt_delay o; opt_attempts := opt_attempts o;
         opt_backoff := opt_backoff o; opt_priority := Some priority;
         opt_lifo := opt_lifo o; opt_jobId := opt_jobId o;
         opt_dependsOn := opt_dependsOn o; opt_deadLetter := opt_deadLetter o |} in
    jobId ← (match opt_jobId opts with
             | Some i => if String.eqb i "" then generateId else ret i
             | None => generateId
             end);
    timestamp ← Date_now;
    let jobKey := getJobKey q jobId in
    _ ← Cmd.HMSET jobKey [("id", Redis.HStr jobId);
                          ("name", Redis.HStr (q_name q));
                          ("data", Redis.HJson (JData data));
                          ("timestamp", Redis.HNum timestamp);
                          ("delay", Redis.HNum (orZ (opt_delay opts) 0));
                          ("opts", Redis.HJson (JOpts opts));
                          ("attemptsMade", Redis.HNum 0);
                          ("progress", Redis.HNum 0);
                          ("priority", Redis.HNum priority)];
    parked ← (match dependenciesOf opts with
              | Some (d :: ds) =>
                  _ ← Cmd.HSET jobKey "dependencies" (Redis.HList (d :: ds));
                  _ ← forEach (d :: ds) (fun depId =>
                         _ ← Cmd.SADD (getJobKey q depId +:+ ":dependents") jobId;
                         ret tt);
                  parkOnDependency q jobId (d :: ds)
              | _ => ret false
              end);
    if (parked : bool) then
      job ← refresh q jobId;
      _ ← emit (JobAdded jobId (q_name q));
      ret job
    else
      _ ← (if 0 <? orZ (opt_delay opts) 0 then
             let processAt := timestamp + orZ (opt_delay opts) 0 in
             _ ← Cmd.ZADD (getKey q "delayed") processAt jobId;
             emit (JobDelayed jobId (orZ (opt_delay opts) 0))
           else
             (* Add to the appropriate priority queue *)
             let priorityKey := getPriorityKey this priority in
             if truthyB (opt_lifo opts)
             then _ ← Cmd.RPUSH priorityKey jobId; ret tt
             else _ ← Cmd.LPUSH priorityKey jobId; ret tt);
      job ← refresh q jobId;
      _ ← emit (JobAdded jobId (q_name q));
      ret job.

(** The levels [n-1, n-2, ..., 0], in the order the pump visits them. *)
Fixpoint levelsDown (n : nat) : list Z :=
  match n with
  | O => []
  | S k => Z.of_nat k :: levelsDown k
  end.

(** One level of the pump: read the whole list, delete it, and LPUSH
    its ids onto the waiting list from the last to the first. *)
Definition moveLevel (this : t) (priority : Z) : M unit :=
  let priorityKey := getPriorityKey this priority in
  length ← Cmd.LLEN priorityKey;
  if 0 <? length then
    jobIds ← Cmd.LRANGE priorityKey 0 (-1);
    match jobIds with
    | [] => ret tt
    | _ =>
        (* Remove from priority queue *)
        _ ← Cmd.DEL [priorityKey];
        (* Add to waiting queue in reverse order to maintain priority *)
        forEach (rev jobIds) (fun jobId =>
          _ ← Cmd.LPUSH (getKey (baseQueue this) "waiting") jobId; ret tt)
    end
  else ret tt.

(** [moveJobsToWaiting]: check priority queues from highest to lowest. *)
Definition moveJobsToWaiting (this : t) : M unit :=
  forEach (levelsDown (Z.to_nat (priorityLevels this))) (moveLevel this).

End PriorityQueue.

(** ** Work coordinator ([work-coordinator.ts]) *)

Module WorkCoordinator.

(** The fields of an instance record that the distribution reads. A
    record comes out of [JSON.parse], so a field may be missing. *)
Record InstanceInfo := {
  maxWorkers : option Z;
  workersAssigned : option Z
}.

(** How a run of the distribution ends. [OutOfFuel] stands for a loop
    that is still running when the step budget of the embedding ends. *)
Inductive Run (A : Type) : Type :=
| Done (a : A)
| TypeError
| OutOfFuel.
Arguments Done {A} a.
Arguments TypeError {A}.
Arguments OutOfFuel {A}.

(** [distribution[id] || 0] *)
Definition assigned (distribution : gmap string Z) (id : string) : Z :=
  orZ (distribution !! id) 0.

Section Distribution.

(** [Math.floor((maxWorkers / remainingCapacity) * remainingWorkers)]
    is computed in IEEE doubles, where the quotient is rounded before
    it is multiplied: [(1 / 49) * 49] is 0.9999999999999999 and floors
    to 0. The embedding takes the result of that expression as a
    function of its three integer operands. *)
Variable floorShare : Z -> Z -> Z -> Z.

(** [this.maxWorkersPerInstance] *)
Variable maxWorkersPerInstance : Z.

(** [info.maxWorkers || this.maxWorkersPerInstance] *)
Definition capacity (info : InstanceInfo) : Z :=
  orZ (maxWorkers info) maxWorkersPerInstance.

(** The sums [coordinateWork] accumulates over the active instances
    before it calls the distribution. *)
Fixpoint totals (instanceInfo : gmap string InstanceInfo)
    (activeInstances : list string) (totalWorkers totalMaxWorkers : Z) : Z * Z :=
  match activeInstances with
  | [] => (totalWorkers, totalMaxWorkers)
  | instanceId :: r =>
      match instanceInfo !! instanceId with
      | Some info =>
          totals instanceInfo r
            (totalWorkers + orZ (workersAssigned info) 0)
            (totalMaxWorkers + capacity info)
      | None => totals instanceInfo r totalWorkers totalMaxWorkers
      end
  end.

(** First pass: assign workers proportionally to max capacity. *)
Fixpoint firstPass (instanceInfo : gmap string InstanceInfo)
    (activeInstances : list string) (distribution : gmap string Z)
    (remainingWorkers remainingCapacity : Z) : Run (gmap string Z * Z) :=
  match activeInstances with
  | [] => Done (distribution, remainingWorkers)
  | instanceId :: r =>
      match instanceInfo !! instanceId with
      | None => TypeError
      | Some info =>
          let maxWorkers := capacity info in
          (* Calculate proportional share of workers *)
          let workerShare := floorShare maxWorkers remainingCapacity remainingWorkers in
          (* Cap at max workers for this instance *)
          let workerShare := Z.min workerShare maxWorkers in
          firstPass instanceInfo r (<[instanceId := workerShare]> distribution)
            (remainingWorkers - workerShare) (remainingCapacity - maxWorkers)
      end
  end.

(** The filter of the second pass: instances with room left. *)
Definition hasRoom (instanceInfo : gmap string InstanceInfo)
    (distribution : gmap string Z) (id : string) : bool :=
  match instanceInfo !! id with
  | Some info => assigned distribution id <? capacity info
  | None => false
  end.

(** The comparator [ratioA - ratioB] is negative when A's ratio of
    assigned to maximum workers is the smaller one. With positive
    maxima the ratios compare as the cross products do. *)
Definition ratioBefore (instanceInfo : gmap string InstanceInfo)
    (distribution : gmap string Z) (a b : string) : bool :=
  match instanceInfo !! a, instanceInfo !! b with
  | Some infoA, Some infoB =>
      assigned distribution a * capacity infoB
        <=? assigned distribution b * capacity infoA
  | _, _ => true
  end.

Fixpoint insertByRatio (instanceInfo : gmap string InstanceInfo)
    (distribution : gmap string Z) (x : string) (l : list string) : list string :=
  match l with
  | [] => [x]
  | y :: r =>
      if ratioBefore instanceInfo distribution x y then x :: y :: r
      else y :: insertByRatio instanceInfo distribution x r
  end.

(** [Array.prototype.sort] with that comparator. The sort is stable. *)
Definition sortByRatio (instanceInfo : gmap string InstanceInfo)
    (distribution : gmap string Z) (l : list string) : list string :=
  fold_right (insertByRatio instanceInfo distribution) [] l.

(** The [for] loop of the second pass, one iteration per unit of
    fuel: [i] is the loop counter, which the body resets to [-1] at
    the last index while workers remain. *)
Fixpoint secondPass (fuel : nat) (instanceInfo : gmap string InstanceInfo)
    (instancesByRoom : list string) (i : Z)
    (distribution : gmap string Z) (remainingWorkers : Z) : Run (gmap string Z) :=
  if (i <? Z.of_nat (List.length instancesByRoom)) && (0 <? remainingWorkers) then
    match fuel with
    | O => OutOfFuel
    | S fuel' =>
        match instancesByRoom !! Z.to_nat i with
        | None => TypeError
        | Some instanceId =>
            match instanceInfo !! instanceId with
            | None => TypeError
            | Some info =>
                let maxWorkers := capacity info in
                let '(distribution', remainingWorkers') :=
                  match distribution !! instanceId with
                  | Some n =>
                      if n <? maxWorkers
                      then (<[instanceId := n + 1]> distribution, remainingWorkers - 1)
                      else (distribution, remainingWorkers)
                  | None => (distribution, remainingWorkers)
                  end in
                (* If we still have workers, go back to the beginning *)
                let i' :=
                  if (i =? Z.of_nat (List.length instancesByRoom) - 1)
                     && (0 <? remainingWorkers')
                  then -1 else i in
                secondPass fuel' instanceInfo instancesByRoom (i' + 1)
                  distribution' remainingWorkers'
            end
        end
    end
  else Done distribution.

(** [calculateWorkerDistribution] *)
Definition calculateWorkerDistribution (fuel : nat)
    (instanceInfo : gmap string InstanceInfo) (activeInstances : list string)
    (totalWorkers totalMaxWorkers : Z) : Run (gmap string Z) :=
  (* If no instances or workers, return empty distribution *)
  if (Nat.eqb (List.length activeInstances) 0) || (totalWorkers =? 0) then Done ∅
  else
    (* Ensure we don't exceed total capacity *)
    let totalWorkers := Z.min totalWorkers totalMaxWorkers in
    match firstPass instanceInfo activeInstances ∅ totalWorkers totalMaxWorkers with
    | Done (distribution, remainingWorkers) =>
        (* Second pass: distribute any remaining workers fairly *)
        if 0 <? remainingWorkers then
          let instancesByRoom :=
            sortByRatio instanceInfo distribution
              (List.filter (hasRoom instanceInfo distribution) activeInstances) in
          secondPass fuel instanceInfo instancesByRoom 0 distribution remainingWorkers
        else Done distribution
    | TypeError => TypeError
    | OutOfFuel => OutOfFuel
    end.

End Distribution.

(** The share in exact arithmetic, [⌊maxWorkers · remainingWorkers /
    remainingCapacity⌋], which is what the doubles give whenever the
    rounded quotient loses nothing. *)
Definition exactShare (maxWorkers remainingCapacity remainingWorkers : Z) : Z :=
  (maxWorkers * remainingWorkers) / remainingCapacity.

End WorkCoordinator.

(** ** Cron scheduler ([cron-scheduler.ts]) *)

Module Cron.

(** [null] (any value) or the sorted list of admitted values. *)
Record CronSchedule := {
  minute : option (list Z);
  hour : option (list Z);
  dayOfMonth : option (list Z);
  month : option (list Z);
  dayOfWeek : option (list Z)
}.

(** *** JavaScript [Date]

    The getters and setters the scheduler uses ([getMonth], [setHours],
    ...) work on the host's local time. The host's time zone is taken
    to be UTC, so local time is UTC and has no daylight-saving jumps.
    A date is kept as its calendar fields, months counted from 0 as in
    JavaScript; [getTime] is the time value ECMAScript derives from
    them. A setter writes its fields and lets the overflow carry, which
    is what MakeDay and MakeTime followed by decoding the time value
    do on such a host.

    The same field arithmetic is that of any host whose zone keeps one
    offset from UTC, with the time value shifted by that offset
    ([instant]). A host zone with daylight-saving transitions is not
    modelled: there a setter can land in an hour that is skipped or
    repeated, the time value it produces is not the one computed here,
    and nothing below is claimed of such a host. *)
Record Date := {
  year : Z;
  mon : Z;
  day : Z;
  hours : Z;
  minutes : Z;
  seconds : Z;
  millis : Z
}.

Definition isLeap (y : Z) : bool :=
  ((y mod 4 =? 0) && negb (y mod 100 =? 0)) || (y mod 400 =? 0).

Definition leapDay (y : Z) : Z := if isLeap y then 1 else 0.

(** Days in month [m] (0 to 11) of year [y]. *)
Definition daysInMonth (y m : Z) : Z :=
  if m =? 1 then 28 + leapDay y
  else if (m =? 3) || (m =? 5) || (m =? 8) || (m =? 10) then 30
  else 31.

(** Days of year [y] before month [m] (0 to 11). *)
Definition daysBeforeMonth (y m : Z) : Z :=
  if m <=? 0 then 0
  else if m =? 1 then 31
  else if m =? 2 then 59 + leapDay y
  else if m =? 3 then 90 + leapDay y
  else if m =? 4 then 120 + leapDay y
  else if m =? 5 then 151 + leapDay y
  else if m =? 6 then 181 + leapDay y
  else if m =? 7 then 212 + leapDay y
  else if m =? 8 then 243 + leapDay y
  else if m =? 9 then 273 + leapDay y
  else if m =? 10 then 304 + leapDay y
  else 334 + leapDay y.

(** ECMAScript DayFromYear. *)
Definition dayFromYear (y : Z) : Z :=
  365 * (y - 1970) + (y - 1969) / 4 - (y - 1901) / 100 + (y - 1601) / 400.

(** ECMAScript MakeDay: the month may lie outside 0 to 11. *)
Definition makeDay (y m d : Z) : Z :=
  let ym := y + m / 12 in
  let mn := m mod 12 in
  dayFromYear ym + daysBeforeMonth ym mn + d - 1.

Definition msPerDay : Z := 86400000.

(** ECMAScript MakeDate of MakeDay and MakeTime, on fields that may
    overflow. *)
Definition getTime (d : Date) : Z :=
  makeDay (year d) (mon d) (day d) * msPerDay
  + hours d * 3600000 + minutes d * 60000 + seconds d * 1000 + millis d.

(** The time value of a date on a host whose zone stays [host] minutes
    east of UTC: local time is the time value moved by that constant.
    [instant 0] is [getTime]. *)
Definition instant (host : Z) (d : Date) : Z := getTime d - host * 60000.

Definition nextMonth (y m : Z) : Z * Z :=
  if m =? 11 then (y + 1, 0) else (y, m + 1).

Definition prevMonth (y m : Z) : Z * Z :=
  if m =? 0 then (y - 1, 11) else (y, m - 1).

(** Carry a day count that left its month into the months around it. *)
Fixpoint carryDay (fuel : nat) (y m d : Z) : Z * Z * Z :=
  match fuel with
  | O => (y, m, d)
  | S f =>
      if d <? 1 then
        let '(y', m') := prevMonth y m in
        carryDay f y' m' (d + daysInMonth y' m')
      else if daysInMonth y m <? d then
        let '(y', m') := nextMonth y m in
        carryDay f y' m' (d - daysInMonth y m)
      else (y, m, d)
  end.

(** The fields of the time value that a setter's fields denote. *)
Definition normalize (d : Date) : Date :=
  let s := seconds d + millis d / 1000 in
  let mi := minutes d + s / 60 in
  let h := hours d + mi / 60 in
  let dd := day d + h / 24 in
  let y := year d + mon d / 12 in
  let m := mon d mod 12 in
  let '(y', m', d') := carryDay (S (Z.to_nat (Z.abs dd))) y m dd in
  {| year := y'; mon := m'; day := d';
     hours := h mod 24; minutes := mi mod 60;
     seconds := s mod 60; millis := millis d mod 1000 |}.

Definition getMonth (d : Date) : Z := mon d.
Definition getDate (d : Date) : Z := day d.
Definition getHours (d : Date) : Z := hours d.
Definition getMinutes (d : Date) : Z := minutes d.

(** ECMAScript WeekDay: day 0 of the epoch was a Thursday. *)
Definition getDay (d : Date) : Z :=
  (makeDay (year d) (mon d) (day d) + 4) mod 7.

(** The setters, on a host whose local time has no jumps (see above):
    the fields named are written, the others kept, and the overflow
    carried. *)
Definition setFullYear (y m dt : Z) (d : Date) : Date :=
  normalize {| year := y; mon := m; day := dt; hours := hours d;
               minutes := minutes d; seconds := seconds d; millis := millis d |}.

Definition setMonth (m : Z) (d : Date) : Date :=
  normalize {| year := year d; mon := m; day := day d; hours := hours d;
               minutes := minutes d; seconds := seconds d; millis := millis d |}.

Definition setDate (dt : Z) (d : Date) : Date :=
  normalize {| year := year d; mon := mon d; day := dt; hours := hours d;
               minutes := minutes d; seconds := seconds d; millis := millis d |}.

(** [setHours(h, min, sec, ms)] *)
Definition setHours (h mi s ms : Z) (d : Date) : Date :=
  normalize {| year := year d; mon := mon d; day := day d; hours := h;
               minutes := mi; seconds := s; millis := ms |}.

(** [setMinutes(min)] *)
Definition setMinutes1 (mi : Z) (d : Date) : Date :=
  normalize {| year := year d; mon := mon d; day := day d; hours := hours d;
               minutes := mi; seconds := seconds d; millis := millis d |}.

(** [setMinutes(min, sec, ms)] *)
Definition setMinutes (mi s ms : Z) (d : Date) : Date :=
  normalize {| year := year d; mon := mon d; day := day d; hours := hours d;
               minutes := mi; seconds := s; millis := ms |}.

(** [setSeconds(sec, ms)] *)
Definition setSeconds (s ms : Z) (d : Date) : Date :=
  normalize {| year := year d; mon := mon d; day := day d; hours := hours d;
               minutes := minutes d; seconds := s; millis := ms |}.

(** The [timezone] argument. [Intl.DateTimeFormat] is applied once, to
    [now], so a zone enters only through its offset from UTC at that
    instant, in minutes; a name the platform does not know makes the
    constructor throw. *)
Inductive TimeZone :=
| UtcOffset (minutesEast : Z)
| UnknownZone.

(** [includes] on a schedule field: [null] admits every value. *)
Definition admits (field : option (list Z)) (v : Z) : bool :=
  match field with
  | None => true
  | Some values => existsb (Z.eqb v) values
  end.

(** The search loop of [getNextExecutionTime]: one iteration per unit
    of fuel, [None] when the iterations are used up. *)
Fixpoint search (iterations : nat) (schedule : CronSchedule) (date : Date) : option Date :=
  match iterations with
  | O => None
  | S n =>
      (* Check if month matches *)
      if negb (admits (month schedule) (getMonth date + 1)) then
        (* Skip to the next month *)
        let date := setMonth (getMonth date + 1) date in
        let date := setDate 1 date in
        let date := setHours 0 0 0 0 date in
        search n schedule date
      (* Check if day of month matches *)
      else if negb (admits (dayOfMonth schedule) (getDate date)) then
        (* Skip to the next day *)
        let date := setDate (getDate date + 1) date in
        let date := setHours 0 0 0 0 date in
        search n schedule date
      (* Check if day of week matches *)
      else if negb (admits (dayOfWeek schedule) (getDay date)) then
        (* Skip to the next day *)
        let date := setDate (getDate date + 1) date in
        let date := setHours 0 0 0 0 date in
        search n schedule date
      (* Check if hour matches *)
      else if negb (admits (hour schedule) (getHours date)) then
        (* Skip to the next hour *)
        search n schedule (setHours (getHours date + 1) 0 0 0 date)
      (* Check if minute matches *)
      else if negb (admits (minute schedule) (getMinutes date)) then
        (* Skip to the next minute *)
        search n schedule (setMinutes (getMinutes date + 1) 0 0 date)
      else
        (* All fields match, we found the next execution time *)
        Some date
  end.

(** The wall clock the formatter reports for [date] in a zone. *)
Definition wallClock (offset : Z) (date : Date) : Date :=
  setMinutes1 (getMinutes date + offset) date.

(** [getNextExecutionTime(schedule, now, timezone)] with the bound of
    its search loop as a parameter. *)
Definition getNextExecutionTimeWithin (maxIterations : nat) (schedule : CronSchedule)
    (now : Date) (timezone : option TimeZone) : option Date :=
  (* Create a copy of current date to avoid modifying the input *)
  let date := now in
  (* Apply timezone if specified *)
  let date :=
    match timezone with
    | Some (UtcOffset offset) =>
        let parts := wallClock offset date in
        (* Create a new date in the target timezone *)
        let date := setFullYear (year parts) (mon parts) (day parts) date in
        setHours (hours parts) (minutes parts) 0 0 date
    | Some UnknownZone => date
    | None => date
    end in
  (* Start from the next minute *)
  let date := setSeconds 0 0 date in
  let date := setMinutes1 (getMinutes date + 1) date in
  (* Find the next execution time *)
  search maxIterations schedule date.

(** [getNextExecutionTime]: [const maxIterations = 1000]. *)
Definition getNextExecutionTime (schedule : CronSchedule) (now : Date)
    (timezone : option TimeZone) : option Date :=
  getNextExecutionTimeWithin 1000 schedule now timezone.

(** A date whose fields are in range, as every [Date] object's are. *)
Definition valid (d : Date) : Prop :=
  0 <= mon d <= 11 /\ 1 <= day d <= daysInMonth (year d) (mon d) /\
  0 <= hours d <= 23 /\ 0 <= minutes d <= 59 /\
  0 <= seconds d <= 59 /\ 0 <= millis d <= 999.

(** The returned date meets every field of the schedule. *)
Definition matches (schedule : CronSchedule) (d : Date) : Prop :=
  admits (month schedule) (getMonth d + 1) = true /\
  admits (dayOfMonth schedule) (getDate d) = true /\
  admits (dayOfWeek schedule) (getDay d) = true /\
  admits (hour schedule) (getHours d) = true /\
  admits (minute schedule) (getMinutes d) = true.

End Cron.

(** ** State structures and scenarios *)

(** The eight structures a job id can sit in. *)
Definition inListAt (s : Store) (k id : string) : bool :=
  match s !! k with
  | Some (Redis.VList l) => existsb (String.eqb id) l
  | _ => false
  end.

Definition inSetAt (s : Store) (k id : string) : bool :=
  match s !! k with
  | Some (Redis.VSet l) => existsb (String.eqb id) l
  | _ => false
  end.

Definition inZSetAt (s : Store) (k id : string) : bool :=
  match s !! k with
  | Some (Redis.VZSet z) => Redis.zhas id z
  | _ => false
  end.

Definition deadLetterKey (q : Queue) : string :=
  DeadLetterQueue.deadLetterQueueKey q (DeadLetterQueue.make (q_defaultDeadLetterOptions q)).

(** Which of waiting, active, completed, failed, delayed, paused,
    dependency-wait and dead-letter hold [id], in that order. *)
Definition statesOf (q : Queue) (w : World) (id : string) : list bool :=
  [ inListAt (redis w) (getKey q "waiting") id;
    inListAt (redis w) (getKey q "active") id;
    inListAt (redis w) (getKey q "completed") id;
    inListAt (redis w) (getKey q "failed") id;
    inZSetAt (redis w) (getKey q "delayed") id;
    inListAt (redis w) (getKey q "paused") id;
    inSetAt (redis w) (getKey q "dependency-wait") id;
    inListAt (redis w) (deadLetterKey q) id ].

Definition stateCount (q : Queue) (w : World) (id : string) : nat :=
  List.length (List.filter (fun b : bool => b) (statesOf q w id)).

(** The single-state invariant at one observable instant. *)
Definition singleState (q : Queue) (w : World) : Prop :=
  forall id, (stateCount q w id <= 1)%nat.

(** The world a computation leaves behind. *)
Definition after {A : Type} (m : M A) (w : World) : World := snd (m w).

(** Rate-limit checks made one after the other at the clock readings
    [nows], each drawing a member that is new to the window set. The
    replies are the [limited] values (0 for a call that was let
    through, 1 for one that was not). *)
Inductive Checks (key identifier : string) (max duration : Z)
    : World -> list Z -> list Z -> World -> Prop :=
| checks_nil w : Checks key identifier max duration w [] [] w
| checks_cons w now limited remaining timeToReset w1 nows replies w2 :
    RateLimit.rateLimit key identifier max duration now w
      = (Ok (limited, remaining, timeToReset), w1) ->
    (limited = 0 ->
       inZSetAt (redis w) (key +:+ ":" +:+ identifier)
                (pretty now +:+ ":" +:+ hd "0" (randoms w)) = false) ->
    Checks key identifier max duration w1 nows replies w2 ->
    Checks key identifier max duration w (now :: nows) (limited :: replies) w2.

(** The script run once for each clock reading of [nows], one run after
    the other on the same store, with the replies in order. *)
Fixpoint checks (key identifier : string) (max duration : Z) (nows : list Z)
    : M (list (Z * Z * Z)) :=
  match nows with
  | [] => ret []
  | now :: nows' =>
      reply ← RateLimit.rateLimit key identifier max duration now;
      replies ← checks key identifier max duration nows';
      ret (reply :: replies)
  end.

(** The calls let through at a clock reading in the window [(t - duration, t]]. *)
Fixpoint passedInWindow (duration t : Z) (nows : list Z) (replies : list Z) : Z :=
  match nows, replies with
  | now :: nows', limited :: replies' =>
      (if (limited =? 0) && (t - duration <? now) && (now <=? t) then 1 else 0)
      + passedInWindow duration t nows' replies'
  | _, _ => 0
  end.

(** Clock readings that never go back. *)
Fixpoint nondecreasing (l : list Z) : Prop :=
  match l with
  | [] => True
  | x :: r => (forall y, In y r -> x <= y) /\ nondecreasing r
  end.


(** ** Sample queues, jobs and worlds *)

Definition lockWorld : World :=
  {| redis := <["queue:lock:job:7" := Redis.VStr "tok-1"]> ∅;
     clock := 0; ticks := []; ids := []; randoms := []; events := []; handled := [] |}.

Definition plainQueue : Queue :=
  {| q_name := "q"; q_prefix := "queue"; q_limiter := None;
     q_defaultJobOptions := None;
     q_lock := Some {| DistributedLock.prefix := "queue:lock" |};
     q_defaultDeadLetterOptions := None |}.

Definition busyWorld : World :=
  {| redis := <["queue:q:waiting" := Redis.VList ["a"; "ghost"]]>
                (<["queue:q:job:a" := Redis.VHash (<["id" := Redis.HStr "a"]> ∅)]> ∅);
     clock := 5; ticks := []; ids := []; randoms := []; events := [JobAdded "a" "q"];
     handled := [] |}.

Definition exponentialJob (attemptsMade : Z) : Job :=
  {| job_id := "A"; job_data := []; job_name := "q";
     job_opts :=
       {| opt_delay := None; opt_attempts := Some 3;
          opt_backoff := Some {| bo_type := exponential; bo_delay := 100 |};
          opt_priority := None; opt_lifo := None; opt_jobId := Some "A";
          opt_dependsOn := None; opt_deadLetter := None |};
     job_progress := 0; job_delay := 0; job_timestamp := 1000;
     job_attemptsMade := attemptsMade; job_stacktrace := [];
     job_returnvalue := None; job_finishedOn := None;
     job_processedOn := Some 1001; job_failedReason := None;
     job_dependencies := [] |}.

Definition emptyWorld (now : Z) : World :=
  {| redis := ∅; clock := now; ticks := []; ids := ["t1"; "t2"; "t3"; "t4"; "t5"; "t6"];
     randoms := []; events := []; handled := [] |}.

(** The re-submission rule as the design document words it: the
    re-submission carries the larger of the caller's delay and the
    limiter's reset time. *)
Definition resubmitsWithMaxDelay : Prop :=
  forall (q : Queue) (options : JobOptions) (r : RateLimiter.RateLimitResult),
    opt_delay (rateLimitedOptions q (Some options) r)
    = Some (Z.max (orZ (opt_delay options) 0) (RateLimiter.resetIn r)).

Definition oneMinuteLater : JobOptions :=
  {| opt_delay := Some 60000; opt_attempts := None; opt_backoff := None;
     opt_priority := None; opt_lifo := None; opt_jobId := Some "A";
     opt_dependsOn := None; opt_deadLetter := None |}.

Definition limitedQueue : Queue :=
  {| q_name := "q"; q_prefix := "queue";
     q_limiter := Some {| RateLimiter.max := 1; RateLimiter.duration := 10000;
                          RateLimiter.keyPrefix := None |};
     q_defaultJobOptions := None;
     q_lock := Some {| DistributedLock.prefix := "queue:lock" |};
     q_defaultDeadLetterOptions := None |}.

(** One token was taken at 500; the clock reads 1000 at the first check,
    10600 at the second and 10601 when the job is stamped. *)
Definition limitedWorld : World :=
  {| redis := <["queue:q:limit:q" := Redis.VZSet [("500:0.25", 500)]]> ∅;
     clock := 0; ticks := [1000; 10600; 10601]; ids := []; randoms := ["0.5"];
     events := []; handled := [] |}.

Definition jobNamed (id : string) : JobOptions :=
  {| opt_delay := None; opt_attempts := None; opt_backoff := None;
     opt_priority := None; opt_lifo := None; opt_jobId := Some id;
     opt_dependsOn := None; opt_deadLetter := None |}.

Definition jobWithPriority (id : string) (priority : Z) : JobOptions :=
  {| opt_delay := None; opt_attempts := None; opt_backoff := None;
     opt_priority := Some priority; opt_lifo := None; opt_jobId := Some id;
     opt_dependsOn := None; opt_deadLetter := None |}.

(** Three attempts, a fixed pause of 100 ms between them. *)
Definition jobWithRetries (id : string) : JobOptions :=
  {| opt_delay := None; opt_attempts := Some 3;
     opt_backoff := Some {| bo_type := fixed; bo_delay := 100 |};
     opt_priority := None; opt_lifo := None; opt_jobId := Some id;
     opt_dependsOn := None; opt_deadLetter := None |}.

Definition succeeding (q : Queue) (concurrency : Z) : Worker.t :=
  {| Worker.queue := q; Worker.concurrency := concurrency;
     Worker.handler := fun _ => Ok "done" |}.

Definition failing (q : Queue) (concurrency : Z) : Worker.t :=
  {| Worker.queue := q; Worker.concurrency := concurrency;
     Worker.handler := fun _ => Throw "boom" |}.

Definition twoLevels : PriorityQueue.t :=
  {| PriorityQueue.baseQueue := plainQueue;
     PriorityQueue.priorityLevels := 2;
     PriorityQueue.defaultPriorityLevel := 0 |}.

(** Two jobs submitted one after the other, with no options. *)
Definition twoSubmitted : World :=
  after (add 1 plainQueue [] (Some (jobNamed "B")))
    (after (add 1 plainQueue [] (Some (jobNamed "A"))) (emptyWorld 1000)).

(** A low-priority and a high-priority job, then one pass of the pump. *)
Definition pumped : World :=
  after (PriorityQueue.moveJobsToWaiting twoLevels)
    (after (PriorityQueue.add twoLevels [] (Some (jobWithPriority "high" 1)))
       (after (PriorityQueue.add twoLevels [] (Some (jobWithPriority "low" 0)))
          (emptyWorld 1000))).

(** A job with retries and backoff whose handler threw once. *)
Definition failedOnce : World :=
  after (Worker.processJobs (failing plainQueue 1) [])
    (after (add 1 plainQueue [] (Some (jobWithRetries "A"))) (emptyWorld 1000)).

(** The same job 200 ms later, picked up by a worker whose handler
    returns. *)
Definition retriedLater : World :=
  after (Worker.processJobs (succeeding plainQueue 1) [])
    (setClock failedOnce 1200 []).

(** *** The rate-limit script as a function of the window set *)

(** The window set stored at a key: an absent key is the empty set. *)
Definition windowAt (s : Store) (k : string) : option (list (string * Z)) :=
  match s !! k with
  | None => Some []
  | Some (Redis.VZSet z) => Some z
  | Some _ => None
  end.

(** What ZREMRANGEBYSCORE key 0 (now - duration) leaves. *)
Definition trim (duration now : Z) (z : list (string * Z)) : list (string * Z) :=
  List.filter (fun e => negb (Redis.inScore 0 (now - duration) e)) z.

(** The score ZRANGE key 0 0 WITHSCORES reports, with the reset time
    the script derives from it. *)
Definition resetOf (duration now : Z) (z : list (string * Z)) : Z :=
  match z with
  | [] => 0
  | (_, oldestScore) :: _ => Z.max 0 (oldestScore + duration - now)
  end.

(** The world after [math.random()] has been called once. *)
Definition drawn (w : World) : World :=
  match randoms w with
  | [] => w
  | _ :: r => setRandoms w r
  end.

(** The member the script adds at [now] in world [w]. *)
Definition tokenAt (now : Z) (w : World) : string :=
  pretty now +:+ ":" +:+ hd "0" (randoms w).

(** Entries of a window set with a score in [(t - duration, t]]. *)
Definition inWindow (duration t : Z) (z : list (string * Z)) : Z :=
  Z.of_nat (List.length
    (List.filter (fun e => (t - duration <? snd e) && (snd e <=? t)) z)).

(** The window as the design document words it: the entries that count
    are those with a score of at least [now - duration]. *)
Definition strictTrim (duration now : Z) (z : list (string * Z)) : list (string * Z) :=
  List.filter (fun e => negb (snd e <? now - duration)) z.

Definition limitedIffStrictWindow : Prop :=
  forall (key identifier : string) (max duration now : Z) (w w' : World)
         (z : list (string * Z)) (limited remaining timeToReset : Z),
    windowAt (redis w) (key +:+ ":" +:+ identifier) = Some z ->
    RateLimit.rateLimit key identifier max duration now w
      = (Ok (limited, remaining, timeToReset), w') ->
    (limited = 1 <-> max <= Z.of_nat (List.length (strictTrim duration now z))).

(** A window of 10 ms that admits one call, with one token taken at 0. *)
Definition tokenAtZero : World :=
  {| redis := <["queue:q:limit:q" := Redis.VZSet [("0:0.25", 0)]]> ∅;
     clock := 0; ticks := []; ids := []; randoms := ["0.5"; "0.75"];
     events := []; handled := [] |}.

Definition noTokens : World :=
  {| redis := ∅; clock := 0; ticks := []; ids := []; randoms := ["0.25"; "0.5"; "0.75"];
     events := []; handled := [] |}.

(** An empty store at the reading 1000, where [math.random()] returns
    0.5 in each of the next four runs of the script. *)
Definition sameDraw : World :=
  {| redis := ∅; clock := 1000; ticks := []; ids := [];
     randoms := ["0.5"; "0.5"; "0.5"; "0.5"]; events := []; handled := [] |}.

(** *** Sums over the active instances *)

Fixpoint sumZ (l : list Z) : Z :=
  match l with
  | [] => 0
  | x :: r => x + sumZ r
  end.

(** The capacity and the current assignment recorded for an instance. *)
Definition capacityOf (maxWorkersPerInstance : Z)
    (instanceInfo : gmap string WorkCoordinator.InstanceInfo) (id : string) : Z :=
  match instanceInfo !! id with
  | Some info => WorkCoordinator.capacity maxWorkersPerInstance info
  | None => 0
  end.

Definition assignedOf (instanceInfo : gmap string WorkCoordinator.InstanceInfo)
    (id : string) : Z :=
  match instanceInfo !! id with
  | Some info => orZ (WorkCoordinator.workersAssigned info) 0
  | None => 0
  end.

(** Instance records as [registerInstance] and [coordinateWork] write
    them: a positive capacity and a number of assigned workers that is
    not negative. *)
Definition wellFormed (maxWorkersPerInstance : Z)
    (instanceInfo : gmap string WorkCoordinator.InstanceInfo)
    (activeInstances : list string) : Prop :=
  List.NoDup activeInstances /\
  forall id, In id activeInstances ->
    exists info, instanceInfo !! id = Some info
      /\ 0 < WorkCoordinator.capacity maxWorkersPerInstance info
      /\ 0 <= orZ (WorkCoordinator.workersAssigned info) 0.

(** Every listed instance has a record, a positive capacity, and an
    entry in the distribution that does not exceed that capacity. *)
Definition within (maxWorkersPerInstance : Z)
    (instanceInfo : gmap string WorkCoordinator.InstanceInfo)
    (l : list string) (d : gmap string Z) : Prop :=
  forall id, In id l ->
    exists info v, instanceInfo !! id = Some info
      /\ 0 < WorkCoordinator.capacity maxWorkersPerInstance info
      /\ d !! id = Some v
      /\ v <= WorkCoordinator.capacity maxWorkersPerInstance info.

(** Three instances: capacities 4, 2 and the default 10, with 3, 2 and
    1 workers assigned. *)
Definition threeInstances : gmap string WorkCoordinator.InstanceInfo :=
  <["a" := {| WorkCoordinator.maxWorkers := Some 4; WorkCoordinator.workersAssigned := Some 3 |}]>
  (<["b" := {| WorkCoordinator.maxWorkers := Some 2; WorkCoordinator.workersAssigned := Some 2 |}]>
  (<["c" := {| WorkCoordinator.maxWorkers := None; WorkCoordinator.workersAssigned := Some 1 |}]> ∅)).

(** Two instances with capacities 1 and 48, fully assigned. *)
Definition fortyNine : gmap string WorkCoordinator.InstanceInfo :=
  <["x" := {| WorkCoordinator.maxWorkers := Some 1; WorkCoordinator.workersAssigned := Some 1 |}]>
  (<["y" := {| WorkCoordinator.maxWorkers := Some 48; WorkCoordinator.workersAssigned := Some 48 |}]> ∅).

(** The share as doubles give it at the one place where this example
    rounds: [(1 / 49) * 49] is 0.9999999999999999, floored to 0. *)
Definition shareNear49 (maxWorkers remainingCapacity remainingWorkers : Z) : Z :=
  if (maxWorkers =? 1) && (remainingCapacity =? 49) && (remainingWorkers =? 49) then 0
  else WorkCoordinator.exactShare maxWorkers remainingCapacity remainingWorkers.

(** The schedules ["* * * * *"] and ["0 9 * * *"] as parsed, and noon of
    15 January 2024. *)
Definition everyMinute : Cron.CronSchedule :=
  {| Cron.minute := None; Cron.hour := None; Cron.dayOfMonth := None;
     Cron.month := None; Cron.dayOfWeek := None |}.

Definition dailyAtNine : Cron.CronSchedule :=
  {| Cron.minute := Some [0]; Cron.hour := Some [9]; Cron.dayOfMonth := None;
     Cron.month := None; Cron.dayOfWeek := None |}.

Definition noon : Cron.Date :=
  {| Cron.year := 2024; Cron.mon := 0; Cron.day := 15; Cron.hours := 12;
     Cron.minutes := 0; Cron.seconds := 0; Cron.millis := 0 |}.

(** A job with three attempts and exponential backoff of 100 ms, failing
    at 1000 and, picked up again at 1200, failing a second time. *)
Definition jobWithExponentialBackoff (id : string) : JobOptions :=
  {| opt_delay := None; opt_attempts := Some 3;
     opt_backoff := Some {| bo_type := exponential; bo_delay := 100 |};
     opt_priority := None; opt_lifo := None; opt_jobId := Some id;
     opt_dependsOn := None; opt_deadLetter := None |}.

Definition failedFirst : World :=
  after (Worker.processJobs (failing plainQueue 1) [])
    (after (add 1 plainQueue [] (Some (jobWithExponentialBackoff "A"))) (emptyWorld 1000)).

Definition failedSecond : World :=
  after (Worker.processJobs (failing plainQueue 1) []) (setClock failedFirst 1200 []).

(** A key that holds a string where a job hash would be. *)
Definition strayKeyWorld : World :=
  {| redis := <["queue:q:waiting" := Redis.VList ["a"; "ghost"]]>
                (<["queue:q:job:ghost" := Redis.VStr "not a hash"]> ∅);
     clock := 5; ticks := []; ids := []; randoms := []; events := []; handled := [] |}.

(** ** Views of the store

    What a command finds at a key: the value of the kind it works on,
    an absent key read as the empty value, or nothing when the key
    holds a value of another kind (the WRONGTYPE case). *)

Definition listAt (s : Store) (k : string) : option (list string) :=
  match s !! k with
  | None => Some []
  | Some (Redis.VList l) => Some l
  | Some _ => None
  end.

Definition setAt (s : Store) (k : string) : option (list string) :=
  match s !! k with
  | None => Some []
  | Some (Redis.VSet l) => Some l
  | Some _ => None
  end.

Definition hashAt (s : Store) (k : string) : option Hash :=
  match s !! k with
  | None => Some ∅
  | Some (Redis.VHash h) => Some h
  | Some _ => None
  end.

(** The reading [Date.now()] gives next, and the world once it has
    been taken. *)
Definition nowOf (w : World) : Z :=
  match ticks w with
  | [] => clock w
  | t :: _ => t
  end.

Definition ticked (w : World) : World :=
  match ticks w with
  | [] => w
  | t :: r => setClock w t r
  end.

(** ** Pausing the queue ([queue.ts]) *)

(** [Queue.pause] *)
Definition pause (q : Queue) : M unit := Cmd.SET (getKey q "paused") "1".

(** [Queue.resume] *)
Definition resume (q : Queue) : M unit :=
  _ ← Cmd.DEL [getKey q "paused"]; ret tt.

(** ** Further sample worlds *)

(** A lock on job 7 is held; two ids are left in the supply. *)
Definition heldLockWorld : World :=
  {| redis := <["queue:lock:job:7" := Redis.VStr "tok-1"]> ∅;
     clock := 0; ticks := []; ids := ["tok-2"; "tok-3"]; randoms := [];
     events := []; handled := [] |}.

(** A worker of [plainQueue] whose handler returns, and a world with a
    due delayed job and a waiting one. *)
Definition readyWorld : World :=
  {| redis := <["queue:q:waiting" := Redis.VList ["b"]]>
                (<["queue:q:delayed" := Redis.VZSet [("a", 900)]]>
                (<["queue:q:job:a" := Redis.VHash (<["id" := Redis.HStr "a"]> ∅)]>
                (<["queue:q:job:b" := Redis.VHash (<["id" := Redis.HStr "b"]> ∅)]> ∅)));
     clock := 1000; ticks := []; ids := ["t1"; "t2"]; randoms := [];
     events := []; handled := [] |}.

(** [l] without the occurrences of [x]: what LREM key 0 x leaves. *)
Definition without (x : string) (l : list string) : list string :=
  List.filter (fun y => negb (String.eqb x y)) l.

(** Job "a" waits behind job "b"; nothing else is stored. *)
Definition twoWaiting : World :=
  {| redis := <["queue:q:waiting" := Redis.VList ["a"; "b"]]>
                (<["queue:q:job:a" := Redis.VHash (<["id" := Redis.HStr "a"]> ∅)]>
                (<["queue:q:job:b" := Redis.VHash (<["id" := Redis.HStr "b"]> ∅)]> ∅));
     clock := 1000; ticks := []; ids := []; randoms := []; events := []; handled := [] |}.

(** Job "a" is the only job of the queue, waiting and delayed at once. *)
Definition loneJob : World :=
  {| redis := <["queue:q:waiting" := Redis.VList ["a"]]>
                (<["queue:q:delayed" := Redis.VZSet [("a", 5000); ("z", 7000)]]>
                (<["queue:q:job:a" := Redis.VHash (<["id" := Redis.HStr "a"]> ∅)]> ∅));
     clock := 1000; ticks := []; ids := []; randoms := []; events := []; handled := [] |}.

(** A limiter keyed by the payload's [userId]: two calls per minute. *)
Definition perUser : RateLimiter.Options :=
  {| RateLimiter.max := 2; RateLimiter.duration := 60000;
     RateLimiter.keyPrefix := Some (RateLimiter.KPField "userId") |}.

(** User u2 has used one of the two calls; user u1 none. *)
Definition perUserWorld : World :=
  {| redis := <["queue:q:limit:q:u2" := Redis.VZSet [("900:0.1", 900)]]> ∅;
     clock := 1000; ticks := []; ids := []; randoms := ["0.5"];
     events := []; handled := [] |}.

(** A queue whose limiter admits no call at all. *)
Definition closedQueue : Queue :=
  {| q_name := "q"; q_prefix := "queue";
     q_limiter := Some {| RateLimiter.max := 0; RateLimiter.duration := 1000;
                          RateLimiter.keyPrefix := None |};
     q_defaultJobOptions := None;
     q_lock := Some {| DistributedLock.prefix := "queue:lock" |};
     q_defaultDeadLetterOptions := None |}.

(** The members of a delayed set that are due at [now], in the order
    ZRANGEBYSCORE key 0 now reports them. *)
Definition dueAt (now : Z) (z : list (string * Z)) : list string :=
  List.map fst (List.filter (Redis.inScore 0 now) z).

(** The entries of a delayed set that are not yet due at [now]. *)
Definition notDueAt (now : Z) (z : list (string * Z)) : list (string * Z) :=
  List.filter (fun e => negb (Redis.inScore 0 now e)) z.

(** ** The job hash after a transition *)

(** The fields [moveToFailed] writes. *)
Definition failedHash (h : Hash) (now : Z) (reason : string) (stacktrace : list string)
    (attemptsMade : Z) : Hash :=
  <["attemptsMade" := Redis.HNum attemptsMade]>
    (<["stacktrace" := Redis.HList stacktrace]>
       (<["failedReason" := Redis.HStr reason]>
          (<["finishedOn" := Redis.HNum now]> h))).

(** The fields [retry] resets. *)
Definition retriedHash (h : Hash) : Hash :=
  <["processedOn" := Redis.HStr ""]>
    (<["failedReason" := Redis.HStr ""]>
       (<["finishedOn" := Redis.HStr ""]> h)).

(** The fields [moveToCompleted] writes. *)
Definition completedHash (h : Hash) (now : Z) (returnvalue : string) : Hash :=
  <["returnvalue" := Redis.HStr returnvalue]> (<["finishedOn" := Redis.HNum now]> h).

(** The store after [moveToFailed] on a job whose hash is [h], with
    [la] the active list and [lf] the failed list. *)
Definition failedStore (q : Queue) (this : Job) (err : string) (failedReason : option string)
    (now : Z) (h : Hash) (la lf : list string) (s : Store) : Store :=
  <[getJobKey q (job_id this) :=
      Redis.VHash (failedHash h now (orS failedReason err)
                     (trimStacktrace (job_stacktrace this ++ [err]))
                     (job_attemptsMade this + 1))]>
    (<[getKey q "failed" := Redis.VList (job_id this :: lf)]>
       (Redis.putList (getKey q "active") (without (job_id this) la) s)).

(** A job that has failed eleven times already. *)
Definition elevenErrors : list string :=
  ["e1"; "e2"; "e3"; "e4"; "e5"; "e6"; "e7"; "e8"; "e9"; "e10"; "e11"].

Definition oftenFailedJob : Job :=
  {| job_id := "A"; job_data := []; job_name := "q"; job_opts := noOptions;
     job_progress := 0; job_delay := 0; job_timestamp := 1000;
     job_attemptsMade := 11; job_stacktrace := elevenErrors;
     job_returnvalue := None; job_finishedOn := None;
     job_processedOn := Some 1001; job_failedReason := None;
     job_dependencies := [] |}.

(** A worker whose queue has no default dead-letter options. *)
Definition retryingJobHash (attempts : Z) (backoff : option Backoff) : Hash :=
  <["opts" := Redis.HJson (JOpts
       {| opt_delay := None; opt_attempts := Some attempts; opt_backoff := backoff;
          opt_priority := None; opt_lifo := None; opt_jobId := Some "A";
          opt_dependsOn := None; opt_deadLetter := None |})]>
    (<["attemptsMade" := Redis.HNum 0]> (<["id" := Redis.HStr "A"]> ∅)).

(** Job "A" is active, with three attempts and no backoff; job "B"
    waits. *)
Definition activeWorld (h : Hash) : World :=
  {| redis := <["queue:q:active" := Redis.VList ["A"]]>
                (<["queue:q:waiting" := Redis.VList ["B"]]>
                (<["queue:q:job:A" := Redis.VHash h]> ∅));
     clock := 1000; ticks := []; ids := ["t1"; "t2"]; randoms := [];
     events := []; handled := [] |}.

(** A job that asks for the dead-letter queue after three attempts
    out of five, two of which have failed. *)
Definition deadLetterJobHash : Hash :=
  <["opts" := Redis.HJson (JOpts
       {| opt_delay := None; opt_attempts := Some 5; opt_backoff := None;
          opt_priority := None; opt_lifo := None; opt_jobId := Some "A";
          opt_dependsOn := None; opt_deadLetter := Some (DLFlag true) |})]>
    (<["attemptsMade" := Redis.HNum 2]> (<["id" := Redis.HStr "A"]> ∅)).

(** ** Priority levels *)

(** The ids of levels [0] to [n-1], lowest level first, where
    [level p] is the list stored for level [p]. *)
Fixpoint levelsUp (level : Z -> list string) (n : nat) : list string :=
  match n with
  | O => []
  | S k => (levelsUp level k ++ level (Z.of_nat k))%list
  end.

(** Three levels with jobs on levels 0 and 2, and one job already in
    the waiting list. *)
Definition threeLevels : PriorityQueue.t :=
  {| PriorityQueue.baseQueue := plainQueue;
     PriorityQueue.priorityLevels := 3;
     PriorityQueue.defaultPriorityLevel := 0 |}.

Definition levelsWorld : World :=
  {| redis := <["queue:q:priority:0" := Redis.VList ["l1"; "l2"]]>
                (<["queue:q:priority:2" := Redis.VList ["h1"; "h2"]]>
                (<["queue:q:waiting" := Redis.VList ["w"]]> ∅));
     clock := 1000; ticks := []; ids := []; randoms := []; events := []; handled := [] |}.

Definition levelsOf (p : Z) : list string :=
  if p =? 0 then ["l1"; "l2"] else if p =? 2 then ["h1"; "h2"] else [].

(** ** Cron expressions ([cron-scheduler.ts])

    A JavaScript string is a Rocq string of characters below 128. The
    white space of [trim], of [/\s+/] and of [parseInt] is then the
    tab, the line feed, the vertical tab, the form feed, the carriage
    return and the space. Numbers are in [Z]: the values that reach a
    schedule have passed a comparison with a bound of at most 59, and
    comparisons of integers give in doubles what they give in [Z]. *)

Module CronParser.
Import Stdlib.Strings.Ascii.

Definition isWhiteSpace (c : Ascii.ascii) : bool :=
  let n := Ascii.nat_of_ascii c in
  (((9 <=? n) && (n <=? 13)) || (n =? 32))%nat.

(** [String.prototype.trim] *)
Fixpoint trimStart (s : string) : string :=
  match s with
  | String c r => if isWhiteSpace c then trimStart r else s
  | EmptyString => EmptyString
  end.

Fixpoint trimEnd (s : string) : string :=
  match s with
  | String c r =>
      let r' := trimEnd r in
      if isWhiteSpace c && String.eqb r' "" then "" else String c r'
  | EmptyString => EmptyString
  end.

Definition trim (s : string) : string := trimEnd (trimStart s).

(** [s.split(/\s+/)]: the pieces between runs of white space.
    [afterSpace] tells that the character before was white space. *)
Fixpoint splitRuns (afterSpace : bool) (s : string) : list string :=
  match s with
  | EmptyString => [""]
  | String c r =>
      if isWhiteSpace c then
        if afterSpace then splitRuns true r else "" :: splitRuns true r
      else
        match splitRuns false r with
        | x :: xs => String c x :: xs
        | [] => [String c ""]
        end
  end.

Definition splitWhiteSpace (s : string) : list string := splitRuns false s.

(** [s.split(sep)] for a separator of one character *)
Fixpoint split (sep : Ascii.ascii) (s : string) : list string :=
  match s with
  | EmptyString => [""]
  | String c r =>
      if Ascii.eqb c sep then "" :: split sep r
      else
        match split sep r with
        | x :: xs => String c x :: xs
        | [] => [String c ""]
        end
  end.

(** [s.includes(c)] for a string of one character *)
Fixpoint includes (c : Ascii.ascii) (s : string) : bool :=
  match s with
  | EmptyString => false
  | String x r => Ascii.eqb x c || includes c r
  end.

Definition digit (c : Ascii.ascii) : option Z :=
  let n := Ascii.nat_of_ascii c in
  if ((48 <=? n) && (n <=? 57))%nat then Some (Z.of_nat (n - 48)) else None.

(** The number the leading decimal digits of [s] denote; [acc] is the
    number read so far, [None] while no digit was read. *)
Fixpoint digits (acc : option Z) (s : string) : option Z :=
  match s with
  | EmptyString => acc
  | String c r =>
      match digit c with
      | Some d => digits (Some (10 * default 0 acc + d)) r
      | None => acc
      end
  end.

(** [Number.parseInt(s, 10)]: leading white space, an optional sign,
    and the longest run of digits; [None] stands for NaN. *)
Definition parseInt (s : string) : option Z :=
  match trimStart s with
  | String c r =>
      if Ascii.eqb c "-"%char then Z.opp <$> digits None r
      else if Ascii.eqb c "+"%char then digits None r
      else digits None (String c r)
  | EmptyString => None
  end.

(** [values.add(v)] on a [Set], kept in insertion order *)
Definition setAdd (v : Z) (values : list Z) : list Z :=
  if existsb (Z.eqb v) values then values else (values ++ [v])%list.

(** [for (let i = start; i <= end; i += step) values.add(i)], one
    iteration per unit of fuel. *)
Fixpoint addFrom (fuel : nat) (i step end_ : Z) (values : list Z) : list Z :=
  match fuel with
  | O => values
  | S f => if i <=? end_ then addFrom f (i + step) step end_ (setAdd i values) else values
  end.

(** Iterations that are enough for a loop from [start] to [end_] with
    a step of at least 1. *)
Definition iterations (start end_ : Z) : nat := Z.to_nat (end_ - start + 1).

Fixpoint insertSorted (v : Z) (l : list Z) : list Z :=
  match l with
  | [] => [v]
  | x :: r => if v <=? x then v :: x :: r else x :: insertSorted v r
  end.

(** [Array.from(values).sort((a, b) => a - b)] *)
Definition sortNumbers (values : list Z) : list Z := fold_right insertSorted [] values.

(** The body of the loop over the comma-separated parts. *)
Definition parsePart (min max : Z) (values : list Z) (part : string) : Res (list Z) :=
  (* Handle ranges (e.g. "1-5") *)
  if includes "-"%char part then
    match List.map parseInt (split "-"%char part) with
    | Some start :: Some end_ :: _ =>
        if (start <? min) || (max <? end_) || (end_ <? start)
        then Throw ("Invalid range in cron expression: " +:+ part)
        else Ok (addFrom (iterations start end_) start 1 end_ values)
    | _ => Throw ("Invalid range in cron expression: " +:+ part)
    end
  (* Handle steps (e.g. "*/2", "1/2") *)
  else if includes "/"%char part then
    match split "/"%char part with
    | range :: step :: _ =>
        match parseInt step with
        | Some stepValue =>
            if stepValue <=? 0 then Throw ("Invalid step in cron expression: " +:+ part)
            else
              let start :=
                if String.eqb range "*" then min
                else match parseInt range with
                     | Some rangeValue => rangeValue
                     | None => min
                     end in
              Ok (addFrom (iterations start max) start stepValue max values)
        | None => Throw ("Invalid step in cron expression: " +:+ part)
        end
    | _ => Throw ("Invalid step in cron expression: " +:+ part)
    end
  (* Handle single values *)
  else
    match parseInt part with
    | Some value =>
        if (value <? min) || (max <? value)
        then Throw ("Invalid value in cron expression: " +:+ part)
        else Ok (setAdd value values)
    | None => Throw ("Invalid value in cron expression: " +:+ part)
    end.

Fixpoint parseParts (min max : Z) (parts : list string) (values : list Z) : Res (list Z) :=
  match parts with
  | [] => Ok values
  | part :: r =>
      match parsePart min max values part with
      | Ok values' => parseParts min max r values'
      | Throw e => Throw e
      end
  end.

(** [parseField(field, min, max)] *)
Definition parseField (field : string) (min max : Z) : Res (option (list Z)) :=
  (* Handle all values wildcard *)
  if String.eqb field "*" then Ok None
  else
    match parseParts min max (split ","%char field) [] with
    | Ok values => Ok (Some (sortNumbers values))
    | Throw e => Throw e
    end.

(** [parseCronExpression(expression)] *)
Definition parseCronExpression (expression : string) : Res Cron.CronSchedule :=
  match splitWhiteSpace (trim expression) with
  | [p0; p1; p2; p3; p4] =>
      match parseField p0 0 59 with
      | Throw e => Throw e
      | Ok minute =>
      match parseField p1 0 23 with
      | Throw e => Throw e
      | Ok hour =>
      match parseField p2 1 31 with
      | Throw e => Throw e
      | Ok dayOfMonth =>
      match parseField p3 1 12 with
      | Throw e => Throw e
      | Ok month =>
      match parseField p4 0 6 with
      | Throw e => Throw e
      | Ok dayOfWeek =>
          Ok {| Cron.minute := minute; Cron.hour := hour; Cron.dayOfMonth := dayOfMonth;
                Cron.month := month; Cron.dayOfWeek := dayOfWeek |}
      end end end end end
  | _ => Throw ("Invalid cron expression: " +:+ expression +:+ ". Must have 5 parts.")
  end.

(** The separators of a field. *)
Definition hasComma (s : string) : bool := includes ","%char s.
Definition hasRange (s : string) : bool := includes "-"%char s.
Definition hasStep (s : string) : bool := includes "/"%char s.

End CronParser.

(** Numbers in strictly increasing order. *)
Fixpoint increasing (l : list Z) : Prop :=
  match l with
  | [] => True
  | x :: r => (forall y, In y r -> x < y) /\ increasing r
  end.

(** The schedule ["0 0 30 2 *"] as parsed: the 30th of February. *)
Definition februaryThirtieth : Cron.CronSchedule :=
  {| Cron.minute := Some [0]; Cron.hour := Some [0]; Cron.dayOfMonth := Some [30];
     Cron.month := Some [2]; Cron.dayOfWeek := None |}.

(** The fields [add] writes into the job hash. *)
Definition addedHash (q : Queue) (jobId : string) (data : Data) (timestamp : Z)
    (opts : JobOptions) (h : Hash) : Hash :=
  <["progress" := Redis.HNum 0]>
    (<["attemptsMade" := Redis.HNum 0]>
       (<["opts" := Redis.HJson (JOpts opts)]>
          (<["delay" := Redis.HNum (orZ (opt_delay opts) 0)]>
             (<["timestamp" := Redis.HNum timestamp]>
                (<["data" := Redis.HJson (JData data)]>
                   (<["name" := Redis.HStr (q_name q)]>
                      (<["id" := Redis.HStr jobId]> h))))))).

(** The fields of a job hash that [add] writes. *)
Definition writtenByAdd (field : string) : bool :=
  existsb (String.eqb field)
    ["id"; "name"; "data"; "timestamp"; "delay"; "opts"; "attemptsMade"; "progress"].

(** A queue without a limiter on which job "A" failed earlier and is
    waiting again. *)
Definition knownJobWorld : World :=
  {| redis := <["queue:q:waiting" := Redis.VList ["A"; "B"]]>
                (<["queue:q:job:A" := Redis.VHash
                     (<["finishedOn" := Redis.HNum 900]>
                        (<["attemptsMade" := Redis.HNum 2]>
                           (<["id" := Redis.HStr "A"]> ∅)))]> ∅);
     clock := 1000; ticks := []; ids := []; randoms := []; events := []; handled := [] |}.

Definition delayedBy (id : string) (delay : Z) : JobOptions :=
  {| opt_delay := Some delay; opt_attempts := None; opt_backoff := None;
     opt_priority := None; opt_lifo := None; opt_jobId := Some id;
     opt_dependsOn := None; opt_deadLetter := None |}.

(** ** Completion and dependents ([job.ts]) *)

(** What the inner loop of [processDependents] asks of a dependency:
    [getJob] finds no job under the id, or the job it finds has a
    [finishedOn] that is set and not zero. *)
Definition finishedIn (q : Queue) (s : Store) (dependency : string) : bool :=
  match s !! getJobKey q dependency with
  | Some (Redis.VHash h) =>
      bool_decide (h = ∅) || negb (notFinished (Codec.parseJob dependency h))
  | _ => true
  end.

(** A dependent that [processDependents] releases: [getJob] finds it,
    and every dependency it lists is missing or finished. *)
Definition readyIn (q : Queue) (s : Store) (depJobId : string) : bool :=
  match s !! getJobKey q depJobId with
  | Some (Redis.VHash h) =>
      negb (bool_decide (h = ∅))
      && forallb (finishedIn q s) (Codec.strings h "dependencies")
  | _ => false
  end.

(** The store after the transaction of [moveToCompleted]. *)
Definition completedStore (q : Queue) (jobId returnvalue : string) (now : Z)
    (h : Hash) (la lc : list string) (s : Store) : Store :=
  <[getJobKey q jobId := Redis.VHash (completedHash h now returnvalue)]>
    (<[getKey q "completed" := Redis.VList (jobId :: lc)]>
       (Redis.putList (getKey q "active") (without jobId la) s)).

(** Job "A" is active at time 500; "B" waits for "A" alone, "C" waits
    for "A" and for "D", which has not finished. *)
Definition dependentsWorld : World :=
  {| redis :=
       <["queue:q:active" := Redis.VList ["A"]]>
         (<["queue:q:job:A" := Redis.VHash (<["id" := Redis.HStr "A"]> ∅)]>
            (<["queue:q:job:A:dependents" := Redis.VSet ["B"; "C"]]>
               (<["queue:q:dependency-wait" := Redis.VSet ["B"; "C"]]>
                  (<["queue:q:job:B" :=
                       Redis.VHash (<["dependencies" := Redis.HList ["A"]]>
                                      (<["id" := Redis.HStr "B"]> ∅))]>
                     (<["queue:q:job:C" :=
                          Redis.VHash (<["dependencies" := Redis.HList ["A"; "D"]]>
                                         (<["id" := Redis.HStr "C"]> ∅))]>
                        (<["queue:q:job:D" := Redis.VHash (<["id" := Redis.HStr "D"]> ∅)]>
                           ∅))))));
     clock := 500; ticks := []; ids := []; randoms := [];
     events := []; handled := [] |}.

(** ** Listing jobs ([queue.ts]) *)

(** [JobStatus] of [types.ts] *)
Module JobStatus.
Inductive t := waiting | active | completed | failed | delayed | paused.

Definition name (status : t) : string :=
  match status with
  | waiting => "waiting"
  | active => "active"
  | completed => "completed"
  | failed => "failed"
  | delayed => "delayed"
  | paused => "paused"
  end.
End JobStatus.

(** The loop of [getJobs]: ids without a job are skipped. *)
Fixpoint collectJobs (q : Queue) (jobIds : list string) : M (list Job) :=
  match jobIds with
  | [] => ret []
  | jobId :: r =>
      job ← getJob q jobId;
      result ← collectJobs q r;
      ret (match job with Some j => j :: result | None => result end)
  end.

(** [Queue.getJobs] *)
Definition getJobs (q : Queue) (status : JobStatus.t) (start end_ : Z) : M (list Job) :=
  tryCatch
    (jobIds ← match status with
              | JobStatus.delayed => Cmd.ZRANGE (getKey q (JobStatus.name status)) start end_
              | _ => Cmd.LRANGE (getKey q (JobStatus.name status)) start end_
              end;
     collectJobs q jobIds)
    (fun _ => ret []).

(** ** Stalled jobs ([worker.ts]) *)

Module StalledJobChecker.

Record t := {
  queue : Queue;
  interval : Z;
  maxRetries : Z
}.

(** The constructor: 30 seconds between checks and three retries
    unless given (and not zero). *)
Definition make (queue : Queue) (interval maxRetries : option Z) : t :=
  {| queue := queue; interval := orZ interval 30000; maxRetries := orZ maxRetries 3 |}.

Definition stalledThreshold : Z := 10000.

(** [job.processedOn && now - job.processedOn < stalledThreshold] *)
Definition isFresh (job : Job) (now : Z) : bool :=
  match job_processedOn job with
  | Some processedOn => negb (processedOn =? 0) && (now - processedOn <? stalledThreshold)
  | None => false
  end.

Definition stalledReason : string :=
  "Job stalled and exceeded maximum stalled job retries".

(** One round of the loop of [checkStalledJobs]. *)
Definition checkJob (this : t) (now : Z) (job : Job) : M unit :=
  (* Skip jobs that have a recent update *)
  if isFresh job now then ret tt
  else if job_attemptsMade job <? maxRetries this then
    (* Move the job back to the waiting queue for retry *)
    _ ← Cmd.LREM (getKey (queue this) "active") 0 (job_id job);
    _ ← Cmd.LPUSH (getKey (queue this) "waiting") (job_id job);
    _ ← Cmd.HSET (getJobKey (queue this) (job_id job)) "attemptsMade"
          (Redis.HNum (job_attemptsMade job + 1));
    emit (JobStalled (job_id job))
  else
    (* Move the job to the failed queue *)
    _ ← moveToFailed (queue this) job stalledReason (Some stalledReason);
    ret tt.

(** [checkStalledJobs] *)
Definition checkStalledJobs (this : t) : M unit :=
  tryCatch
    (activeJobs ← getJobs (queue this) JobStatus.active 0 (-1);
     if (List.length activeJobs =? 0)%nat then ret tt
     else
       now ← Date_now;
       forEach activeJobs (checkJob this now))
    (fun _ => ret tt).

End StalledJobChecker.

(** The jobs [getJob] finds for a list of ids in a store. *)
Fixpoint jobsIn (q : Queue) (s : Store) (jobIds : list string) : list Job :=
  match jobIds with
  | [] => []
  | jobId :: r =>
      match s !! getJobKey q jobId with
      | Some (Redis.VHash h) =>
          if bool_decide (h = ∅) then jobsIn q s r
          else Codec.parseJob jobId h :: jobsIn q s r
      | _ => jobsIn q s r
      end
  end.

(** The jobs of a list that the check takes for stalled. *)
Definition stalledAt (now : Z) (jobs : list Job) : list Job :=
  List.filter (fun job => negb (StalledJobChecker.isFresh job now)) jobs.

Definition retryable (this : StalledJobChecker.t) (job : Job) : bool :=
  job_attemptsMade job <? StalledJobChecker.maxRetries this.

(** At time 20000 three jobs are active: "A" was picked up at 15000,
    "B" at 5000 after one attempt, "C" at 5000 after three. *)
Definition stalledWorld : World :=
  {| redis :=
       <["queue:q:active" := Redis.VList ["A"; "B"; "C"]]>
         (<["queue:q:job:A" := Redis.VHash (<["processedOn" := Redis.HNum 15000]>
                                             (<["id" := Redis.HStr "A"]> ∅))]>
            (<["queue:q:job:B" := Redis.VHash (<["attemptsMade" := Redis.HNum 1]>
                                                (<["processedOn" := Redis.HNum 5000]>
                                                   (<["id" := Redis.HStr "B"]> ∅)))]>
               (<["queue:q:job:C" := Redis.VHash (<["attemptsMade" := Redis.HNum 3]>
                                                   (<["processedOn" := Redis.HNum 5000]>
                                                      (<["id" := Redis.HStr "C"]> ∅)))]>
                  ∅)));
     clock := 20000; ticks := []; ids := []; randoms := [];
     events := []; handled := [] |}.

(** What the check announces for a stalled job. *)
Definition stalledEvent (this : StalledJobChecker.t) (job : Job) : Event :=
  if retryable this job then JobStalled (job_id job) else JobFailed (job_id job).

(** The ids of a list that belong to none of the given jobs. *)
Definition notAmong (jobs : list Job) (jobIds : list string) : list string :=
  List.filter (fun jobId => negb (existsb (fun job => String.eqb (job_id job) jobId) jobs))
    jobIds.

(** ** Reading and emptying the dead-letter queue ([dead-letter-queue.ts]) *)

Module DeadLetter.

(** The job object [getJobs] builds from a dead-letter hash: a new
    [Job] with the constructor's defaults, and six fields read from
    the hash. *)
Definition jobOf (jobId : string) (jobObj : Hash) : Job :=
  {| job_id := jobId;
     job_data := match jobObj !! "data" with
                 | Some (Redis.HJson (JData d)) => d
                 | _ => []
                 end;
     job_name := Codec.str jobObj "originalQueue";
     job_opts := noOptions;
     job_progress := 0;
     job_delay := 0;
     job_timestamp := Codec.num jobObj "timestamp" 0;
     job_attemptsMade := Codec.num jobObj "attemptsMade" 0;
     job_stacktrace := Codec.strings jobObj "stacktrace";
     job_returnvalue := None;
     job_finishedOn := None;
     job_processedOn := None;
     job_failedReason := match jobObj !! "failedReason" with
                         | Some (Redis.HStr s) => Some s
                         | _ => None
                         end;
     job_dependencies := [] |}.

(** The loop of [getJobs]: an id whose hash is empty or cannot be read
    is skipped. *)
Fixpoint collect (deadLetterQueueKey : string) (jobIds : list string) : M (list Job) :=
  match jobIds with
  | [] => ret []
  | jobId :: r =>
      found ← tryCatch
                (jobData ← Cmd.HGETALL (deadLetterQueueKey +:+ ":" +:+ jobId);
                 ret (if bool_decide (jobData = ∅) then None
                      else Some (jobOf jobId jobData)))
                (fun _ => ret None);
      jobs ← collect deadLetterQueueKey r;
      ret (match found with Some job => job :: jobs | None => jobs end)
  end.

(** [DeadLetterQueue.getJobs] *)
Definition getJobs (q : Queue) (this : DeadLetterQueue.t) (start end_ : Z) : M (list Job) :=
  let deadLetterQueueKey := DeadLetterQueue.deadLetterQueueKey q this in
  jobIds ← Cmd.LRANGE deadLetterQueueKey start end_;
  if (List.length jobIds =? 0)%nat then ret []
  else collect deadLetterQueueKey jobIds.

(** [DeadLetterQueue.removeJob] *)
Definition removeJob (q : Queue) (this : DeadLetterQueue.t) (jobId : string) : M bool :=
  let deadLetterQueueKey := DeadLetterQueue.deadLetterQueueKey q this in
  let deadLetterKey := deadLetterQueueKey +:+ ":" +:+ jobId in
  tryCatch
    (_ ← Cmd.LREM deadLetterQueueKey 0 jobId;
     _ ← Cmd.DEL [deadLetterKey];
     ret true)
    (fun _ => ret false).

(** [DeadLetterQueue.clear] *)
Definition clear (q : Queue) (this : DeadLetterQueue.t) : M unit :=
  let deadLetterQueueKey := DeadLetterQueue.deadLetterQueueKey q this in
  tryCatch
    (jobIds ← Cmd.LRANGE deadLetterQueueKey 0 (-1);
     if (List.length jobIds =? 0)%nat then ret tt
     else
       (* Remove each job key *)
       _ ← forEach jobIds (fun jobId =>
             _ ← Cmd.DEL [deadLetterQueueKey +:+ ":" +:+ jobId]; ret tt);
       (* Clear the list *)
       _ ← Cmd.DEL [deadLetterQueueKey];
       ret tt)
    (fun err => throw err).

End DeadLetter.

(** The hash [moveToDeadLetter] leaves for a job, on top of what the
    key held. *)
Definition deadLetterHash (job : Job) (reason : string) (now : Z) (hd : Hash) : Hash :=
  fold_left (fun acc fv => <[fst fv := snd fv]> acc)
    [("id", Redis.HStr (job_id job));
     ("originalQueue", Redis.HStr (job_name job));
     ("data", Redis.HJson (JData (job_data job)));
     ("failedReason", Redis.HStr (orS (Some reason) (orS (job_failedReason job) "")));
     ("attemptsMade", Redis.HNum (job_attemptsMade job));
     ("stacktrace", Redis.HList (job_stacktrace job));
     ("timestamp", Redis.HNum now);
     ("originalTimestamp", Redis.HNum (job_timestamp job))] hd.

(** A job of queue "q" that failed three times, the last time at 900. *)
Definition thriceFailed : Job :=
  {| job_id := "A"; job_data := [("k", "v")]; job_name := "q";
     job_opts := jobWithRetries "A"; job_progress := 0; job_delay := 0;
     job_timestamp := 100; job_attemptsMade := 3;
     job_stacktrace := ["e1"; "e2"; "e3"]; job_returnvalue := None;
     job_finishedOn := Some 900; job_processedOn := Some 800;
     job_failedReason := Some "e3"; job_dependencies := [] |}.

(** At time 1000 job "A" is in the failed list and job "Z" is in the
    dead-letter list. *)
Definition deadLetterWorld : World :=
  {| redis :=
       <["queue:q:failed" := Redis.VList ["A"]]>
         (<["queue:q-dead-letter" := Redis.VList ["Z"]]>
            (<["queue:q-dead-letter:Z" := Redis.VHash (<["id" := Redis.HStr "Z"]> ∅)]> ∅));
     clock := 1000; ticks := []; ids := []; randoms := [];
     events := []; handled := [] |}.

(** ** Counting jobs ([queue.ts], [priority-queue.ts]) *)

(** [Record<JobStatus, number>] *)
Record JobCounts := {
  count_waiting : Z;
  count_active : Z;
  count_completed : Z;
  count_failed : Z;
  count_delayed : Z;
  count_paused : Z
}.

(** One round of the loop of [getJobCounts]. *)
Definition countOf (q : Queue) (status : JobStatus.t) : M Z :=
  match status with
  | JobStatus.delayed => Cmd.ZCARD (getKey q (JobStatus.name status))
  | JobStatus.paused =>
      exists_ ← Cmd.EXISTS (getKey q (JobStatus.name status));
      ret (if (exists_ : bool) then 1 else 0)
  | _ => Cmd.LLEN (getKey q (JobStatus.name status))
  end.

(** [Queue.getJobCounts]: the statuses are read in the order waiting,
    active, completed, failed, delayed, paused; an error anywhere
    gives six zeros. *)
Definition getJobCounts (q : Queue) : M JobCounts :=
  tryCatch
    (waiting ← countOf q JobStatus.waiting;
     active ← countOf q JobStatus.active;
     completed ← countOf q JobStatus.completed;
     failed ← countOf q JobStatus.failed;
     delayed ← countOf q JobStatus.delayed;
     paused ← countOf q JobStatus.paused;
     ret {| count_waiting := waiting; count_active := active;
            count_completed := completed; count_failed := failed;
            count_delayed := delayed; count_paused := paused |})
    (fun _ => ret {| count_waiting := 0; count_active := 0; count_completed := 0;
                     count_failed := 0; count_delayed := 0; count_paused := 0 |}).

Module PriorityCounts.

(** The loop of [PriorityQueue.getJobCounts] over the levels from
    [priority] upwards, [levels] of them, with the running total. *)
Fixpoint countLevels (this : PriorityQueue.t) (levels : nat) (priority : Z)
    (priorityJobs : Z) : M Z :=
  match levels with
  | O => ret priorityJobs
  | S k =>
      count ← Cmd.LLEN (PriorityQueue.getPriorityKey this priority);
      countLevels this k (priority + 1) (priorityJobs + count)
  end.

(** [PriorityQueue.getJobCounts] *)
Definition getJobCounts (this : PriorityQueue.t) : M JobCounts :=
  baseJobCounts ← getJobCounts (PriorityQueue.baseQueue this);
  let waitingJobs := count_waiting baseJobCounts in
  priorityJobs ← countLevels this (Z.to_nat (PriorityQueue.priorityLevels this)) 0 0;
  ret {| count_waiting := waitingJobs + priorityJobs;
         count_active := count_active baseJobCounts;
         count_completed := count_completed baseJobCounts;
         count_failed := count_failed baseJobCounts;
         count_delayed := count_delayed baseJobCounts;
         count_paused := count_paused baseJobCounts |}.

End PriorityCounts.

(** The ids of [n] levels from level [p] upwards. *)
Fixpoint idsFrom (level : Z -> list string) (n : nat) (p : Z) : list string :=
  match n with
  | O => []
  | S k => (level p ++ idsFrom level k (p + 1))%list
  end.

(** ** Retry after a failure *)

(** The hash of job "A" with five attempts, a backoff, and
    [attemptsMade] failures behind it. *)
Definition backoffJobHash (attemptsMade : Z) (backoff : Backoff) : Hash :=
  <["opts" := Redis.HJson (JOpts
       {| opt_delay := None; opt_attempts := Some 5; opt_backoff := Some backoff;
          opt_priority := None; opt_lifo := None; opt_jobId := Some "A";
          opt_dependsOn := None; opt_deadLetter := None |})]>
    (<["attemptsMade" := Redis.HNum attemptsMade]> (<["id" := Redis.HStr "A"]> ∅)).

(** The delay of the retry after the [k]-th failure. *)
Definition backoffDelay (backoff : Backoff) (k : Z) : Z :=
  match bo_type backoff with
  | fixed => bo_delay backoff
  | exponential => bo_delay backoff * 2 ^ (k - 1)
  end.
(** * Properties *)

(** ** Reasoning about [M] *)

Lemma bind_run {A B : Type} (m : M A) (f : A -> M B) (w : World) :
  (x ← m; f x) w =
  match m w with
  | (Ok a, w') => f a w'
  | (Throw e, w') => (Throw e, w')
  end.
Proof. reflexivity. Qed.

Lemma bind_ok {A B : Type} (m : M A) (f : A -> M B) (w w1 : World) (a : A) :
  m w = (Ok a, w1) -> (x ← m; f x) w = f a w1.
Proof. intros H. rewrite bind_run, H. reflexivity. Qed.

Lemma bind_ok_inv {A B : Type} (m : M A) (f : A -> M B) (w w' : World) (b : B) :
  (x ← m; f x) w = (Ok b, w') ->
  exists a w1, m w = (Ok a, w1) /\ f a w1 = (Ok b, w').
Proof.
  rewrite bind_run. destruct (m w) as [[a|e] w1]; intros H.
  - exists a, w1. split; [reflexivity | exact H].
  - discriminate H.
Qed.

Lemma setRedis_same (w : World) : setRedis w (redis w) = w.
Proof. destruct w; reflexivity. Qed.

(** ** Distributed lock *)

Lemma GET_string (k : string) (w : World) (stored : option string) :
  redis w !! k = Redis.VStr <$> stored -> Cmd.GET k w = (Ok stored, w).
Proof.
  intros H. unfold Cmd.GET. rewrite bind_run. unfold getStore.
  rewrite H. destruct stored; reflexivity.
Qed.

Lemma DEL_one (k : string) (w : World) :
  exists n, Cmd.DEL [k] w = (Ok n, setRedis w (delete k (redis w))).
Proof. eexists. reflexivity. Qed.

(** C5. Lock release is compare-and-delete: on a store in which the lock
    key is absent or holds a token, [release] deletes the key and returns
    true when the stored token is the caller's, and returns false and
    leaves the world as it was when the token differs or the key is
    absent. *)
Theorem release_compare_and_delete
    (this : DistributedLock.t) (resource token : string)
    (w : World) (stored : option string) :
  redis w !! DistributedLock.getLockKey this resource = Redis.VStr <$> stored ->
  (stored = Some token ->
     DistributedLock.release this resource token w
     = (Ok true, setRedis w (delete (DistributedLock.getLockKey this resource) (redis w))))
  /\ (stored <> Some token ->
     DistributedLock.release this resource token w = (Ok false, w))
  /\ (fst (DistributedLock.release this resource token w) = Ok true <-> stored = Some token).
Proof.
  intros Hk. unfold DistributedLock.release.
  rewrite (bind_ok _ _ _ _ _ (GET_string _ _ _ Hk)).
  destruct (DEL_one (DistributedLock.getLockKey this resource) w) as [n Hdel].
  repeat split.
  - intros ->. rewrite bool_decide_eq_true_2 by reflexivity.
    rewrite (bind_ok _ _ _ _ _ Hdel). reflexivity.
  - intros Hne. rewrite bool_decide_eq_false_2 by exact Hne. reflexivity.
  - destruct (decide (stored = Some token)) as [->|Hne]; [reflexivity|].
    rewrite bool_decide_eq_false_2 by exact Hne. cbn. discriminate.
  - intros ->. rewrite bool_decide_eq_true_2 by reflexivity.
    rewrite (bind_ok _ _ _ _ _ Hdel). reflexivity.
Qed.

Lemma release_compare_and_delete_witness :
  DistributedLock.release {| DistributedLock.prefix := "queue:lock" |} "job:7" "tok-1" lockWorld
  = (Ok true, setRedis lockWorld ∅)
  /\ DistributedLock.release {| DistributedLock.prefix := "queue:lock" |} "job:7" "tok-2" lockWorld
  = (Ok false, lockWorld).
Proof.
  split.
  - destruct (release_compare_and_delete {| DistributedLock.prefix := "queue:lock" |}
                "job:7" "tok-1" lockWorld (Some "tok-1")) as [H _].
    + vm_compute. reflexivity.
    + rewrite H by reflexivity. vm_compute. reflexivity.
  - destruct (release_compare_and_delete {| DistributedLock.prefix := "queue:lock" |}
                "job:7" "tok-2" lockWorld (Some "tok-1")) as (_ & H & _).
    + vm_compute. reflexivity.
    + apply H. discriminate.
Defined.

(** ** Removing a job that is not there *)

Lemma EXISTS_absent (k : string) (w : World) :
  redis w !! k = None -> Cmd.EXISTS k w = (Ok false, w).
Proof.
  intros H. unfold Cmd.EXISTS. rewrite bind_run. unfold getStore.
  rewrite H. reflexivity.
Qed.

(** [getJob] finds nothing where the key is absent, holds a value that
    is not a hash, or holds a hash without fields. *)
Lemma getJob_absent (q : Queue) (jobId : string) (w : World) :
  (forall h, redis w !! getJobKey q jobId = Some (Redis.VHash h) -> h = ∅) ->
  getJob q jobId w = (Ok None, w).
Proof.
  intros H. unfold getJob, tryCatch.
  destruct (redis w !! getJobKey q jobId) as [v|] eqn:E.
  - assert (Hex : Cmd.EXISTS (getJobKey q jobId) w = (Ok true, w)).
    { unfold Cmd.EXISTS. rewrite bind_run. unfold getStore. rewrite E. reflexivity. }
    rewrite (bind_ok _ _ _ _ _ Hex). unfold refresh, Cmd.HGETALL, Cmd.asHash.
    rewrite !bind_run. unfold getStore. rewrite E.
    destruct v as [s | l | s | z | h]; try reflexivity.
    rewrite (H h eq_refl). reflexivity.
  - rewrite (bind_ok _ _ _ _ _ (EXISTS_absent _ _ E)). reflexivity.
Qed.

(** C10. [removeJob] on an id whose job hash does not exist (the key is
    absent, or holds no hash fields) returns normally and leaves the
    whole world as it was: no key is deleted, no list, set or sorted
    set changes, and no event is emitted. *)
Theorem removeJob_absent_noop (q : Queue) (jobId : string) (w : World) :
  (forall h, redis w !! getJobKey q jobId = Some (Redis.VHash h) -> h = ∅) ->
  removeJob q jobId w = (Ok tt, w).
Proof.
  intros H. unfold removeJob, tryCatch.
  rewrite (bind_ok _ _ _ _ _ (getJob_absent _ _ _ H)). reflexivity.
Qed.

Lemma removeJob_absent_noop_witness :
  removeJob plainQueue "ghost" busyWorld = (Ok tt, busyWorld)
  /\ removeJob plainQueue "ghost" strayKeyWorld = (Ok tt, strayKeyWorld).
Proof.
  split.
  - apply (removeJob_absent_noop plainQueue "ghost" busyWorld).
    intros h H. vm_compute in H. discriminate H.
  - apply (removeJob_absent_noop plainQueue "ghost" strayKeyWorld).
    intros h H. vm_compute in H. discriminate H.
Defined.

(** ** Retry delay *)

(** The second scenario of the design document: the first failure is
    retried after 100 ms, the second after 200 ms. *)
Example exponential_backoff_delays :
  redis failedFirst !! "queue:q:delayed" = Some (Redis.VZSet [("A", 1000 + 100)])
  /\ redis failedSecond !! "queue:q:delayed" = Some (Redis.VZSet [("A", 1200 + 200)])
  /\ handled failedSecond = ["A"; "A"].
Proof. vm_compute. repeat split; reflexivity. Qed.

(** ** Submission under a rate limit *)

(** A caller asks for a delay of one minute while the limiter reports a
    reset in 9.5 seconds: the job is re-submitted with 9500, and lands in
    the delayed set 9.5 seconds after its timestamp. *)
Lemma add_rate_limited_shortens_delay :
  ~ resubmitsWithMaxDelay
  /\ redis (after (add 3 limitedQueue [] (Some oneMinuteLater)) limitedWorld)
       !! "queue:q:delayed" = Some (Redis.VZSet [("A", 10601 + 9500)]).
Proof.
  split.
  - intros H.
    specialize (H limitedQueue oneMinuteLater
                  {| RateLimiter.limited := true; RateLimiter.remaining := 0;
                     RateLimiter.resetIn := 9500 |}).
    vm_compute in H. discriminate H.
  - vm_compute. reflexivity.
Qed.

(** ** Order of service *)

(** C3. Two jobs are added with no delay, no dependencies and no [lifo]
    flag, [A] first. [add] pushes each to the head of the waiting list
    and the worker reads from the head, so the handler is given [B], the
    job added last, before [A]; a job added with [lifo] goes to the
    tail and is served last. *)
Theorem default_submission_is_served_newest_first :
  redis twoSubmitted !! "queue:q:waiting" = Some (Redis.VList ["B"; "A"])
  /\ handled (after (Worker.processJobs (succeeding plainQueue 1) []) twoSubmitted) = ["B"]
  /\ handled (after (Worker.processJobs (succeeding plainQueue 2) []) twoSubmitted) = ["B"; "A"]
  /\ redis (after (add 1 plainQueue []
                     (Some {| opt_delay := None; opt_attempts := None; opt_backoff := None;
                              opt_priority := None; opt_lifo := Some true;
                              opt_jobId := Some "C"; opt_dependsOn := None;
                              opt_deadLetter := None |})) twoSubmitted)
       !! "queue:q:waiting" = Some (Redis.VList ["B"; "A"; "C"]).
Proof. vm_compute. repeat split; reflexivity. Qed.

(** C2. One pump pass over a low-priority and a high-priority job moves
    both into the waiting list, but the level drained second is pushed
    in front of the level drained first: the low-priority job ends at
    the head and is the one the worker hands to the handler first. *)
Theorem pump_puts_lowest_level_at_head :
  redis pumped !! "queue:q:waiting" = Some (Redis.VList ["low"; "high"])
  /\ redis pumped !! "queue:q:priority:0" = None
  /\ redis pumped !! "queue:q:priority:1" = None
  /\ handled (after (Worker.processJobs (succeeding plainQueue 1) []) pumped) = ["low"]
  /\ handled (after (Worker.processJobs (succeeding plainQueue 2) []) pumped) = ["low"; "high"].
Proof. vm_compute. repeat split; reflexivity. Qed.

(** ** One state per job *)

(** C1. A job with retries and a backoff delay fails once: the worker
    moves it from active to failed and then adds it to the delayed set
    without taking it out of failed, so the id sits in two state
    structures. When the retry later succeeds the id is in failed and
    in completed. *)
Theorem delayed_retry_leaves_job_in_failed :
  statesOf plainQueue failedOnce "A"
    = [false; false; false; true; true; false; false; false]
  /\ ~ singleState plainQueue failedOnce
  /\ statesOf plainQueue retriedLater "A"
    = [false; false; true; true; false; false; false; false]
  /\ ~ singleState plainQueue retriedLater.
Proof.
  assert (H1 : stateCount plainQueue failedOnce "A" = 2%nat) by (vm_compute; reflexivity).
  assert (H2 : stateCount plainQueue retriedLater "A" = 2%nat) by (vm_compute; reflexivity).
  split; [|split; [|split]].
  - vm_compute. reflexivity.
  - intros H. specialize (H "A"). rewrite H1 in H. lia.
  - vm_compute. reflexivity.
  - intros H. specialize (H "A"). rewrite H2 in H. lia.
Qed.

(** ** Rate limiter *)

Lemma rangeOf_head {A : Type} (x : A) (r : list A) : Redis.rangeOf 0 0 (x :: r) = [x].
Proof.
  unfold Redis.rangeOf. cbn [List.length].
  replace (Z.min 0 (Z.of_nat (S (List.length r)) - 1)) with 0 by lia.
  reflexivity.
Qed.

Lemma asZSet_window (k : string) (w : World) (z : list (string * Z)) :
  windowAt (redis w) k = Some z -> Cmd.asZSet k w = (Ok z, w).
Proof.
  unfold windowAt, Cmd.asZSet. rewrite bind_run. unfold getStore.
  destruct (redis w !! k) as [[]|]; intros H; inversion H; reflexivity.
Qed.

Lemma windowAt_put (k : string) (s : Store) (z : list (string * Z)) :
  windowAt (Redis.putZSet k z s) k = Some z.
Proof.
  unfold windowAt, Redis.putZSet. destruct z.
  - rewrite lookup_delete_eq. reflexivity.
  - rewrite lookup_insert_eq. reflexivity.
Qed.

(** The script, run on a key that holds a window set. *)
Lemma rateLimit_run (key identifier : string) (max duration now : Z)
    (w : World) (z : list (string * Z)) :
  let k := key +:+ ":" +:+ identifier in
  let tr := trim duration now z in
  let count := Z.of_nat (List.length tr) in
  windowAt (redis w) k = Some z ->
  RateLimit.rateLimit key identifier max duration now w =
  if max <=? count then
    (Ok (1, Z.max 0 (max - count), resetOf duration now tr),
     setRedis w (Redis.putZSet k tr (redis w)))
  else
    (Ok (0, Z.max 0 (max - (count + 1)), resetOf duration now tr),
     setRedis (drawn (setRedis w (Redis.putZSet k tr (redis w))))
       (<[k := Redis.VZSet (Redis.zadd now (tokenAt now w) tr)]>
          (Redis.putZSet k tr (redis w)))).
Proof.
  intros k tr count Hz. unfold RateLimit.rateLimit. fold k.
  (* ZREMRANGEBYSCORE *)
  assert (Hrem : exists n, Cmd.ZREMRANGEBYSCORE k 0 (now - duration) w
                 = (Ok n, setRedis w (Redis.putZSet k tr (redis w)))).
  { unfold Cmd.ZREMRANGEBYSCORE. rewrite (bind_ok _ _ _ _ _ (asZSet_window _ _ _ Hz)).
    eexists. reflexivity. }
  destruct Hrem as [n Hrem]. rewrite (bind_ok _ _ _ _ _ Hrem).
  set (w1 := setRedis w (Redis.putZSet k tr (redis w))).
  assert (Hw1 : windowAt (redis w1) k = Some tr) by apply windowAt_put.
  (* ZCARD *)
  assert (Hcard : Cmd.ZCARD k w1 = (Ok count, w1)).
  { unfold Cmd.ZCARD. rewrite (bind_ok _ _ _ _ _ (asZSet_window _ _ _ Hw1)). reflexivity. }
  rewrite (bind_ok _ _ _ _ _ Hcard).
  (* time to reset *)
  assert (Hreset :
    (if 0 <? count
     then oldest ← Cmd.ZRANGE_WITHSCORES k 0 0;
          match oldest with
          | (_, oldestToken) :: _ => ret (Z.max 0 (oldestToken + duration - now))
          | [] => throw "attempt to perform arithmetic on a nil value"
          end
     else ret 0) w1 = (Ok (resetOf duration now tr), w1)).
  { subst count. destruct tr as [|[m sc] r] eqn:Etr.
    - reflexivity.
    - replace (0 <? Z.of_nat (List.length ((m, sc) :: r))) with true
        by (symmetry; apply Z.ltb_lt; cbn [List.length]; lia).
      unfold Cmd.ZRANGE_WITHSCORES.
      rewrite bind_run, (bind_ok _ _ _ _ _ (asZSet_window _ _ _ Hw1)).
      unfold ret at 1. rewrite rangeOf_head. reflexivity. }
  rewrite (bind_ok _ _ _ _ _ Hreset).
  destruct (max <=? count) eqn:Emax.
  - reflexivity.
  - cbn [Z.eqb]. rewrite bind_run.
    assert (Hadd : (rnd ← math_random;
                    _ ← Cmd.ZADD k now (pretty now +:+ ":" +:+ rnd);
                    ret (count + 1)) w1
                   = (Ok (count + 1),
                      setRedis (drawn w1)
                        (<[k := Redis.VZSet (Redis.zadd now (tokenAt now w) tr)]>
                           (Redis.putZSet k tr (redis w))))).
    { rewrite bind_run. unfold math_random, drawn, tokenAt.
      replace (randoms w1) with (randoms w) by reflexivity.
      destruct (randoms w) as [|x r] eqn:Er.
      - cbn [hd]. unfold Cmd.ZADD.
        rewrite bind_run, (bind_ok _ _ _ _ _ (asZSet_window _ _ _ Hw1)).
        reflexivity.
      - cbn [hd]. unfold Cmd.ZADD.
        rewrite bind_run.
        assert (Hw1' : windowAt (redis (setRandoms w1 r)) k = Some tr) by exact Hw1.
        rewrite (bind_ok _ _ _ _ _ (asZSet_window _ _ _ Hw1')).
        reflexivity. }
    rewrite Hadd. reflexivity.
Qed.

Lemma zremMember_fresh (m : string) (z : list (string * Z)) :
  Redis.zhas m z = false -> Redis.zremMember m z = z.
Proof.
  unfold Redis.zhas, Redis.zremMember. induction z as [|e r IH]; cbn; [reflexivity|].
  intros H. apply orb_false_iff in H as [He Hr]. rewrite He. cbn. f_equal. auto.
Qed.

Lemma zhas_filter (m : string) (P : string * Z -> bool) (z : list (string * Z)) :
  Redis.zhas m z = false -> Redis.zhas m (List.filter P z) = false.
Proof.
  unfold Redis.zhas. induction z as [|e r IH]; cbn; [reflexivity|].
  intros H. apply orb_false_iff in H as [He Hr].
  destruct (P e); cbn; [rewrite He|]; auto.
Qed.

Lemma filter_zinsert_length (P : string * Z -> bool) (e : string * Z)
    (z : list (string * Z)) :
  List.length (List.filter P (Redis.zinsert e z))
  = (List.length (List.filter P z) + (if P e then 1 else 0))%nat.
Proof.
  induction z as [|x r IH]; cbn.
  - destruct (P e); reflexivity.
  - destruct (Redis.zbefore e x); cbn.
    + destruct (P e), (P x); cbn; lia.
    + destruct (P x); cbn; rewrite IH; lia.
Qed.

Lemma zinsert_length (e : string * Z) (z : list (string * Z)) :
  List.length (Redis.zinsert e z) = S (List.length z).
Proof.
  induction z as [|x r IH]; cbn; [reflexivity|].
  destruct (Redis.zbefore e x); cbn; [reflexivity | rewrite IH; reflexivity].
Qed.

Lemma inWindow_zadd (duration t now : Z) (m : string) (z : list (string * Z)) :
  Redis.zhas m z = false ->
  inWindow duration t (Redis.zadd now m z)
  = inWindow duration t z + (if (t - duration <? now) && (now <=? t) then 1 else 0).
Proof.
  intros H. unfold inWindow, Redis.zadd. rewrite (zremMember_fresh _ _ H).
  rewrite filter_zinsert_length. cbn [snd].
  destruct ((t - duration <? now) && (now <=? t)); lia.
Qed.

Lemma inWindow_trim (duration t now : Z) (z : list (string * Z)) :
  now <= t -> inWindow duration t (trim duration now z) = inWindow duration t z.
Proof.
  intros Hle. unfold inWindow, trim. f_equal. f_equal.
  induction z as [|e r IH]; cbn; [reflexivity|].
  unfold Redis.inScore at 1.
  destruct ((0 <=? snd e) && (snd e <=? now - duration)) eqn:E; cbn.
  - apply andb_true_iff in E as [_ E]. apply Z.leb_le in E.
    replace (t - duration <? snd e) with false by (symmetry; apply Z.ltb_ge; lia).
    cbn. exact IH.
  - destruct ((t - duration <? snd e) && (snd e <=? t)); cbn; [f_equal|]; exact IH.
Qed.

Lemma inWindow_le_length (duration t : Z) (z : list (string * Z)) :
  inWindow duration t z <= Z.of_nat (List.length z).
Proof.
  unfold inWindow. apply inj_le. apply List.filter_length_le.
Qed.

Lemma inWindow_nonneg (duration t : Z) (z : list (string * Z)) :
  0 <= inWindow duration t z.
Proof. unfold inWindow. lia. Qed.

Lemma passedInWindow_late (duration t : Z) (nows : list Z) (flags : list Z) :
  (forall now, In now nows -> t < now) -> passedInWindow duration t nows flags = 0.
Proof.
  revert flags. induction nows as [|now r IH]; intros flags H; [reflexivity|].
  destruct flags as [|f fl]; [reflexivity|]. cbn [passedInWindow].
  rewrite IH by (intros; apply H; right; assumption).
  replace (now <=? t) with false
    by (symmetry; apply Z.leb_gt; apply H; left; reflexivity).
  rewrite andb_false_r. reflexivity.
Qed.

Lemma inZSetAt_window (s : Store) (k m : string) (z : list (string * Z)) :
  windowAt s k = Some z -> inZSetAt s k m = false -> Redis.zhas m z = false.
Proof.
  unfold windowAt, inZSetAt. destruct (s !! k) as [[]|]; intros H; inversion H; subst; auto.
Qed.

(** Calls let through in a window, counted together with the entries the
    window set already holds there, never exceed the larger of [max] and
    what was there at the start. *)
Lemma checks_window_bound (key identifier : string) (max duration t : Z)
    (w : World) (nows : list Z) (flags : list Z) (w' : World) :
  Checks key identifier max duration w nows flags w' ->
  forall z, windowAt (redis w) (key +:+ ":" +:+ identifier) = Some z ->
  nondecreasing nows ->
  inWindow duration t z + passedInWindow duration t nows flags
  <= Z.max max (inWindow duration t z).
Proof.
  induction 1 as [w | w now limited remaining timeToReset w1 nows flags w2 Hrun Hfresh _ IH];
    intros z Hz Hmono.
  - cbn. lia.
  - destruct Hmono as [Hhead Hmono].
    destruct (Z.lt_ge_cases t now) as [Hlate | Hin].
    + rewrite passedInWindow_late; [lia|].
      intros now' [<- | Hin']; [exact Hlate | specialize (Hhead _ Hin'); lia].
    + pose proof (rateLimit_run key identifier max duration now w z Hz) as Hspec.
      cbv zeta in Hspec. rewrite Hrun in Hspec.
      set (k := key +:+ ":" +:+ identifier) in *.
      set (tr := trim duration now z) in *.
      pose proof (inWindow_trim duration t now z Hin) as Htrim. fold tr in Htrim.
      destruct (max <=? Z.of_nat (List.length tr)) eqn:Emax.
      * (* limited *)
        inversion Hspec; subst limited w1.
        specialize (IH tr (windowAt_put _ _ _) Hmono).
        cbn [passedInWindow Z.eqb andb]. rewrite Htrim in IH. lia.
      * (* let through *)
        inversion Hspec; subst limited w1. apply Z.leb_gt in Emax.
        assert (Hm : Redis.zhas (tokenAt now w) tr = false).
        { apply zhas_filter. eapply inZSetAt_window; [exact Hz | apply Hfresh; reflexivity]. }
        assert (Hw : windowAt
                       (redis (setRedis (drawn (setRedis w (Redis.putZSet k tr (redis w))))
                                 (<[k := Redis.VZSet (Redis.zadd now (tokenAt now w) tr)]>
                                    (Redis.putZSet k tr (redis w))))) k
                     = Some (Redis.zadd now (tokenAt now w) tr)).
        { cbn [redis setRedis]. unfold windowAt. rewrite lookup_insert_eq. reflexivity. }
        specialize (IH _ Hw Hmono).
        rewrite (inWindow_zadd duration t now _ tr Hm), Htrim in IH.
        pose proof (inWindow_le_length duration t tr) as Hlen. rewrite Htrim in Hlen.
        cbn [passedInWindow Z.eqb andb].
        destruct ((t - duration <? now) && (now <=? t)); lia.
Qed.

Lemma zinsert_perm (e : string * Z) (z : list (string * Z)) :
  Permutation (Redis.zinsert e z) (e :: z).
Proof.
  induction z as [|x r IH]; cbn; [reflexivity|].
  destruct (Redis.zbefore e x); [reflexivity|].
  rewrite IH. apply perm_swap.
Qed.

(** The boundary entry: a token taken exactly [duration] ago is dropped
    by the script, so a call at 10 passes although the set trimmed to
    scores of at least [now - duration] still holds [max] entries; and
    from an empty set calls at 0 and at 10 are both let through with
    [max = 1] and [duration = 10]. *)
Lemma rate_limit_drops_boundary_entry :
  ~ limitedIffStrictWindow
  /\ fst (RateLimit.rateLimit "queue:q:limit" "q" 1 10 10 tokenAtZero) = Ok (0, 0, 0)
  /\ fst (RateLimit.rateLimit "queue:q:limit" "q" 1 10 0 noTokens) = Ok (0, 0, 0)
  /\ fst (RateLimit.rateLimit "queue:q:limit" "q" 1 10 10
            (after (RateLimit.rateLimit "queue:q:limit" "q" 1 10 0) noTokens))
     = Ok (0, 0, 0).
Proof.
  split; [|vm_compute; repeat split; reflexivity].
  intros H.
  destruct (RateLimit.rateLimit "queue:q:limit" "q" 1 10 10 tokenAtZero)
    as [r w'] eqn:E.
  assert (Hr : r = Ok (0, 0, 0)) by (vm_compute in E; inversion E; reflexivity).
  subst r.
  specialize (H "queue:q:limit" "q" 1 10 10 tokenAtZero w' [("0:0.25", 0)] 0 0 0
                eq_refl E).
  destruct H as [_ H]. discriminate H. vm_compute. discriminate.
Qed.

(** C4. The rate limiter does not count a call whose member is already
    in the window set. The member the script adds is
    [now .. ":" .. math.random()]; when two calls read the same
    millisecond and [math.random()] returns the same number, ZADD
    finds the member present and only rewrites its score, so ZCARD
    stays where it was. With [max = 2] and [duration = 10000], four
    calls at the reading 1000 that all draw 0.5 are all let through
    ([limited = 0]), the window set holds the single entry
    [("1000:0.5", 1000)] afterwards, and the number of calls let
    through in the window ending at 1000 is 4. So a call let through
    does not always add a new entry, and the ceiling of [max] calls per
    window does not hold of the script. *)
Theorem rate_limit_repeated_member_not_counted :
  exists w',
    checks "queue:q:limit" "q" 2 10000 [1000; 1000; 1000; 1000] sameDraw
      = (Ok [(0, 1, 0); (0, 0, 10000); (0, 0, 10000); (0, 0, 10000)], w')
    /\ windowAt (redis w') "queue:q:limit:q" = Some [("1000:0.5", 1000)]
    /\ windowAt (redis (after (RateLimit.rateLimit "queue:q:limit" "q" 2 10000 1000) sameDraw))
         "queue:q:limit:q" = Some [("1000:0.5", 1000)]
    /\ passedInWindow 10000 1000 [1000; 1000; 1000; 1000] [0; 0; 0; 0] = 4
    /\ ~ (forall (key identifier : string) (max duration t : Z) (w w' : World)
                 (nows : list Z) (replies : list (Z * Z * Z)),
            checks key identifier max duration nows w = (Ok replies, w') ->
            0 <= max ->
            nondecreasing nows ->
            passedInWindow duration t nows (List.map (fun r => fst (fst r)) replies) <= max).
Proof.
  destruct (checks "queue:q:limit" "q" 2 10000 [1000; 1000; 1000; 1000] sameDraw)
    as [r w'] eqn:E.
  exists w'.
  assert (Hr : r = Ok [(0, 1, 0); (0, 0, 10000); (0, 0, 10000); (0, 0, 10000)])
    by (vm_compute in E; inversion E; reflexivity).
  assert (Hw : windowAt (redis w') "queue:q:limit:q" = Some [("1000:0.5", 1000)])
    by (vm_compute in E; inversion E; vm_compute; reflexivity).
  subst r.
  split; [reflexivity|].
  split; [exact Hw|].
  split; [vm_compute; reflexivity|].
  split; [reflexivity|].
  intros H.
  specialize (H "queue:q:limit" "q" 2 10000 1000 sameDraw w'
                [1000; 1000; 1000; 1000] _ E ltac:(lia) ltac:(cbn; intuition lia)).
  vm_compute in H. apply H. reflexivity.
Qed.

(** What the script does guarantee. One call on a window set [z]:
    [limited] is 1 exactly when [z] without the entries of score between
    0 and [now - duration], both included, holds at least [max] entries;
    the reset time is [max(0, oldestScore + duration - now)] for the
    first entry of that trimmed set and 0 when it is empty; a limited
    call leaves the trimmed set, a call let through adds to it one entry
    with score [now], which makes it one entry longer when the member
    drawn is new. For clock readings that never go back and members that
    are new, the calls let through at readings in any window
    [(t - duration, t]] number at most [max]. *)
Theorem rate_limit_window_semantics (key identifier : string) (max duration : Z) :
  (forall (now : Z) (w : World) (z : list (string * Z)),
     windowAt (redis w) (key +:+ ":" +:+ identifier) = Some z ->
     exists limited remaining timeToReset w',
       RateLimit.rateLimit key identifier max duration now w
         = (Ok (limited, remaining, timeToReset), w')
       /\ (limited = 1 \/ limited = 0)
       /\ (limited = 1 <-> max <= Z.of_nat (List.length (trim duration now z)))
       /\ timeToReset = resetOf duration now (trim duration now z)
       /\ (limited = 1 ->
             windowAt (redis w') (key +:+ ":" +:+ identifier) = Some (trim duration now z))
       /\ (limited = 0 ->
             windowAt (redis w') (key +:+ ":" +:+ identifier)
               = Some (Redis.zadd now (tokenAt now w) (trim duration now z))
             /\ (Redis.zhas (tokenAt now w) (trim duration now z) = false ->
                   Permutation (Redis.zadd now (tokenAt now w) (trim duration now z))
                               ((tokenAt now w, now) :: trim duration now z))))
  /\ (forall (w w' : World) (nows replies : list Z) (z : list (string * Z)) (t : Z),
        Checks key identifier max duration w nows replies w' ->
        windowAt (redis w) (key +:+ ":" +:+ identifier) = Some z ->
        nondecreasing nows ->
        0 <= max ->
        passedInWindow duration t nows replies <= max).
Proof.
  split.
  - intros now w z Hz.
    pose proof (rateLimit_run key identifier max duration now w z Hz) as Hspec.
    cbv zeta in Hspec.
    set (k := key +:+ ":" +:+ identifier) in *.
    set (tr := trim duration now z) in *.
    destruct (max <=? Z.of_nat (List.length tr)) eqn:Emax.
    + do 4 eexists. split; [exact Hspec|].
      apply Z.leb_le in Emax.
      repeat split; auto; try discriminate.
      intros _. cbn [redis setRedis]. apply windowAt_put.
    + do 4 eexists. split; [exact Hspec|].
      apply Z.leb_gt in Emax.
      split; [right; reflexivity|].
      split; [split; [discriminate | lia]|].
      split; [reflexivity|].
      split; [discriminate|].
      intros _. split.
      * cbn [redis setRedis]. unfold windowAt. rewrite lookup_insert_eq. reflexivity.
      * intros Hfresh. unfold Redis.zadd. rewrite (zremMember_fresh _ _ Hfresh).
        apply zinsert_perm.
  - intros w w' nows replies z t Hrun Hz Hmono Hmax.
    pose proof (checks_window_bound key identifier max duration t w nows replies w'
                  Hrun z Hz Hmono) as H.
    pose proof (inWindow_nonneg duration t z). lia.
Qed.

Lemma rate_limit_window_semantics_witness :
  passedInWindow 10 9 [0; 5; 10] [0; 1; 0] <= 1.
Proof.
  refine (proj2 (rate_limit_window_semantics "queue:q:limit" "q" 1 10)
            noTokens _ [0; 5; 10] [0; 1; 0] [] 9 _ _ _ _).
  - eapply checks_cons; [vm_compute; reflexivity | intros _; vm_compute; reflexivity |].
    eapply checks_cons; [vm_compute; reflexivity | intros H; discriminate H |].
    eapply checks_cons; [vm_compute; reflexivity | intros _; vm_compute; reflexivity |].
    apply checks_nil.
  - vm_compute. reflexivity.
  - cbn. intuition lia.
  - lia.
Defined.

(** ** Work coordinator *)

Lemma sumZ_app (a b : list Z) : sumZ (a ++ b) = sumZ a + sumZ b.
Proof. induction a as [|x a IH]; cbn; [reflexivity | rewrite IH; lia]. Qed.

Lemma sumZ_perm (a b : list Z) : Permutation a b -> sumZ a = sumZ b.
Proof. induction 1; cbn; lia. Qed.

Lemma sumZ_map_ext {A : Type} (f g : A -> Z) (l : list A) :
  (forall x, In x l -> f x = g x) -> sumZ (List.map f l) = sumZ (List.map g l).
Proof.
  induction l as [|x l IH]; cbn; intros H; [reflexivity|].
  rewrite H by (left; reflexivity). rewrite IH; [reflexivity|].
  intros y Hy. apply H. right. exact Hy.
Qed.

Lemma assigned_some (d : gmap string Z) (id : string) (v : Z) :
  d !! id = Some v -> WorkCoordinator.assigned d id = v.
Proof.
  unfold WorkCoordinator.assigned, orZ. intros ->.
  destruct (Z.eqb_spec v 0); congruence.
Qed.

Lemma assigned_insert_ne (d : gmap string Z) (x id : string) (v : Z) :
  x <> id -> WorkCoordinator.assigned (<[x := v]> d) id = WorkCoordinator.assigned d id.
Proof. intros H. unfold WorkCoordinator.assigned. rewrite lookup_insert_ne; auto. Qed.

Lemma sum_assigned_insert_notin (d : gmap string Z) (x : string) (v : Z) (l : list string) :
  ~ In x l ->
  sumZ (List.map (WorkCoordinator.assigned (<[x := v]> d)) l)
  = sumZ (List.map (WorkCoordinator.assigned d) l).
Proof.
  intros H. apply sumZ_map_ext. intros y Hy. apply assigned_insert_ne.
  intros ->. contradiction.
Qed.

Lemma sum_assigned_insert_in (d : gmap string Z) (x : string) (v v' : Z) (l : list string) :
  List.NoDup l -> In x l -> d !! x = Some v ->
  sumZ (List.map (WorkCoordinator.assigned (<[x := v']> d)) l)
  = sumZ (List.map (WorkCoordinator.assigned d) l) + (v' - v).
Proof.
  induction 1 as [|y l Hy Hnd IH]; intros Hin Hx; [contradiction|].
  cbn [List.map sumZ].
  destruct Hin as [-> | Hin].
  - rewrite (sum_assigned_insert_notin _ _ _ _ Hy).
    rewrite (assigned_some _ _ _ Hx).
    rewrite (assigned_some (<[x:=v']> d) x v') by apply lookup_insert_eq. lia.
  - rewrite IH by assumption.
    rewrite assigned_insert_ne by (intros ->; contradiction). lia.
Qed.

Section FairDistribution.

Variable floorShare : Z -> Z -> Z -> Z.
Variable maxWorkersPerInstance : Z.
Variable instanceInfo : gmap string WorkCoordinator.InstanceInfo.

(** Rounding to nearest is monotone and [maxWorkers / remainingCapacity]
    is at most 1, so the doubles never give a share above the workers
    that remain. *)
Hypothesis floorShare_le :
  forall m c r, 0 < m <= c -> 0 <= r -> floorShare m c r <= r.

Abbreviation cap := (capacityOf maxWorkersPerInstance instanceInfo).
Abbreviation asg := WorkCoordinator.assigned.
Abbreviation within := (within maxWorkersPerInstance instanceInfo).
Abbreviation secondPass := (WorkCoordinator.secondPass maxWorkersPerInstance).

Lemma totals_sum (l : list string) (a b : Z) :
  (forall id, In id l -> exists info, instanceInfo !! id = Some info) ->
  WorkCoordinator.totals maxWorkersPerInstance instanceInfo l a b
  = (a + sumZ (List.map (assignedOf instanceInfo) l), b + sumZ (List.map cap l)).
Proof.
  revert a b. induction l as [|id l IH]; intros a b H; cbn [WorkCoordinator.totals List.map sumZ].
  - f_equal; lia.
  - destruct (H id (or_introl eq_refl)) as [info Hinfo].
    unfold assignedOf at 1, capacityOf at 1. rewrite Hinfo.
    rewrite IH by (intros; apply H; right; assumption). f_equal; lia.
Qed.

Lemma firstPass_spec (l : list string) :
  List.NoDup l ->
  (forall id, In id l -> exists info, instanceInfo !! id = Some info
      /\ 0 < WorkCoordinator.capacity maxWorkersPerInstance info) ->
  forall (d : gmap string Z) (r c : Z),
    c = sumZ (List.map cap l) -> 0 <= r ->
    exists d' rem,
      WorkCoordinator.firstPass floorShare maxWorkersPerInstance instanceInfo l d r c
        = WorkCoordinator.Done (d', rem)
      /\ 0 <= rem
      /\ within l d'
      /\ (forall id, ~ In id l -> d' !! id = d !! id)
      /\ sumZ (List.map (asg d') l) = r - rem.
Proof.
  induction 1 as [|x l Hx Hnd IH]; intros Hinfo d r c Hc Hr.
  - exists d, r. cbn. repeat split; auto; try lia. intros id [].
  - destruct (Hinfo x (or_introl eq_refl)) as (info & Hix & Hpos).
    cbn [WorkCoordinator.firstPass]. rewrite Hix.
    set (m := WorkCoordinator.capacity maxWorkersPerInstance info) in *.
    set (share := Z.min (floorShare m c r) m).
    assert (Hrest : 0 <= sumZ (List.map cap l)).
    { clear -Hinfo. induction l as [|y l IH]; cbn; [lia|].
      destruct (Hinfo y (or_intror (or_introl eq_refl))) as (iy & Hy & Hp).
      unfold capacityOf at 1. rewrite Hy.
      assert (0 <= sumZ (List.map cap l)); [|lia].
      apply IH. intros id [->|Hid]; [apply Hinfo; left; reflexivity|].
      apply Hinfo. right. right. exact Hid. }
    assert (Hcx : c = m + sumZ (List.map cap l)).
    { rewrite Hc. cbn [List.map sumZ]. unfold capacityOf at 1. rewrite Hix. reflexivity. }
    assert (Hshare : share <= r /\ share <= m).
    { subst share. split; [|lia].
      pose proof (floorShare_le m c r ltac:(lia) Hr). lia. }
    destruct (IH (fun id Hid => Hinfo id (or_intror Hid))
                (<[x := share]> d) (r - share) (c - m) ltac:(lia) ltac:(lia))
      as (d' & rem & Hrun & Hrem & Hwithin & Hout & Hsum).
    exists d', rem. split; [exact Hrun|]. split; [exact Hrem|].
    assert (Hdx : d' !! x = Some share).
    { rewrite Hout by exact Hx. apply lookup_insert_eq. }
    repeat split.
    + intros id [<- | Hid]; [|apply Hwithin; exact Hid].
      exists info, share. repeat split; auto. lia.
    + intros id Hid. rewrite Hout by (intros H; apply Hid; right; exact H).
      apply lookup_insert_ne. intros ->. apply Hid. left. reflexivity.
    + cbn [List.map sumZ]. rewrite (assigned_some _ _ _ Hdx). lia.
Qed.


Lemma secondPass_exit (fuel : nat) (l : list string) (i : Z) (d : gmap string Z) (rem : Z) :
  rem <= 0 \/ Z.of_nat (List.length l) <= i ->
  secondPass fuel instanceInfo l i d rem = WorkCoordinator.Done d.
Proof.
  intros H.
  assert (E : (i <? Z.of_nat (List.length l)) && (0 <? rem) = false).
  { apply andb_false_iff. destruct H; [right; apply Z.ltb_ge | left; apply Z.ltb_ge]; lia. }
  destruct fuel; cbn [WorkCoordinator.secondPass]; rewrite E; reflexivity.
Qed.

Lemma secondPass_step (fuel : nat) (pre suf : list string) (x : string)
    (d : gmap string Z) (rem : Z) (info : WorkCoordinator.InstanceInfo) (v : Z) :
  0 < rem ->
  instanceInfo !! x = Some info ->
  d !! x = Some v ->
  let l := (pre ++ x :: suf)%list in
  let i := Z.of_nat (List.length pre) in
  let d1 := if v <? WorkCoordinator.capacity maxWorkersPerInstance info
            then <[x := v + 1]> d else d in
  let rem1 := if v <? WorkCoordinator.capacity maxWorkersPerInstance info
              then rem - 1 else rem in
  secondPass (S fuel) instanceInfo l i d rem
  = secondPass fuel instanceInfo l
      (match suf with
       | [] => if 0 <? rem1 then 0 else i + 1
       | _ => i + 1
       end) d1 rem1.
Proof.
  intros Hrem Hinfo Hd l i d1 rem1.
  assert (Hlen : Z.of_nat (List.length l) = i + 1 + Z.of_nat (List.length suf)).
  { subst l i. rewrite List.length_app. cbn [List.length]. lia. }
  cbn [WorkCoordinator.secondPass].
  replace (i <? Z.of_nat (List.length l)) with true by (symmetry; apply Z.ltb_lt; lia).
  replace (0 <? rem) with true by (symmetry; apply Z.ltb_lt; lia).
  cbn [andb].
  replace (l !! Z.to_nat i) with (Some x).
  2:{ subst l i. rewrite Nat2Z.id. symmetry. apply list_lookup_middle. reflexivity. }
  rewrite Hinfo, Hd. subst d1 rem1.
  destruct (v <? WorkCoordinator.capacity maxWorkersPerInstance info);
    (destruct suf as [|y suf'];
     [ replace (i =? Z.of_nat (List.length l) - 1) with true
         by (symmetry; apply Z.eqb_eq; cbn [List.length] in Hlen; lia);
       cbn [andb];
       match goal with |- context [0 <? ?r] => destruct (0 <? r) end; reflexivity
     | replace (i =? Z.of_nat (List.length l) - 1) with false
         by (symmetry; apply Z.eqb_neq; cbn [List.length] in Hlen; lia);
       reflexivity ]).
Qed.

Lemma within_insert (l : list string) (d : gmap string Z) (x : string)
    (info : WorkCoordinator.InstanceInfo) (v : Z) :
  within l d ->
  instanceInfo !! x = Some info ->
  0 < WorkCoordinator.capacity maxWorkersPerInstance info ->
  v <= WorkCoordinator.capacity maxWorkersPerInstance info ->
  within l (<[x := v]> d).
Proof.
  intros Hw Hinfo Hpos Hv id Hid.
  destruct (decide (x = id)) as [<- | Hne].
  - exists info, v. rewrite lookup_insert_eq. auto.
  - destruct (Hw id Hid) as (i & u & ? & ? & ? & ?).
    exists i, u. rewrite lookup_insert_ne by exact Hne. auto.
Qed.

Lemma sumZ_map_le {A : Type} (f g : A -> Z) (l : list A) :
  (forall x, In x l -> f x <= g x) -> sumZ (List.map f l) <= sumZ (List.map g l).
Proof.
  induction l as [|x l IH]; cbn; intros H; [lia|].
  pose proof (H x (or_introl eq_refl)).
  assert (sumZ (List.map f l) <= sumZ (List.map g l)); [|lia].
  apply IH. intros y Hy. apply H. right. exact Hy.
Qed.

(** One sweep of the second pass from index [length pre] to the end of
    the list: it ends with the workers used up or back at index 0. *)
Lemma sweep (l : list string) :
  List.NoDup l ->
  forall (suf pre : list string) (d : gmap string Z) (rem : Z),
    l = (pre ++ suf)%list -> suf <> [] -> within l d -> 0 < rem ->
    exists n d' rem',
      (forall fuel,
         secondPass (n + fuel) instanceInfo l (Z.of_nat (List.length pre)) d rem
         = secondPass fuel instanceInfo l 0 d' rem')
      /\ within l d'
      /\ 0 <= rem' <= rem
      /\ (forall id, ~ In id l -> d' !! id = d !! id)
      /\ sumZ (List.map (asg d') l) + rem' = sumZ (List.map (asg d) l) + rem
      /\ (rem' < rem \/ forall id, In id suf -> cap id <= asg d id).
Proof.
  intros Hnd suf. induction suf as [|x suf IH]; intros pre d rem Hl Hne Hw Hrem;
    [congruence|].
  assert (Hxin : In x l) by (rewrite Hl; apply in_or_app; right; left; reflexivity).
  destruct (Hw x Hxin) as (info & v & Hinfo & Hpos & Hd & Hv).
  pose proof (fun fuel => secondPass_step fuel pre suf x d rem info v Hrem Hinfo Hd) as Hstep.
  cbv zeta in Hstep. rewrite <- Hl in Hstep.
  assert (Hcapx : cap x = WorkCoordinator.capacity maxWorkersPerInstance info).
  { unfold capacityOf. rewrite Hinfo. reflexivity. }
  assert (Hnext : l = ((pre ++ [x]) ++ suf)%list).
  { rewrite Hl, <- List.app_assoc. reflexivity. }
  assert (Hidx : Z.of_nat (List.length pre) + 1 = Z.of_nat (List.length (pre ++ [x])%list)).
  { rewrite List.length_app. cbn [List.length]. lia. }
  destruct (v <? WorkCoordinator.capacity maxWorkersPerInstance info) eqn:E.
  - (* the instance has room: it takes one worker *)
    apply Z.ltb_lt in E.
    set (d1 := <[x := v + 1]> d) in *.
    assert (Hw1 : within l d1) by (apply (within_insert l d x info (v + 1)); auto; lia).
    assert (Hout1 : forall id, ~ In id l -> d1 !! id = d !! id).
    { intros id Hid. apply lookup_insert_ne. intros ->. contradiction. }
    assert (Hsum1 : sumZ (List.map (asg d1) l) = sumZ (List.map (asg d) l) + 1).
    { subst d1. rewrite (sum_assigned_insert_in d x v (v + 1) l Hnd Hxin Hd). lia. }
    destruct (Z.eq_dec rem 1) as [-> | Hmore].
    + exists 1%nat, d1, 0. split.
      { intros fuel. cbn [Nat.add]. rewrite Hstep.
        rewrite secondPass_exit by (left; lia).
        rewrite secondPass_exit by (left; lia). reflexivity. }
      repeat split; auto; lia.
    + destruct suf as [|y suf'].
      * exists 1%nat, d1, (rem - 1). split.
        { intros fuel. cbn [Nat.add]. rewrite Hstep.
          replace (0 <? rem - 1) with true by (symmetry; apply Z.ltb_lt; lia).
          reflexivity. }
        repeat split; auto; lia.
      * destruct (IH (pre ++ [x])%list d1 (rem - 1) Hnext ltac:(discriminate) Hw1 ltac:(lia))
          as (n & d' & rem' & Hrun & Hw' & Hr' & Hout' & Hsum' & _).
        exists (S n), d', rem'. split.
        { intros fuel. cbn [Nat.add]. rewrite Hstep, Hidx. apply Hrun. }
        repeat split; auto; try lia.
        intros id Hid. rewrite Hout' by exact Hid. apply Hout1. exact Hid.
  - (* the instance is full: nothing changes *)
    apply Z.ltb_ge in E.
    destruct suf as [|y suf'].
    + exists 1%nat, d, rem. split.
      { intros fuel. cbn [Nat.add]. rewrite Hstep.
        replace (0 <? rem) with true by (symmetry; apply Z.ltb_lt; lia).
        reflexivity. }
      repeat split; auto; try lia.
      right. intros id [<- | []]. rewrite Hcapx, (assigned_some _ _ _ Hd). exact E.
    + destruct (IH (pre ++ [x])%list d rem Hnext ltac:(discriminate) Hw Hrem)
        as (n & d' & rem' & Hrun & Hw' & Hr' & Hout' & Hsum' & Hprog).
      exists (S n), d', rem'. split.
      { intros fuel. cbn [Nat.add]. rewrite Hstep, Hidx. apply Hrun. }
      repeat split; auto; try lia.
      destruct Hprog as [Hlt | Hfull]; [left; exact Hlt | right].
      intros id [<- | Hid]; [|apply Hfull; exact Hid].
      rewrite Hcapx, (assigned_some _ _ _ Hd). exact E.
Qed.

(** The second pass terminates once it is given fuel enough, with every
    remaining worker placed. *)
Lemma secondPass_total (l : list string) :
  List.NoDup l ->
  forall (k : nat) (d : gmap string Z) (rem : Z),
    (Z.to_nat rem <= k)%nat ->
    within l d ->
    0 <= rem <= sumZ (List.map cap l) - sumZ (List.map (asg d) l) ->
    exists n d',
      (forall fuel, (n <= fuel)%nat ->
         secondPass fuel instanceInfo l 0 d rem = WorkCoordinator.Done d')
      /\ within l d'
      /\ (forall id, ~ In id l -> d' !! id = d !! id)
      /\ sumZ (List.map (asg d') l) = sumZ (List.map (asg d) l) + rem.
Proof.
  intros Hnd k. induction k as [|k IH]; intros d rem Hk Hw Hroom.
  - exists 0%nat, d. split.
    { intros fuel _. apply secondPass_exit. left. lia. }
    repeat split; auto. lia.
  - destruct (Z.eq_dec rem 0) as [-> | Hpos].
    { exists 0%nat, d. split.
      { intros fuel _. apply secondPass_exit. left. lia. }
      repeat split; auto. lia. }
    assert (Hne : l <> []).
    { intros ->. cbn in Hroom. lia. }
    destruct (sweep l Hnd l [] d rem eq_refl Hne Hw ltac:(lia))
      as (n1 & d1 & rem1 & Hrun1 & Hw1 & Hr1 & Hout1 & Hsum1 & Hprog).
    assert (Hlt : rem1 < rem).
    { destruct Hprog as [H | Hfull]; [exact H|].
      pose proof (sumZ_map_le cap (asg d) l Hfull). lia. }
    destruct (IH d1 rem1 ltac:(lia) Hw1 ltac:(lia))
      as (n2 & d' & Hrun2 & Hw' & Hout' & Hsum').
    exists (n1 + n2)%nat, d'. split.
    { intros fuel Hfuel.
      replace fuel with (n1 + (fuel - n1))%nat by lia.
      rewrite Hrun1. apply Hrun2. lia. }
    repeat split; auto; try lia.
    intros id Hid. rewrite Hout' by exact Hid. apply Hout1. exact Hid.
Qed.

Lemma insertByRatio_perm (d : gmap string Z) (x : string) (l : list string) :
  Permutation (WorkCoordinator.insertByRatio maxWorkersPerInstance instanceInfo d x l) (x :: l).
Proof.
  induction l as [|y l IH]; cbn; [reflexivity|].
  destruct (WorkCoordinator.ratioBefore maxWorkersPerInstance instanceInfo d x y);
    [reflexivity|].
  rewrite IH. apply perm_swap.
Qed.

Lemma sortByRatio_perm (d : gmap string Z) (l : list string) :
  Permutation (WorkCoordinator.sortByRatio maxWorkersPerInstance instanceInfo d l) l.
Proof.
  unfold WorkCoordinator.sortByRatio. induction l as [|x l IH]; cbn; [reflexivity|].
  rewrite insertByRatio_perm. constructor. exact IH.
Qed.

Lemma sumZ_map_sub {A : Type} (f g : A -> Z) (l : list A) :
  sumZ (List.map (fun x => f x - g x) l) = sumZ (List.map f l) - sumZ (List.map g l).
Proof. induction l as [|x l IH]; cbn; [reflexivity | rewrite IH; lia]. Qed.

Lemma sumZ_filter {A : Type} (p : A -> bool) (f : A -> Z) (l : list A) :
  (forall x, In x l -> p x = false -> f x = 0) ->
  sumZ (List.map f (List.filter p l)) = sumZ (List.map f l).
Proof.
  induction l as [|x l IH]; cbn; intros H; [reflexivity|].
  assert (IH' : sumZ (List.map f (List.filter p l)) = sumZ (List.map f l)).
  { apply IH. intros y Hy. apply H. right. exact Hy. }
  destruct (p x) eqn:E; cbn; rewrite IH'; [reflexivity|].
  rewrite (H x (or_introl eq_refl) E). lia.
Qed.

Lemma sumZ_nonneg {A : Type} (f : A -> Z) (l : list A) :
  (forall x, In x l -> 0 <= f x) -> 0 <= sumZ (List.map f l).
Proof.
  induction l as [|x l IH]; cbn; intros H; [lia|].
  pose proof (H x (or_introl eq_refl)).
  assert (0 <= sumZ (List.map f l)); [|lia].
  apply IH. intros y Hy. apply H. right. exact Hy.
Qed.

Lemma sumZ_zero {A : Type} (f : A -> Z) (l : list A) :
  (forall x, In x l -> f x = 0) -> sumZ (List.map f l) = 0.
Proof.
  induction l as [|x l IH]; cbn; intros H; [reflexivity|].
  rewrite (H x (or_introl eq_refl)), IH; [reflexivity|].
  intros y Hy. apply H. right. exact Hy.
Qed.

(** C6. For instance records with positive capacities and assignments
    that are not negative, and the totals [coordinateWork] computes from
    them, [calculateWorkerDistribution] terminates (every fuel from
    some bound on gives the same result), gives no instance more than
    its capacity, and the assignments add up to
    [min(Σ workersAssigned, Σ maxWorkers)]. *)
Theorem fair_distribution (activeInstances : list string) (totalWorkers totalMaxWorkers : Z) :
  wellFormed maxWorkersPerInstance instanceInfo activeInstances ->
  WorkCoordinator.totals maxWorkersPerInstance instanceInfo activeInstances 0 0
    = (totalWorkers, totalMaxWorkers) ->
  exists n distribution,
    (forall fuel, (n <= fuel)%nat ->
       WorkCoordinator.calculateWorkerDistribution floorShare maxWorkersPerInstance fuel
         instanceInfo activeInstances totalWorkers totalMaxWorkers
       = WorkCoordinator.Done distribution)
    /\ (forall id, In id activeInstances -> asg distribution id <= cap id)
    /\ sumZ (List.map (asg distribution) activeInstances)
       = Z.min totalWorkers totalMaxWorkers.
Proof.
  intros [Hnd Hwf] Htot.
  rewrite totals_sum in Htot
    by (intros id Hid; destruct (Hwf id Hid) as (i & ? & _); eauto).
  rewrite !Z.add_0_l in Htot. injection Htot as Htw Htmw.
  assert (Hcap : forall id, In id activeInstances -> 0 < cap id).
  { intros id Hid. destruct (Hwf id Hid) as (i & Hi & Hp & _).
    unfold capacityOf. rewrite Hi. exact Hp. }
  assert (Htw0 : 0 <= totalWorkers).
  { rewrite <- Htw. apply sumZ_nonneg. intros id Hid.
    destruct (Hwf id Hid) as (i & Hi & _ & Ha). unfold assignedOf. rewrite Hi. exact Ha. }
  assert (Htmw0 : 0 <= totalMaxWorkers).
  { rewrite <- Htmw. apply sumZ_nonneg. intros id Hid. specialize (Hcap id Hid). lia. }
  unfold WorkCoordinator.calculateWorkerDistribution.
  destruct ((List.length activeInstances =? 0)%nat || (totalWorkers =? 0)) eqn:Eempty.
  - (* no instances or no workers *)
    exists 0%nat, ∅. split; [reflexivity|]. split.
    + intros id Hid. specialize (Hcap id Hid).
      unfold WorkCoordinator.assigned. rewrite lookup_empty. cbn. lia.
    + rewrite sumZ_zero by (intros; unfold WorkCoordinator.assigned; rewrite lookup_empty; reflexivity).
      apply orb_true_iff in Eempty as [E | E].
      * apply Nat.eqb_eq in E. destruct activeInstances; [|discriminate E].
        cbn in Htw, Htmw. lia.
      * apply Z.eqb_eq in E. lia.
  - apply orb_false_iff in Eempty as [_ Etw]. apply Z.eqb_neq in Etw.
    set (T := Z.min totalWorkers totalMaxWorkers).
    destruct (firstPass_spec activeInstances Hnd
                (fun id Hid => match Hwf id Hid with
                               | ex_intro _ i (conj Hi (conj Hp _)) =>
                                   ex_intro _ i (conj Hi Hp)
                               end)
                ∅ T totalMaxWorkers (eq_sym Htmw) ltac:(lia))
      as (d1 & rem & Hfirst & Hrem & Hw1 & _ & Hsum1).
    rewrite Hfirst.
    assert (Hle1 : forall id, In id activeInstances -> asg d1 id <= cap id).
    { intros id Hid. destruct (Hw1 id Hid) as (i & v & Hi & _ & Hv & Hvle).
      unfold capacityOf. rewrite Hi, (assigned_some _ _ _ Hv). exact Hvle. }
    destruct (0 <? rem) eqn:Erem.
    + (* second pass *)
      set (roomy := List.filter (WorkCoordinator.hasRoom maxWorkersPerInstance instanceInfo d1)
                      activeInstances).
      set (l := WorkCoordinator.sortByRatio maxWorkersPerInstance instanceInfo d1 roomy).
      assert (Hperm : Permutation l roomy) by apply sortByRatio_perm.
      assert (Hin : forall id, In id l -> In id activeInstances).
      { intros id Hid. apply (Permutation_in _ Hperm) in Hid.
        apply List.filter_In in Hid. tauto. }
      assert (Hndl : List.NoDup l).
      { apply (Permutation_NoDup (Permutation_sym Hperm)). apply List.NoDup_filter. exact Hnd. }
      assert (Hwl : within l d1) by (intros id Hid; apply Hw1, Hin, Hid).
      assert (Hfull : forall id, In id activeInstances ->
                WorkCoordinator.hasRoom maxWorkersPerInstance instanceInfo d1 id = false ->
                cap id - asg d1 id = 0).
      { intros id Hid Hno. pose proof (Hle1 id Hid) as Hle.
        unfold WorkCoordinator.hasRoom in Hno. unfold capacityOf in *.
        destruct (Hw1 id Hid) as (i & v & Hi & _ & _ & _). rewrite Hi in *.
        apply Z.ltb_ge in Hno. lia. }
      assert (Hroom : sumZ (List.map cap l) - sumZ (List.map (asg d1) l)
                      = totalMaxWorkers - (T - rem)).
      { rewrite <- sumZ_map_sub.
        rewrite (sumZ_perm _ _ (Permutation_map _ Hperm)).
        unfold roomy. rewrite sumZ_filter by exact Hfull.
        rewrite sumZ_map_sub. lia. }
      destruct (secondPass_total l Hndl (Z.to_nat rem) d1 rem (le_n _) Hwl ltac:(lia))
        as (n & d' & Hrun & Hw' & Hout & Hsum').
      exists n, d'. split; [exact Hrun|]. split.
      * intros id Hid.
        destruct (in_dec string_dec id l) as [Hl | Hnl].
        -- destruct (Hw' id Hl) as (i & v & Hi & _ & Hv & Hvle).
           unfold capacityOf. rewrite Hi, (assigned_some _ _ _ Hv). exact Hvle.
        -- unfold WorkCoordinator.assigned. rewrite (Hout id Hnl). apply Hle1. exact Hid.
      * assert (Hdiff : sumZ (List.map (fun id => asg d' id - asg d1 id) activeInstances) = rem).
        { rewrite <- (sumZ_filter
                        (WorkCoordinator.hasRoom maxWorkersPerInstance instanceInfo d1)).
          - fold roomy. rewrite <- (sumZ_perm _ _ (Permutation_map _ Hperm)).
            rewrite sumZ_map_sub. lia.
          - intros id Hid Hno.
            assert (Hnl : ~ In id l).
            { intros Hl. apply (Permutation_in _ Hperm) in Hl.
              apply List.filter_In in Hl. destruct Hl as [_ Hl]. congruence. }
            unfold WorkCoordinator.assigned. rewrite (Hout id Hnl). lia. }
        rewrite sumZ_map_sub in Hdiff. fold T. lia.
    + (* the first pass placed every worker *)
      apply Z.ltb_ge in Erem.
      exists 0%nat, d1. split; [reflexivity|]. split; [exact Hle1|]. fold T. lia.
Qed.

End FairDistribution.

Lemma exactShare_le (m c r : Z) :
  0 < m <= c -> 0 <= r -> WorkCoordinator.exactShare m c r <= r.
Proof.
  intros Hm Hr. unfold WorkCoordinator.exactShare.
  apply Z.div_le_upper_bound; nia.
Qed.

Lemma fair_distribution_witness :
  exists n distribution,
    (forall fuel, (n <= fuel)%nat ->
       WorkCoordinator.calculateWorkerDistribution WorkCoordinator.exactShare 10 fuel
         threeInstances ["a"; "b"; "c"] 6 16
       = WorkCoordinator.Done distribution)
    /\ (forall id, In id ["a"; "b"; "c"] ->
          WorkCoordinator.assigned distribution id <= capacityOf 10 threeInstances id)
    /\ sumZ (List.map (WorkCoordinator.assigned distribution) ["a"; "b"; "c"]) = Z.min 6 16.
Proof.
  apply (fair_distribution WorkCoordinator.exactShare 10 threeInstances exactShare_le
           ["a"; "b"; "c"] 6 16).
  - split.
    + repeat constructor; cbn; intuition discriminate.
    + intros id [<- | [<- | [<- | []]]]; eexists; (split; [reflexivity | cbn; lia]).
  - vm_compute. reflexivity.
Defined.

(** Where the doubles round a share down, the second pass hands the
    worker back: capacities 1 and 48 with 49 workers to place. *)
Example second_pass_repairs_rounding :
  WorkCoordinator.firstPass shareNear49 10 fortyNine ["x"; "y"] ∅ 49 49
    = WorkCoordinator.Done (<["y" := 48]> (<["x" := 0]> ∅), 1)
  /\ WorkCoordinator.calculateWorkerDistribution shareNear49 10 5 fortyNine ["x"; "y"] 49 49
    = WorkCoordinator.Done (<["x" := 1]> (<["y" := 48]> (<["x" := 0]> ∅))).
Proof. vm_compute. split; reflexivity. Qed.

(** ** Cron scheduler *)

Module CronFacts.
Import Cron.

(** Decide the comparisons between numerals that a goal contains. *)
Ltac decide_tests :=
  repeat match goal with
  | |- context [Z.eqb ?a ?b] =>
      let v := eval vm_compute in (Z.eqb a b) in
      lazymatch v with
      | true => change (Z.eqb a b) with true
      | false => change (Z.eqb a b) with false
      end
  | |- context [Z.leb ?a ?b] =>
      let v := eval vm_compute in (Z.leb a b) in
      lazymatch v with
      | true => change (Z.leb a b) with true
      | false => change (Z.leb a b) with false
      end
  end;
  cbv beta iota delta [orb andb negb].

Lemma dayFromYear_succ (y : Z) :
  dayFromYear (y + 1) = dayFromYear y + 365 + leapDay y.
Proof.
  unfold dayFromYear, leapDay, isLeap.
  destruct (Z.eqb_spec (y mod 4) 0), (Z.eqb_spec (y mod 100) 0),
    (Z.eqb_spec (y mod 400) 0); cbn [andb orb negb];
    Z.div_mod_to_equations; lia.
Qed.

Lemma daysInMonth_bounds (y m : Z) : 28 <= daysInMonth y m <= 31.
Proof.
  unfold daysInMonth, leapDay.
  destruct (m =? 1), ((m =? 3) || (m =? 5) || (m =? 8) || (m =? 10)), (isLeap y); lia.
Qed.

Lemma makeDay_in_range (y m d : Z) :
  0 <= m <= 11 -> makeDay y m d = dayFromYear y + daysBeforeMonth y m + d - 1.
Proof.
  intros H. unfold makeDay.
  rewrite (Z.div_small m 12), (Z.mod_small m 12), Z.add_0_r by lia. reflexivity.
Qed.

Lemma makeDay_day (y m d k : Z) : makeDay y m (d + k) = makeDay y m d + k.
Proof. unfold makeDay. lia. Qed.

Lemma daysBeforeMonth_succ (y m : Z) :
  0 <= m <= 10 -> daysBeforeMonth y (m + 1) = daysBeforeMonth y m + daysInMonth y m.
Proof.
  intros H.
  assert (Hm : m = 0 \/ m = 1 \/ m = 2 \/ m = 3 \/ m = 4 \/ m = 5 \/ m = 6 \/ m = 7
               \/ m = 8 \/ m = 9 \/ m = 10) by lia.
  unfold daysBeforeMonth, daysInMonth. generalize (leapDay y). intros L.
  destruct Hm as [-> | [-> | [-> | [-> | [-> | [-> | [-> | [-> | [-> | [-> | ->]]]]]]]]]];
    decide_tests; lia.
Qed.

(** Days past the end of a month are the days of the month after. *)
Lemma makeDay_month_succ (y m d : Z) :
  0 <= m <= 11 -> makeDay y (m + 1) d = makeDay y m (d + daysInMonth y m).
Proof.
  intros H. destruct (Z.eq_dec m 11) as [-> | Hm].
  - unfold makeDay. change ((11 + 1) / 12) with 1. change ((11 + 1) mod 12) with 0.
    change (11 / 12) with 0. change (11 mod 12) with 11.
    replace (y + 0) with y by lia. rewrite dayFromYear_succ.
    unfold daysBeforeMonth, daysInMonth.
    generalize (leapDay y). intros L. decide_tests. lia.
  - rewrite !makeDay_in_range by lia. rewrite daysBeforeMonth_succ by lia. lia.
Qed.

Lemma makeDay_nextMonth (y m d : Z) :
  0 <= m <= 11 ->
  makeDay (fst (nextMonth y m)) (snd (nextMonth y m)) d = makeDay y m (d + daysInMonth y m).
Proof.
  intros H. rewrite <- makeDay_month_succ by exact H.
  unfold nextMonth. destruct (Z.eqb_spec m 11) as [-> | Hm]; cbn [fst snd].
  - unfold makeDay. change ((11 + 1) / 12) with 1. change ((11 + 1) mod 12) with 0.
    change (0 / 12) with 0. change (0 mod 12) with 0.
    replace (y + 1 + 0) with (y + 1) by lia. reflexivity.
  - reflexivity.
Qed.

Lemma nextMonth_range (y m : Z) : 0 <= m <= 11 -> 0 <= snd (nextMonth y m) <= 11.
Proof. intros H. unfold nextMonth. destruct (Z.eqb_spec m 11); cbn [fst snd]; lia. Qed.

Lemma getTime_fields (d : Date) :
  getTime d = makeDay (year d) (mon d) (day d) * 86400000
              + hours d * 3600000 + minutes d * 60000 + seconds d * 1000 + millis d.
Proof. reflexivity. Qed.

Lemma carryDay_spec (fuel : nat) :
  forall y m d,
    0 <= m <= 11 -> 1 <= d -> d <= 28 * Z.of_nat fuel ->
    let r := carryDay fuel y m d in
    0 <= snd (fst r) <= 11
    /\ 1 <= snd r <= daysInMonth (fst (fst r)) (snd (fst r))
    /\ makeDay (fst (fst r)) (snd (fst r)) (snd r) = makeDay y m d
    /\ makeDay y m 1 <= makeDay (fst (fst r)) (snd (fst r)) 1.
Proof.
  induction fuel as [|fuel IH]; intros y m d Hm Hd Hfuel; [lia|].
  cbn [carryDay].
  replace (d <? 1) with false by (symmetry; apply Z.ltb_ge; lia).
  pose proof (daysInMonth_bounds y m) as Hdim.
  destruct (daysInMonth y m <? d) eqn:E.
  - apply Z.ltb_lt in E.
    pose proof (fun d0 => makeDay_nextMonth y m d0 Hm) as Hnext.
    pose proof (nextMonth_range y m Hm) as Hrange.
    destruct (nextMonth y m) as [y1 m1]. cbn [fst snd] in *.
    specialize (IH y1 m1 (d - daysInMonth y m) Hrange ltac:(lia) ltac:(lia)).
    cbv zeta in IH. destruct IH as (H1 & H2 & H3 & H4).
    split; [exact H1|]. split; [exact H2|]. split.
    + rewrite H3, Hnext. f_equal. lia.
    + rewrite Hnext in H4. rewrite makeDay_day in H4. lia.
  - apply Z.ltb_ge in E. cbn [fst snd]. repeat split; lia.
Qed.

Lemma makeDay_norm (y m d : Z) : makeDay (y + m / 12) (m mod 12) d = makeDay y m d.
Proof.
  unfold makeDay.
  rewrite (Z.div_small (m mod 12) 12) by (apply Z.mod_pos_bound; lia).
  rewrite Z.mod_mod by lia. rewrite Z.add_0_r. reflexivity.
Qed.

(** Writing fields that are not negative, with a day of at least 1,
    gives a date in range that denotes the same time value and lies in
    the month written or a later one. *)
Lemma normalize_spec (r : Date) :
  0 <= millis r -> 0 <= seconds r -> 0 <= minutes r -> 0 <= hours r -> 1 <= day r ->
  valid (normalize r)
  /\ getTime (normalize r) = getTime r
  /\ makeDay (year r) (mon r) 1 <= makeDay (year (normalize r)) (mon (normalize r)) 1.
Proof.
  intros Hms Hs Hmi Hh Hd. unfold normalize.
  set (s := seconds r + millis r / 1000).
  set (mi := minutes r + s / 60).
  set (h := hours r + mi / 60).
  set (dd := day r + h / 24).
  assert (Hs' : 0 <= s) by (subst s; Z.div_mod_to_equations; lia).
  assert (Hmi' : 0 <= mi) by (subst mi; Z.div_mod_to_equations; lia).
  assert (Hh' : 0 <= h) by (subst h; Z.div_mod_to_equations; lia).
  assert (Hdd : 1 <= dd) by (subst dd; Z.div_mod_to_equations; lia).
  pose proof (carryDay_spec (S (Z.to_nat (Z.abs dd))) (year r + mon r / 12) (mon r mod 12) dd
                ltac:(pose proof (Z.mod_pos_bound (mon r) 12); lia) Hdd ltac:(lia)) as Hc.
  cbv zeta in Hc.
  destruct (carryDay (S (Z.to_nat (Z.abs dd))) (year r + mon r / 12) (mon r mod 12) dd)
    as [[y' m'] d'].
  cbn [fst snd] in Hc. destruct Hc as (Hm' & Hd' & Hday & Hfirst).
  rewrite makeDay_norm in Hday, Hfirst.
  rewrite !getTime_fields. unfold valid.
  cbn [year mon day hours minutes seconds millis].
  split; [|split].
  - pose proof (Z.mod_pos_bound h 24 ltac:(lia)).
    pose proof (Z.mod_pos_bound mi 60 ltac:(lia)).
    pose proof (Z.mod_pos_bound s 60 ltac:(lia)).
    pose proof (Z.mod_pos_bound (millis r) 1000 ltac:(lia)).
    repeat split; lia.
  - rewrite Hday. subst dd. rewrite makeDay_day.
    generalize (makeDay (year r) (mon r) (day r)). intros D.
    subst h mi s. Z.div_mod_to_equations. lia.
  - exact Hfirst.
Qed.

Lemma carryDay_valid (fuel : nat) (y m d : Z) :
  1 <= d <= daysInMonth y m -> carryDay (S fuel) y m d = (y, m, d).
Proof.
  intros H. cbn [carryDay].
  replace (d <? 1) with false by (symmetry; apply Z.ltb_ge; lia).
  replace (daysInMonth y m <? d) with false by (symmetry; apply Z.ltb_ge; lia).
  reflexivity.
Qed.

(** A date in range is what its own fields denote. *)
Lemma normalize_valid (d : Date) : valid d -> normalize d = d.
Proof.
  intros (Hm & Hd & Hh & Hmi & Hs & Hms). unfold normalize.
  rewrite (Z.div_small (millis d) 1000), Z.add_0_r by lia.
  rewrite (Z.div_small (seconds d) 60), Z.add_0_r by lia.
  rewrite (Z.div_small (minutes d) 60), Z.add_0_r by lia.
  rewrite (Z.div_small (hours d) 24), Z.add_0_r by lia.
  rewrite (Z.div_small (mon d) 12), Z.add_0_r by lia.
  rewrite (Z.mod_small (mon d) 12) by lia.
  rewrite carryDay_valid by exact Hd.
  rewrite !Z.mod_small by lia.
  destruct d; reflexivity.
Qed.

Lemma tod_bound (d : Date) :
  valid d ->
  0 <= hours d * 3600000 + minutes d * 60000 + seconds d * 1000 + millis d < 86400000.
Proof. unfold valid. lia. Qed.

(** [setHours(0, 0, 0, 0)] on a date in range keeps the day. *)
Lemma midnight_spec (d : Date) :
  valid d ->
  valid (setHours 0 0 0 0 d)
  /\ getTime (setHours 0 0 0 0 d) = makeDay (year d) (mon d) (day d) * 86400000.
Proof.
  intros Hv. unfold setHours.
  assert (Hv0 : valid {| year := year d; mon := mon d; day := day d; hours := 0;
                         minutes := 0; seconds := 0; millis := 0 |}).
  { unfold valid in *. cbn [year mon day hours minutes seconds millis]. lia. }
  rewrite (normalize_valid _ Hv0). split; [exact Hv0|].
  rewrite getTime_fields. cbn [year mon day hours minutes seconds millis]. lia.
Qed.

Lemma step_minute (d : Date) :
  valid d ->
  valid (setMinutes (getMinutes d + 1) 0 0 d)
  /\ getTime d < getTime (setMinutes (getMinutes d + 1) 0 0 d).
Proof.
  intros Hv. unfold setMinutes, getMinutes.
  destruct (normalize_spec {| year := year d; mon := mon d; day := day d; hours := hours d;
                              minutes := minutes d + 1; seconds := 0; millis := 0 |})
    as (Hv' & Ht & _); cbn [year mon day hours minutes seconds millis];
    try (unfold valid in Hv; lia).
  split; [exact Hv'|]. rewrite Ht, !getTime_fields. clear Ht Hv'.
  cbn [year mon day hours minutes seconds millis].
  generalize (makeDay (year d) (mon d) (day d)). intros D.
  unfold valid in Hv. lia.
Qed.

Lemma step_hour (d : Date) :
  valid d ->
  valid (setHours (getHours d + 1) 0 0 0 d)
  /\ getTime d < getTime (setHours (getHours d + 1) 0 0 0 d).
Proof.
  intros Hv. unfold setHours, getHours.
  destruct (normalize_spec {| year := year d; mon := mon d; day := day d;
                              hours := hours d + 1; minutes := 0; seconds := 0;
                              millis := 0 |})
    as (Hv' & Ht & _); cbn [year mon day hours minutes seconds millis];
    try (unfold valid in Hv; lia).
  split; [exact Hv'|]. rewrite Ht, !getTime_fields. clear Ht Hv'.
  cbn [year mon day hours minutes seconds millis].
  generalize (makeDay (year d) (mon d) (day d)). intros D.
  unfold valid in Hv. lia.
Qed.

Lemma step_day (d : Date) :
  valid d ->
  valid (setHours 0 0 0 0 (setDate (getDate d + 1) d))
  /\ getTime d < getTime (setHours 0 0 0 0 (setDate (getDate d + 1) d)).
Proof.
  intros Hv. unfold setDate, getDate.
  destruct (normalize_spec {| year := year d; mon := mon d; day := day d + 1;
                              hours := hours d; minutes := minutes d;
                              seconds := seconds d; millis := millis d |})
    as (Hv1 & Ht1 & _); cbn [year mon day hours minutes seconds millis];
    try (unfold valid in Hv; lia).
  set (d1 := normalize _) in *.
  destruct (midnight_spec d1 Hv1) as (Hv2 & Ht2).
  split; [exact Hv2|]. rewrite Ht2.
  pose proof (tod_bound d Hv) as Hb. pose proof (tod_bound d1 Hv1) as Hb1.
  rewrite !getTime_fields in Ht1. cbn [year mon day hours minutes seconds millis] in Ht1.
  rewrite makeDay_day in Ht1. rewrite getTime_fields.
  generalize dependent (makeDay (year d1) (mon d1) (day d1)).
  generalize dependent (makeDay (year d) (mon d) (day d)).
  intros. lia.
Qed.

Lemma step_month (d : Date) :
  valid d ->
  valid (setHours 0 0 0 0 (setDate 1 (setMonth (getMonth d + 1) d)))
  /\ getTime d < getTime (setHours 0 0 0 0 (setDate 1 (setMonth (getMonth d + 1) d))).
Proof.
  intros Hv. unfold setMonth, getMonth.
  destruct (normalize_spec {| year := year d; mon := mon d + 1; day := day d;
                              hours := hours d; minutes := minutes d;
                              seconds := seconds d; millis := millis d |})
    as (Hv1 & _ & Hfirst); cbn [year mon day hours minutes seconds millis];
    try (unfold valid in Hv; lia).
  cbn [year mon day hours minutes seconds millis] in Hfirst.
  set (d1 := normalize _) in *.
  assert (Hv2 : valid {| year := year d1; mon := mon d1; day := 1; hours := hours d1;
                         minutes := minutes d1; seconds := seconds d1;
                         millis := millis d1 |}).
  { pose proof (daysInMonth_bounds (year d1) (mon d1)).
    unfold valid in *. cbn [year mon day hours minutes seconds millis]. lia. }
  unfold setDate. rewrite (normalize_valid _ Hv2).
  destruct (midnight_spec _ Hv2) as (Hv3 & Ht3).
  split; [exact Hv3|]. rewrite Ht3. cbn [year mon day].
  pose proof (tod_bound d Hv) as Hb.
  assert (Hm : 0 <= mon d <= 11) by (unfold valid in Hv; lia).
  rewrite (makeDay_month_succ _ _ _ Hm), makeDay_day in Hfirst.
  assert (Hday : makeDay (year d) (mon d) (day d) = makeDay (year d) (mon d) 1 + (day d - 1)).
  { rewrite <- makeDay_day. f_equal. lia. }
  rewrite getTime_fields, Hday.
  assert (Hd : day d <= daysInMonth (year d) (mon d)) by (unfold valid in Hv; lia).
  clear Hday Hv2 Hv3 Ht3 Hv1.
  generalize dependent (makeDay (year d1) (mon d1) 1).
  generalize dependent (makeDay (year d) (mon d) 1).
  intros. nia.
Qed.

(** Where the search starts: the minute after [now]. *)
Lemma start_spec (now : Date) :
  valid now ->
  valid (setMinutes1 (getMinutes (setSeconds 0 0 now) + 1) (setSeconds 0 0 now))
  /\ getTime now
     < getTime (setMinutes1 (getMinutes (setSeconds 0 0 now) + 1) (setSeconds 0 0 now)).
Proof.
  intros Hv. unfold setSeconds.
  assert (Hv0 : valid {| year := year now; mon := mon now; day := day now;
                         hours := hours now; minutes := minutes now; seconds := 0;
                         millis := 0 |}).
  { unfold valid in *. cbn [year mon day hours minutes seconds millis]. lia. }
  rewrite (normalize_valid _ Hv0). unfold setMinutes1, getMinutes.
  cbn [year mon day hours minutes seconds millis].
  destruct (normalize_spec {| year := year now; mon := mon now; day := day now;
                              hours := hours now; minutes := minutes now + 1;
                              seconds := 0; millis := 0 |})
    as (Hv' & Ht & _); cbn [year mon day hours minutes seconds millis];
    try (unfold valid in Hv; lia).
  split; [exact Hv'|]. rewrite Ht, !getTime_fields. clear Ht Hv' Hv0.
  cbn [year mon day hours minutes seconds millis].
  generalize (makeDay (year now) (mon now) (day now)). intros D.
  unfold valid in Hv. lia.
Qed.

(** What the search returns is in range, not earlier than where the
    search stood, and meets every field of the schedule. *)
Lemma search_spec (n : nat) (schedule : CronSchedule) :
  forall date found,
    valid date -> search n schedule date = Some found ->
    valid found /\ getTime date <= getTime found /\ matches schedule found.
Proof.
  induction n as [|n IH]; intros date found Hv Hs; [discriminate Hs|].
  cbn [search] in Hs.
  destruct (admits (month schedule) (getMonth date + 1)) eqn:E1; cbn [negb] in Hs.
  2:{ destruct (step_month date Hv) as (Hv' & Hlt).
      destruct (IH _ _ Hv' Hs) as (? & ? & ?).
      split; [assumption|]. split; [lia | assumption]. }
  destruct (admits (dayOfMonth schedule) (getDate date)) eqn:E2; cbn [negb] in Hs.
  2:{ destruct (step_day date Hv) as (Hv' & Hlt).
      destruct (IH _ _ Hv' Hs) as (? & ? & ?).
      split; [assumption|]. split; [lia | assumption]. }
  destruct (admits (dayOfWeek schedule) (getDay date)) eqn:E3; cbn [negb] in Hs.
  2:{ destruct (step_day date Hv) as (Hv' & Hlt).
      destruct (IH _ _ Hv' Hs) as (? & ? & ?).
      split; [assumption|]. split; [lia | assumption]. }
  destruct (admits (hour schedule) (getHours date)) eqn:E4; cbn [negb] in Hs.
  2:{ destruct (step_hour date Hv) as (Hv' & Hlt).
      destruct (IH _ _ Hv' Hs) as (? & ? & ?).
      split; [assumption|]. split; [lia | assumption]. }
  destruct (admits (minute schedule) (getMinutes date)) eqn:E5; cbn [negb] in Hs.
  2:{ destruct (step_minute date Hv) as (Hv' & Hlt).
      destruct (IH _ _ Hv' Hs) as (? & ? & ?).
      split; [assumption|]. split; [lia | assumption]. }
  inversion Hs; subst found. split; [exact Hv|]. split; [lia|].
  unfold matches. auto.
Qed.

End CronFacts.

(** Without a time zone (or with one the platform rejects), and whatever
    the bound of the search loop, the next execution time is strictly
    later than the starting time, meets every field of the schedule,
    and computing again from it gives a strictly later time. *)
Lemma next_execution_within_later
    (maxIterations : nat) (schedule : Cron.CronSchedule) (now found : Cron.Date)
    (timezone : option Cron.TimeZone) :
  timezone = None \/ timezone = Some Cron.UnknownZone ->
  Cron.valid now ->
  Cron.getNextExecutionTimeWithin maxIterations schedule now timezone = Some found ->
  Cron.getTime now < Cron.getTime found
  /\ Cron.matches schedule found
  /\ Cron.valid found
  /\ (forall again,
        Cron.getNextExecutionTimeWithin maxIterations schedule found timezone = Some again ->
        Cron.getTime found < Cron.getTime again).
Proof.
  intros Htz Hv Hfound.
  assert (Hlater : forall t r, Cron.valid t ->
            Cron.getNextExecutionTimeWithin maxIterations schedule t timezone = Some r ->
            Cron.valid r /\ Cron.getTime t < Cron.getTime r /\ Cron.matches schedule r).
  { intros t r Ht Hr.
    assert (Hs : Cron.search maxIterations schedule
                   (Cron.setMinutes1 (Cron.getMinutes (Cron.setSeconds 0 0 t) + 1)
                      (Cron.setSeconds 0 0 t)) = Some r).
    { destruct Htz as [-> | ->]; exact Hr. }
    destruct (CronFacts.start_spec t Ht) as (Hv0 & Hlt).
    destruct (CronFacts.search_spec maxIterations schedule _ _ Hv0 Hs) as (Hvr & Hle & Hm).
    split; [exact Hvr|]. split; [lia | exact Hm]. }
  destruct (Hlater now found Hv Hfound) as (Hvf & Hlt & Hm).
  split; [exact Hlt|]. split; [exact Hm|]. split; [exact Hvf|].
  intros again Hagain. destruct (Hlater found again Hvf Hagain) as (_ & H & _). exact H.
Qed.

(** The same on a host whose zone keeps one offset from UTC. *)
Lemma next_execution_within_later_on_host
    (maxIterations : nat) (host : Z) (schedule : Cron.CronSchedule) (now found : Cron.Date)
    (timezone : option Cron.TimeZone) :
  timezone = None \/ timezone = Some Cron.UnknownZone ->
  Cron.valid now ->
  Cron.getNextExecutionTimeWithin maxIterations schedule now timezone = Some found ->
  Cron.instant host now < Cron.instant host found
  /\ Cron.matches schedule found
  /\ Cron.valid found
  /\ (forall again,
        Cron.getNextExecutionTimeWithin maxIterations schedule found timezone = Some again ->
        Cron.instant host found < Cron.instant host again).
Proof.
  intros Htz Hv Hfound.
  destruct (next_execution_within_later maxIterations schedule now found timezone
              Htz Hv Hfound) as (Hlt & Hm & Hvf & Hagain).
  unfold Cron.instant.
  split; [lia|]. split; [exact Hm|]. split; [exact Hvf|].
  intros again Ha. specialize (Hagain again Ha). lia.
Qed.

(** X27. Without a time zone the next execution time is in the future,
    on a host whose zone has no daylight saving. On a host whose zone
    keeps one offset from UTC ([host] minutes east; UTC itself is
    [host = 0]), when [getNextExecutionTime] is called without a time
    zone, or with one the platform does not know, the date it returns
    is strictly later than the date given, meets every field of the
    schedule and is a calendar date; computing again from the result
    gives a strictly later date again. Nothing is said of a host whose
    zone has daylight-saving transitions. *)
Lemma next_execution_later_without_timezone
    (host : Z) (schedule : Cron.CronSchedule) (now found : Cron.Date)
    (timezone : option Cron.TimeZone) :
  timezone = None \/ timezone = Some Cron.UnknownZone ->
  Cron.valid now ->
  Cron.getNextExecutionTime schedule now timezone = Some found ->
  Cron.instant host now < Cron.instant host found
  /\ Cron.matches schedule found
  /\ Cron.valid found
  /\ (forall again,
        Cron.getNextExecutionTime schedule found timezone = Some again ->
        Cron.instant host found < Cron.instant host again).
Proof. exact (next_execution_within_later_on_host 1000 host schedule now found timezone). Qed.

Lemma next_execution_later_without_timezone_witness :
  Cron.instant 0 noon
  < Cron.instant 0 {| Cron.year := 2024; Cron.mon := 0; Cron.day := 16; Cron.hours := 9;
                      Cron.minutes := 0; Cron.seconds := 0; Cron.millis := 0 |}.
Proof.
  refine (proj1 (next_execution_later_without_timezone 0 dailyAtNine noon _ None _ _ _)).
  - left. reflexivity.
  - unfold Cron.valid. vm_compute. intuition discriminate.
  - vm_compute. reflexivity.
Defined.

(** C8. With a time zone five hours behind the host's, the date that
    [getNextExecutionTime] returns is the zone's wall clock read as host
    time: starting at noon it is 07:01 of the same day for a schedule
    that fires every minute, and 09:00 of the same day for one that
    fires daily at nine. Both lie before the starting time. *)
Theorem next_execution_with_timezone_is_in_the_past :
  Cron.getNextExecutionTime everyMinute noon (Some (Cron.UtcOffset (-300)))
    = Some {| Cron.year := 2024; Cron.mon := 0; Cron.day := 15; Cron.hours := 7;
              Cron.minutes := 1; Cron.seconds := 0; Cron.millis := 0 |}
  /\ Cron.getNextExecutionTime dailyAtNine noon (Some (Cron.UtcOffset (-300)))
    = Some {| Cron.year := 2024; Cron.mon := 0; Cron.day := 15; Cron.hours := 9;
              Cron.minutes := 0; Cron.seconds := 0; Cron.millis := 0 |}
  /\ Cron.getTime {| Cron.year := 2024; Cron.mon := 0; Cron.day := 15; Cron.hours := 7;
                     Cron.minutes := 1; Cron.seconds := 0; Cron.millis := 0 |}
     < Cron.getTime noon
  /\ Cron.getTime {| Cron.year := 2024; Cron.mon := 0; Cron.day := 15; Cron.hours := 9;
                     Cron.minutes := 0; Cron.seconds := 0; Cron.millis := 0 |}
     < Cron.getTime noon.
Proof. vm_compute. repeat split; reflexivity. Qed.

(** * Further properties *)

(** ** Commands on a store whose keys are known *)

Lemma redis_setRedis (w : World) (s : Store) : redis (setRedis w s) = s.
Proof. reflexivity. Qed.

Lemma setRedis_setRedis (w : World) (s1 s2 : Store) :
  setRedis (setRedis w s1) s2 = setRedis w s2.
Proof. reflexivity. Qed.

Lemma Date_now_run (w : World) : Date_now w = (Ok (nowOf w), ticked w).
Proof. unfold Date_now, nowOf, ticked. destruct (ticks w); reflexivity. Qed.

Lemma redis_ticked (w : World) : redis (ticked w) = redis w.
Proof. unfold ticked. destruct (ticks w); reflexivity. Qed.

Lemma events_ticked (w : World) : events (ticked w) = events w.
Proof. unfold ticked. destruct (ticks w); reflexivity. Qed.

Lemma handled_ticked (w : World) : handled (ticked w) = handled w.
Proof. unfold ticked. destruct (ticks w); reflexivity. Qed.

Lemma EXISTS_present (k : string) (w : World) :
  redis w !! k <> None -> Cmd.EXISTS k w = (Ok true, w).
Proof.
  intros H. unfold Cmd.EXISTS. rewrite bind_run. unfold getStore.
  destruct (redis w !! k); [reflexivity | contradiction].
Qed.

Lemma asList_run (k : string) (w : World) (l : list string) :
  listAt (redis w) k = Some l -> Cmd.asList k w = (Ok l, w).
Proof.
  unfold listAt, Cmd.asList. rewrite bind_run. unfold getStore.
  destruct (redis w !! k) as [[]|]; intros H; inversion H; reflexivity.
Qed.

Lemma asList_wrong (k : string) (w : World) :
  listAt (redis w) k = None -> exists e, Cmd.asList k w = (Throw e, w).
Proof.
  unfold listAt, Cmd.asList. rewrite bind_run. unfold getStore.
  destruct (redis w !! k) as [[]|]; intros H; inversion H; eexists; reflexivity.
Qed.

Lemma asSet_run (k : string) (w : World) (l : list string) :
  setAt (redis w) k = Some l -> Cmd.asSet k w = (Ok l, w).
Proof.
  unfold setAt, Cmd.asSet. rewrite bind_run. unfold getStore.
  destruct (redis w !! k) as [[]|]; intros H; inversion H; reflexivity.
Qed.

Lemma asSet_wrong (k : string) (w : World) :
  setAt (redis w) k = None -> exists e, Cmd.asSet k w = (Throw e, w).
Proof.
  unfold setAt, Cmd.asSet. rewrite bind_run. unfold getStore.
  destruct (redis w !! k) as [[]|]; intros H; inversion H; eexists; reflexivity.
Qed.

Lemma asHash_run (k : string) (w : World) (h : Hash) :
  hashAt (redis w) k = Some h -> Cmd.asHash k w = (Ok h, w).
Proof.
  unfold hashAt, Cmd.asHash. rewrite bind_run. unfold getStore.
  destruct (redis w !! k) as [[]|]; intros H; inversion H; reflexivity.
Qed.

Lemma LPUSH_run (k x : string) (w : World) (l : list string) :
  listAt (redis w) k = Some l ->
  Cmd.LPUSH k x w
  = (Ok (Z.of_nat (S (List.length l))),
     setRedis w (<[k := Redis.VList (x :: l)]> (redis w))).
Proof.
  intros H. unfold Cmd.LPUSH.
  rewrite (bind_ok _ _ _ _ _ (asList_run _ _ _ H)). reflexivity.
Qed.

Lemma RPUSH_run (k x : string) (w : World) (l : list string) :
  listAt (redis w) k = Some l ->
  Cmd.RPUSH k x w
  = (Ok (Z.of_nat (S (List.length l))),
     setRedis w (<[k := Redis.VList (l ++ [x])]> (redis w))).
Proof.
  intros H. unfold Cmd.RPUSH.
  rewrite (bind_ok _ _ _ _ _ (asList_run _ _ _ H)). reflexivity.
Qed.

Lemma LREM_run (k : string) (count : Z) (x : string) (w : World) (l : list string) :
  listAt (redis w) k = Some l ->
  Cmd.LREM k count x w
  = (Ok (snd (Redis.lrem count x l)),
     setRedis w (Redis.putList k (fst (Redis.lrem count x l)) (redis w))).
Proof.
  intros H. unfold Cmd.LREM.
  rewrite (bind_ok _ _ _ _ _ (asList_run _ _ _ H)).
  destruct (Redis.lrem count x l). reflexivity.
Qed.

Lemma LRANGE_run (k : string) (a b : Z) (w : World) (l : list string) :
  listAt (redis w) k = Some l ->
  Cmd.LRANGE k a b w = (Ok (Redis.rangeOf a b l), w).
Proof.
  intros H. unfold Cmd.LRANGE.
  rewrite (bind_ok _ _ _ _ _ (asList_run _ _ _ H)). reflexivity.
Qed.

Lemma LLEN_run (k : string) (w : World) (l : list string) :
  listAt (redis w) k = Some l ->
  Cmd.LLEN k w = (Ok (Z.of_nat (List.length l)), w).
Proof.
  intros H. unfold Cmd.LLEN.
  rewrite (bind_ok _ _ _ _ _ (asList_run _ _ _ H)). reflexivity.
Qed.

Lemma SREM_run (k x : string) (w : World) (l : list string) :
  setAt (redis w) k = Some l ->
  Cmd.SREM k x w
  = (Ok (if existsb (String.eqb x) l then 1 else 0),
     setRedis w (Redis.putSet k (Redis.srem x l) (redis w))).
Proof.
  intros H. unfold Cmd.SREM.
  rewrite (bind_ok _ _ _ _ _ (asSet_run _ _ _ H)). reflexivity.
Qed.

Lemma SREM_wrong (k x : string) (w : World) :
  setAt (redis w) k = None -> exists e, Cmd.SREM k x w = (Throw e, w).
Proof.
  intros H. destruct (asSet_wrong _ _ H) as [e He]. exists e.
  unfold Cmd.SREM. rewrite bind_run, He. reflexivity.
Qed.

Lemma SADD_run (k x : string) (w : World) (l : list string) :
  setAt (redis w) k = Some l ->
  Cmd.SADD k x w
  = (Ok (if existsb (String.eqb x) l then 0 else 1),
     setRedis w (<[k := Redis.VSet (Redis.sadd x l)]> (redis w))).
Proof.
  intros H. unfold Cmd.SADD.
  rewrite (bind_ok _ _ _ _ _ (asSet_run _ _ _ H)). reflexivity.
Qed.

Lemma ZADD_run (k : string) (score : Z) (m : string) (w : World) (z : list (string * Z)) :
  windowAt (redis w) k = Some z ->
  Cmd.ZADD k score m w
  = (Ok (if Redis.zhas m z then 0 else 1),
     setRedis w (<[k := Redis.VZSet (Redis.zadd score m z)]> (redis w))).
Proof.
  intros H. unfold Cmd.ZADD.
  rewrite (bind_ok _ _ _ _ _ (asZSet_window _ _ _ H)). reflexivity.
Qed.

Lemma ZREM_run (k m : string) (w : World) (z : list (string * Z)) :
  windowAt (redis w) k = Some z ->
  Cmd.ZREM k m w
  = (Ok (if Redis.zhas m z then 1 else 0),
     setRedis w (Redis.putZSet k (Redis.zremMember m z) (redis w))).
Proof.
  intros H. unfold Cmd.ZREM.
  rewrite (bind_ok _ _ _ _ _ (asZSet_window _ _ _ H)). reflexivity.
Qed.

Lemma ZRANGEBYSCORE_run (k : string) (lo hi : Z) (w : World) (z : list (string * Z)) :
  windowAt (redis w) k = Some z ->
  Cmd.ZRANGEBYSCORE k lo hi w
  = (Ok (List.map fst (List.filter (Redis.inScore lo hi) z)), w).
Proof.
  intros H. unfold Cmd.ZRANGEBYSCORE.
  rewrite (bind_ok _ _ _ _ _ (asZSet_window _ _ _ H)). reflexivity.
Qed.

Lemma HMSET_run (k : string) (fields : list (string * Redis.hval Json)) (w : World) (h : Hash) :
  hashAt (redis w) k = Some h ->
  Cmd.HMSET k fields w
  = (Ok tt,
     setRedis w (<[k := Redis.VHash
                          (fold_left (fun acc fv => <[fst fv := snd fv]> acc) fields h)]>
                   (redis w))).
Proof.
  intros H. unfold Cmd.HMSET.
  rewrite (bind_ok _ _ _ _ _ (asHash_run _ _ _ H)). reflexivity.
Qed.

(** What a view reads after a key was written. *)
Lemma listAt_insert (s : Store) (k : string) (l : list string) :
  listAt (<[k := Redis.VList l]> s) k = Some l.
Proof. unfold listAt. rewrite lookup_insert_eq. reflexivity. Qed.

Lemma listAt_insert_ne (s : Store) (k k' : string) (v : Redis.rval Json) :
  k <> k' -> listAt (<[k := v]> s) k' = listAt s k'.
Proof. intros H. unfold listAt. rewrite lookup_insert_ne by exact H. reflexivity. Qed.

Lemma listAt_putList (s : Store) (k : string) (l : list string) :
  listAt (Redis.putList k l s) k = Some l.
Proof.
  unfold listAt, Redis.putList. destruct l.
  - rewrite lookup_delete_eq. reflexivity.
  - rewrite lookup_insert_eq. reflexivity.
Qed.

Lemma lookup_putList_ne (s : Store) (k k' : string) (l : list string) :
  k <> k' -> Redis.putList k l s !! k' = s !! k'.
Proof.
  intros H. unfold Redis.putList. destruct l.
  - apply lookup_delete_ne. exact H.
  - apply lookup_insert_ne. exact H.
Qed.

Lemma lookup_putSet_ne (s : Store) (k k' : string) (l : list string) :
  k <> k' -> Redis.putSet k l s !! k' = s !! k'.
Proof.
  intros H. unfold Redis.putSet. destruct l.
  - apply lookup_delete_ne. exact H.
  - apply lookup_insert_ne. exact H.
Qed.

Lemma lookup_putZSet_ne (s : Store) (k k' : string) (z : list (string * Z)) :
  k <> k' -> Redis.putZSet k z s !! k' = s !! k'.
Proof.
  intros H. unfold Redis.putZSet. destruct z.
  - apply lookup_delete_ne. exact H.
  - apply lookup_insert_ne. exact H.
Qed.

(** ** Distributed lock: contention and hand-over *)

Lemma SETNX_held (k v : string) (w : World) :
  redis w !! k <> None -> Cmd.SETNX k v w = (Ok false, w).
Proof.
  intros H. unfold Cmd.SETNX. rewrite bind_run. unfold getStore.
  destruct (redis w !! k); [reflexivity | contradiction].
Qed.

Lemma SETNX_free (k v : string) (w : World) :
  redis w !! k = None ->
  Cmd.SETNX k v w = (Ok true, setRedis w (<[k := Redis.VStr v]> (redis w))).
Proof.
  intros H. unfold Cmd.SETNX. rewrite bind_run. unfold getStore.
  rewrite H. reflexivity.
Qed.

Lemma acquireLoop_held (k token : string) (attempts : nat) (w : World) :
  redis w !! k <> None ->
  DistributedLock.acquireLoop k token attempts w = (Ok None, w).
Proof.
  intros H. induction attempts as [|n IH]; [reflexivity|].
  cbn [DistributedLock.acquireLoop].
  rewrite (bind_ok _ _ _ _ _ (SETNX_held _ _ _ H)). exact IH.
Qed.

Lemma generateId_run (w : World) (i : string) (rest : list string) :
  ids w = i :: rest -> generateId w = (Ok i, setIds w rest).
Proof. intros H. unfold generateId. rewrite H. reflexivity. Qed.

Lemma acquire_held (this : DistributedLock.t) (resource : string) (retries : option Z)
    (w : World) (token : string) (rest : list string) :
  redis w !! DistributedLock.getLockKey this resource <> None ->
  ids w = token :: rest ->
  DistributedLock.acquire this resource retries w = (Ok None, setIds w rest).
Proof.
  intros Hk Hi. unfold DistributedLock.acquire.
  rewrite (bind_ok _ _ _ _ _ (generateId_run _ _ _ Hi)).
  apply acquireLoop_held. exact Hk.
Qed.

Lemma acquire_free (this : DistributedLock.t) (resource : string) (retries : option Z)
    (w : World) (token : string) (rest : list string) :
  0 <= orZ retries 0 ->
  redis w !! DistributedLock.getLockKey this resource = None ->
  ids w = token :: rest ->
  DistributedLock.acquire this resource retries w
  = (Ok (Some token),
     setRedis (setIds w rest)
       (<[DistributedLock.getLockKey this resource := Redis.VStr token]> (redis w))).
Proof.
  intros Hr Hk Hi. unfold DistributedLock.acquire.
  rewrite (bind_ok _ _ _ _ _ (generateId_run _ _ _ Hi)).
  replace (Z.to_nat (orZ retries 0 + 1)) with (S (Z.to_nat (orZ retries 0))) by lia.
  cbn [DistributedLock.acquireLoop].
  rewrite (bind_ok _ _ _ _ _ (SETNX_free _ _ (setIds w rest) Hk)). reflexivity.
Qed.

(** With a negative number of retries the loop of [acquire] is not
    entered: no command is sent, whatever the store holds. *)
Lemma acquire_no_attempt (this : DistributedLock.t) (resource : string) (retries : option Z)
    (w : World) (token : string) (rest : list string) :
  orZ retries 0 < 0 ->
  ids w = token :: rest ->
  DistributedLock.acquire this resource retries w = (Ok None, setIds w rest).
Proof.
  intros Hr Hi. unfold DistributedLock.acquire.
  rewrite (bind_ok _ _ _ _ _ (generateId_run _ _ _ Hi)).
  replace (Z.to_nat (orZ retries 0 + 1)) with 0%nat by lia.
  reflexivity.
Qed.

(** X1. Mutual exclusion: while the lock key of a resource exists,
    whatever it holds, [acquire] returns null after all its attempts,
    for any number of retries, and leaves the store as it was (only
    the token it drew is used up). *)
Theorem acquire_on_held_lock_returns_null
    (this : DistributedLock.t) (resource : string) (retries : option Z)
    (w : World) (token : string) (rest : list string) :
  redis w !! DistributedLock.getLockKey this resource <> None ->
  ids w = token :: rest ->
  DistributedLock.acquire this resource retries w = (Ok None, setIds w rest).
Proof. exact (acquire_held this resource retries w token rest). Qed.

Lemma acquire_on_held_lock_returns_null_witness :
  DistributedLock.acquire {| DistributedLock.prefix := "queue:lock" |} "job:7" (Some 3)
    heldLockWorld
  = (Ok None, setIds heldLockWorld ["tok-3"]).
Proof.
  refine (acquire_on_held_lock_returns_null
            {| DistributedLock.prefix := "queue:lock" |} "job:7" (Some 3)
            heldLockWorld "tok-2" ["tok-3"] _ _).
  - vm_compute. discriminate.
  - reflexivity.
Defined.

Lemma release_owner (this : DistributedLock.t) (resource token : string) (w : World) :
  redis w !! DistributedLock.getLockKey this resource = Some (Redis.VStr token) ->
  DistributedLock.release this resource token w
  = (Ok true, setRedis w (delete (DistributedLock.getLockKey this resource) (redis w))).
Proof.
  intros Hk. unfold DistributedLock.release.
  rewrite (bind_ok _ _ _ _ _ (GET_string _ _ (Some token) Hk)).
  rewrite bool_decide_eq_true_2 by reflexivity.
  destruct (DEL_one (DistributedLock.getLockKey this resource) w) as [n Hdel].
  rewrite (bind_ok _ _ _ _ _ Hdel). reflexivity.
Qed.

(** X2. Taking and giving back a free lock. When the number of
    retries is not negative, [acquire] on a resource whose key is
    absent returns the fresh token and stores it under the lock key,
    [isLocked] then answers true, and [release] with that token
    answers true and leaves the store exactly as it was before the
    lock was taken. With a negative number of retries [acquire] makes
    no attempt at all: it returns null and the free lock stays free. *)
Theorem acquire_then_release_restores_store
    (this : DistributedLock.t) (resource : string) (retries : option Z)
    (w : World) (token : string) (rest : list string) :
  redis w !! DistributedLock.getLockKey this resource = None ->
  ids w = token :: rest ->
  (0 <= orZ retries 0 ->
   exists w1,
     DistributedLock.acquire this resource retries w = (Ok (Some token), w1)
     /\ redis w1 !! DistributedLock.getLockKey this resource = Some (Redis.VStr token)
     /\ DistributedLock.isLocked this resource w1 = (Ok true, w1)
     /\ DistributedLock.release this resource token w1 = (Ok true, setIds w rest))
  /\ (orZ retries 0 < 0 ->
      DistributedLock.acquire this resource retries w = (Ok None, setIds w rest)).
Proof.
  intros Hk Hi. split; [|intros Hr; exact (acquire_no_attempt this resource retries w token rest Hr Hi)].
  intros Hr.
  eexists. split; [apply (acquire_free this resource retries w token rest Hr Hk Hi)|].
  set (k := DistributedLock.getLockKey this resource) in *.
  assert (Hheld : redis (setRedis (setIds w rest) (<[k := Redis.VStr token]> (redis w))) !! k
                  = Some (Redis.VStr token)).
  { cbn [redis setRedis]. apply lookup_insert_eq. }
  split; [exact Hheld|]. split.
  - unfold DistributedLock.isLocked. apply EXISTS_present. fold k. rewrite Hheld. discriminate.
  - rewrite (release_owner this resource token _ Hheld). fold k.
    cbn [redis setRedis setIds]. rewrite (delete_insert_id _ _ _ Hk).
    destruct w; reflexivity.
Qed.

Lemma acquire_then_release_restores_store_witness :
  exists w1,
    DistributedLock.acquire {| DistributedLock.prefix := "queue:lock" |} "job:8" None
      heldLockWorld = (Ok (Some "tok-2"), w1)
    /\ redis w1 !! "queue:lock:job:8" = Some (Redis.VStr "tok-2")
    /\ DistributedLock.isLocked {| DistributedLock.prefix := "queue:lock" |} "job:8" w1
       = (Ok true, w1)
    /\ DistributedLock.release {| DistributedLock.prefix := "queue:lock" |} "job:8" "tok-2" w1
       = (Ok true, setIds heldLockWorld ["tok-3"]).
Proof.
  refine (proj1 (acquire_then_release_restores_store
                   {| DistributedLock.prefix := "queue:lock" |} "job:8" None
                   heldLockWorld "tok-2" ["tok-3"] _ _) _).
  - vm_compute. reflexivity.
  - reflexivity.
  - vm_compute. discriminate.
Defined.

(** X3. [withLock] gives the lock back on every exit path: on a free
    resource, with a number of retries that is not negative and a
    token that is not the empty string, it runs the function under the
    fresh token and, whether the function returns or throws, the
    outcome is passed on and the lock key is gone afterwards, provided
    the function left the key holding that token. With a negative
    number of retries no attempt is made: [withLock] throws the
    acquisition error and the function is not run. *)
Theorem withLock_releases_on_every_exit {A : Type}
    (this : DistributedLock.t) (resource : string) (fn : M A) (retries : option Z)
    (w w2 : World) (token : string) (rest : list string) (outcome : Res A) :
  redis w !! DistributedLock.getLockKey this resource = None ->
  ids w = token :: rest ->
  token <> "" ->
  fn (setRedis (setIds w rest)
        (<[DistributedLock.getLockKey this resource := Redis.VStr token]> (redis w)))
    = (outcome, w2) ->
  redis w2 !! DistributedLock.getLockKey this resource = Some (Redis.VStr token) ->
  (0 <= orZ retries 0 ->
   DistributedLock.withLock this resource fn retries w
   = (outcome, setRedis w2 (delete (DistributedLock.getLockKey this resource) (redis w2))))
  /\ (orZ retries 0 < 0 ->
      DistributedLock.withLock this resource fn retries w
      = (Throw ("Failed to acquire lock for resource " +:+ resource), setIds w rest)).
Proof.
  intros Hk Hi Hne Hfn Hkept. unfold DistributedLock.withLock. split; intros Hr.
  - rewrite (bind_ok _ _ _ _ _ (acquire_free this resource retries w token rest Hr Hk Hi)).
    replace (String.eqb token "") with false by (symmetry; apply String.eqb_neq; exact Hne).
    unfold tryFinally. rewrite Hfn.
    rewrite (bind_ok _ _ _ _ _ (release_owner this resource token w2 Hkept)).
    reflexivity.
  - rewrite (bind_ok _ _ _ _ _ (acquire_no_attempt this resource retries w token rest Hr Hi)).
    reflexivity.
Qed.

Lemma withLock_releases_on_every_exit_witness :
  DistributedLock.withLock {| DistributedLock.prefix := "queue:lock" |} "job:8"
    (throw "boom" : M unit) None heldLockWorld
  = (Throw "boom", setIds heldLockWorld ["tok-3"])
  /\ DistributedLock.withLock {| DistributedLock.prefix := "queue:lock" |} "job:8"
       (ret 5) None heldLockWorld
     = (Ok 5, setIds heldLockWorld ["tok-3"]).
Proof.
  assert (Hne : "tok-2" <> "") by discriminate.
  assert (Hr : 0 <= orZ None 0) by (vm_compute; discriminate).
  split.
  - rewrite (proj1 (withLock_releases_on_every_exit
               {| DistributedLock.prefix := "queue:lock" |} "job:8" (throw "boom" : M unit) None
               heldLockWorld _ "tok-2" ["tok-3"] (Throw "boom")
               eq_refl eq_refl Hne eq_refl eq_refl) Hr).
    vm_compute. reflexivity.
  - rewrite (proj1 (withLock_releases_on_every_exit
               {| DistributedLock.prefix := "queue:lock" |} "job:8" (ret 5) None
               heldLockWorld _ "tok-2" ["tok-3"] (Ok 5)
               eq_refl eq_refl Hne eq_refl eq_refl) Hr).
    vm_compute. reflexivity.
Defined.

Lemma withLock_on_held_lock_throws {A : Type}
    (this : DistributedLock.t) (resource : string) (fn : M A) (retries : option Z)
    (w : World) (token : string) (rest : list string) :
  redis w !! DistributedLock.getLockKey this resource <> None ->
  ids w = token :: rest ->
  DistributedLock.withLock this resource fn retries w
  = (Throw ("Failed to acquire lock for resource " +:+ resource), setIds w rest).
Proof.
  intros Hk Hi. unfold DistributedLock.withLock.
  rewrite (bind_ok _ _ _ _ _ (acquire_held this resource retries w token rest Hk Hi)).
  reflexivity.
Qed.

(** X4. Under contention [withLock] never runs the function: while the
    lock key exists it throws the acquisition error, and the world is
    the one it started from but for the token it drew. *)
Theorem withLock_on_held_lock_does_not_run {A : Type}
    (this : DistributedLock.t) (resource : string) (fn : M A) (retries : option Z)
    (w : World) (token : string) (rest : list string) :
  redis w !! DistributedLock.getLockKey this resource <> None ->
  ids w = token :: rest ->
  DistributedLock.withLock this resource fn retries w
  = (Throw ("Failed to acquire lock for resource " +:+ resource), setIds w rest).
Proof.
  intros Hk Hi. unfold DistributedLock.withLock.
  rewrite (bind_ok _ _ _ _ _ (acquire_held this resource retries w token rest Hk Hi)).
  reflexivity.
Qed.

Lemma withLock_on_held_lock_does_not_run_witness :
  DistributedLock.withLock {| DistributedLock.prefix := "queue:lock" |} "job:7"
    (noteHandled "ran") (Some 3) heldLockWorld
  = (Throw "Failed to acquire lock for resource job:7", setIds heldLockWorld ["tok-3"]).
Proof.
  refine (withLock_on_held_lock_does_not_run
            {| DistributedLock.prefix := "queue:lock" |} "job:7" (noteHandled "ran") (Some 3)
            heldLockWorld "tok-2" ["tok-3"] _ _).
  - vm_compute. discriminate.
  - reflexivity.
Defined.

(** ** Keys of one queue are distinct *)

Lemma append_assoc (a b c : string) : (a +:+ b) +:+ c = a +:+ (b +:+ c).
Proof.
  induction a as [|x a IH]; [reflexivity|].
  change (String x ((a +:+ b) +:+ c) = String x (a +:+ (b +:+ c))).
  rewrite IH. reflexivity.
Qed.

Ltac key_ne :=
  let H := fresh "Hkey" in
  intros H; unfold getKey, getJobKey, keyPrefix in H;
  repeat rewrite append_assoc in H;
  repeat (apply (inj (String.append _)) in H);
  cbn in H; discriminate H.

Lemma getKey_inj (q : Queue) (a b : string) : getKey q a = getKey q b -> a = b.
Proof.
  unfold getKey. intros H. apply (inj (String.append _)) in H.
  apply (inj (String.append _)) in H. exact H.
Qed.

Lemma getJobKey_inj (q : Queue) (a b : string) : getJobKey q a = getJobKey q b -> a = b.
Proof.
  unfold getJobKey. intros H. apply (inj (String.append _)) in H.
  apply (inj (String.append _)) in H. exact H.
Qed.

(** ** Pausing *)

Lemma processJobs_paused (this : Worker.t) (processing : list string) (w : World) :
  redis w !! getKey (Worker.queue this) "paused" <> None ->
  Worker.processJobs this processing w = (Ok tt, w).
Proof.
  intros H. unfold Worker.processJobs, tryCatch.
  rewrite (bind_ok _ _ _ _ _ (EXISTS_present _ _ H)). reflexivity.
Qed.

(** X5. The pause flag gates the worker: after [pause] a worker tick
    changes nothing at all (no delayed job is promoted, no waiting job
    is dispatched, whatever the concurrency), and [resume] puts the
    store back as it was before the pause. *)
Theorem pause_gates_the_worker (this : Worker.t) (processing : list string) (w : World) :
  redis w !! getKey (Worker.queue this) "paused" = None ->
  exists w1,
    pause (Worker.queue this) w = (Ok tt, w1)
    /\ Worker.processJobs this processing w1 = (Ok tt, w1)
    /\ resume (Worker.queue this) w1 = (Ok tt, w).
Proof.
  intros Hk. eexists. split; [reflexivity|].
  set (k := getKey (Worker.queue this) "paused") in *. split.
  - apply processJobs_paused. fold k. cbn [redis setRedis].
    rewrite lookup_insert_eq. discriminate.
  - unfold resume. fold k.
    destruct (DEL_one k (setRedis w (<[k := Redis.VStr "1"]> (redis w)))) as [n Hdel].
    rewrite (bind_ok _ _ _ _ _ Hdel). cbn [redis setRedis].
    rewrite (delete_insert_id _ _ _ Hk). unfold ret.
    destruct w; reflexivity.
Qed.

Lemma pause_gates_the_worker_witness :
  exists w1,
    pause plainQueue readyWorld = (Ok tt, w1)
    /\ Worker.processJobs (succeeding plainQueue 5) [] w1 = (Ok tt, w1)
    /\ resume plainQueue w1 = (Ok tt, readyWorld).
Proof.
  refine (pause_gates_the_worker (succeeding plainQueue 5) [] readyWorld _).
  vm_compute. reflexivity.
Defined.

(** ** Reading a job *)

Lemma EXISTS_run (k : string) (w : World) :
  Cmd.EXISTS k w = (Ok (match redis w !! k with Some _ => true | None => false end), w).
Proof. reflexivity. Qed.

Lemma getJob_present (q : Queue) (jobId : string) (w : World) (h : Hash) :
  redis w !! getJobKey q jobId = Some (Redis.VHash h) -> h <> ∅ ->
  getJob q jobId w = (Ok (Some (Codec.parseJob jobId h)), w).
Proof.
  intros Hk Hne. unfold getJob, tryCatch.
  rewrite bind_run, EXISTS_run, Hk. unfold refresh, Cmd.HGETALL.
  assert (Hh : hashAt (redis w) (getJobKey q jobId) = Some h).
  { unfold hashAt. rewrite Hk. reflexivity. }
  rewrite !bind_run, (asHash_run _ _ _ Hh).
  rewrite bool_decide_eq_false_2 by exact Hne. reflexivity.
Qed.

(** [getJob] only reads, and its [catch] swallows every error. *)
Lemma getJob_readonly (q : Queue) (jobId : string) (w : World) :
  exists r, getJob q jobId w = (Ok r, w).
Proof.
  destruct (redis w !! getJobKey q jobId) as [v|] eqn:E.
  - destruct v as [s | l | s | z | h].
    1-4: (exists None; apply getJob_absent; intros h H; rewrite E in H; discriminate H).
    destruct (decide (h = ∅)) as [->|Hne].
    + exists None. apply getJob_absent. intros h H. rewrite E in H. congruence.
    + eexists. apply (getJob_present q jobId w h E Hne).
  - exists None. apply getJob_absent. intros h H. rewrite E in H. discriminate H.
Qed.

(** ** Removing a job that exists *)

Lemma lrem_all (x : string) (l : list string) :
  fst (Redis.lrem 0 x l) = without x l.
Proof. reflexivity. Qed.

Lemma forEach_throw {A : Type} (x : A) (r : list A) (body : A -> M unit)
    (w w' : World) (e : string) :
  body x w = (Throw e, w') -> forEach (x :: r) body w = (Throw e, w').
Proof. intros H. cbn [forEach]. rewrite bind_run, H. reflexivity. Qed.

Lemma forEach_step {A : Type} (x : A) (r : list A) (body : A -> M unit)
    (w w' : World) :
  body x w = (Ok tt, w') -> forEach (x :: r) body w = forEach r body w'.
Proof. intros H. cbn [forEach]. rewrite bind_run, H. reflexivity. Qed.

(** The loop body of [removeJob] on a status key that holds nothing but
    the id, or nothing at all: the key is gone afterwards. *)
Lemma removeFromStatus_clears (q : Queue) (jobId status : string) (w : World) (l : list string) :
  listAt (redis w) (getKey q status) = Some l ->
  without jobId l = [] ->
  removeFromStatus q jobId status w = (Ok tt, setRedis w (delete (getKey q status) (redis w))).
Proof.
  intros Hl He. unfold removeFromStatus.
  rewrite (bind_ok _ _ _ _ _ (LREM_run _ 0 jobId _ _ Hl)).
  rewrite lrem_all, He. cbn [Redis.putList].
  assert (Hs : setAt (redis (setRedis w (delete (getKey q status) (redis w)))) (getKey q status)
               = Some []).
  { unfold setAt. cbn [redis setRedis]. rewrite lookup_delete_eq. reflexivity. }
  rewrite (bind_ok _ _ _ _ _ (SREM_run _ jobId _ _ Hs)).
  cbn [Redis.srem List.filter Redis.putSet redis setRedis].
  rewrite delete_delete_eq. reflexivity.
Qed.

(** The same body on a status key whose list keeps another id: the id
    is taken out of the list and SREM then fails on the list. *)
Lemma removeFromStatus_throws (q : Queue) (jobId status : string) (w : World) (l : list string) :
  listAt (redis w) (getKey q status) = Some l ->
  without jobId l <> [] ->
  exists e,
    removeFromStatus q jobId status w
    = (Throw e, setRedis w (<[getKey q status := Redis.VList (without jobId l)]> (redis w))).
Proof.
  intros Hl He. unfold removeFromStatus.
  rewrite (bind_ok _ _ _ _ _ (LREM_run _ 0 jobId _ _ Hl)).
  rewrite lrem_all. destruct (without jobId l) as [|y r] eqn:E; [contradiction|].
  cbn [Redis.putList].
  assert (Hs : setAt (redis (setRedis w (<[getKey q status := Redis.VList (y :: r)]> (redis w))))
                 (getKey q status) = None).
  { unfold setAt. cbn [redis setRedis]. rewrite lookup_insert_eq. reflexivity. }
  destruct (SREM_wrong _ jobId _ Hs) as [e Hthrow]. exists e.
  rewrite bind_run, Hthrow. reflexivity.
Qed.

(** X6. [removeJob] stops half-way on a queue that is in use. Each
    status key is cleaned with LREM followed by SREM on the same key;
    SREM fails on a key that holds a list, and the [catch] of
    [removeJob] swallows the failure. So when other jobs are waiting,
    removing a job takes its id out of the active and waiting lists
    and nothing more: the job hash, the completed and failed lists and
    the delayed set are not touched and no removed event is emitted. *)
Theorem removeJob_stops_when_others_wait
    (q : Queue) (jobId : string) (w : World) (h : Hash) (la lw : list string) :
  redis w !! getJobKey q jobId = Some (Redis.VHash h) -> h <> ∅ ->
  listAt (redis w) (getKey q "active") = Some la -> without jobId la = [] ->
  listAt (redis w) (getKey q "waiting") = Some lw -> without jobId lw <> [] ->
  removeJob q jobId w
  = (Ok tt,
     setRedis w (<[getKey q "waiting" := Redis.VList (without jobId lw)]>
                   (delete (getKey q "active") (redis w)))).
Proof.
  intros Hk Hne Hla Hea Hlw Hew. unfold removeJob, tryCatch.
  rewrite (bind_ok _ _ _ _ _ (getJob_present q jobId w h Hk Hne)).
  rewrite bind_run.
  rewrite (forEach_step _ _ _ _ _ (removeFromStatus_clears q jobId "active" w la Hla Hea)).
  set (w1 := setRedis w (delete (getKey q "active") (redis w))).
  assert (Hlw1 : listAt (redis w1) (getKey q "waiting") = Some lw).
  { unfold listAt, w1. cbn [redis setRedis]. rewrite lookup_delete_ne by key_ne. exact Hlw. }
  destruct (removeFromStatus_throws q jobId "waiting" w1 lw Hlw1 Hew) as [e He].
  rewrite (forEach_throw _ _ _ _ _ _ He). reflexivity.
Qed.

Lemma removeJob_stops_when_others_wait_witness :
  removeJob plainQueue "a" twoWaiting
  = (Ok tt, setRedis twoWaiting
              (<["queue:q:waiting" := Redis.VList ["b"]]>
                 (delete "queue:q:active" (redis twoWaiting))))
  /\ redis twoWaiting !! "queue:q:job:a" <> None.
Proof.
  split.
  - refine (removeJob_stops_when_others_wait plainQueue "a" twoWaiting
              (<["id" := Redis.HStr "a"]> ∅) [] ["a"; "b"] _ _ _ _ _ _).
    + vm_compute. reflexivity.
    + intros H. apply (f_equal (fun m => m !! "id")) in H. vm_compute in H. discriminate H.
    + vm_compute. reflexivity.
    + reflexivity.
    + vm_compute. reflexivity.
    + vm_compute. discriminate.
  - vm_compute. discriminate.
Defined.

Lemma SMEMBERS_run (k : string) (w : World) (l : list string) :
  setAt (redis w) k = Some l -> Cmd.SMEMBERS k w = (Ok l, w).
Proof. apply asSet_run. Qed.

(** X7. On a queue where the job is alone, [removeJob] removes it for
    good: when the active, waiting, completed and failed lists hold
    nothing but the id, no job is parked in the dependency-wait set
    and the job has no dependents, the job hash and the five status
    keys are gone afterwards, the id has left the delayed set, and one
    removed event is emitted. *)
Theorem removeJob_removes_a_lone_job
    (q : Queue) (jobId : string) (w : World) (h : Hash)
    (la lw lc lf : list string) (z : list (string * Z)) :
  redis w !! getJobKey q jobId = Some (Redis.VHash h) -> h <> ∅ ->
  listAt (redis w) (getKey q "active") = Some la -> without jobId la = [] ->
  listAt (redis w) (getKey q "waiting") = Some lw -> without jobId lw = [] ->
  listAt (redis w) (getKey q "completed") = Some lc -> without jobId lc = [] ->
  listAt (redis w) (getKey q "failed") = Some lf -> without jobId lf = [] ->
  redis w !! getKey q "dependency-wait" = None ->
  windowAt (redis w) (getKey q "delayed") = Some z ->
  redis w !! (getJobKey q jobId +:+ ":dependents") = None ->
  exists w',
    removeJob q jobId w = (Ok tt, w')
    /\ redis w' !! getJobKey q jobId = None
    /\ (forall status,
          In status ["active"; "waiting"; "completed"; "failed"; "dependency-wait"] ->
          redis w' !! getKey q status = None)
    /\ windowAt (redis w') (getKey q "delayed") = Some (Redis.zremMember jobId z)
    /\ events w' = (events w ++ [JobRemoved jobId])%list.
Proof.
  intros Hk Hne Hla Hea Hlw Hew Hlc Hec Hlf Hef Hdw Hz Hdep.
  unfold removeJob, tryCatch.
  rewrite (bind_ok _ _ _ _ _ (getJob_present q jobId w h Hk Hne)).
  rewrite bind_run.
  (* the five status keys *)
  rewrite (forEach_step _ _ _ _ _ (removeFromStatus_clears q jobId "active" w la Hla Hea)).
  set (w1 := setRedis w (delete (getKey q "active") (redis w))).
  assert (H1 : listAt (redis w1) (getKey q "waiting") = Some lw).
  { unfold listAt, w1. cbn [redis setRedis]. rewrite lookup_delete_ne by key_ne. exact Hlw. }
  rewrite (forEach_step _ _ _ _ _ (removeFromStatus_clears q jobId "waiting" w1 lw H1 Hew)).
  set (w2 := setRedis w1 (delete (getKey q "waiting") (redis w1))).
  assert (H2 : listAt (redis w2) (getKey q "completed") = Some lc).
  { unfold listAt, w2, w1. cbn [redis setRedis].
    rewrite !lookup_delete_ne by key_ne. exact Hlc. }
  rewrite (forEach_step _ _ _ _ _ (removeFromStatus_clears q jobId "completed" w2 lc H2 Hec)).
  set (w3 := setRedis w2 (delete (getKey q "completed") (redis w2))).
  assert (H3 : listAt (redis w3) (getKey q "failed") = Some lf).
  { unfold listAt, w3, w2, w1. cbn [redis setRedis].
    rewrite !lookup_delete_ne by key_ne. exact Hlf. }
  rewrite (forEach_step _ _ _ _ _ (removeFromStatus_clears q jobId "failed" w3 lf H3 Hef)).
  set (w4 := setRedis w3 (delete (getKey q "failed") (redis w3))).
  assert (H4 : listAt (redis w4) (getKey q "dependency-wait") = Some []).
  { unfold listAt, w4, w3, w2, w1. cbn [redis setRedis].
    rewrite !lookup_delete_ne by key_ne. rewrite Hdw. reflexivity. }
  rewrite (forEach_step _ _ _ _ _
             (removeFromStatus_clears q jobId "dependency-wait" w4 [] H4 eq_refl)).
  set (w5 := setRedis w4 (delete (getKey q "dependency-wait") (redis w4))).
  cbn [forEach]. unfold ret at 1.
  (* the delayed set *)
  assert (H5 : windowAt (redis w5) (getKey q "delayed") = Some z).
  { unfold windowAt, w5, w4, w3, w2, w1. cbn [redis setRedis].
    rewrite !lookup_delete_ne by key_ne. exact Hz. }
  rewrite (bind_ok _ _ _ _ _ (ZREM_run _ jobId _ _ H5)).
  set (w6 := setRedis w5 (Redis.putZSet (getKey q "delayed") (Redis.zremMember jobId z)
                            (redis w5))).
  (* no dependents *)
  assert (H6 : setAt (redis w6) (getJobKey q jobId +:+ ":dependents") = Some []).
  { unfold setAt, w6, w5, w4, w3, w2, w1. cbn [redis setRedis].
    rewrite lookup_putZSet_ne by key_ne.
    rewrite !lookup_delete_ne by key_ne. rewrite Hdep. reflexivity. }
  rewrite (bind_ok _ _ _ _ _ (SMEMBERS_run _ _ _ H6)).
  cbn [forEach]. rewrite bind_run. unfold ret at 1.
  (* the job hash *)
  rewrite bind_run. unfold Cmd.DEL at 1. rewrite !bind_run. unfold getStore, putStore, ret.
  cbn [fold_right]. unfold emit.
  eexists. split; [reflexivity|].
  cbn [redis setRedis setEvents events].
  split; [apply lookup_delete_eq|].
  split.
  - intros status Hin. unfold w6, w5, w4, w3, w2, w1. cbn [redis setRedis].
    cbn in Hin.
    destruct Hin as [<-|[<-|[<-|[<-|[<-|[]]]]]];
      rewrite !(lookup_delete_ne _ (getJobKey q jobId)) by key_ne;
      rewrite !(lookup_delete_ne _ (getJobKey q jobId +:+ ":dependents")) by key_ne;
      rewrite lookup_putZSet_ne by key_ne;
      repeat first [ apply lookup_delete_eq
                   | rewrite lookup_delete_ne by key_ne ].
  - split; [|reflexivity].
    unfold windowAt. rewrite !lookup_delete_ne by key_ne.
    unfold w6. cbn [redis setRedis]. apply windowAt_put.
Qed.

Lemma removeJob_removes_a_lone_job_witness :
  exists w',
    removeJob plainQueue "a" loneJob = (Ok tt, w')
    /\ redis w' !! "queue:q:job:a" = None
    /\ (forall status,
          In status ["active"; "waiting"; "completed"; "failed"; "dependency-wait"] ->
          redis w' !! getKey plainQueue status = None)
    /\ windowAt (redis w') "queue:q:delayed" = Some [("z", 7000)]
    /\ events w' = [JobRemoved "a"].
Proof.
  refine (removeJob_removes_a_lone_job plainQueue "a" loneJob
            (<["id" := Redis.HStr "a"]> ∅) [] ["a"] [] [] [("a", 5000); ("z", 7000)]
            _ _ _ _ _ _ _ _ _ _ _ _ _).
  - vm_compute. reflexivity.
  - intros H. apply (f_equal (fun m => m !! "id")) in H. vm_compute in H. discriminate H.
  - vm_compute. reflexivity.
  - reflexivity.
  - vm_compute. reflexivity.
  - reflexivity.
  - vm_compute. reflexivity.
  - reflexivity.
  - vm_compute. reflexivity.
  - reflexivity.
  - vm_compute. reflexivity.
  - vm_compute. reflexivity.
  - vm_compute. reflexivity.
Defined.

(** ** Rate limiter: what a check touches and what it answers *)

Lemma asZSet_wrong (k : string) (w : World) :
  windowAt (redis w) k = None -> exists e, Cmd.asZSet k w = (Throw e, w).
Proof.
  unfold windowAt, Cmd.asZSet. rewrite bind_run. unfold getStore.
  destruct (redis w !! k) as [[]|]; intros H; inversion H; eexists; reflexivity.
Qed.

Lemma rateLimit_wrong (key identifier : string) (max duration now : Z) (w : World) :
  windowAt (redis w) (key +:+ ":" +:+ identifier) = None ->
  exists e, RateLimit.rateLimit key identifier max duration now w = (Throw e, w).
Proof.
  intros H. destruct (asZSet_wrong _ _ H) as [e He]. exists e.
  unfold RateLimit.rateLimit, Cmd.ZREMRANGEBYSCORE. rewrite !bind_run, He. reflexivity.
Qed.

Lemma rateLimit_frame (key identifier : string) (max duration now : Z)
    (w w' : World) (r : Res (Z * Z * Z)) (k' : string) :
  RateLimit.rateLimit key identifier max duration now w = (r, w') ->
  k' <> key +:+ ":" +:+ identifier ->
  redis w' !! k' = redis w !! k' /\ events w' = events w /\ handled w' = handled w.
Proof.
  intros Hrun Hne.
  destruct (windowAt (redis w) (key +:+ ":" +:+ identifier)) as [z|] eqn:Ez.
  - pose proof (rateLimit_run key identifier max duration now w z Ez) as Hspec.
    cbv zeta in Hspec. rewrite Hspec in Hrun.
    destruct (max <=? Z.of_nat (List.length (trim duration now z)));
      inversion Hrun; subst; cbn [redis setRedis events handled].
    + rewrite lookup_putZSet_ne by congruence. auto.
    + rewrite lookup_insert_ne by congruence.
      rewrite lookup_putZSet_ne by congruence.
      unfold drawn. cbn [randoms setRedis].
      destruct (randoms w); auto.
  - destruct (rateLimit_wrong key identifier max duration now w Ez) as [e He].
    rewrite He in Hrun. inversion Hrun; subst. auto.
Qed.

Lemma check_frame
    (limitKey queueName : string) (o : RateLimiter.Options) (data : option Data)
    (w w' : World) (r : Res RateLimiter.RateLimitResult) (k' : string) :
  RateLimiter.check limitKey queueName o data w = (r, w') ->
  k' <> limitKey +:+ ":" +:+ RateLimiter.identifierOf queueName o data ->
  redis w' !! k' = redis w !! k' /\ events w' = events w.
Proof.
  intros Hrun Hne. unfold RateLimiter.check in Hrun.
  rewrite (bind_ok _ _ _ _ _ (Date_now_run w)) in Hrun.
  rewrite bind_run in Hrun.
  destruct (RateLimit.rateLimit limitKey (RateLimiter.identifierOf queueName o data)
              (RateLimiter.max o) (RateLimiter.duration o) (nowOf w) (ticked w))
    as [res w1] eqn:E.
  destruct (rateLimit_frame _ _ _ _ _ _ _ _ k' E Hne) as (Hk & He & _).
  rewrite redis_ticked in Hk. rewrite events_ticked in He.
  destruct res as [[[l rem] reset]|e]; inversion Hrun; subst; auto.
Qed.

(** X8. A rate-limit check reads and writes one key only, the window
    of the identifier it derives from the payload: every other key of
    the store (the windows of other key values among them) and the
    event log are as they were, whether the call was let through,
    limited, or failed. *)
Theorem check_touches_only_its_own_window
    (limitKey queueName : string) (o : RateLimiter.Options) (data : option Data)
    (w w' : World) (r : Res RateLimiter.RateLimitResult) (k' : string) :
  RateLimiter.check limitKey queueName o data w = (r, w') ->
  k' <> limitKey +:+ ":" +:+ RateLimiter.identifierOf queueName o data ->
  redis w' !! k' = redis w !! k' /\ events w' = events w.
Proof. exact (check_frame limitKey queueName o data w w' r k'). Qed.

Lemma check_touches_only_its_own_window_witness :
  exists r w',
    RateLimiter.check "queue:q:limit" "q" perUser (Some [("userId", "u1")]) perUserWorld
      = (Ok r, w')
    /\ RateLimiter.limited r = false
    /\ redis w' !! "queue:q:limit:q:u2" = redis perUserWorld !! "queue:q:limit:q:u2".
Proof.
  destruct (RateLimiter.check "queue:q:limit" "q" perUser (Some [("userId", "u1")])
              perUserWorld) as [[r|e] w'] eqn:E; [|vm_compute in E; discriminate E].
  exists r, w'. split; [reflexivity|]. split.
  - vm_compute in E. inversion E. reflexivity.
  - refine (proj1 (check_touches_only_its_own_window "queue:q:limit" "q" perUser
                     (Some [("userId", "u1")]) perUserWorld w' (Ok r)
                     "queue:q:limit:q:u2" E _)).
    vm_compute. discriminate.
Defined.

Lemma trim_first_is_live (duration now : Z) (z : list (string * Z)) (m : string) (s : Z)
    (r : list (string * Z)) :
  trim duration now z = (m, s) :: r ->
  In (m, s) z /\ (s < 0 \/ now - duration < s).
Proof.
  intros H. assert (Hin : In (m, s) (trim duration now z)) by (rewrite H; left; reflexivity).
  unfold trim in Hin. apply filter_In in Hin as [Hin Hf]. split; [exact Hin|].
  unfold Redis.inScore in Hf. cbn [snd] in Hf.
  apply negb_true_iff, andb_false_iff in Hf as [Hf|Hf].
  - left. apply Z.leb_gt in Hf. exact Hf.
  - right. apply Z.leb_gt in Hf. exact Hf.
Qed.

(** X9. What the reply of the script says. A limited reply reports no
    remaining call and, when the limit is at least 1 and the scores in
    the window are the non-negative timestamps the script writes, a
    wait of at least one millisecond. A reply that lets the call
    through reports as remaining the limit less the entries that are
    in the window once the new one is added. *)
Theorem rate_limit_reply_counts (key identifier : string) (max duration now : Z)
    (w w' : World) (z : list (string * Z)) (limited remaining timeToReset : Z) :
  windowAt (redis w) (key +:+ ":" +:+ identifier) = Some z ->
  (forall e, In e z -> 0 <= snd e) ->
  1 <= max ->
  RateLimit.rateLimit key identifier max duration now w
    = (Ok (limited, remaining, timeToReset), w') ->
  (limited = 1 -> remaining = 0 /\ 1 <= timeToReset)
  /\ (limited = 0 ->
        remaining = max - (Z.of_nat (List.length (trim duration now z)) + 1)
        /\ 0 <= remaining).
Proof.
  intros Hz Hpos Hmax Hrun.
  pose proof (rateLimit_run key identifier max duration now w z Hz) as Hspec.
  cbv zeta in Hspec. rewrite Hspec in Hrun. clear Hspec.
  destruct (max <=? Z.of_nat (List.length (trim duration now z))) eqn:E;
    inversion Hrun; subst; clear Hrun.
  - apply Z.leb_le in E. split; [|discriminate]. intros _. split; [lia|].
    destruct (trim duration now z) as [|[m s] r] eqn:Et; [cbn in E; lia|].
    destruct (trim_first_is_live _ _ _ _ _ _ Et) as (Hin & Hlive).
    specialize (Hpos _ Hin). cbn [snd] in Hpos. cbn [resetOf]. lia.
  - apply Z.leb_gt in E. split; [discriminate|]. intros _. lia.
Qed.

Lemma rate_limit_reply_counts_witness :
  exists remaining timeToReset,
    RateLimit.rateLimit "queue:q:limit" "q:u2" 1 60000 1000 perUserWorld
    = (Ok (1, remaining, timeToReset), perUserWorld)
    /\ remaining = 0 /\ 1 <= timeToReset.
Proof.
  exists 0, 59900.
  assert (Hrun : RateLimit.rateLimit "queue:q:limit" "q:u2" 1 60000 1000 perUserWorld
                 = (Ok (1, 0, 59900), perUserWorld)) by (vm_compute; reflexivity).
  split; [exact Hrun|].
  refine (proj1 (rate_limit_reply_counts "queue:q:limit" "q:u2" 1 60000 1000
                   perUserWorld perUserWorld [("900:0.1", 900)] 1 0 59900 _ _ _ Hrun)
                eq_refl).
  - vm_compute. reflexivity.
  - intros e [<-|[]]. cbn. lia.
  - lia.
Defined.

Lemma check_closed
    (limitKey queueName : string) (o : RateLimiter.Options) (data : option Data)
    (w w' : World) (r : RateLimiter.RateLimitResult) :
  RateLimiter.max o <= 0 ->
  RateLimiter.check limitKey queueName o data w = (Ok r, w') ->
  RateLimiter.limited r = true.
Proof.
  intros Hmax Hrun. unfold RateLimiter.check in Hrun.
  rewrite (bind_ok _ _ _ _ _ (Date_now_run w)) in Hrun.
  rewrite bind_run in Hrun.
  set (identifier := RateLimiter.identifierOf queueName o data) in *.
  destruct (windowAt (redis (ticked w)) (limitKey +:+ ":" +:+ identifier)) as [z|] eqn:Ez.
  - pose proof (rateLimit_run limitKey identifier (RateLimiter.max o) (RateLimiter.duration o)
                  (nowOf w) (ticked w) z Ez) as Hspec.
    cbv zeta in Hspec. rewrite Hspec in Hrun.
    replace (RateLimiter.max o <=?
             Z.of_nat (List.length (trim (RateLimiter.duration o) (nowOf w) z)))
      with true in Hrun by (symmetry; apply Z.leb_le; lia).
    inversion Hrun. reflexivity.
  - destruct (rateLimit_wrong limitKey identifier (RateLimiter.max o) (RateLimiter.duration o)
                (nowOf w) (ticked w) Ez) as [e He].
    rewrite He in Hrun. discriminate Hrun.
Qed.

(** One level of the recursion of [add] when the limiter reports
    limited: the call is the inner call, made with the options of the
    re-submission in the world the check left. *)
Lemma add_limited_step (fuel : nat) (q : Queue) (data : Data) (options : option JobOptions)
    (lim : RateLimiter.Options) (r : RateLimiter.RateLimitResult) (w w1 : World) :
  q_limiter q = Some lim ->
  RateLimiter.check (getKey q "limit") (q_name q) lim (Some data) w = (Ok r, w1) ->
  RateLimiter.limited r = true ->
  add (S fuel) q data options w
  = add fuel q data (Some (rateLimitedOptions q options r)) w1.
Proof.
  intros Hlim Hcheck Hlimited. cbn [add]. unfold tryCatch. rewrite Hlim.
  rewrite !bind_run, Hcheck, Hlimited. reflexivity.
Qed.

(** An error of the check is announced once and thrown on. *)
Lemma add_check_throws (fuel : nat) (q : Queue) (data : Data) (options : option JobOptions)
    (lim : RateLimiter.Options) (e : string) (w w1 : World) :
  q_limiter q = Some lim ->
  RateLimiter.check (getKey q "limit") (q_name q) lim (Some data) w = (Throw e, w1) ->
  add (S fuel) q data options w
  = (Throw e, setEvents w1 (events w1 ++ [ErrorEvent e])).
Proof.
  intros Hlim Hcheck. cbn [add]. unfold tryCatch. rewrite Hlim.
  rewrite !bind_run, Hcheck. reflexivity.
Qed.

(** X10. A limiter that admits no call ([max] of 0 or less) shuts the
    queue: every check is limited, so [add] calls itself again and
    again and never reaches the code that stores the job. Whatever the
    depth allowed to that recursion, it is used up, and no key of the
    store other than the limiter's window has changed: no job hash, no
    waiting or delayed entry. *)
Theorem add_never_stores_when_limit_is_zero
    (fuel : nat) (q : Queue) (lim : RateLimiter.Options) (data : Data) :
  q_limiter q = Some lim ->
  RateLimiter.max lim <= 0 ->
  forall (options : option JobOptions) (w : World),
  exists e w',
    add fuel q data options w = (Throw e, w')
    /\ forall k,
         k <> getKey q "limit" +:+ ":" +:+ RateLimiter.identifierOf (q_name q) lim (Some data) ->
         redis w' !! k = redis w !! k.
Proof.
  intros Hlim Hmax. induction fuel as [|fuel IH]; intros options w.
  - exists "add: recursion budget exhausted", w. split; [reflexivity | auto].
  - destruct (RateLimiter.check (getKey q "limit") (q_name q) lim (Some data) w)
      as [[r|e] w1] eqn:E.
    + rewrite (add_limited_step fuel q data options lim r w w1 Hlim E
                 (check_closed _ _ _ _ _ _ _ Hmax E)).
      destruct (IH (Some (rateLimitedOptions q options r)) w1) as (e & w2 & Hrec & Hframe).
      exists e, w2. split; [exact Hrec|].
      intros k Hk. rewrite (Hframe k Hk).
      apply (check_frame _ _ _ _ _ _ _ k E Hk).
    + rewrite (add_check_throws fuel q data options lim e w w1 Hlim E).
      exists e. eexists. split; [reflexivity|].
      intros k Hk. cbn [redis setEvents].
      apply (check_frame _ _ _ _ _ _ _ k E Hk).
Qed.

Lemma add_never_stores_when_limit_is_zero_witness :
  exists e w',
    add 50 closedQueue [] (Some (jobNamed "A")) (emptyWorld 1000) = (Throw e, w')
    /\ redis w' !! "queue:q:job:A" = None
    /\ redis w' !! "queue:q:waiting" = None.
Proof.
  destruct (add_never_stores_when_limit_is_zero 50 closedQueue
              {| RateLimiter.max := 0; RateLimiter.duration := 1000;
                 RateLimiter.keyPrefix := None |} [] eq_refl ltac:(cbn; lia)
              (Some (jobNamed "A")) (emptyWorld 1000)) as (e & w' & Hrun & Hframe).
  exists e, w'. split; [exact Hrun|]. split.
  - rewrite Hframe by (vm_compute; discriminate). reflexivity.
  - rewrite Hframe by (vm_compute; discriminate). reflexivity.
Defined.

(** ** Promotion of delayed jobs *)

Lemma windowAt_insert_ne (s : Store) (k k' : string) (v : Redis.rval Json) :
  k <> k' -> windowAt (<[k := v]> s) k' = windowAt s k'.
Proof. intros H. unfold windowAt. rewrite lookup_insert_ne by exact H. reflexivity. Qed.

Lemma listAt_putZSet_ne (s : Store) (k k' : string) (z : list (string * Z)) :
  k <> k' -> listAt (Redis.putZSet k z s) k' = listAt s k'.
Proof. intros H. unfold listAt. rewrite lookup_putZSet_ne by exact H. reflexivity. Qed.

Lemma promote_loop (this : Worker.t) (jobs : list string) :
  forall (w : World) (z : list (string * Z)) (lw : list string),
    windowAt (redis w) (getKey (Worker.queue this) "delayed") = Some z ->
    listAt (redis w) (getKey (Worker.queue this) "waiting") = Some lw ->
    exists w',
      forEach jobs (fun jobId =>
        _ ← Cmd.ZREM (getKey (Worker.queue this) "delayed") jobId;
        _ ← Cmd.LPUSH (getKey (Worker.queue this) "waiting") jobId;
        ret tt) w = (Ok tt, w')
      /\ windowAt (redis w') (getKey (Worker.queue this) "delayed")
         = Some (fold_left (fun acc j => Redis.zremMember j acc) jobs z)
      /\ listAt (redis w') (getKey (Worker.queue this) "waiting") = Some (rev jobs ++ lw)%list
      /\ (forall k, k <> getKey (Worker.queue this) "delayed" ->
                    k <> getKey (Worker.queue this) "waiting" ->
                    redis w' !! k = redis w !! k)
      /\ events w' = events w /\ handled w' = handled w.
Proof.
  set (q := Worker.queue this).
  induction jobs as [|j jobs IH]; intros w z lw Hz Hl.
  - exists w. cbn. auto 6.
  - cbn [forEach]. rewrite bind_run.
    rewrite (bind_ok _ _ _ _ _ (ZREM_run _ j _ _ Hz)).
    set (w1 := setRedis w (Redis.putZSet (getKey q "delayed") (Redis.zremMember j z) (redis w))).
    assert (Hl1 : listAt (redis w1) (getKey q "waiting") = Some lw).
    { unfold w1. cbn [redis setRedis]. rewrite listAt_putZSet_ne by key_ne. exact Hl. }
    rewrite (bind_ok _ _ _ _ _ (LPUSH_run _ j _ _ Hl1)). unfold ret at 1.
    set (w2 := setRedis w1 (<[getKey q "waiting" := Redis.VList (j :: lw)]> (redis w1))).
    assert (Hz2 : windowAt (redis w2) (getKey q "delayed") = Some (Redis.zremMember j z)).
    { unfold w2, w1. cbn [redis setRedis]. rewrite windowAt_insert_ne by key_ne.
      apply windowAt_put. }
    assert (Hl2 : listAt (redis w2) (getKey q "waiting") = Some (j :: lw)).
    { unfold w2. cbn [redis setRedis]. apply listAt_insert. }
    destruct (IH w2 _ _ Hz2 Hl2) as (w' & Hrun & Hz' & Hl' & Hframe & Hev & Hh).
    exists w'. split; [exact Hrun|]. split; [exact Hz'|]. split.
    + rewrite Hl'. cbn [rev]. rewrite <- app_assoc. reflexivity.
    + split; [|split; [exact Hev | exact Hh]].
      intros k Hk1 Hk2. rewrite (Hframe k Hk1 Hk2). unfold w2, w1. cbn [redis setRedis].
      rewrite lookup_insert_ne by congruence. apply lookup_putZSet_ne. congruence.
Qed.

Lemma fold_zremMember (jobs : list string) (z : list (string * Z)) :
  fold_left (fun acc j => Redis.zremMember j acc) jobs z
  = List.filter (fun e => negb (existsb (fun j => String.eqb j (fst e)) jobs)) z.
Proof.
  revert z. induction jobs as [|j jobs IH]; intros z; cbn [fold_left existsb].
  - induction z as [|e z IHz]; [reflexivity|]. cbn. f_equal. exact IHz.
  - rewrite IH. unfold Redis.zremMember.
    induction z as [|e z IHz]; [reflexivity|]. cbn [List.filter].
    destruct (String.eqb j (fst e)) eqn:E; cbn [negb orb].
    + exact IHz.
    + cbn [List.filter]. destruct (existsb _ jobs); cbn [negb]; [exact IHz|].
      f_equal. exact IHz.
Qed.

Lemma nodup_fst_inj (z : list (string * Z)) (a b : string * Z) :
  List.NoDup (List.map fst z) -> In a z -> In b z -> fst a = fst b -> a = b.
Proof.
  induction z as [|e z IH]; intros Hnd Ha Hb Hab; [destruct Ha|].
  cbn [List.map] in Hnd. inversion Hnd as [|x l Hnot Hnd']; subst.
  destruct Ha as [->|Ha], Hb as [->|Hb].
  - reflexivity.
  - exfalso. apply Hnot. rewrite Hab. apply in_map. exact Hb.
  - exfalso. apply Hnot. rewrite <- Hab. apply in_map. exact Ha.
  - apply IH; assumption.
Qed.

Lemma due_removed (now : Z) (z : list (string * Z)) :
  List.NoDup (List.map fst z) ->
  fold_left (fun acc j => Redis.zremMember j acc) (dueAt now z) z = notDueAt now z.
Proof.
  intros Hnd. rewrite fold_zremMember. unfold notDueAt.
  apply filter_ext_in. intros e He. f_equal.
  destruct (Redis.inScore 0 now e) eqn:E.
  - apply existsb_exists. exists (fst e). split; [|apply String.eqb_refl].
    unfold dueAt. apply in_map. apply filter_In. split; assumption.
  - apply not_true_is_false. intros H. apply existsb_exists in H as (j & Hj & Heq).
    apply String.eqb_eq in Heq. unfold dueAt in Hj.
    apply in_map_iff in Hj as (e' & He' & Hin'). apply filter_In in Hin' as (Hin' & Hdue).
    assert (e' = e) by (apply (nodup_fst_inj z); congruence).
    subst e'. congruence.
Qed.

(** X11. Promotion of delayed jobs. [moveDelayedJobsToWaiting] moves
    exactly the jobs whose fire time has come, a score between 0 and
    the clock reading: afterwards the delayed set holds the entries
    that are not yet due, and the due ids stand at the head of the
    waiting list, the one that was due last in front. No other key
    changes and no event is emitted. *)
Theorem due_delayed_jobs_are_promoted (this : Worker.t) (w : World)
    (z : list (string * Z)) (lw : list string) :
  windowAt (redis w) (getKey (Worker.queue this) "delayed") = Some z ->
  listAt (redis w) (getKey (Worker.queue this) "waiting") = Some lw ->
  List.NoDup (List.map fst z) ->
  exists w',
    Worker.moveDelayedJobsToWaiting this w = (Ok tt, w')
    /\ windowAt (redis w') (getKey (Worker.queue this) "delayed")
       = Some (notDueAt (nowOf w) z)
    /\ listAt (redis w') (getKey (Worker.queue this) "waiting")
       = Some (rev (dueAt (nowOf w) z) ++ lw)%list
    /\ (forall k, k <> getKey (Worker.queue this) "delayed" ->
                  k <> getKey (Worker.queue this) "waiting" ->
                  redis w' !! k = redis w !! k)
    /\ events w' = events w.
Proof.
  intros Hz Hl Hnd. unfold Worker.moveDelayedJobsToWaiting.
  rewrite (bind_ok _ _ _ _ _ (Date_now_run w)).
  assert (Hz' : windowAt (redis (ticked w)) (getKey (Worker.queue this) "delayed") = Some z)
    by (rewrite redis_ticked; exact Hz).
  assert (Hl' : listAt (redis (ticked w)) (getKey (Worker.queue this) "waiting") = Some lw)
    by (rewrite redis_ticked; exact Hl).
  rewrite (bind_ok _ _ _ _ _ (ZRANGEBYSCORE_run _ 0 (nowOf w) _ _ Hz')).
  destruct (promote_loop this (dueAt (nowOf w) z) (ticked w) z lw Hz' Hl')
    as (w' & Hrun & Hzw & Hlw & Hframe & Hev & _).
  exists w'. split; [exact Hrun|]. split.
  - rewrite Hzw. f_equal. apply due_removed. exact Hnd.
  - split; [exact Hlw|]. split.
    + intros k Hk1 Hk2. rewrite (Hframe k Hk1 Hk2), redis_ticked. reflexivity.
    + rewrite Hev. apply events_ticked.
Qed.

Lemma due_delayed_jobs_are_promoted_witness :
  exists w',
    Worker.moveDelayedJobsToWaiting (succeeding plainQueue 1) readyWorld = (Ok tt, w')
    /\ windowAt (redis w') "queue:q:delayed" = Some []
    /\ listAt (redis w') "queue:q:waiting" = Some ["a"; "b"].
Proof.
  destruct (due_delayed_jobs_are_promoted (succeeding plainQueue 1) readyWorld
              [("a", 900)] ["b"]) as (w' & Hrun & Hz & Hl & _).
  - vm_compute. reflexivity.
  - vm_compute. reflexivity.
  - cbn. repeat constructor. intros [].
  - exists w'. split; [exact Hrun|]. split; [exact Hz | exact Hl].
Defined.

(** ** Recording a failure *)

Lemma ticked_setRedis (w : World) (s : Store) : ticked (setRedis w s) = setRedis (ticked w) s.
Proof. unfold ticked. cbn [ticks setRedis]. destruct (ticks w); reflexivity. Qed.

Lemma nowOf_setRedis (w : World) (s : Store) : nowOf (setRedis w s) = nowOf w.
Proof. reflexivity. Qed.

Lemma hashAt_insert_ne (s : Store) (k k' : string) (v : Redis.rval Json) :
  k <> k' -> hashAt (<[k := v]> s) k' = hashAt s k'.
Proof. intros H. unfold hashAt. rewrite lookup_insert_ne by exact H. reflexivity. Qed.

Lemma hashAt_putList_ne (s : Store) (k k' : string) (l : list string) :
  k <> k' -> hashAt (Redis.putList k l s) k' = hashAt s k'.
Proof. intros H. unfold hashAt. rewrite lookup_putList_ne by exact H. reflexivity. Qed.

Lemma listAt_putList_ne (s : Store) (k k' : string) (l : list string) :
  k <> k' -> listAt (Redis.putList k l s) k' = listAt s k'.
Proof. intros H. unfold listAt. rewrite lookup_putList_ne by exact H. reflexivity. Qed.

Lemma moveToFailed_run (q : Queue) (this : Job) (err : string) (failedReason : option string)
    (w : World) (h : Hash) (la lf : list string) :
  listAt (redis w) (getKey q "active") = Some la ->
  listAt (redis w) (getKey q "failed") = Some lf ->
  hashAt (redis w) (getJobKey q (job_id this)) = Some h ->
  moveToFailed q this err failedReason w
  = (Ok (setFinished this (nowOf w) (job_returnvalue this) (Some (orS failedReason err))
           (trimStacktrace (job_stacktrace this ++ [err])) (job_attemptsMade this + 1)),
     setEvents
       (setRedis (ticked w)
          (failedStore q this err failedReason (nowOf w) h la lf (redis w)))
       (events w ++ [JobFailed (job_id this)])).
Proof.
  intros Hla Hlf Hh. unfold moveToFailed.
  rewrite (bind_ok _ _ _ _ _ (LREM_run _ 0 (job_id this) _ _ Hla)). rewrite lrem_all.
  set (s1 := Redis.putList (getKey q "active") (without (job_id this) la) (redis w)).
  assert (Hlf1 : listAt (redis (setRedis w s1)) (getKey q "failed") = Some lf).
  { unfold s1. cbn [redis setRedis]. rewrite listAt_putList_ne by key_ne. exact Hlf. }
  rewrite (bind_ok _ _ _ _ _ (LPUSH_run _ (job_id this) _ _ Hlf1)).
  cbn [redis setRedis]. rewrite setRedis_setRedis.
  set (s2 := <[getKey q "failed" := Redis.VList (job_id this :: lf)]> s1).
  rewrite (bind_ok _ _ _ _ _ (Date_now_run (setRedis w s2))).
  rewrite ticked_setRedis, nowOf_setRedis.
  assert (Hh2 : hashAt (redis (setRedis (ticked w) s2)) (getJobKey q (job_id this)) = Some h).
  { unfold s2, s1. cbn [redis setRedis]. rewrite hashAt_insert_ne by key_ne.
    rewrite hashAt_putList_ne by key_ne. exact Hh. }
  rewrite (bind_ok _ _ _ _ _ (HMSET_run _ _ _ _ Hh2)).
  cbn [redis setRedis]. rewrite setRedis_setRedis.
  rewrite bind_run. unfold emit, ret. cbn [events setRedis].
  rewrite events_ticked. reflexivity.
Qed.

Lemma trimStacktrace_skipn (st : list string) :
  trimStacktrace st = skipn (List.length st - 10) st.
Proof.
  unfold trimStacktrace. destruct (10 <? List.length st)%nat eqn:E; [reflexivity|].
  apply Nat.ltb_ge in E. replace (List.length st - 10)%nat with 0%nat by lia. reflexivity.
Qed.

Lemma last_skipn {A : Type} (n : nat) (l : list A) (d : A) :
  (n < List.length l)%nat -> List.last (skipn n l) d = List.last l d.
Proof.
  revert l. induction n as [|n IH]; intros l Hn; [reflexivity|].
  destruct l as [|x l]; [cbn in Hn; lia|]. cbn [skipn].
  rewrite IH by (cbn in Hn; lia).
  destruct l as [|y l]; [cbn in Hn; lia | reflexivity].
Qed.

(** X12. The failure history is bounded. [moveToFailed] appends the
    error to the job's stack traces and keeps the last ten: the list
    it stores, and leaves in the job object, has at most ten entries,
    is the tail of the old list with the new error, and ends with the
    new error; the attempt counter grows by exactly one. *)
Theorem failure_history_keeps_last_ten
    (q : Queue) (this : Job) (err : string) (failedReason : option string)
    (w : World) (h : Hash) (la lf : list string) :
  listAt (redis w) (getKey q "active") = Some la ->
  listAt (redis w) (getKey q "failed") = Some lf ->
  hashAt (redis w) (getJobKey q (job_id this)) = Some h ->
  exists job w' h',
    moveToFailed q this err failedReason w = (Ok job, w')
    /\ (List.length (job_stacktrace job) <= 10)%nat
    /\ job_stacktrace job
       = skipn (List.length (job_stacktrace this ++ [err])%list - 10)
               (job_stacktrace this ++ [err])%list
    /\ List.last (job_stacktrace job) "" = err
    /\ job_attemptsMade job = job_attemptsMade this + 1
    /\ redis w' !! getJobKey q (job_id this) = Some (Redis.VHash h')
    /\ h' !! "stacktrace" = Some (Redis.HList (job_stacktrace job))
    /\ h' !! "attemptsMade" = Some (Redis.HNum (job_attemptsMade job)).
Proof.
  intros Hla Hlf Hh. do 3 eexists.
  split; [apply (moveToFailed_run q this err failedReason w h la lf Hla Hlf Hh)|].
  cbn [job_stacktrace job_attemptsMade setFinished].
  rewrite trimStacktrace_skipn.
  set (st := (job_stacktrace this ++ [err])%list).
  assert (Hlen : List.length st = S (List.length (job_stacktrace this))).
  { unfold st. rewrite length_app. cbn. lia. }
  split; [rewrite length_skipn; lia|].
  split; [reflexivity|].
  split.
  { rewrite last_skipn by lia. unfold st. apply last_last. }
  split; [reflexivity|].
  split.
  { cbn [redis setRedis setEvents]. unfold failedStore. apply lookup_insert_eq. }
  unfold failedHash. split.
  - rewrite lookup_insert_ne by discriminate. rewrite lookup_insert_eq.
    rewrite trimStacktrace_skipn. reflexivity.
  - apply lookup_insert_eq.
Qed.

Lemma failure_history_keeps_last_ten_witness :
  exists job w' h',
    moveToFailed plainQueue oftenFailedJob "e12" None (emptyWorld 2000) = (Ok job, w')
    /\ (List.length (job_stacktrace job) <= 10)%nat
    /\ job_stacktrace job
       = skipn (List.length (elevenErrors ++ ["e12"])%list - 10) (elevenErrors ++ ["e12"])%list
    /\ List.last (job_stacktrace job) "" = "e12"
    /\ job_attemptsMade job = 11 + 1
    /\ redis w' !! "queue:q:job:A" = Some (Redis.VHash h')
    /\ h' !! "stacktrace" = Some (Redis.HList (job_stacktrace job))
    /\ h' !! "attemptsMade" = Some (Redis.HNum (job_attemptsMade job)).
Proof.
  refine (failure_history_keeps_last_ten plainQueue oftenFailedJob "e12" None
            (emptyWorld 2000) ∅ [] [] _ _ _); vm_compute; reflexivity.
Defined.

(** ** What becomes of a job after a failed attempt *)

Lemma without_cons_same (x : string) (l : list string) : without x (x :: l) = without x l.
Proof. unfold without. cbn [List.filter]. rewrite String.eqb_refl. reflexivity. Qed.

Lemma listAt_failedStore_failed (q : Queue) (this : Job) (err : string) (r : option string)
    (now : Z) (h : Hash) (la lf : list string) (s : Store) :
  listAt (failedStore q this err r now h la lf s) (getKey q "failed")
  = Some (job_id this :: lf).
Proof.
  unfold failedStore. rewrite listAt_insert_ne by key_ne. apply listAt_insert.
Qed.

Lemma listAt_failedStore_active (q : Queue) (this : Job) (err : string) (r : option string)
    (now : Z) (h : Hash) (la lf : list string) (s : Store) :
  listAt (failedStore q this err r now h la lf s) (getKey q "active")
  = Some (without (job_id this) la).
Proof.
  unfold failedStore. rewrite !listAt_insert_ne by key_ne. apply listAt_putList.
Qed.

Lemma lookup_failedStore_job (q : Queue) (this : Job) (err : string) (r : option string)
    (now : Z) (h : Hash) (la lf : list string) (s : Store) :
  failedStore q this err r now h la lf s !! getJobKey q (job_id this)
  = Some (Redis.VHash (failedHash h now (orS r err)
                         (trimStacktrace (job_stacktrace this ++ [err]))
                         (job_attemptsMade this + 1))).
Proof. unfold failedStore. apply lookup_insert_eq. Qed.

Lemma lookup_failedStore_other (q : Queue) (this : Job) (err : string) (r : option string)
    (now : Z) (h : Hash) (la lf : list string) (s : Store) (k : string) :
  k <> getJobKey q (job_id this) -> k <> getKey q "failed" -> k <> getKey q "active" ->
  failedStore q this err r now h la lf s !! k = s !! k.
Proof.
  intros H1 H2 H3. unfold failedStore.
  rewrite !lookup_insert_ne by congruence. apply lookup_putList_ne. congruence.
Qed.

Lemma parseJob_id (jobId : string) (h : Hash) : job_id (Codec.parseJob jobId h) = jobId.
Proof. reflexivity. Qed.

(** The store after [retry] on top of a recorded failure. *)
Lemma retry_run (q : Queue) (this : Job) (w : World) (h : Hash) (lf lw : list string) :
  listAt (redis w) (getKey q "failed") = Some lf ->
  hashAt (redis w) (getJobKey q (job_id this)) = Some h ->
  listAt (redis w) (getKey q "waiting") = Some lw ->
  retry q this w
  = (Ok tt,
     setRedis w
       (<[getKey q "waiting" := Redis.VList (job_id this :: lw)]>
          (<[getJobKey q (job_id this) := Redis.VHash (retriedHash h)]>
             (Redis.putList (getKey q "failed") (without (job_id this) lf) (redis w))))).
Proof.
  intros Hlf Hh Hlw. unfold retry.
  rewrite (bind_ok _ _ _ _ _ (LREM_run _ 0 (job_id this) _ _ Hlf)). rewrite lrem_all.
  set (s1 := Redis.putList (getKey q "failed") (without (job_id this) lf) (redis w)).
  assert (Hh1 : hashAt (redis (setRedis w s1)) (getJobKey q (job_id this)) = Some h).
  { unfold s1. cbn [redis setRedis]. rewrite hashAt_putList_ne by key_ne. exact Hh. }
  rewrite (bind_ok _ _ _ _ _ (HMSET_run _ _ _ _ Hh1)).
  cbn [redis setRedis]. rewrite setRedis_setRedis.
  set (s2 := <[getJobKey q (job_id this) := _]> s1).
  assert (Hlw2 : listAt (redis (setRedis w s2)) (getKey q "waiting") = Some lw).
  { unfold s2, s1. cbn [redis setRedis]. rewrite listAt_insert_ne by key_ne.
    rewrite listAt_putList_ne by key_ne. exact Hlw. }
  rewrite (bind_ok _ _ _ _ _ (LPUSH_run _ (job_id this) _ _ Hlw2)).
  cbn [redis setRedis]. rewrite setRedis_setRedis. reflexivity.
Qed.

(** X13. A failed attempt with attempts left and no backoff puts the
    job back in line. The [catch] block of the worker records the
    failure and calls [retry]: afterwards the id stands at the head of
    the waiting list and is in neither the active nor the failed
    list, the attempt counter has grown by one, and [finishedOn] is
    reset so that the job reads as unfinished. *)
Theorem failure_without_backoff_requeues
    (this : Worker.t) (jobId err : string) (w : World) (h : Hash)
    (la lf lw : list string) :
  redis w !! getJobKey (Worker.queue this) jobId = Some (Redis.VHash h) -> h <> ∅ ->
  listAt (redis w) (getKey (Worker.queue this) "active") = Some la ->
  listAt (redis w) (getKey (Worker.queue this) "failed") = Some lf ->
  listAt (redis w) (getKey (Worker.queue this) "waiting") = Some lw ->
  Worker.useDeadLetter this (Codec.parseJob jobId h) = false ->
  job_attemptsMade (Codec.parseJob jobId h) + 1
    < orZ (opt_attempts (job_opts (Codec.parseJob jobId h))) 1 ->
  opt_backoff (job_opts (Codec.parseJob jobId h)) = None ->
  exists w' h',
    Worker.onError this jobId err w = (Ok tt, w')
    /\ listAt (redis w') (getKey (Worker.queue this) "waiting") = Some (jobId :: lw)
    /\ listAt (redis w') (getKey (Worker.queue this) "failed") = Some (without jobId lf)
    /\ listAt (redis w') (getKey (Worker.queue this) "active") = Some (without jobId la)
    /\ redis w' !! getJobKey (Worker.queue this) jobId = Some (Redis.VHash h')
    /\ h' !! "attemptsMade"
       = Some (Redis.HNum (job_attemptsMade (Codec.parseJob jobId h) + 1))
    /\ h' !! "finishedOn" = Some (Redis.HStr "").
Proof.
  set (q := Worker.queue this). set (job0 := Codec.parseJob jobId h).
  intros Hk Hne Hla Hlf Hlw Hdl Hatt Hbo.
  unfold Worker.onError. fold q.
  rewrite (bind_ok _ _ _ _ _ (getJob_present q jobId w h Hk Hne)). fold job0.
  assert (Hh : hashAt (redis w) (getJobKey q (job_id job0)) = Some h).
  { unfold hashAt. cbn [job_id job0 Codec.parseJob]. rewrite Hk. reflexivity. }
  rewrite (bind_ok _ _ _ _ _ (moveToFailed_run q job0 err None w h la lf Hla Hlf Hh)).
  set (job := setFinished job0 _ _ _ _ _).
  set (w1 := setEvents _ _).
  assert (Hdl' : Worker.useDeadLetter this job = false) by exact Hdl.
  rewrite Hdl'. cbn [andb].
  replace (job_attemptsMade job <? orZ (opt_attempts (job_opts job)) 1) with true
    by (symmetry; apply Z.ltb_lt; exact Hatt).
  assert (Hdelay : Worker.retryDelay job = 0).
  { unfold Worker.retryDelay. replace (opt_backoff (job_opts job)) with (@None Backoff)
      by (symmetry; exact Hbo). reflexivity. }
  rewrite Hdelay. replace (0 <? 0) with false by reflexivity.
  assert (Hf1 : listAt (redis w1) (getKey q "failed") = Some (job_id job :: lf)).
  { exact (listAt_failedStore_failed q job0 err None (nowOf w) h la lf (redis w)). }
  assert (Hh1 : hashAt (redis w1) (getJobKey q (job_id job))
                = Some (failedHash h (nowOf w) (orS None err)
                          (trimStacktrace (job_stacktrace job0 ++ [err]))
                          (job_attemptsMade job0 + 1))).
  { unfold hashAt, w1. cbn [redis setRedis setEvents].
    change (job_id job) with (job_id job0). rewrite lookup_failedStore_job. reflexivity. }
  assert (Hw1 : listAt (redis w1) (getKey q "waiting") = Some lw).
  { unfold listAt, w1. cbn [redis setRedis setEvents].
    rewrite lookup_failedStore_other by key_ne. exact Hlw. }
  rewrite (retry_run q job w1 _ _ _ Hf1 Hh1 Hw1).
  change (job_id job) with jobId.
  do 2 eexists. split; [reflexivity|].
  cbn [redis setRedis].
  split; [apply listAt_insert|].
  split.
  { rewrite !listAt_insert_ne by key_ne. rewrite listAt_putList.
    rewrite without_cons_same. reflexivity. }
  split.
  { rewrite !listAt_insert_ne by key_ne. rewrite listAt_putList_ne by key_ne.
    unfold w1. cbn [redis setRedis setEvents]. apply listAt_failedStore_active. }
  split.
  { rewrite lookup_insert_ne by key_ne. apply lookup_insert_eq. }
  unfold retriedHash, failedHash. split.
  - rewrite !lookup_insert_ne by discriminate. apply lookup_insert_eq.
  - rewrite !lookup_insert_ne by discriminate. apply lookup_insert_eq.
Qed.

Lemma failure_without_backoff_requeues_witness :
  exists w' h',
    Worker.onError (failing plainQueue 1) "A" "boom" (activeWorld (retryingJobHash 3 None))
      = (Ok tt, w')
    /\ listAt (redis w') "queue:q:waiting" = Some ["A"; "B"]
    /\ listAt (redis w') "queue:q:failed" = Some []
    /\ listAt (redis w') "queue:q:active" = Some []
    /\ redis w' !! "queue:q:job:A" = Some (Redis.VHash h')
    /\ h' !! "attemptsMade" = Some (Redis.HNum (0 + 1))
    /\ h' !! "finishedOn" = Some (Redis.HStr "").
Proof.
  refine (failure_without_backoff_requeues (failing plainQueue 1) "A" "boom"
            (activeWorld (retryingJobHash 3 None)) (retryingJobHash 3 None)
            ["A"] [] ["B"] _ _ _ _ _ _ _ _).
  - vm_compute. reflexivity.
  - intros H. apply (f_equal (fun m => m !! "id")) in H. vm_compute in H. discriminate H.
  - vm_compute. reflexivity.
  - vm_compute. reflexivity.
  - vm_compute. reflexivity.
  - vm_compute. reflexivity.
  - vm_compute. reflexivity.
  - vm_compute. reflexivity.
Defined.

Lemma onError_exhausted
    (this : Worker.t) (jobId err : string) (w : World) (h : Hash) (la lf : list string) :
  redis w !! getJobKey (Worker.queue this) jobId = Some (Redis.VHash h) -> h <> ∅ ->
  listAt (redis w) (getKey (Worker.queue this) "active") = Some la ->
  listAt (redis w) (getKey (Worker.queue this) "failed") = Some lf ->
  Worker.useDeadLetter this (Codec.parseJob jobId h)
    && (Worker.deadLetterMaxRetries this (Codec.parseJob jobId h)
          <=? job_attemptsMade (Codec.parseJob jobId h) + 1) = false ->
  orZ (opt_attempts (job_opts (Codec.parseJob jobId h))) 1
    <= job_attemptsMade (Codec.parseJob jobId h) + 1 ->
  Worker.onError this jobId err w
  = (Ok tt,
     setEvents
       (setRedis (ticked w)
          (failedStore (Worker.queue this) (Codec.parseJob jobId h) err None (nowOf w)
             h la lf (redis w)))
       (events w ++ [JobFailed jobId])).
Proof.
  set (q := Worker.queue this). set (job0 := Codec.parseJob jobId h).
  intros Hk Hne Hla Hlf Hdl Hatt.
  unfold Worker.onError. fold q.
  rewrite (bind_ok _ _ _ _ _ (getJob_present q jobId w h Hk Hne)). fold job0.
  assert (Hh : hashAt (redis w) (getJobKey q (job_id job0)) = Some h).
  { unfold hashAt. cbn [job_id job0 Codec.parseJob]. rewrite Hk. reflexivity. }
  rewrite (bind_ok _ _ _ _ _ (moveToFailed_run q job0 err None w h la lf Hla Hlf Hh)).
  set (job := setFinished job0 _ _ _ _ _).
  assert (Hdl' : Worker.useDeadLetter this job
                 && (Worker.deadLetterMaxRetries this job <=? job_attemptsMade job) = false)
    by exact Hdl.
  rewrite Hdl'.
  replace (job_attemptsMade job <? orZ (opt_attempts (job_opts job)) 1) with false
    by (symmetry; apply Z.ltb_ge; exact Hatt).
  reflexivity.
Qed.

(** The [catch] block on a failure that leaves attempts, for a job with
    a backoff whose delay comes out positive: the failure is recorded
    and the job goes to the delayed set, due at the time read after
    the failure was recorded plus the delay. *)
Lemma onError_delayed
    (this : Worker.t) (jobId err : string) (w : World) (h : Hash)
    (la lf : list string) (z : list (string * Z)) (b : Backoff) :
  redis w !! getJobKey (Worker.queue this) jobId = Some (Redis.VHash h) -> h <> ∅ ->
  listAt (redis w) (getKey (Worker.queue this) "active") = Some la ->
  listAt (redis w) (getKey (Worker.queue this) "failed") = Some lf ->
  windowAt (redis w) (getKey (Worker.queue this) "delayed") = Some z ->
  Worker.useDeadLetter this (Codec.parseJob jobId h)
    && (Worker.deadLetterMaxRetries this (Codec.parseJob jobId h)
          <=? job_attemptsMade (Codec.parseJob jobId h) + 1) = false ->
  job_attemptsMade (Codec.parseJob jobId h) + 1
    < orZ (opt_attempts (job_opts (Codec.parseJob jobId h))) 1 ->
  opt_backoff (job_opts (Codec.parseJob jobId h)) = Some b ->
  0 < backoffDelay b (job_attemptsMade (Codec.parseJob jobId h) + 1) ->
  Worker.onError this jobId err w
  = (Ok tt,
     setRedis
       (ticked
          (setEvents
             (setRedis (ticked w)
                (failedStore (Worker.queue this) (Codec.parseJob jobId h) err None (nowOf w)
                   h la lf (redis w)))
             (events w ++ [JobFailed jobId])))
       (<[getKey (Worker.queue this) "delayed" :=
            Redis.VZSet
              (Redis.zadd
                 (nowOf (ticked w)
                  + backoffDelay b (job_attemptsMade (Codec.parseJob jobId h) + 1))
                 jobId z)]>
          (failedStore (Worker.queue this) (Codec.parseJob jobId h) err None (nowOf w)
             h la lf (redis w)))).
Proof.
  set (q := Worker.queue this). set (job0 := Codec.parseJob jobId h).
  intros Hk Hne Hla Hlf Hz Hdl Hatt Hbo Hpos.
  unfold Worker.onError. fold q.
  rewrite (bind_ok _ _ _ _ _ (getJob_present q jobId w h Hk Hne)). fold job0.
  assert (Hh : hashAt (redis w) (getJobKey q (job_id job0)) = Some h).
  { unfold hashAt. cbn [job_id job0 Codec.parseJob]. rewrite Hk. reflexivity. }
  rewrite (bind_ok _ _ _ _ _ (moveToFailed_run q job0 err None w h la lf Hla Hlf Hh)).
  set (job := setFinished job0 _ _ _ _ _).
  set (w1 := setEvents _ _).
  assert (Hdl' : Worker.useDeadLetter this job
                 && (Worker.deadLetterMaxRetries this job <=? job_attemptsMade job) = false)
    by exact Hdl.
  rewrite Hdl'.
  replace (job_attemptsMade job <? orZ (opt_attempts (job_opts job)) 1) with true
    by (symmetry; apply Z.ltb_lt; exact Hatt).
  assert (Hdelay : Worker.retryDelay job = backoffDelay b (job_attemptsMade job0 + 1)).
  { unfold Worker.retryDelay, backoffDelay.
    replace (opt_backoff (job_opts job)) with (Some b) by (symmetry; exact Hbo).
    reflexivity. }
  rewrite Hdelay.
  replace (0 <? backoffDelay b (job_attemptsMade job0 + 1)) with true
    by (symmetry; apply Z.ltb_lt; exact Hpos).
  rewrite (bind_ok _ _ _ _ _ (Date_now_run w1)).
  assert (Hz1 : windowAt (redis (ticked w1)) (getKey q "delayed") = Some z).
  { rewrite redis_ticked. unfold windowAt, w1. cbn [redis setRedis setEvents].
    rewrite lookup_failedStore_other by key_ne. exact Hz. }
  rewrite (bind_ok _ _ _ _ _ (ZADD_run _ _ jobId _ _ Hz1)).
  rewrite redis_ticked. unfold ret.
  replace (nowOf w1) with (nowOf (ticked w)) by reflexivity.
  reflexivity.
Qed.

(** C7. The delay of a retry, as the [catch] block of the worker
    computes and applies it. A job fails for the [k]-th time, with
    attempts left and the dead-letter rule not applying; its options
    set a backoff with a positive delay [base]. The [catch] block
    records the failure, so that the stored [attemptsMade] is [k], and
    puts the job in the delayed set, due [base * 2^(k-1)] after the
    time it reads then under exponential backoff, and [base] after it
    under fixed backoff. *)
Theorem backoff_delay_formula
    (this : Worker.t) (jobId err : string) (w : World) (h : Hash)
    (la lf : list string) (z : list (string * Z)) (base k : Z) (type : BackoffType) :
  redis w !! getJobKey (Worker.queue this) jobId = Some (Redis.VHash h) -> h <> ∅ ->
  listAt (redis w) (getKey (Worker.queue this) "active") = Some la ->
  listAt (redis w) (getKey (Worker.queue this) "failed") = Some lf ->
  windowAt (redis w) (getKey (Worker.queue this) "delayed") = Some z ->
  job_attemptsMade (Codec.parseJob jobId h) + 1 = k ->
  1 <= k ->
  Worker.useDeadLetter this (Codec.parseJob jobId h)
    && (Worker.deadLetterMaxRetries this (Codec.parseJob jobId h) <=? k) = false ->
  k < orZ (opt_attempts (job_opts (Codec.parseJob jobId h))) 1 ->
  opt_backoff (job_opts (Codec.parseJob jobId h))
    = Some {| bo_type := type; bo_delay := base |} ->
  0 < base ->
  exists w' h',
    Worker.onError this jobId err w = (Ok tt, w')
    /\ redis w' !! getJobKey (Worker.queue this) jobId = Some (Redis.VHash h')
    /\ h' !! "attemptsMade" = Some (Redis.HNum k)
    /\ windowAt (redis w') (getKey (Worker.queue this) "delayed")
       = Some (Redis.zadd
                 (nowOf (ticked w)
                  + match type with
                    | exponential => base * 2 ^ (k - 1)
                    | fixed => base
                    end)
                 jobId z).
Proof.
  intros Hk Hne Hla Hlf Hz Hatt Hk1 Hdl Hleft Hbo Hbase. subst k.
  set (q := Worker.queue this) in *. set (job0 := Codec.parseJob jobId h) in *.
  assert (Hpos : 0 < backoffDelay {| bo_type := type; bo_delay := base |}
                       (job_attemptsMade job0 + 1)).
  { unfold backoffDelay. cbn [bo_type bo_delay]. destruct type; [exact Hbase|].
    assert (0 < 2 ^ (job_attemptsMade job0 + 1 - 1)) by (apply Z.pow_pos_nonneg; lia).
    nia. }
  pose proof (onError_delayed this jobId err w h la lf z _ Hk Hne Hla Hlf Hz Hdl Hleft Hbo Hpos)
    as Hrun.
  fold q job0 in Hrun.
  do 2 eexists. split; [exact Hrun|].
  cbn [redis setRedis]. split.
  { rewrite lookup_insert_ne by key_ne.
    change jobId with (job_id job0) at 1. apply lookup_failedStore_job. }
  split.
  { unfold failedHash. apply lookup_insert_eq. }
  unfold windowAt. rewrite lookup_insert_eq.
  unfold backoffDelay. cbn [bo_type bo_delay]. destruct type; reflexivity.
Qed.

Lemma backoff_delay_formula_witness :
  exists w' h',
    Worker.onError (failing plainQueue 1) "A" "boom"
      (activeWorld (backoffJobHash 1 {| bo_type := exponential; bo_delay := 100 |}))
      = (Ok tt, w')
    /\ redis w' !! "queue:q:job:A" = Some (Redis.VHash h')
    /\ h' !! "attemptsMade" = Some (Redis.HNum 2)
    /\ windowAt (redis w') "queue:q:delayed" = Some [("A", 1000 + 100 * 2 ^ (2 - 1))].
Proof.
  refine (backoff_delay_formula (failing plainQueue 1) "A" "boom"
            (activeWorld (backoffJobHash 1 {| bo_type := exponential; bo_delay := 100 |}))
            (backoffJobHash 1 {| bo_type := exponential; bo_delay := 100 |})
            ["A"] [] [] 100 2 exponential _ _ _ _ _ _ _ _ _ _ _).
  - vm_compute. reflexivity.
  - intros H. apply (f_equal (fun m => m !! "id")) in H. vm_compute in H. discriminate H.
  - vm_compute. reflexivity.
  - vm_compute. reflexivity.
  - vm_compute. reflexivity.
  - vm_compute. reflexivity.
  - lia.
  - vm_compute. reflexivity.
  - vm_compute. reflexivity.
  - vm_compute. reflexivity.
  - lia.
Defined.

(** X14. A failed attempt that was the last one leaves the job in the
    failed list. When the dead-letter rule does not apply and the
    attempts are used up (one attempt is the default), the [catch]
    block does what [moveToFailed] does and nothing more: the id goes
    from the active list to the head of the failed list, the hash
    carries the failure, one failed event is emitted, and the waiting
    list and the delayed set are not touched. *)
Theorem failure_without_attempts_left_stays_failed
    (this : Worker.t) (jobId err : string) (w : World) (h : Hash) (la lf : list string) :
  redis w !! getJobKey (Worker.queue this) jobId = Some (Redis.VHash h) -> h <> ∅ ->
  listAt (redis w) (getKey (Worker.queue this) "active") = Some la ->
  listAt (redis w) (getKey (Worker.queue this) "failed") = Some lf ->
  Worker.useDeadLetter this (Codec.parseJob jobId h)
    && (Worker.deadLetterMaxRetries this (Codec.parseJob jobId h)
          <=? job_attemptsMade (Codec.parseJob jobId h) + 1) = false ->
  orZ (opt_attempts (job_opts (Codec.parseJob jobId h))) 1
    <= job_attemptsMade (Codec.parseJob jobId h) + 1 ->
  exists w' h',
    Worker.onError this jobId err w = (Ok tt, w')
    /\ listAt (redis w') (getKey (Worker.queue this) "failed") = Some (jobId :: lf)
    /\ listAt (redis w') (getKey (Worker.queue this) "active") = Some (without jobId la)
    /\ redis w' !! getKey (Worker.queue this) "waiting"
       = redis w !! getKey (Worker.queue this) "waiting"
    /\ redis w' !! getKey (Worker.queue this) "delayed"
       = redis w !! getKey (Worker.queue this) "delayed"
    /\ redis w' !! getJobKey (Worker.queue this) jobId = Some (Redis.VHash h')
    /\ h' !! "finishedOn" = Some (Redis.HNum (nowOf w))
    /\ h' !! "failedReason" = Some (Redis.HStr err)
    /\ events w' = (events w ++ [JobFailed jobId])%list.
Proof.
  set (q := Worker.queue this). set (job0 := Codec.parseJob jobId h).
  intros Hk Hne Hla Hlf Hdl Hatt.
  do 2 eexists. split; [apply (onError_exhausted this jobId err w h la lf); assumption|].
  fold q job0. cbn [redis setRedis setEvents events].
  split; [exact (listAt_failedStore_failed q job0 err None (nowOf w) h la lf (redis w))|].
  split; [exact (listAt_failedStore_active q job0 err None (nowOf w) h la lf (redis w))|].
  split; [apply lookup_failedStore_other; key_ne|].
  split; [apply lookup_failedStore_other; key_ne|].
  split; [exact (lookup_failedStore_job q job0 err None (nowOf w) h la lf (redis w))|].
  unfold failedHash. split.
  - rewrite !lookup_insert_ne by discriminate. apply lookup_insert_eq.
  - split; [|reflexivity].
    rewrite !lookup_insert_ne by discriminate. rewrite lookup_insert_eq.
    unfold orS. reflexivity.
Qed.

Lemma failure_without_attempts_left_stays_failed_witness :
  exists w' h',
    Worker.onError (failing plainQueue 1) "A" "boom" (activeWorld (retryingJobHash 1 None))
      = (Ok tt, w')
    /\ listAt (redis w') "queue:q:failed" = Some ["A"]
    /\ listAt (redis w') "queue:q:active" = Some []
    /\ redis w' !! "queue:q:waiting" = Some (Redis.VList ["B"])
    /\ redis w' !! "queue:q:delayed" = None
    /\ redis w' !! "queue:q:job:A" = Some (Redis.VHash h')
    /\ h' !! "finishedOn" = Some (Redis.HNum 1000)
    /\ h' !! "failedReason" = Some (Redis.HStr "boom")
    /\ events w' = [JobFailed "A"].
Proof.
  refine (failure_without_attempts_left_stays_failed (failing plainQueue 1) "A" "boom"
            (activeWorld (retryingJobHash 1 None)) (retryingJobHash 1 None)
            ["A"] [] _ _ _ _ _ _).
  - vm_compute. reflexivity.
  - intros H. apply (f_equal (fun m => m !! "id")) in H. vm_compute in H. discriminate H.
  - vm_compute. reflexivity.
  - vm_compute. reflexivity.
  - vm_compute. reflexivity.
  - vm_compute. discriminate.
Defined.

(** ** Dead-letter queue *)

Ltac dl_ne Hsuf :=
  let H := fresh "Hkey" in
  intros H;
  unfold DeadLetterQueue.deadLetterQueueKey, DeadLetterQueue.deadLetterQueueName,
         getKey, getJobKey, keyPrefix in H;
  rewrite Hsuf in H;
  repeat rewrite append_assoc in H;
  repeat (apply (inj (String.append _)) in H);
  cbn in H; discriminate H.

Lemma failedHash_nonempty (h : Hash) (now : Z) (reason : string) (st : list string) (a : Z) :
  failedHash h now reason st a <> ∅.
Proof. unfold failedHash. apply insert_non_empty. Qed.

(** X15. The dead-letter rule comes before the retry rule. When the
    dead-letter queue applies to a job and the failures have reached
    the dead-letter maximum, the [catch] block moves the job to the
    dead-letter list, even if attempts are left: the id is pushed on
    the dead-letter list, taken out of the failed and active lists and
    not put back in the waiting list; a dead-letter hash records the
    attempts and the reason; the job hash stays where it was. *)
Theorem failure_at_dead_letter_maximum_is_dead_lettered
    (this : Worker.t) (jobId err : string) (w : World) (h hd : Hash)
    (la lf ld : list string) :
  let q := Worker.queue this in
  let job0 := Codec.parseJob jobId h in
  let dlq := DeadLetterQueue.make (q_defaultDeadLetterOptions q) in
  let dlqKey := DeadLetterQueue.deadLetterQueueKey q dlq in
  let reason := "Failed after " +:+ pretty (job_attemptsMade job0 + 1) +:+ " attempts" in
  redis w !! getJobKey q jobId = Some (Redis.VHash h) -> h <> ∅ ->
  listAt (redis w) (getKey q "active") = Some la ->
  listAt (redis w) (getKey q "failed") = Some lf ->
  listAt (redis w) dlqKey = Some ld ->
  hashAt (redis w) (dlqKey +:+ ":" +:+ jobId) = Some hd ->
  DeadLetterQueue.queueSuffix dlq = "-dead-letter" ->
  DeadLetterQueue.removeFromOriginalQueue dlq = true ->
  Worker.useDeadLetter this job0 = true ->
  Worker.deadLetterMaxRetries this job0 <= job_attemptsMade job0 + 1 ->
  exists w' hd',
    Worker.onError this jobId err w = (Ok tt, w')
    /\ listAt (redis w') dlqKey = Some (jobId :: ld)
    /\ listAt (redis w') (getKey q "failed") = Some (without jobId lf)
    /\ listAt (redis w') (getKey q "active") = Some (without jobId la)
    /\ redis w' !! getKey q "waiting" = redis w !! getKey q "waiting"
    /\ redis w' !! getKey q "delayed" = redis w !! getKey q "delayed"
    /\ redis w' !! (dlqKey +:+ ":" +:+ jobId) = Some (Redis.VHash hd')
    /\ hd' !! "attemptsMade" = Some (Redis.HNum (job_attemptsMade job0 + 1))
    /\ hd' !! "failedReason" = Some (Redis.HStr reason)
    /\ (exists h', redis w' !! getJobKey q jobId = Some (Redis.VHash h'))
    /\ events w'
       = (events w ++ [JobFailed jobId;
                       JobMovedToDeadLetter jobId (q_name q +:+ "-dead-letter") reason])%list.
Proof.
  intros q job0 dlq dlqKey reason Hk Hne Hla Hlf Hld Hhd Hsuf Hrm Hdl Hmax.
  unfold Worker.onError. fold q.
  rewrite (bind_ok _ _ _ _ _ (getJob_present q jobId w h Hk Hne)). fold job0.
  assert (Hh : hashAt (redis w) (getJobKey q (job_id job0)) = Some h).
  { unfold hashAt. cbn [job_id job0 Codec.parseJob]. rewrite Hk. reflexivity. }
  rewrite (bind_ok _ _ _ _ _ (moveToFailed_run q job0 err None w h la lf Hla Hlf Hh)).
  set (job := setFinished job0 _ _ _ _ _).
  set (w1 := setEvents _ _).
  assert (Hdl' : Worker.useDeadLetter this job = true) by exact Hdl.
  rewrite Hdl'.
  replace (Worker.deadLetterMaxRetries this job <=? job_attemptsMade job) with true
    by (symmetry; apply Z.leb_le; exact Hmax).
  cbn [andb]. change (job_id job) with jobId.
  change (job_attemptsMade job) with (job_attemptsMade job0 + 1). fold reason.
  (* Queue.moveToDeadLetter *)
  unfold moveToDeadLetter.
  set (h1 := failedHash h (nowOf w) (orS None err)
               (trimStacktrace (job_stacktrace job0 ++ [err])) (job_attemptsMade job0 + 1)).
  assert (Hk1 : redis w1 !! getJobKey q jobId = Some (Redis.VHash h1)).
  { exact (lookup_failedStore_job q job0 err None (nowOf w) h la lf (redis w)). }
  rewrite bind_run.
  rewrite (bind_ok _ _ _ _ _ (getJob_present q jobId w1 h1 Hk1 (failedHash_nonempty _ _ _ _ _))).
  fold dlq. unfold DeadLetterQueue.moveToDeadLetter. fold dlqKey.
  set (job1 := Codec.parseJob jobId h1).
  change (job_id job1) with jobId.
  rewrite bind_run. rewrite (bind_ok _ _ _ _ _ (Date_now_run w1)).
  assert (Hhd1 : hashAt (redis (ticked w1)) (dlqKey +:+ ":" +:+ jobId) = Some hd).
  { rewrite redis_ticked. unfold hashAt, w1. cbn [redis setRedis setEvents].
    change (getJobKey q (job_id job0)) with (getJobKey q jobId).
    rewrite (lookup_failedStore_other q job0) by (subst dlqKey; dl_ne Hsuf). exact Hhd. }
  rewrite (bind_ok _ _ _ _ _ (HMSET_run _ _ _ _ Hhd1)).
  set (w2 := setRedis (ticked w1) _).
  assert (Hld2 : listAt (redis w2) dlqKey = Some ld).
  { unfold w2. cbn [redis setRedis]. rewrite listAt_insert_ne by (subst dlqKey; dl_ne Hsuf).
    rewrite redis_ticked. unfold listAt, w1. cbn [redis setRedis setEvents].
    rewrite (lookup_failedStore_other q job0) by (subst dlqKey; dl_ne Hsuf). exact Hld. }
  rewrite (bind_ok _ _ _ _ _ (LPUSH_run _ jobId _ _ Hld2)).
  set (w3 := setRedis w2 _).
  rewrite Hrm.
  assert (Hlf3 : listAt (redis w3) (getKey q "failed") = Some (jobId :: lf)).
  { unfold w3, w2. cbn [redis setRedis].
    rewrite !listAt_insert_ne by (subst dlqKey; dl_ne Hsuf).
    rewrite redis_ticked.
    exact (listAt_failedStore_failed q job0 err None (nowOf w) h la lf (redis w)). }
  rewrite bind_run. rewrite (bind_ok _ _ _ _ _ (LREM_run _ 0 jobId _ _ Hlf3)).
  rewrite lrem_all, without_cons_same.
  unfold ret, emit.
  do 2 eexists. split; [reflexivity|].
  cbn [redis setRedis setEvents events].
  split.
  { rewrite listAt_putList_ne by (subst dlqKey; dl_ne Hsuf).
    unfold w3. cbn [redis setRedis]. apply listAt_insert. }
  split; [apply listAt_putList|].
  split.
  { rewrite listAt_putList_ne by key_ne. unfold w3, w2. cbn [redis setRedis].
    rewrite !listAt_insert_ne by (subst dlqKey; dl_ne Hsuf). rewrite redis_ticked.
    exact (listAt_failedStore_active q job0 err None (nowOf w) h la lf (redis w)). }
  split.
  { rewrite lookup_putList_ne by key_ne. unfold w3, w2. cbn [redis setRedis].
    rewrite !lookup_insert_ne by (subst dlqKey; dl_ne Hsuf). rewrite redis_ticked.
    unfold w1. cbn [redis setRedis setEvents].
    apply (lookup_failedStore_other q job0); key_ne. }
  split.
  { rewrite lookup_putList_ne by key_ne. unfold w3, w2. cbn [redis setRedis].
    rewrite !lookup_insert_ne by (subst dlqKey; dl_ne Hsuf). rewrite redis_ticked.
    unfold w1. cbn [redis setRedis setEvents].
    apply (lookup_failedStore_other q job0); key_ne. }
  split.
  { rewrite lookup_putList_ne by (subst dlqKey; dl_ne Hsuf).
    unfold w3, w2. cbn [redis setRedis].
    rewrite lookup_insert_ne by (subst dlqKey; dl_ne Hsuf).
    apply lookup_insert_eq. }
  split.
  { cbn [fold_left fst snd]. rewrite !lookup_insert_ne by discriminate.
    rewrite lookup_insert_eq. unfold job1, h1, failedHash.
    cbn [job_attemptsMade Codec.parseJob]. unfold Codec.num.
    rewrite lookup_insert_eq. reflexivity. }
  split.
  { cbn [fold_left fst snd]. rewrite !lookup_insert_ne by discriminate.
    rewrite lookup_insert_eq. reflexivity. }
  split.
  { exists h1. rewrite lookup_putList_ne by key_ne. unfold w3, w2. cbn [redis setRedis].
    rewrite !lookup_insert_ne by (subst dlqKey; dl_ne Hsuf). rewrite redis_ticked.
    exact Hk1. }
  unfold w3, w2. cbn [events setRedis]. rewrite events_ticked.
  unfold w1. cbn [events setEvents].
  rewrite <- app_assoc. unfold DeadLetterQueue.deadLetterQueueName. rewrite Hsuf.
  reflexivity.
Qed.

Lemma failure_at_dead_letter_maximum_is_dead_lettered_witness :
  exists w' hd',
    Worker.onError (failing plainQueue 1) "A" "boom" (activeWorld deadLetterJobHash)
      = (Ok tt, w')
    /\ listAt (redis w') "queue:q-dead-letter" = Some ["A"]
    /\ listAt (redis w') "queue:q:failed" = Some []
    /\ listAt (redis w') "queue:q:active" = Some []
    /\ redis w' !! "queue:q:waiting" = Some (Redis.VList ["B"])
    /\ redis w' !! "queue:q:delayed" = None
    /\ redis w' !! "queue:q-dead-letter:A" = Some (Redis.VHash hd')
    /\ hd' !! "attemptsMade" = Some (Redis.HNum 3)
    /\ hd' !! "failedReason" = Some (Redis.HStr "Failed after 3 attempts")
    /\ (exists h', redis w' !! "queue:q:job:A" = Some (Redis.VHash h'))
    /\ events w'
       = [JobFailed "A";
          JobMovedToDeadLetter "A" "q-dead-letter" "Failed after 3 attempts"].
Proof.
  refine (failure_at_dead_letter_maximum_is_dead_lettered (failing plainQueue 1) "A" "boom"
            (activeWorld deadLetterJobHash) deadLetterJobHash ∅ ["A"] [] []
            _ _ _ _ _ _ _ _ _ _).
  - vm_compute. reflexivity.
  - intros H. apply (f_equal (fun m => m !! "id")) in H. vm_compute in H. discriminate H.
  - vm_compute. reflexivity.
  - vm_compute. reflexivity.
  - vm_compute. reflexivity.
  - vm_compute. reflexivity.
  - vm_compute. reflexivity.
  - vm_compute. reflexivity.
  - vm_compute. reflexivity.
  - vm_compute. discriminate.
Defined.

(** ** A worker that cannot get the lock of its job *)

(** X16. Contention is recorded as a failure of the job. When the lock
    of a job is held (by a worker that is still running it, say) a
    second worker that was handed the same id does not call its
    handler; [withLock] throws, and the [catch] block of [processJob]
    treats the error like a handler error: the job is pushed on the
    failed list with the acquisition message as its reason and its
    attempt counter grows by one. Stated for a job with no attempt
    left and no dead-letter rule. *)
Theorem lock_contention_is_recorded_as_failure
    (this : Worker.t) (lock : DistributedLock.t) (jobId : string) (w : World) (h : Hash)
    (la lf : list string) (token : string) (rest : list string) :
  q_lock (Worker.queue this) = Some lock ->
  redis w !! DistributedLock.getLockKey lock ("job:" +:+ jobId) <> None ->
  ids w = token :: rest ->
  redis w !! getJobKey (Worker.queue this) jobId = Some (Redis.VHash h) -> h <> ∅ ->
  listAt (redis w) (getKey (Worker.queue this) "active") = Some la ->
  listAt (redis w) (getKey (Worker.queue this) "failed") = Some lf ->
  Worker.useDeadLetter this (Codec.parseJob jobId h)
    && (Worker.deadLetterMaxRetries this (Codec.parseJob jobId h)
          <=? job_attemptsMade (Codec.parseJob jobId h) + 1) = false ->
  orZ (opt_attempts (job_opts (Codec.parseJob jobId h))) 1
    <= job_attemptsMade (Codec.parseJob jobId h) + 1 ->
  exists w' h',
    Worker.processJob this jobId w = (Ok tt, w')
    /\ handled w' = handled w
    /\ listAt (redis w') (getKey (Worker.queue this) "failed") = Some (jobId :: lf)
    /\ listAt (redis w') (getKey (Worker.queue this) "active") = Some (without jobId la)
    /\ redis w' !! getJobKey (Worker.queue this) jobId = Some (Redis.VHash h')
    /\ h' !! "failedReason"
       = Some (Redis.HStr ("Failed to acquire lock for resource job:" +:+ jobId))
    /\ h' !! "attemptsMade"
       = Some (Redis.HNum (job_attemptsMade (Codec.parseJob jobId h) + 1))
    /\ events w' = (events w ++ [JobFailed jobId])%list.
Proof.
  set (q := Worker.queue this). set (job0 := Codec.parseJob jobId h).
  intros Hlock Hheld Hids Hk Hne Hla Hlf Hdl Hatt.
  unfold Worker.processJob, tryCatch, processJobWithLock. fold q. rewrite Hlock.
  rewrite bind_run.
  rewrite (withLock_on_held_lock_throws lock ("job:" +:+ jobId) _ (Some 3) w token rest
             Hheld Hids).
  rewrite (onError_exhausted this jobId _ (setIds w rest) h la lf Hk Hne Hla Hlf Hdl Hatt).
  do 2 eexists. split; [reflexivity|].
  fold q job0. cbn [redis setRedis setEvents events handled].
  split; [rewrite handled_ticked; reflexivity|].
  split; [exact (listAt_failedStore_failed q job0 _ None _ h la lf _)|].
  split; [exact (listAt_failedStore_active q job0 _ None _ h la lf _)|].
  split; [exact (lookup_failedStore_job q job0 _ None _ h la lf _)|].
  unfold failedHash. split.
  - rewrite !lookup_insert_ne by discriminate. rewrite lookup_insert_eq. reflexivity.
  - split; [apply lookup_insert_eq | reflexivity].
Qed.

Lemma lock_contention_is_recorded_as_failure_witness :
  exists w' h',
    Worker.processJob (succeeding plainQueue 1) "7"
      (setRedis heldLockWorld
         (<["queue:q:job:7" := Redis.VHash (<["id" := Redis.HStr "7"]> ∅)]>
            (<["queue:q:active" := Redis.VList ["7"; "7"]]> (redis heldLockWorld))))
      = (Ok tt, w')
    /\ handled w' = []
    /\ listAt (redis w') "queue:q:failed" = Some ["7"]
    /\ listAt (redis w') "queue:q:active" = Some []
    /\ redis w' !! "queue:q:job:7" = Some (Redis.VHash h')
    /\ h' !! "failedReason"
       = Some (Redis.HStr "Failed to acquire lock for resource job:7")
    /\ h' !! "attemptsMade" = Some (Redis.HNum 1)
    /\ events w' = [JobFailed "7"].
Proof.
  refine (lock_contention_is_recorded_as_failure (succeeding plainQueue 1)
            {| DistributedLock.prefix := "queue:lock" |} "7" _
            (<["id" := Redis.HStr "7"]> ∅) ["7"; "7"] [] "tok-2" ["tok-3"]
            _ _ _ _ _ _ _ _ _).
  - reflexivity.
  - vm_compute. discriminate.
  - reflexivity.
  - vm_compute. reflexivity.
  - intros H. apply (f_equal (fun m => m !! "id")) in H. vm_compute in H. discriminate H.
  - vm_compute. reflexivity.
  - vm_compute. reflexivity.
  - vm_compute. reflexivity.
  - vm_compute. discriminate.
Defined.

(** ** The priority pump *)

Lemma rangeOf_all {A : Type} (l : list A) : Redis.rangeOf 0 (-1) l = l.
Proof.
  unfold Redis.rangeOf. replace (0 <? 0) with false by reflexivity.
  replace (-1 <? 0) with true by reflexivity.
  destruct l as [|x r]; [reflexivity|].
  replace (Z.of_nat (List.length (x :: r)) + -1 <? 0) with false
    by (symmetry; apply Z.ltb_ge; cbn [List.length]; lia).
  replace (Z.to_nat (Z.of_nat (List.length (x :: r)) + -1 - 0 + 1))
    with (List.length (x :: r)) by lia.
  replace (Z.to_nat 0) with 0%nat by reflexivity.
  cbn [skipn]. apply firstn_all.
Qed.

Lemma priorityKey_ne_waiting (this : PriorityQueue.t) (p : Z) :
  PriorityQueue.getPriorityKey this p <> getKey (PriorityQueue.baseQueue this) "waiting".
Proof. unfold PriorityQueue.getPriorityKey. key_ne. Qed.

Lemma priorityKey_inj (this : PriorityQueue.t) (p p' : Z) :
  PriorityQueue.getPriorityKey this p = PriorityQueue.getPriorityKey this p' -> p = p'.
Proof.
  unfold PriorityQueue.getPriorityKey. intros H.
  apply (inj (String.append _)) in H. apply (inj (String.append _)) in H.
  apply (inj pretty) in H. exact H.
Qed.

(** Pushing the ids of a list from the last to the first puts the list
    in front of the waiting list, in its own order. *)
Lemma push_reversed (k : string) (ids : list string) :
  forall (w : World) (lw : list string),
    listAt (redis w) k = Some lw ->
    forEach (rev ids) (fun jobId => _ ← Cmd.LPUSH k jobId; ret tt) w
    = (Ok tt,
       match ids with
       | [] => w
       | _ => setRedis w (<[k := Redis.VList (ids ++ lw)%list]> (redis w))
       end).
Proof.
  induction ids as [|x ids IH] using rev_ind; intros w lw Hl; [reflexivity|].
  rewrite rev_app_distr. cbn [rev app forEach].
  rewrite bind_run. rewrite (bind_ok _ _ _ _ _ (LPUSH_run _ x _ _ Hl)). unfold ret at 1.
  rewrite (IH _ (x :: lw)) by (cbn [redis setRedis]; apply listAt_insert).
  f_equal. destruct ids as [|y ids].
  - reflexivity.
  - cbn [app redis setRedis]. rewrite setRedis_setRedis.
    rewrite insert_insert_eq. rewrite <- app_assoc. reflexivity.
Qed.

Lemma DEL_single (k : string) (w : World) :
  Cmd.DEL [k] w
  = (Ok (Z.of_nat (List.length
           (List.filter (fun k' => match redis w !! k' with Some _ => true | None => false end)
              [k]))),
     setRedis w (delete k (redis w))).
Proof. reflexivity. Qed.

(** One level of the pump. *)
Lemma moveLevel_run (this : PriorityQueue.t) (p : Z) (w : World) (l lw : list string) :
  listAt (redis w) (PriorityQueue.getPriorityKey this p) = Some l ->
  listAt (redis w) (getKey (PriorityQueue.baseQueue this) "waiting") = Some lw ->
  exists w',
    PriorityQueue.moveLevel this p w = (Ok tt, w')
    /\ listAt (redis w') (getKey (PriorityQueue.baseQueue this) "waiting") = Some (l ++ lw)%list
    /\ listAt (redis w') (PriorityQueue.getPriorityKey this p) = Some []
    /\ (forall k, k <> PriorityQueue.getPriorityKey this p ->
                  k <> getKey (PriorityQueue.baseQueue this) "waiting" ->
                  redis w' !! k = redis w !! k)
    /\ events w' = events w.
Proof.
  intros Hl Hw. unfold PriorityQueue.moveLevel.
  set (pk := PriorityQueue.getPriorityKey this p) in *.
  set (wk := getKey (PriorityQueue.baseQueue this) "waiting") in *.
  assert (Hne : pk <> wk) by apply priorityKey_ne_waiting.
  rewrite (bind_ok _ _ _ _ _ (LLEN_run _ _ _ Hl)).
  destruct l as [|x l].
  - replace (0 <? Z.of_nat (List.length (@nil string))) with false by reflexivity.
    exists w. split; [reflexivity|]. split; [exact Hw|]. split; [exact Hl | auto].
  - replace (0 <? Z.of_nat (List.length (x :: l))) with true
      by (symmetry; apply Z.ltb_lt; cbn [List.length]; lia).
    rewrite (bind_ok _ _ _ _ _ (LRANGE_run _ 0 (-1) _ _ Hl)). rewrite rangeOf_all.
    rewrite bind_run, DEL_single.
    set (w1 := setRedis w (delete pk (redis w))).
    assert (Hw1 : listAt (redis w1) wk = Some lw).
    { unfold listAt, w1. cbn [redis setRedis]. rewrite lookup_delete_ne by exact Hne.
      exact Hw. }
    rewrite (push_reversed wk (x :: l) w1 lw Hw1).
    eexists. split; [reflexivity|]. cbn [redis setRedis]. split; [apply listAt_insert|].
    split.
    + unfold listAt, w1. cbn [redis setRedis]. rewrite lookup_insert_ne by congruence.
      rewrite lookup_delete_eq. reflexivity.
    + split; [|reflexivity]. intros k Hk1 Hk2. unfold w1. cbn [redis setRedis].
      rewrite lookup_insert_ne by congruence. apply lookup_delete_ne. congruence.
Qed.

Lemma pump_loop (this : PriorityQueue.t) (level : Z -> list string) (n : nat) :
  forall (w : World) (lw : list string),
    listAt (redis w) (getKey (PriorityQueue.baseQueue this) "waiting") = Some lw ->
    (forall p, (p < n)%nat ->
       listAt (redis w) (PriorityQueue.getPriorityKey this (Z.of_nat p))
       = Some (level (Z.of_nat p))) ->
    exists w',
      forEach (PriorityQueue.levelsDown n) (PriorityQueue.moveLevel this) w = (Ok tt, w')
      /\ listAt (redis w') (getKey (PriorityQueue.baseQueue this) "waiting")
         = Some (levelsUp level n ++ lw)%list
      /\ (forall p, (p < n)%nat ->
            listAt (redis w') (PriorityQueue.getPriorityKey this (Z.of_nat p)) = Some [])
      /\ (forall k, (forall p, (p < n)%nat ->
                       k <> PriorityQueue.getPriorityKey this (Z.of_nat p)) ->
                    k <> getKey (PriorityQueue.baseQueue this) "waiting" ->
                    redis w' !! k = redis w !! k)
      /\ events w' = events w.
Proof.
  induction n as [|n IH]; intros w lw Hw Hlev.
  - exists w. split; [reflexivity|]. split; [exact Hw|]. split; [intros p Hp; lia|]. auto.
  - cbn [PriorityQueue.levelsDown forEach]. rewrite bind_run.
    destruct (moveLevel_run this (Z.of_nat n) w _ lw (Hlev n ltac:(lia)) Hw)
      as (w1 & Hrun & Hw1 & Hgone & Hframe & Hev).
    rewrite Hrun.
    assert (Hlev1 : forall p, (p < n)%nat ->
              listAt (redis w1) (PriorityQueue.getPriorityKey this (Z.of_nat p))
              = Some (level (Z.of_nat p))).
    { intros p Hp. unfold listAt. rewrite Hframe.
      - apply (Hlev p). lia.
      - intros H. apply priorityKey_inj in H. lia.
      - apply priorityKey_ne_waiting. }
    destruct (IH w1 _ Hw1 Hlev1) as (w' & Hrun' & Hw' & Hgone' & Hframe' & Hev').
    exists w'. split; [exact Hrun'|]. split.
    { rewrite Hw'. cbn [levelsUp]. rewrite <- app_assoc. reflexivity. }
    split.
    { intros p Hp. destruct (decide (p = n)) as [->|Hpn].
      - unfold listAt. rewrite Hframe'; [exact Hgone| |apply priorityKey_ne_waiting].
        intros p' Hp' H. apply priorityKey_inj in H. lia.
      - apply Hgone'. lia. }
    split; [|congruence].
    intros k Hk1 Hk2. rewrite Hframe' by (auto; intros p Hp; apply Hk1; lia).
    apply Hframe; [apply Hk1; lia | exact Hk2].
Qed.

(** X17. One pass of the priority pump moves every job of every level
    to the waiting list and loses none: afterwards the priority lists
    are empty and the waiting list reads level 0 first, then level 1,
    and so on up to the highest level, each level in its own order,
    followed by what was waiting before. No other key changes. *)
Theorem pump_moves_all_levels_lowest_first
    (this : PriorityQueue.t) (level : Z -> list string) (w : World) (lw : list string) :
  listAt (redis w) (getKey (PriorityQueue.baseQueue this) "waiting") = Some lw ->
  (forall p, 0 <= p < PriorityQueue.priorityLevels this ->
     listAt (redis w) (PriorityQueue.getPriorityKey this p) = Some (level p)) ->
  exists w',
    PriorityQueue.moveJobsToWaiting this w = (Ok tt, w')
    /\ listAt (redis w') (getKey (PriorityQueue.baseQueue this) "waiting")
       = Some (levelsUp level (Z.to_nat (PriorityQueue.priorityLevels this)) ++ lw)%list
    /\ (forall p, 0 <= p < PriorityQueue.priorityLevels this ->
          listAt (redis w') (PriorityQueue.getPriorityKey this p) = Some [])
    /\ (forall k, (forall p, k <> PriorityQueue.getPriorityKey this p) ->
                  k <> getKey (PriorityQueue.baseQueue this) "waiting" ->
                  redis w' !! k = redis w !! k)
    /\ events w' = events w.
Proof.
  intros Hw Hlev. unfold PriorityQueue.moveJobsToWaiting.
  destruct (pump_loop this level (Z.to_nat (PriorityQueue.priorityLevels this)) w lw Hw)
    as (w' & Hrun & Hw' & Hgone & Hframe & Hev).
  { intros p Hp. apply Hlev. lia. }
  exists w'. split; [exact Hrun|]. split; [exact Hw'|]. split.
  - intros p Hp. replace p with (Z.of_nat (Z.to_nat p)) by lia. apply Hgone. lia.
  - split; [|exact Hev]. intros k Hk1 Hk2. apply Hframe; auto.
Qed.

Lemma pump_moves_all_levels_lowest_first_witness :
  exists w',
    PriorityQueue.moveJobsToWaiting threeLevels levelsWorld = (Ok tt, w')
    /\ listAt (redis w') "queue:q:waiting" = Some ["l1"; "l2"; "h1"; "h2"; "w"]
    /\ listAt (redis w') "queue:q:priority:2" = Some [].
Proof.
  destruct (pump_moves_all_levels_lowest_first threeLevels levelsOf levelsWorld ["w"])
    as (w' & Hrun & Hw' & Hgone & _).
  - vm_compute. reflexivity.
  - intros p Hp. cbn in Hp.
    assert (Hcases : p = 0 \/ p = 1 \/ p = 2) by lia.
    destruct Hcases as [->|[->| ->]]; vm_compute; reflexivity.
  - exists w'. split; [exact Hrun|]. split; [exact Hw'|].
    apply (Hgone 2). cbn. lia.
Defined.

(** ** Cron expressions *)

Module CronParserFacts.
Import Stdlib.Strings.Ascii.
Import CronParser.

Lemma setAdd_In (x v : Z) (l : list Z) : In v (setAdd x l) <-> v = x \/ In v l.
Proof.
  unfold setAdd. destruct (existsb (Z.eqb x) l) eqn:E.
  - split; [auto|]. intros [->|H]; [|exact H].
    apply existsb_exists in E as (y & Hy & Heq). apply Z.eqb_eq in Heq. subst. exact Hy.
  - rewrite in_app_iff. cbn. intuition.
Qed.

Lemma NoDup_snoc (x : Z) (l : list Z) :
  List.NoDup l -> ~ In x l -> List.NoDup (l ++ [x]).
Proof.
  induction l as [|y l IH]; intros Hnd Hnot; cbn [app].
  - constructor; [intros [] | constructor].
  - inversion Hnd as [|? ? Hy Hnd']; subst. constructor.
    + rewrite in_app_iff. intros [H|[<-|[]]]; [exact (Hy H)|].
      apply Hnot. left. reflexivity.
    + apply IH; [exact Hnd'|]. intros H. apply Hnot. right. exact H.
Qed.

Lemma setAdd_NoDup (x : Z) (l : list Z) : List.NoDup l -> List.NoDup (setAdd x l).
Proof.
  intros H. unfold setAdd. destruct (existsb (Z.eqb x) l) eqn:E; [exact H|].
  apply NoDup_snoc; [exact H|]. intros Hin.
  assert (existsb (Z.eqb x) l = true); [|congruence].
  apply existsb_exists. exists x. split; [exact Hin | apply Z.eqb_refl].
Qed.

Lemma addFrom_In (step end_ : Z) (fuel : nat) :
  0 <= step ->
  forall (i : Z) (values : list Z) (v : Z),
    In v (addFrom fuel i step end_ values) -> In v values \/ i <= v <= end_.
Proof.
  intros Hstep. induction fuel as [|fuel IH]; intros i values v Hin; [left; exact Hin|].
  cbn [addFrom] in Hin. destruct (i <=? end_) eqn:E; [|left; exact Hin].
  apply Z.leb_le in E. apply IH in Hin as [Hin|Hin]; [|right; lia].
  apply setAdd_In in Hin as [->|Hin]; [right; lia | left; exact Hin].
Qed.

Lemma addFrom_NoDup (step end_ : Z) (fuel : nat) :
  forall (i : Z) (values : list Z),
    List.NoDup values -> List.NoDup (addFrom fuel i step end_ values).
Proof.
  induction fuel as [|fuel IH]; intros i values H; [exact H|].
  cbn [addFrom]. destruct (i <=? end_); [|exact H].
  apply IH. apply setAdd_NoDup. exact H.
Qed.

(** The loops are not cut short: once the counter is past the end,
    fuel that is left changes nothing, and [iterations] is enough to
    get there. *)
Lemma addFrom_past (step end_ : Z) (fuel : nat) (i : Z) (values : list Z) :
  end_ < i -> addFrom fuel i step end_ values = values.
Proof.
  intros H. destruct fuel; [reflexivity|]. cbn [addFrom].
  replace (i <=? end_) with false by (symmetry; apply Z.leb_gt; exact H). reflexivity.
Qed.

Lemma addFrom_enough (step end_ : Z) (fuel : nat) :
  1 <= step ->
  forall (i : Z) (values : list Z) (more : nat),
    (iterations i end_ <= fuel)%nat ->
    addFrom (fuel + more) i step end_ values = addFrom fuel i step end_ values.
Proof.
  intros Hstep. unfold iterations.
  induction fuel as [|fuel IH]; intros i values more Hfuel.
  - cbn [Nat.add]. rewrite addFrom_past by lia. reflexivity.
  - cbn [Nat.add addFrom]. destruct (i <=? end_) eqn:E; [|reflexivity].
    apply IH. apply Z.leb_le in E. lia.
Qed.

Lemma insertSorted_In (v x : Z) (l : list Z) : In x (insertSorted v l) <-> x = v \/ In x l.
Proof.
  induction l as [|y l IH]; cbn [insertSorted]; [cbn; intuition|].
  destruct (v <=? y); cbn [In]; [intuition|]. rewrite IH. intuition.
Qed.

Lemma insertSorted_increasing (v : Z) (l : list Z) :
  increasing l -> ~ In v l -> increasing (insertSorted v l).
Proof.
  induction l as [|y l IH]; intros Hinc Hnot; cbn [insertSorted].
  - cbn. split; [intros ? []| exact I].
  - destruct Hinc as [Hy Hinc]. destruct (v <=? y) eqn:E.
    + apply Z.leb_le in E. cbn [increasing]. split; [|split; assumption].
      intros z [<-|Hz].
      * assert (v <> y) by (intros ->; apply Hnot; left; reflexivity). lia.
      * specialize (Hy z Hz). lia.
    + apply Z.leb_gt in E. cbn [increasing]. split.
      * intros z Hz. apply insertSorted_In in Hz as [->|Hz]; [lia | auto].
      * apply IH; [exact Hinc|]. intros H. apply Hnot. right. exact H.
Qed.

Lemma sortNumbers_In (x : Z) (l : list Z) : In x (sortNumbers l) <-> In x l.
Proof.
  induction l as [|y l IH]; [reflexivity|].
  unfold sortNumbers in *. cbn [fold_right]. rewrite insertSorted_In, IH. cbn. intuition.
Qed.

Lemma sortNumbers_increasing (l : list Z) : List.NoDup l -> increasing (sortNumbers l).
Proof.
  induction l as [|y l IH]; intros Hnd; [exact I|].
  inversion Hnd as [|? ? Hnot Hnd']; subst.
  unfold sortNumbers in *. cbn [fold_right]. apply insertSorted_increasing; [auto|].
  intros H. apply Hnot. apply (sortNumbers_In y l). exact H.
Qed.

Lemma split_nonempty (sep : ascii) (s : string) : split sep s <> [].
Proof.
  destruct s as [|c r]; cbn [split]; [discriminate|].
  destruct (Ascii.eqb c sep); [discriminate|]. destruct (split sep r); discriminate.
Qed.

Lemma includes_split (sep c : ascii) (s part : string) :
  In part (split sep s) -> includes c part = true -> includes c s = true.
Proof.
  revert part. induction s as [|x r IH]; intros part Hin Hc; cbn [split] in Hin.
  - destruct Hin as [<-|[]]. exact Hc.
  - cbn [includes]. destruct (Ascii.eqb x sep) eqn:E.
    + destruct Hin as [<-|Hin]; [discriminate Hc|].
      rewrite (IH part Hin Hc). apply orb_true_r.
    + destruct (split sep r) as [|y ys] eqn:Es; [destruct (split_nonempty sep r Es)|].
      destruct Hin as [<-|Hin].
      * cbn [includes] in Hc. apply orb_true_iff in Hc as [Hc|Hc]; [rewrite Hc; reflexivity|].
        rewrite (IH y (or_introl eq_refl) Hc). apply orb_true_r.
      * rewrite (IH part (or_intror Hin) Hc). apply orb_true_r.
Qed.

(** What one part leaves in the set. *)
Lemma parsePart_values (min max : Z) (values values' : list Z) (part : string) :
  parsePart min max values part = Ok values' ->
  (List.NoDup values -> List.NoDup values')
  /\ (forall v, In v values' ->
        In v values \/ (v <= max /\ (includes "/"%char part = false -> min <= v))).
Proof.
  unfold parsePart. intros H.
  destruct (includes "-"%char part) eqn:Edash.
  - destruct (List.map parseInt (split "-"%char part)) as [|[start|] [|[end_|] rest]];
      try discriminate H.
    destruct ((start <? min) || (max <? end_) || (end_ <? start)) eqn:Echeck;
      [discriminate H|].
    apply orb_false_iff in Echeck as [Echeck E3]. apply orb_false_iff in Echeck as [E1 E2].
    apply Z.ltb_ge in E1, E2, E3. inversion H; subst. split.
    + apply addFrom_NoDup.
    + intros v Hv. apply addFrom_In in Hv as [Hv|Hv]; [left; exact Hv | right; lia | lia].
  - destruct (includes "/"%char part) eqn:Eslash.
    + destruct (split "/"%char part) as [|range [|step rest]]; try discriminate H.
      destruct (parseInt step) as [stepValue|]; [|discriminate H].
      destruct (stepValue <=? 0) eqn:Estep; [discriminate H|].
      apply Z.leb_gt in Estep. inversion H; subst. split.
      * apply addFrom_NoDup.
      * intros v Hv. apply addFrom_In in Hv as [Hv|Hv]; [left; exact Hv | | lia].
        right. split; [lia | discriminate].
    + destruct (parseInt part) as [value|]; [|discriminate H].
      destruct ((value <? min) || (max <? value)) eqn:Echeck; [discriminate H|].
      apply orb_false_iff in Echeck as [E1 E2]. apply Z.ltb_ge in E1, E2.
      inversion H; subst. split.
      * apply setAdd_NoDup.
      * intros v Hv. apply setAdd_In in Hv as [->|Hv]; [right; split; [lia|intros _; lia]|].
        left. exact Hv.
Qed.

Lemma parseParts_values (min max : Z) (parts : list string) :
  forall (values values' : list Z),
    parseParts min max parts values = Ok values' ->
    (List.NoDup values -> List.NoDup values')
    /\ (forall v, In v values' ->
          In v values
          \/ (v <= max
              /\ ((forall part, In part parts -> includes "/"%char part = false) -> min <= v))).
Proof.
  induction parts as [|part parts IH]; intros values values' H; cbn [parseParts] in H.
  - inversion H; subst. split; [auto|]. intros v Hv. left. exact Hv.
  - destruct (parsePart min max values part) as [values1|e] eqn:E; [|discriminate H].
    destruct (parsePart_values _ _ _ _ _ E) as [Hnd1 Hin1].
    destruct (IH _ _ H) as [Hnd Hin]. split; [auto|].
    intros v Hv. destruct (Hin v Hv) as [Hv1|[Hmax Hmin]].
    + destruct (Hin1 v Hv1) as [Hv0|[Hmax Hmin]]; [left; exact Hv0|].
      right. split; [exact Hmax|]. intros Hall. apply Hmin. apply Hall. left. reflexivity.
    + right. split; [exact Hmax|]. intros Hall. apply Hmin. intros p Hp. apply Hall.
      right. exact Hp.
Qed.

Lemma parseField_values (field : string) (min max : Z) (values : list Z) :
  parseField field min max = Ok (Some values) ->
  increasing values
  /\ (forall v, In v values -> v <= max)
  /\ (includes "/"%char field = false -> forall v, In v values -> min <= v).
Proof.
  unfold parseField. destruct (String.eqb field "*"); [discriminate|].
  destruct (parseParts min max (split ","%char field) []) as [vs|e] eqn:E; [|discriminate].
  intros H. inversion H; subst. clear H.
  destruct (parseParts_values _ _ _ _ _ E) as [Hnd Hin].
  split; [apply sortNumbers_increasing; apply Hnd; constructor|].
  split.
  - intros v Hv. apply (proj1 (sortNumbers_In _ _)) in Hv.
    destruct (Hin v Hv) as [[]|[H _]]. exact H.
  - intros Hslash v Hv. apply (proj1 (sortNumbers_In _ _)) in Hv.
    destruct (Hin v Hv) as [[]|[_ H]].
    apply H. intros part Hpart.
    destruct (includes "/"%char part) eqn:Ep; [|reflexivity].
    rewrite (includes_split _ _ _ _ Hpart Ep) in Hslash. discriminate Hslash.
Qed.

(** *** A step written after a range *)

Lemma append_nil (s : string) : "" +:+ s = s.
Proof. reflexivity. Qed.

Lemma append_cons (x : ascii) (s t : string) : String x s +:+ t = String x (s +:+ t).
Proof. reflexivity. Qed.

Lemma digits_app_stop (s : string) (c : ascii) (r : string) :
  digit c = None -> forall acc, digits acc (s ++ String c r) = digits acc s.
Proof.
  intros Hc. induction s as [|x s IH]; intros acc; rewrite ?append_nil, ?append_cons; cbn [digits].
  - rewrite Hc. reflexivity.
  - destruct (digit x); [apply IH | reflexivity].
Qed.

Lemma trimStart_app (s : string) (c : ascii) (r : string) :
  isWhiteSpace c = false -> trimStart (s ++ String c r) = trimStart s ++ String c r.
Proof.
  intros Hc. induction s as [|x s IH]; rewrite ?append_nil, ?append_cons; cbn [trimStart].
  - rewrite Hc. reflexivity.
  - destruct (isWhiteSpace x); [exact IH | reflexivity].
Qed.

Lemma parseInt_app_slash (s r : string) :
  parseInt (s ++ String "/"%char r) = parseInt s.
Proof.
  unfold parseInt. rewrite trimStart_app by reflexivity.
  destruct (trimStart s) as [|c t]; rewrite ?append_nil, ?append_cons; [reflexivity|].
  destruct (Ascii.eqb c "-"%char).
  { rewrite digits_app_stop by reflexivity. reflexivity. }
  destruct (Ascii.eqb c "+"%char).
  { apply digits_app_stop. reflexivity. }
  apply (digits_app_stop (String c t)). reflexivity.
Qed.

Lemma includes_app (c : ascii) (a b : string) :
  includes c (a ++ b) = includes c a || includes c b.
Proof.
  induction a as [|x a IH]; rewrite ?append_nil, ?append_cons; cbn [includes]; [reflexivity|].
  rewrite IH. apply orb_assoc.
Qed.

Lemma split_none (sep : ascii) (s : string) : includes sep s = false -> split sep s = [s].
Proof.
  induction s as [|x s IH]; intros H; cbn [split]; [reflexivity|].
  cbn [includes] in H. apply orb_false_iff in H as [Hx Hs].
  rewrite Hx, (IH Hs). reflexivity.
Qed.

Lemma split_app_head (sep : ascii) (c : ascii) (r : string) (s : string) :
  Ascii.eqb c sep = false ->
  exists y ys,
    split sep (String c r) = String c y :: ys
    /\ split sep (s ++ String c r)
       = (removelast (split sep s) ++ (List.last (split sep s) "" +:+ String c y) :: ys)%list.
Proof.
  intros Hc.
  assert (Hhead : exists y ys, split sep (String c r) = String c y :: ys).
  { cbn [split]. rewrite Hc. destruct (split sep r) as [|y ys] eqn:E.
    - destruct (split_nonempty sep r E).
    - exists y, ys. reflexivity. }
  destruct Hhead as (y & ys & Hhead). exists y, ys. split; [exact Hhead|].
  induction s as [|x s IH].
  - rewrite append_nil. rewrite Hhead. reflexivity.
  - rewrite append_cons.
    cbn [split]. rewrite IH. clear IH.
    destruct (split sep s) as [|l0 ls] eqn:Es; [destruct (split_nonempty sep s Es)|].
    destruct (Ascii.eqb x sep).
    + change (removelast ("" :: l0 :: ls)) with ("" :: removelast (l0 :: ls)).
      change (List.last ("" :: l0 :: ls) "") with (List.last (l0 :: ls) "").
      reflexivity.
    + destruct ls as [|l1 ls].
      * reflexivity.
      * change (removelast (l0 :: l1 :: ls)) with (l0 :: removelast (l1 :: ls)).
        change (removelast (String x l0 :: l1 :: ls))
          with (String x l0 :: removelast (l1 :: ls)).
        change (List.last (l0 :: l1 :: ls) "") with (List.last (l1 :: ls) "").
        change (List.last (String x l0 :: l1 :: ls) "") with (List.last (l1 :: ls) "").
        reflexivity.
Qed.

(** The first two numbers of a range are read the same with a step
    written after it. *)
Lemma range_numbers_app_slash (part rest : string) (start end_ : option Z)
    (more : list (option Z)) :
  List.map parseInt (split "-"%char part) = start :: end_ :: more ->
  exists more',
    List.map parseInt (split "-"%char (part ++ String "/"%char rest))
    = start :: end_ :: more'.
Proof.
  intros H.
  destruct (split_app_head "-"%char "/"%char rest part eq_refl) as (y & ys & _ & Happ).
  rewrite Happ. clear Happ.
  destruct (split "-"%char part) as [|l0 [|l1 [|l2 ls]]]; try discriminate H.
  - cbn [removelast List.last app List.map] in *. inversion H; subst.
    rewrite parseInt_app_slash. eexists. reflexivity.
  - change (removelast (l0 :: l1 :: l2 :: ls)) with (l0 :: l1 :: removelast (l2 :: ls)).
    cbn [app List.map] in *. inversion H; subst. eexists. reflexivity.
Qed.

Lemma parsePart_app_slash (min max : Z) (values values' : list Z) (part rest : string) :
  includes "-"%char part = true ->
  parsePart min max values part = Ok values' ->
  parsePart min max values (part ++ String "/"%char rest) = Ok values'.
Proof.
  intros Hdash H. unfold parsePart in *. rewrite Hdash in H.
  rewrite includes_app, Hdash. cbn [orb].
  destruct (List.map parseInt (split "-"%char part)) as [|[start|] [|[end_|] more]] eqn:E;
    try discriminate H.
  destruct (range_numbers_app_slash part rest _ _ _ E) as [more' ->].
  destruct ((start <? min) || (max <? end_) || (end_ <? start)); [discriminate H | exact H].
Qed.

Lemma not_star (s : string) : includes "-"%char s = true -> String.eqb s "*" = false.
Proof.
  intros H. destruct (String.eqb s "*") eqn:E; [|reflexivity].
  apply String.eqb_eq in E. subst. discriminate H.
Qed.

Lemma parseField_app_slash (range rest : string) (min max : Z)
    (r : option (list Z)) :
  hasRange range = true -> hasComma range = false -> hasComma rest = false ->
  parseField range min max = Ok r ->
  parseField (range +:+ "/" +:+ rest) min max = Ok r.
Proof.
  unfold hasRange, hasComma. intros Hdash Hc1 Hc2 H.
  change (range +:+ "/" +:+ rest) with (range ++ String "/"%char rest).
  unfold parseField in *.
  rewrite (not_star range Hdash) in H.
  rewrite (not_star (range ++ String "/"%char rest))
    by (rewrite includes_app, Hdash; reflexivity).
  rewrite (split_none ","%char range Hc1) in H.
  rewrite (split_none ","%char (range ++ String "/"%char rest))
    by (rewrite includes_app, Hc1; cbn [includes orb]; exact Hc2).
  cbn [parseParts] in *.
  destruct (parsePart min max [] range) as [vs|e] eqn:E; [|discriminate H].
  rewrite (parsePart_app_slash min max [] vs range rest Hdash E). exact H.
Qed.

End CronParserFacts.

(** X18. The values [parseField] returns for a field other than ["*"]
    are in strictly increasing order (so each value is listed once)
    and none exceeds the maximum of the field; a field without a step
    ([/]) has no value below the minimum either. A step with a start
    of its own is not checked against the minimum. *)
Theorem parsed_field_is_sorted_and_bounded
    (field : string) (min max : Z) (values : list Z) :
  CronParser.parseField field min max = Ok (Some values) ->
  increasing values
  /\ (forall v, In v values -> v <= max)
  /\ (CronParser.hasStep field = false -> forall v, In v values -> min <= v).
Proof. exact (CronParserFacts.parseField_values field min max values). Qed.

Lemma parsed_field_is_sorted_and_bounded_witness :
  increasing [1; 2; 3; 4; 5; 10]
  /\ (forall v, In v [1; 2; 3; 4; 5; 10] -> v <= 59)
  /\ (CronParser.hasStep "10,1-5,3" = false ->
      forall v, In v [1; 2; 3; 4; 5; 10] -> 0 <= v).
Proof.
  refine (parsed_field_is_sorted_and_bounded "10,1-5,3" 0 59 [1; 2; 3; 4; 5; 10] _).
  vm_compute. reflexivity.
Defined.

(** A step with a start below the minimum of the field: day 0 of the
    month is listed, and on minutes a start past the maximum lists
    nothing. *)
Example step_start_is_not_checked :
  CronParser.parseField "0/10" 1 31 = Ok (Some [0; 10; 20; 30])
  /\ CronParser.parseField "70/5" 0 59 = Ok (Some []).
Proof. vm_compute. split; reflexivity. Qed.

(** X19. A step written after a range is ignored. A part with a dash
    is read as a range whatever follows: [parseInt] stops at the
    slash, so ["0-30/10"] lists every minute from 0 to 30 and not
    every tenth. Whenever the range parses, the range with a step
    gives the same values. *)
Theorem step_after_range_is_ignored
    (range rest : string) (min max : Z) (values : option (list Z)) :
  CronParser.hasRange range = true ->
  CronParser.hasComma range = false ->
  CronParser.hasComma rest = false ->
  CronParser.parseField range min max = Ok values ->
  CronParser.parseField (range +:+ "/" +:+ rest) min max = Ok values.
Proof. exact (CronParserFacts.parseField_app_slash range rest min max values). Qed.

Lemma step_after_range_is_ignored_witness :
  CronParser.parseField "0-5/2" 0 59 = Ok (Some [0; 1; 2; 3; 4; 5]).
Proof.
  refine (step_after_range_is_ignored "0-5" "2" 0 59 (Some [0; 1; 2; 3; 4; 5]) _ _ _ _);
    vm_compute; reflexivity.
Defined.

Lemma impossible_day_within
    (maxIterations : nat) (schedule : Cron.CronSchedule) (now : Cron.Date)
    (timezone : option Cron.TimeZone) :
  timezone = None \/ timezone = Some Cron.UnknownZone ->
  Cron.valid now ->
  (forall y m d,
     0 <= m <= 11 ->
     Cron.admits (Cron.month schedule) (m + 1) = true ->
     Cron.admits (Cron.dayOfMonth schedule) d = true ->
     ~ (1 <= d <= Cron.daysInMonth y m)) ->
  Cron.getNextExecutionTimeWithin maxIterations schedule now timezone = None.
Proof.
  intros Htz Hv Hnone.
  destruct (Cron.getNextExecutionTimeWithin maxIterations schedule now timezone)
    as [found|] eqn:E; [|reflexivity].
  exfalso.
  destruct (next_execution_within_later maxIterations schedule now found timezone Htz Hv E)
    as (_ & Hm & Hvf & _).
  destruct Hm as (Hmonth & Hday & _). destruct Hvf as (Hmon & Hd & _).
  exact (Hnone (Cron.year found) (Cron.mon found) (Cron.day found) Hmon Hmonth Hday Hd).
Qed.

(** X20. A schedule that names no day of the calendar is never
    answered with a date: when no month that the schedule admits has a
    day that it admits (the 30th of February, the 31st of April),
    [getNextExecutionTime] gives up after its thousand iterations and
    returns null, which [schedule] reports as an invalid cron
    expression. Stated for a call without a time zone. *)
Theorem impossible_day_is_never_scheduled
    (schedule : Cron.CronSchedule) (now : Cron.Date) (timezone : option Cron.TimeZone) :
  timezone = None \/ timezone = Some Cron.UnknownZone ->
  Cron.valid now ->
  (forall y m d,
     0 <= m <= 11 ->
     Cron.admits (Cron.month schedule) (m + 1) = true ->
     Cron.admits (Cron.dayOfMonth schedule) d = true ->
     ~ (1 <= d <= Cron.daysInMonth y m)) ->
  Cron.getNextExecutionTime schedule now timezone = None.
Proof. exact (impossible_day_within 1000 schedule now timezone). Qed.

Lemma impossible_day_is_never_scheduled_witness :
  Cron.getNextExecutionTime februaryThirtieth noon None = None.
Proof.
  refine (impossible_day_is_never_scheduled februaryThirtieth noon None _ _ _).
  - left. reflexivity.
  - unfold Cron.valid. vm_compute. intuition discriminate.
  - intros y m d Hm Hmonth Hday.
    cbn in Hmonth, Hday. rewrite orb_false_r in Hmonth, Hday.
    apply Z.eqb_eq in Hmonth, Hday.
    assert (m = 1) by lia. subst m d.
    unfold Cron.daysInMonth. replace (1 =? 1) with true by reflexivity.
    unfold Cron.leapDay. destruct (Cron.isLeap y); lia.
Defined.

(** ** Submission without dependencies *)

Lemma addedHash_nonempty (q : Queue) (jobId : string) (data : Data) (timestamp : Z)
    (opts : JobOptions) (h : Hash) :
  addedHash q jobId data timestamp opts h <> ∅.
Proof. unfold addedHash. apply insert_non_empty. Qed.

Lemma refresh_run (q : Queue) (jobId : string) (w : World) (h : Hash) :
  redis w !! getJobKey q jobId = Some (Redis.VHash h) -> h <> ∅ ->
  refresh q jobId w = (Ok (Codec.parseJob jobId h), w).
Proof.
  intros Hk Hne. unfold refresh, Cmd.HGETALL.
  assert (Hh : hashAt (redis w) (getJobKey q jobId) = Some h).
  { unfold hashAt. rewrite Hk. reflexivity. }
  rewrite (bind_ok _ _ _ _ _ (asHash_run _ _ _ Hh)).
  rewrite bool_decide_eq_false_2 by exact Hne. reflexivity.
Qed.

(** [addJob] for a job with an id of its own, no dependencies and no
    delay. *)
Lemma addJob_waiting_run (q : Queue) (data : Data) (options : option JobOptions)
    (w : World) (jobId : string) (h : Hash) (lw : list string) :
  opt_jobId (Codec.mergeOptions options) = Some jobId -> jobId <> "" ->
  dependenciesOf (Codec.mergeOptions options) = None ->
  orZ (opt_delay (Codec.mergeOptions options)) 0 <= 0 ->
  hashAt (redis w) (getJobKey q jobId) = Some h ->
  listAt (redis w) (getKey q "waiting") = Some lw ->
  addJob q data options w
  = (Ok (Codec.parseJob jobId (addedHash q jobId data (nowOf w) (Codec.mergeOptions options) h)),
     setEvents
       (setRedis (ticked w)
          (<[getKey q "waiting" :=
               Redis.VList (if truthyB (opt_lifo (Codec.mergeOptions options))
                            then (lw ++ [jobId])%list else jobId :: lw)]>
             (<[getJobKey q jobId :=
                  Redis.VHash (addedHash q jobId data (nowOf w) (Codec.mergeOptions options) h)]>
                (redis w))))
       (events w ++ [JobAdded jobId (q_name q)])).
Proof.
  intros Hid Hne Hdep Hdelay Hh Hlw. unfold addJob.
  set (opts := Codec.mergeOptions options) in *.
  rewrite Hid. replace (String.eqb jobId "") with false
    by (symmetry; apply String.eqb_neq; exact Hne).
  rewrite bind_run. unfold ret at 1.
  rewrite (bind_ok _ _ _ _ _ (Date_now_run w)).
  assert (Hh1 : hashAt (redis (ticked w)) (getJobKey q jobId) = Some h)
    by (rewrite redis_ticked; exact Hh).
  rewrite (bind_ok _ _ _ _ _ (HMSET_run _ _ _ _ Hh1)).
  rewrite Hdep. rewrite bind_run. unfold ret at 1.
  replace (0 <? orZ (opt_delay opts) 0) with false
    by (symmetry; apply Z.ltb_ge; exact Hdelay).
  set (h1 := fold_left _ _ h).
  assert (Hh1e : h1 = addedHash q jobId data (nowOf w) opts h) by reflexivity.
  set (w1 := setRedis (ticked w) _).
  assert (Hlw1 : listAt (redis w1) (getKey q "waiting") = Some lw).
  { unfold w1. cbn [redis setRedis]. rewrite listAt_insert_ne by key_ne.
    rewrite redis_ticked. exact Hlw. }
  assert (Hjob : forall s',
            redis (setRedis w1 (<[getKey q "waiting" := s']> (redis w1))) !! getJobKey q jobId
            = Some (Redis.VHash h1)).
  { intros s'. cbn [redis setRedis]. rewrite lookup_insert_ne by key_ne.
    unfold w1. cbn [redis setRedis]. apply lookup_insert_eq. }
  assert (Hne1 : h1 <> ∅) by (rewrite Hh1e; apply addedHash_nonempty).
  destruct (truthyB (opt_lifo opts)).
  - rewrite !bind_run. rewrite (RPUSH_run _ jobId _ _ Hlw1). unfold ret at 1.
    rewrite (bind_ok _ _ _ _ _ (refresh_run q jobId _ h1 (Hjob _) Hne1)).
    rewrite bind_run. unfold emit, ret. unfold w1. cbn [redis setRedis events setEvents].
    rewrite events_ticked, redis_ticked, Hh1e. reflexivity.
  - rewrite !bind_run. rewrite (LPUSH_run _ jobId _ _ Hlw1). unfold ret at 1.
    rewrite (bind_ok _ _ _ _ _ (refresh_run q jobId _ h1 (Hjob _) Hne1)).
    rewrite bind_run. unfold emit, ret. unfold w1. cbn [redis setRedis events setEvents].
    rewrite events_ticked, redis_ticked, Hh1e. reflexivity.
Qed.

(** The same with a delay. *)
Lemma addJob_delayed_run (q : Queue) (data : Data) (options : option JobOptions)
    (w : World) (jobId : string) (h : Hash) (z : list (string * Z)) :
  opt_jobId (Codec.mergeOptions options) = Some jobId -> jobId <> "" ->
  dependenciesOf (Codec.mergeOptions options) = None ->
  0 < orZ (opt_delay (Codec.mergeOptions options)) 0 ->
  hashAt (redis w) (getJobKey q jobId) = Some h ->
  windowAt (redis w) (getKey q "delayed") = Some z ->
  addJob q data options w
  = (Ok (Codec.parseJob jobId (addedHash q jobId data (nowOf w) (Codec.mergeOptions options) h)),
     setEvents
       (setRedis (ticked w)
          (<[getKey q "delayed" :=
               Redis.VZSet (Redis.zadd (nowOf w + orZ (opt_delay (Codec.mergeOptions options)) 0)
                              jobId z)]>
             (<[getJobKey q jobId :=
                  Redis.VHash (addedHash q jobId data (nowOf w) (Codec.mergeOptions options) h)]>
                (redis w))))
       (events w ++ [JobDelayed jobId (orZ (opt_delay (Codec.mergeOptions options)) 0);
                     JobAdded jobId (q_name q)])).
Proof.
  intros Hid Hne Hdep Hdelay Hh Hz. unfold addJob.
  set (opts := Codec.mergeOptions options) in *.
  rewrite Hid. replace (String.eqb jobId "") with false
    by (symmetry; apply String.eqb_neq; exact Hne).
  rewrite bind_run. unfold ret at 1.
  rewrite (bind_ok _ _ _ _ _ (Date_now_run w)).
  assert (Hh1 : hashAt (redis (ticked w)) (getJobKey q jobId) = Some h)
    by (rewrite redis_ticked; exact Hh).
  rewrite (bind_ok _ _ _ _ _ (HMSET_run _ _ _ _ Hh1)).
  rewrite Hdep. rewrite bind_run. unfold ret at 1.
  replace (0 <? orZ (opt_delay opts) 0) with true
    by (symmetry; apply Z.ltb_lt; exact Hdelay).
  set (h1 := fold_left _ _ h).
  assert (Hh1e : h1 = addedHash q jobId data (nowOf w) opts h) by reflexivity.
  set (w1 := setRedis (ticked w) _).
  assert (Hz1 : windowAt (redis w1) (getKey q "delayed") = Some z).
  { unfold w1. cbn [redis setRedis]. rewrite windowAt_insert_ne by key_ne.
    rewrite redis_ticked. exact Hz. }
  rewrite !bind_run. rewrite (ZADD_run _ _ jobId _ _ Hz1). unfold emit at 1.
  set (w2 := setEvents _ _).
  assert (Hjob : redis w2 !! getJobKey q jobId = Some (Redis.VHash h1)).
  { unfold w2, w1. cbn [redis setRedis setEvents]. rewrite lookup_insert_ne by key_ne.
    apply lookup_insert_eq. }
  assert (Hne1 : h1 <> ∅) by (rewrite Hh1e; apply addedHash_nonempty).
  rewrite (bind_ok _ _ _ _ _ (refresh_run q jobId _ h1 Hjob Hne1)).
  rewrite bind_run. unfold emit, ret. unfold w2, w1. cbn [redis setRedis events setEvents].
  rewrite events_ticked, redis_ticked, Hh1e, <- app_assoc. reflexivity.
Qed.

Lemma add_unlimited (fuel : nat) (q : Queue) (data : Data) (options : option JobOptions)
    (w w' : World) (job : Job) :
  q_limiter q = None ->
  addJob q data options w = (Ok job, w') ->
  add (S fuel) q data options w = (Ok job, w').
Proof.
  intros Hlim H. cbn [add]. unfold tryCatch. rewrite Hlim.
  rewrite !bind_run. unfold ret at 1. cbn beta iota. rewrite bind_run, H. reflexivity.
Qed.

Lemma addedHash_other (q : Queue) (jobId : string) (data : Data) (timestamp : Z)
    (opts : JobOptions) (h : Hash) (f : string) :
  writtenByAdd f = false ->
  addedHash q jobId data timestamp opts h !! f = h !! f.
Proof.
  unfold writtenByAdd. cbn [existsb]. intros H.
  repeat (apply orb_false_iff in H as [?%String.eqb_neq H]).
  unfold addedHash. rewrite !lookup_insert_ne by congruence. reflexivity.
Qed.

Lemma addedHash_attempts (q : Queue) (jobId : string) (data : Data) (timestamp : Z)
    (opts : JobOptions) (h : Hash) :
  addedHash q jobId data timestamp opts h !! "attemptsMade" = Some (Redis.HNum 0).
Proof.
  unfold addedHash.
  repeat first [ apply lookup_insert_eq | rewrite lookup_insert_ne by discriminate ].
Qed.

(** X21. Where [add] puts a job. On a queue without limiter a job
    whose options, merged over the configured defaults, name an id and
    no dependencies is stored and placed in one structure: with a
    positive delay in the delayed set, scored with the submission time
    plus the delay, the waiting list untouched; otherwise in the
    waiting list, at the head, or at the tail when [lifo] is set, the
    delayed set untouched. The job that is returned carries the
    payload, the merged options (the caller's over three attempts and
    an exponential backoff of one second) and no attempt. [add] does
    not look whether the id is known: the id is queued again, and the
    fields of an older hash that [add] does not write stay in the
    hash. *)
Theorem add_places_the_job_in_one_structure
    (fuel : nat) (q : Queue) (data : Data) (options : option JobOptions) (w : World)
    (jobId : string) (h : Hash) (lw : list string) (z : list (string * Z)) :
  q_limiter q = None ->
  opt_jobId (Codec.mergeOptions options) = Some jobId -> jobId <> "" ->
  dependenciesOf (Codec.mergeOptions options) = None ->
  hashAt (redis w) (getJobKey q jobId) = Some h ->
  listAt (redis w) (getKey q "waiting") = Some lw ->
  windowAt (redis w) (getKey q "delayed") = Some z ->
  exists job w' h',
    add (S fuel) q data options w = (Ok job, w')
    /\ job_id job = jobId /\ job_data job = data /\ job_opts job = Codec.mergeOptions options
    /\ job_attemptsMade job = 0 /\ job_timestamp job = nowOf w
    /\ (if 0 <? orZ (opt_delay (Codec.mergeOptions options)) 0 then
          windowAt (redis w') (getKey q "delayed")
          = Some (Redis.zadd (nowOf w + orZ (opt_delay (Codec.mergeOptions options)) 0) jobId z)
          /\ listAt (redis w') (getKey q "waiting") = Some lw
        else
          listAt (redis w') (getKey q "waiting")
          = Some (if truthyB (opt_lifo (Codec.mergeOptions options))
                  then (lw ++ [jobId])%list else jobId :: lw)
          /\ windowAt (redis w') (getKey q "delayed") = Some z)
    /\ redis w' !! getJobKey q jobId = Some (Redis.VHash h')
    /\ h' !! "attemptsMade" = Some (Redis.HNum 0)
    /\ (forall f, writtenByAdd f = false -> h' !! f = h !! f).
Proof.
  intros Hlim Hid Hne Hdep Hh Hlw Hz.
  set (opts := Codec.mergeOptions options) in *.
  assert (Hjob : forall now,
            let job := Codec.parseJob jobId (addedHash q jobId data now opts h) in
            job_id job = jobId /\ job_data job = data /\ job_opts job = opts
            /\ job_attemptsMade job = 0 /\ job_timestamp job = now).
  { intros now. cbn [job_id job_data job_opts job_attemptsMade job_timestamp Codec.parseJob].
    unfold Codec.num, addedHash.
    repeat split;
      repeat first [ rewrite lookup_insert_eq | rewrite lookup_insert_ne by discriminate ];
      reflexivity. }
  destruct (0 <? orZ (opt_delay opts) 0) eqn:Edelay.
  - apply Z.ltb_lt in Edelay.
    do 3 eexists. split.
    { apply add_unlimited; [exact Hlim|].
      apply (addJob_delayed_run q data options w jobId h z); assumption. }
    destruct (Hjob (nowOf w)) as (H1 & H2 & H3 & H4 & H5).
    split; [exact H1|]. split; [exact H2|]. split; [exact H3|].
    split; [exact H4|]. split; [exact H5|].
    cbn [redis setRedis setEvents]. split.
    { split.
      - unfold windowAt. rewrite lookup_insert_eq. reflexivity.
      - rewrite !listAt_insert_ne by key_ne. exact Hlw. }
    split; [rewrite lookup_insert_ne by key_ne; apply lookup_insert_eq|].
    split; [apply addedHash_attempts|]. intros f Hf. apply addedHash_other. exact Hf.
  - apply Z.ltb_ge in Edelay.
    do 3 eexists. split.
    { apply add_unlimited; [exact Hlim|].
      apply (addJob_waiting_run q data options w jobId h lw); assumption. }
    destruct (Hjob (nowOf w)) as (H1 & H2 & H3 & H4 & H5).
    split; [exact H1|]. split; [exact H2|]. split; [exact H3|].
    split; [exact H4|]. split; [exact H5|].
    cbn [redis setRedis setEvents]. split.
    { split.
      - apply listAt_insert.
      - rewrite !windowAt_insert_ne by key_ne. exact Hz. }
    split; [rewrite lookup_insert_ne by key_ne; apply lookup_insert_eq|].
    split; [apply addedHash_attempts|]. intros f Hf. apply addedHash_other. exact Hf.
Qed.

Lemma add_places_the_job_in_one_structure_witness :
  exists job w' h',
    add 1 plainQueue [("k", "v")] (Some (jobNamed "A")) (setRedis knownJobWorld (redis knownJobWorld))
      = (Ok job, w')
    /\ listAt (redis w') "queue:q:waiting" = Some ["A"; "A"; "B"]
    /\ windowAt (redis w') "queue:q:delayed" = Some []
    /\ redis w' !! "queue:q:job:A" = Some (Redis.VHash h')
    /\ h' !! "attemptsMade" = Some (Redis.HNum 0)
    /\ h' !! "finishedOn" = Some (Redis.HNum 900).
Proof.
  destruct (add_places_the_job_in_one_structure 0 plainQueue [("k", "v")]
              (Some (jobNamed "A")) (setRedis knownJobWorld (redis knownJobWorld)) "A"
              (<["finishedOn" := Redis.HNum 900]>
                 (<["attemptsMade" := Redis.HNum 2]> (<["id" := Redis.HStr "A"]> ∅)))
              ["A"; "B"] [])
    as (job & w' & h' & Hrun & _ & _ & _ & _ & _ & Hplace & Hk & Hatt & Hold).
  - reflexivity.
  - reflexivity.
  - discriminate.
  - reflexivity.
  - vm_compute. reflexivity.
  - vm_compute. reflexivity.
  - vm_compute. reflexivity.
  - exists job, w', h'. split; [exact Hrun|].
    replace (0 <? orZ (opt_delay (Codec.mergeOptions (Some (jobNamed "A")))) 0) with false in Hplace
      by reflexivity.
    destruct Hplace as [Hw Hz].
    split; [exact Hw|]. split; [exact Hz|]. split; [exact Hk|]. split; [exact Hatt|].
    rewrite (Hold "finishedOn") by reflexivity. vm_compute. reflexivity.
Defined.

(** ** Submission under a rate limit, end to end *)

(** One level of [add] when the limiter lets the call through. *)
Lemma add_admitted (fuel : nat) (q : Queue) (data : Data) (options : option JobOptions)
    (lim : RateLimiter.Options) (r : RateLimiter.RateLimitResult) (w w1 w' : World)
    (job : Job) :
  q_limiter q = Some lim ->
  RateLimiter.check (getKey q "limit") (q_name q) lim (Some data) w = (Ok r, w1) ->
  RateLimiter.limited r = false ->
  addJob q data options w1 = (Ok job, w') ->
  add (S fuel) q data options w = (Ok job, w').
Proof.
  intros Hlim Hcheck Hlimited Hadd. cbn [add]. unfold tryCatch. rewrite Hlim.
  rewrite !bind_run, Hcheck, Hlimited. unfold ret at 1. cbn beta iota.
  rewrite bind_run, Hadd. reflexivity.
Qed.

(** C9, amended. When the limiter reports limited, the call of [add]
    is the inner call, made with the caller's options spread over the
    defaults of the queue and [delay] set to the limiter's reset time,
    whatever delay the caller asked for: it has the result of the
    inner call and leaves the world the inner call leaves, with
    nothing announced on top. When the limiter lets the inner call
    through, the job is stored with the reset time as its delay and
    enters the delayed set at its timestamp plus the reset time. *)
Theorem add_rate_limited_resubmits_with_reset
    (fuel : nat) (q : Queue) (data : Data) (options : option JobOptions)
    (lim : RateLimiter.Options) (r : RateLimiter.RateLimitResult) (w w1 : World) :
  q_limiter q = Some lim ->
  RateLimiter.check (getKey q "limit") (q_name q) lim (Some data) w = (Ok r, w1) ->
  RateLimiter.limited r = true ->
  let resubmitted :=
    withDelay (spread (spreadOpt (q_defaultJobOptions q)) (spreadOpt options))
      (RateLimiter.resetIn r) in
  add (S (S fuel)) q data options w = add (S fuel) q data (Some resubmitted) w1
  /\ forall (r2 : RateLimiter.RateLimitResult) (w2 : World) (jobId : string) (h : Hash)
        (z : list (string * Z)),
      RateLimiter.check (getKey q "limit") (q_name q) lim (Some data) w1 = (Ok r2, w2) ->
      RateLimiter.limited r2 = false ->
      opt_jobId (Codec.mergeOptions (Some resubmitted)) = Some jobId -> jobId <> "" ->
      dependenciesOf (Codec.mergeOptions (Some resubmitted)) = None ->
      0 < RateLimiter.resetIn r ->
      hashAt (redis w2) (getJobKey q jobId) = Some h ->
      windowAt (redis w2) (getKey q "delayed") = Some z ->
      exists job w',
        add (S (S fuel)) q data options w = (Ok job, w')
        /\ job_delay job = RateLimiter.resetIn r
        /\ opt_delay (job_opts job) = Some (RateLimiter.resetIn r)
        /\ windowAt (redis w') (getKey q "delayed")
           = Some (Redis.zadd (nowOf w2 + RateLimiter.resetIn r) jobId z).
Proof.
  intros Hlim Hcheck Hlimited resubmitted.
  assert (Hstep : add (S (S fuel)) q data options w
                  = add (S fuel) q data (Some resubmitted) w1).
  { exact (add_limited_step (S fuel) q data options lim r w w1 Hlim Hcheck Hlimited). }
  split; [exact Hstep|].
  intros r2 w2 jobId h z Hcheck2 Hopen Hid Hne Hdep Hreset Hh Hz.
  assert (Hdelay : opt_delay (Codec.mergeOptions (Some resubmitted))
                   = Some (RateLimiter.resetIn r)) by reflexivity.
  assert (Hz0 : orZ (opt_delay (Codec.mergeOptions (Some resubmitted))) 0
                = RateLimiter.resetIn r).
  { rewrite Hdelay. unfold orZ.
    replace (RateLimiter.resetIn r =? 0) with false by (symmetry; apply Z.eqb_neq; lia).
    reflexivity. }
  pose proof (addJob_delayed_run q data (Some resubmitted) w2 jobId h z Hid Hne Hdep
                ltac:(rewrite Hz0; exact Hreset) Hh Hz) as Hadd.
  rewrite Hz0 in Hadd.
  do 2 eexists. split.
  { rewrite Hstep.
    exact (add_admitted fuel q data (Some resubmitted) lim r2 w1 w2 _ _ Hlim Hcheck2 Hopen
             Hadd). }
  split.
  { cbn [job_delay Codec.parseJob]. unfold Codec.num, addedHash.
    rewrite !lookup_insert_ne by discriminate. rewrite lookup_insert_eq.
    exact Hz0. }
  split.
  { cbn [job_opts Codec.parseJob]. unfold addedHash.
    rewrite !lookup_insert_ne by discriminate. rewrite lookup_insert_eq.
    exact Hdelay. }
  cbn [redis setRedis setEvents]. unfold windowAt. rewrite lookup_insert_eq. reflexivity.
Qed.

Lemma add_rate_limited_resubmits_with_reset_witness :
  exists job w',
    add 2 limitedQueue [] (Some oneMinuteLater) limitedWorld = (Ok job, w')
    /\ job_delay job = 9500
    /\ opt_delay (job_opts job) = Some 9500
    /\ windowAt (redis w') "queue:q:delayed" = Some [("A", 10601 + 9500)].
Proof.
  refine (proj2 (add_rate_limited_resubmits_with_reset 0 limitedQueue []
                   (Some oneMinuteLater)
                   {| RateLimiter.max := 1; RateLimiter.duration := 10000;
                      RateLimiter.keyPrefix := None |}
                   {| RateLimiter.limited := true; RateLimiter.remaining := 0;
                      RateLimiter.resetIn := 9500 |}
                   limitedWorld
                   (setClock limitedWorld 1000 [10600; 10601]) _ _ _)
                {| RateLimiter.limited := false; RateLimiter.remaining := 0;
                   RateLimiter.resetIn := 0 |}
                (setRandoms
                   (setRedis (setClock limitedWorld 10600 [10601])
                      (<["queue:q:limit:q" := Redis.VZSet [("10600:0.5", 10600)]]> ∅))
                   [])
                "A" ∅ [] _ _ _ _ _ _ _ _).
  - reflexivity.
  - vm_compute. reflexivity.
  - reflexivity.
  - vm_compute. reflexivity.
  - reflexivity.
  - reflexivity.
  - discriminate.
  - reflexivity.
  - reflexivity.
  - vm_compute. reflexivity.
  - vm_compute. reflexivity.
Defined.

(** ** Completion and dependents *)

Lemma setAt_putSet (k : string) (l : list string) (s : Store) :
  setAt (Redis.putSet k l s) k = Some l.
Proof.
  unfold setAt, Redis.putSet. destruct l.
  - rewrite lookup_delete_eq. reflexivity.
  - rewrite lookup_insert_eq. reflexivity.
Qed.

Lemma setAt_insert_ne (k k' : string) (v : Redis.rval Json) (s : Store) :
  k' <> k -> setAt (<[k' := v]> s) k = setAt s k.
Proof. intros H. unfold setAt. rewrite lookup_insert_ne by exact H. reflexivity. Qed.

Lemma setAt_putList_ne (k k' : string) (l : list string) (s : Store) :
  k' <> k -> setAt (Redis.putList k' l s) k = setAt s k.
Proof. intros H. unfold setAt. rewrite lookup_putList_ne by exact H. reflexivity. Qed.

Lemma listAt_putSet_ne (k k' : string) (l : list string) (s : Store) :
  k' <> k -> listAt (Redis.putSet k' l s) k = listAt s k.
Proof. intros H. unfold listAt. rewrite lookup_putSet_ne by exact H. reflexivity. Qed.

Lemma append_length (a b : string) :
  String.length (a +:+ b) = (String.length a + String.length b)%nat.
Proof.
  induction a as [|c a IH]; [reflexivity|].
  change (S (String.length (a +:+ b)) = S (String.length a + String.length b)).
  rewrite IH. reflexivity.
Qed.

Lemma dependents_key_ne (q : Queue) (jobId : string) :
  getJobKey q jobId <> getJobKey q jobId +:+ ":dependents".
Proof.
  intros H. apply (f_equal String.length) in H.
  rewrite append_length in H. cbn in H. lia.
Qed.

(** The inner loop of [processDependents] only reads, and answers
    whether every dependency is missing or finished. *)
Lemma allDependenciesCompleted_run (q : Queue) (deps : list string) (w : World) :
  allDependenciesCompleted q None deps w = (Ok (forallb (finishedIn q (redis w)) deps), w).
Proof.
  induction deps as [|d r IH]; [reflexivity|].
  cbn [allDependenciesCompleted forallb].
  rewrite bool_decide_eq_false_2 by discriminate.
  unfold finishedIn at 1.
  destruct (redis w !! getJobKey q d) as [v|] eqn:E.
  - destruct v as [s | l | s | z | h].
    1-4: (rewrite (bind_ok _ _ _ _ _ (getJob_absent q d w
                     ltac:(intros h H; rewrite E in H; discriminate H))); exact IH).
    destruct (decide (h = ∅)) as [->|Hne].
    + rewrite (bind_ok _ _ _ _ _ (getJob_absent q d w
                 ltac:(intros h H; rewrite E in H; congruence))).
      rewrite bool_decide_eq_true_2 by reflexivity. exact IH.
    + rewrite (bind_ok _ _ _ _ _ (getJob_present q d w h E Hne)).
      rewrite bool_decide_eq_false_2 by exact Hne. cbn [orb].
      destruct (notFinished (Codec.parseJob d h)); [reflexivity | exact IH].
  - rewrite (bind_ok _ _ _ _ _ (getJob_absent q d w
               ltac:(intros h H; rewrite E in H; discriminate H))). exact IH.
Qed.

Lemma finishedIn_frame (q : Queue) (s s' : Store) (d : string) :
  (forall id, s' !! getJobKey q id = s !! getJobKey q id) ->
  finishedIn q s' d = finishedIn q s d.
Proof. intros H. unfold finishedIn. rewrite H. reflexivity. Qed.

Lemma readyIn_frame (q : Queue) (s s' : Store) (d : string) :
  (forall id, s' !! getJobKey q id = s !! getJobKey q id) ->
  readyIn q s' d = readyIn q s d.
Proof.
  intros H. unfold readyIn. rewrite H.
  destruct (s !! getJobKey q d) as [[ | | | | h]|]; try reflexivity.
  f_equal. induction (Codec.strings h "dependencies") as [|x l IH]; [reflexivity|].
  cbn [forallb]. rewrite IH, (finishedIn_frame q s s' x H). reflexivity.
Qed.

(** One round of the outer loop of [processDependents]. *)
Lemma dependent_step (q : Queue) (depJobId : string) (w : World) (sw lw : list string) :
  setAt (redis w) (getKey q "dependency-wait") = Some sw ->
  listAt (redis w) (getKey q "waiting") = Some lw ->
  (depJob ← getJob q depJobId;
   match depJob with
   | None => ret tt
   | Some dj =>
       done ← allDependenciesCompleted q None (job_dependencies dj);
       if (done : bool) then
         _ ← Cmd.SREM (getKey q "dependency-wait") depJobId;
         _ ← Cmd.LPUSH (getKey q "waiting") depJobId;
         ret tt
       else ret tt
   end) w
  = (Ok tt,
     if readyIn q (redis w) depJobId then
       setRedis w (<[getKey q "waiting" := Redis.VList (depJobId :: lw)]>
                     (Redis.putSet (getKey q "dependency-wait")
                        (Redis.srem depJobId sw) (redis w)))
     else w).
Proof.
  intros Hsw Hlw. unfold readyIn.
  destruct (redis w !! getJobKey q depJobId) as [v|] eqn:E.
  - destruct v as [s | l | s | z | h].
    1-4: (rewrite (bind_ok _ _ _ _ _ (getJob_absent q depJobId w
                     ltac:(intros h H; rewrite E in H; discriminate H))); reflexivity).
    destruct (decide (h = ∅)) as [->|Hne].
    + rewrite (bind_ok _ _ _ _ _ (getJob_absent q depJobId w
                 ltac:(intros h H; rewrite E in H; congruence))).
      rewrite bool_decide_eq_true_2 by reflexivity. reflexivity.
    + rewrite (bind_ok _ _ _ _ _ (getJob_present q depJobId w h E Hne)).
      rewrite bool_decide_eq_false_2 by exact Hne. cbn [negb andb].
      rewrite (bind_ok _ _ _ _ _ (allDependenciesCompleted_run q _ w)).
      cbn [job_dependencies Codec.parseJob].
      destruct (forallb (finishedIn q (redis w)) (Codec.strings h "dependencies"));
        [|reflexivity].
      rewrite (bind_ok _ _ _ _ _ (SREM_run _ depJobId _ _ Hsw)).
      assert (Hlw1 : listAt (redis (setRedis w (Redis.putSet (getKey q "dependency-wait")
                                                  (Redis.srem depJobId sw) (redis w))))
                       (getKey q "waiting") = Some lw).
      { cbn [redis setRedis]. rewrite listAt_putSet_ne by key_ne. exact Hlw. }
      rewrite (bind_ok _ _ _ _ _ (LPUSH_run _ depJobId _ _ Hlw1)).
      cbn [redis setRedis]. rewrite setRedis_setRedis. reflexivity.
  - rewrite (bind_ok _ _ _ _ _ (getJob_absent q depJobId w
               ltac:(intros h H; rewrite E in H; discriminate H))). reflexivity.
Qed.

Lemma srem_filter (x : string) (p : string -> bool) (l : list string) :
  List.filter p (Redis.srem x l)
  = List.filter (fun y => negb (String.eqb x y) && p y) l.
Proof.
  unfold Redis.srem. induction l as [|y r IH]; [reflexivity|].
  cbn [List.filter]. destruct (String.eqb x y); cbn [negb andb List.filter].
  - exact IH.
  - destruct (p y); rewrite IH; reflexivity.
Qed.

(** The outer loop of [processDependents]: the dependents that are
    ready leave the dependency-wait set and are pushed on the waiting
    list one after the other; nothing else changes. *)
Lemma dependents_loop (q : Queue) (dependents : list string) :
  forall (w : World) (sw lw : list string),
  setAt (redis w) (getKey q "dependency-wait") = Some sw ->
  listAt (redis w) (getKey q "waiting") = Some lw ->
  exists s',
    forEach dependents (fun depJobId =>
      depJob ← getJob q depJobId;
      match depJob with
      | None => ret tt
      | Some dj =>
          done ← allDependenciesCompleted q None (job_dependencies dj);
          if (done : bool) then
            _ ← Cmd.SREM (getKey q "dependency-wait") depJobId;
            _ ← Cmd.LPUSH (getKey q "waiting") depJobId;
            ret tt
          else ret tt
      end) w = (Ok tt, setRedis w s')
    /\ listAt s' (getKey q "waiting")
       = Some (rev (List.filter (readyIn q (redis w)) dependents) ++ lw)%list
    /\ setAt s' (getKey q "dependency-wait")
       = Some (List.filter
                 (fun x => negb (existsb (fun d => String.eqb d x)
                                   (List.filter (readyIn q (redis w)) dependents))) sw)
    /\ (forall k, k <> getKey q "waiting" -> k <> getKey q "dependency-wait" ->
        s' !! k = redis w !! k).
Proof.
  induction dependents as [|d r IH]; intros w sw lw Hsw Hlw.
  - exists (redis w). cbn [forEach List.filter existsb negb rev app].
    rewrite setRedis_same. split; [reflexivity|]. split; [exact Hlw|].
    split; [|reflexivity]. rewrite Hsw. f_equal.
    clear. induction sw as [|x l IHl]; [reflexivity|]. cbn [List.filter]. f_equal. exact IHl.
  - cbn [forEach]. rewrite (bind_ok _ _ _ _ _ (dependent_step q d w sw lw Hsw Hlw)).
    cbn [List.filter]. destruct (readyIn q (redis w) d) eqn:Hready.
    + set (s1 := <[getKey q "waiting" := Redis.VList (d :: lw)]>
                   (Redis.putSet (getKey q "dependency-wait") (Redis.srem d sw) (redis w))).
      assert (Hsw1 : setAt (redis (setRedis w s1)) (getKey q "dependency-wait")
                     = Some (Redis.srem d sw)).
      { unfold s1. cbn [redis setRedis]. rewrite setAt_insert_ne by key_ne.
        apply setAt_putSet. }
      assert (Hlw1 : listAt (redis (setRedis w s1)) (getKey q "waiting") = Some (d :: lw)).
      { unfold s1. cbn [redis setRedis]. apply listAt_insert. }
      assert (Hframe : forall id, s1 !! getJobKey q id = redis w !! getJobKey q id).
      { intros id. unfold s1. rewrite lookup_insert_ne by key_ne.
        rewrite lookup_putSet_ne by key_ne. reflexivity. }
      destruct (IH (setRedis w s1) (Redis.srem d sw) (d :: lw) Hsw1 Hlw1)
        as (s' & Hrun & Hw & Hs & Hother).
      exists s'. rewrite Hrun, setRedis_setRedis. cbn [redis setRedis] in Hw, Hs, Hother.
      rewrite (filter_ext _ _ (fun x => readyIn_frame q (redis w) s1 x Hframe)) in Hw, Hs.
      split; [reflexivity|]. split.
      { rewrite Hw. cbn [rev]. rewrite <- app_assoc. reflexivity. }
      split.
      { rewrite Hs. f_equal. rewrite srem_filter. apply filter_ext. intros x.
        cbn [existsb]. rewrite negb_orb. reflexivity. }
      intros k Hk1 Hk2. rewrite (Hother k Hk1 Hk2). unfold s1.
      rewrite lookup_insert_ne by congruence. rewrite lookup_putSet_ne by congruence.
      reflexivity.
    + destruct (IH w sw lw Hsw Hlw) as (s' & Hrun & Hw & Hs & Hother).
      exists s'. split; [exact Hrun|]. split; [exact Hw|]. split; [exact Hs|]. exact Hother.
Qed.

(** X22. Completion releases the dependents that are ready.
    [moveToCompleted] takes the job off the active list, puts it at
    the head of the completed list, stamps the finish time and the
    return value and announces the completion once. Of the jobs in
    the job's dependents set, those that [getJob] finds and whose
    listed dependencies are all missing or finished leave the
    dependency-wait set and are pushed on the waiting list one after
    the other, as SMEMBERS lists them, so that the last one stands at
    the head; the others stay parked, and the waiting list keeps what
    it held. *)
Theorem completion_releases_ready_dependents
    (q : Queue) (this : Job) (returnvalue : string) (w : World) (h : Hash)
    (la lc dependents sw lw : list string) :
  listAt (redis w) (getKey q "active") = Some la ->
  listAt (redis w) (getKey q "completed") = Some lc ->
  hashAt (redis w) (getJobKey q (job_id this)) = Some h ->
  setAt (redis w) (getJobKey q (job_id this) +:+ ":dependents") = Some dependents ->
  setAt (redis w) (getKey q "dependency-wait") = Some sw ->
  listAt (redis w) (getKey q "waiting") = Some lw ->
  exists job w',
    moveToCompleted q this returnvalue w = (Ok job, w')
    /\ job_finishedOn job = Some (nowOf w)
    /\ job_returnvalue job = Some returnvalue
    /\ listAt (redis w') (getKey q "active") = Some (without (job_id this) la)
    /\ listAt (redis w') (getKey q "completed") = Some (job_id this :: lc)
    /\ redis w' !! getJobKey q (job_id this)
       = Some (Redis.VHash (completedHash h (nowOf w) returnvalue))
    /\ listAt (redis w') (getKey q "waiting")
       = Some (rev (List.filter (readyIn q (redis w')) dependents) ++ lw)%list
    /\ setAt (redis w') (getKey q "dependency-wait")
       = Some (List.filter
                 (fun x => negb (existsb (fun d => String.eqb d x)
                                   (List.filter (readyIn q (redis w')) dependents))) sw)
    /\ events w' = (events w ++ [JobCompleted (job_id this)])%list.
Proof.
  intros Hla Hlc Hh Hds Hsw Hlw. unfold moveToCompleted.
  rewrite (bind_ok _ _ _ _ _ (LREM_run _ 0 (job_id this) _ _ Hla)). rewrite lrem_all.
  set (s1 := Redis.putList (getKey q "active") (without (job_id this) la) (redis w)).
  assert (Hlc1 : listAt (redis (setRedis w s1)) (getKey q "completed") = Some lc).
  { unfold s1. cbn [redis setRedis]. rewrite listAt_putList_ne by key_ne. exact Hlc. }
  rewrite (bind_ok _ _ _ _ _ (LPUSH_run _ (job_id this) _ _ Hlc1)).
  cbn [redis setRedis]. rewrite setRedis_setRedis.
  set (s2 := <[getKey q "completed" := Redis.VList (job_id this :: lc)]> s1).
  rewrite (bind_ok _ _ _ _ _ (Date_now_run (setRedis w s2))).
  rewrite ticked_setRedis, nowOf_setRedis.
  assert (Hh2 : hashAt (redis (setRedis (ticked w) s2)) (getJobKey q (job_id this)) = Some h).
  { unfold s2, s1. cbn [redis setRedis]. rewrite hashAt_insert_ne by key_ne.
    rewrite hashAt_putList_ne by key_ne. exact Hh. }
  rewrite (bind_ok _ _ _ _ _ (HMSET_run _ _ _ _ Hh2)).
  cbn [redis setRedis fold_left fst snd]. rewrite setRedis_setRedis.
  fold (completedHash h (nowOf w) returnvalue).
  set (s3 := <[getJobKey q (job_id this)
                 := Redis.VHash (completedHash h (nowOf w) returnvalue)]> s2).
  rewrite bind_run. unfold emit at 1. cbn [events setRedis]. rewrite events_ticked.
  set (w3 := setEvents (setRedis (ticked w) s3) (events w ++ [JobCompleted (job_id this)])).
  assert (Hr3 : redis w3 = s3) by reflexivity.
  unfold processDependents. cbn [job_id setFinished].
  assert (Hds3 : setAt (redis w3) (getJobKey q (job_id this) +:+ ":dependents")
                 = Some dependents).
  { rewrite Hr3. unfold s3, s2, s1.
    rewrite setAt_insert_ne by apply dependents_key_ne.
    rewrite setAt_insert_ne by key_ne. rewrite setAt_putList_ne by key_ne. exact Hds. }
  rewrite bind_run, (bind_ok _ _ _ _ _ (SMEMBERS_run _ _ _ Hds3)).
  assert (Hsw3 : setAt (redis w3) (getKey q "dependency-wait") = Some sw).
  { rewrite Hr3. unfold s3, s2, s1. rewrite !setAt_insert_ne by key_ne.
    rewrite setAt_putList_ne by key_ne. exact Hsw. }
  assert (Hlw3 : listAt (redis w3) (getKey q "waiting") = Some lw).
  { rewrite Hr3. unfold s3, s2, s1. rewrite !listAt_insert_ne by key_ne.
    rewrite listAt_putList_ne by key_ne. exact Hlw. }
  destruct (dependents_loop q dependents w3 sw lw Hsw3 Hlw3)
    as (s' & Hrun & Hw & Hs & Hother).
  rewrite Hrun. unfold ret.
  assert (Hframe : forall id, s' !! getJobKey q id = redis w3 !! getJobKey q id).
  { intros id. apply Hother; key_ne. }
  rewrite <- (filter_ext _ _ (fun x => readyIn_frame q (redis w3) s' x Hframe)) in Hw, Hs.
  do 2 eexists. split; [reflexivity|].
  cbn [job_finishedOn job_returnvalue setFinished redis setRedis].
  split; [reflexivity|]. split; [reflexivity|].
  split.
  { unfold listAt. rewrite Hother by key_ne. rewrite Hr3. unfold s3, s2.
    rewrite !lookup_insert_ne by key_ne. fold (listAt s1 (getKey q "active")).
    unfold s1. apply listAt_putList. }
  split.
  { unfold listAt. rewrite Hother by key_ne. rewrite Hr3. unfold s3.
    rewrite lookup_insert_ne by key_ne. unfold s2. rewrite lookup_insert_eq. reflexivity. }
  split.
  { rewrite Hframe, Hr3. unfold s3. apply lookup_insert_eq. }
  split; [exact Hw|]. split; [exact Hs|]. reflexivity.
Qed.

Lemma completion_releases_ready_dependents_witness :
  exists job w',
    moveToCompleted plainQueue (Codec.parseJob "A" (<["id" := Redis.HStr "A"]> ∅)) "done"
      dependentsWorld = (Ok job, w')
    /\ job_finishedOn job = Some 500
    /\ listAt (redis w') "queue:q:active" = Some []
    /\ listAt (redis w') "queue:q:completed" = Some ["A"]
    /\ listAt (redis w') "queue:q:waiting" = Some ["B"]
    /\ setAt (redis w') "queue:q:dependency-wait" = Some ["C"].
Proof.
  destruct (completion_releases_ready_dependents plainQueue
              (Codec.parseJob "A" (<["id" := Redis.HStr "A"]> ∅)) "done" dependentsWorld
              (<["id" := Redis.HStr "A"]> ∅) ["A"] [] ["B"; "C"] ["B"; "C"] [])
    as (job & w' & Hrun & Hfin & _ & Ha & Hc & _ & Hw & Hs & _).
  - vm_compute. reflexivity.
  - vm_compute. reflexivity.
  - vm_compute. reflexivity.
  - vm_compute. reflexivity.
  - vm_compute. reflexivity.
  - vm_compute. reflexivity.
  - exists job, w'. split; [exact Hrun|]. split; [exact Hfin|].
    split; [exact Ha|]. split; [exact Hc|].
    assert (Hw' : w' = snd (moveToCompleted plainQueue
                (Codec.parseJob "A" (<["id" := Redis.HStr "A"]> ∅)) "done" dependentsWorld))
      by (rewrite Hrun; reflexivity).
    split.
    + refine (eq_trans Hw _). rewrite Hw'. vm_compute. reflexivity.
    + refine (eq_trans Hs _). rewrite Hw'. vm_compute. reflexivity.
Defined.

(** ** Listing jobs and the stalled-job check *)

Lemma collectJobs_run (q : Queue) (jobIds : list string) (w : World) :
  collectJobs q jobIds w = (Ok (jobsIn q (redis w) jobIds), w).
Proof.
  induction jobIds as [|d r IH]; [reflexivity|].
  cbn [collectJobs jobsIn].
  destruct (redis w !! getJobKey q d) as [v|] eqn:E.
  - destruct v as [s | l | s | z | h].
    1-4: (rewrite (bind_ok _ _ _ _ _ (getJob_absent q d w
                     ltac:(intros h H; rewrite E in H; discriminate H)));
          rewrite (bind_ok _ _ _ _ _ IH); reflexivity).
    destruct (decide (h = ∅)) as [->|Hne].
    + rewrite (bind_ok _ _ _ _ _ (getJob_absent q d w
                 ltac:(intros h H; rewrite E in H; congruence))).
      rewrite (bind_ok _ _ _ _ _ IH).
      rewrite bool_decide_eq_true_2 by reflexivity. reflexivity.
    + rewrite (bind_ok _ _ _ _ _ (getJob_present q d w h E Hne)).
      rewrite (bind_ok _ _ _ _ _ IH).
      rewrite bool_decide_eq_false_2 by exact Hne. reflexivity.
  - rewrite (bind_ok _ _ _ _ _ (getJob_absent q d w
               ltac:(intros h H; rewrite E in H; discriminate H))).
    rewrite (bind_ok _ _ _ _ _ IH). reflexivity.
Qed.

Lemma getJobs_list_run (q : Queue) (status : JobStatus.t) (w : World) (l : list string) :
  status <> JobStatus.delayed ->
  listAt (redis w) (getKey q (JobStatus.name status)) = Some l ->
  getJobs q status 0 (-1) w = (Ok (jobsIn q (redis w) l), w).
Proof.
  intros Hs Hl. unfold getJobs, tryCatch.
  assert (Hr : (match status with
                | JobStatus.delayed => Cmd.ZRANGE (getKey q (JobStatus.name status)) 0 (-1)
                | _ => Cmd.LRANGE (getKey q (JobStatus.name status)) 0 (-1)
                end) w = (Ok l, w)).
  { destruct status; try congruence;
      rewrite (LRANGE_run _ 0 (-1) _ _ Hl), rangeOf_all; reflexivity. }
  rewrite (bind_ok _ _ _ _ _ Hr), collectJobs_run. reflexivity.
Qed.

Lemma jobsIn_In (q : Queue) (s : Store) (jobIds : list string) (job : Job) :
  In job (jobsIn q s jobIds) ->
  exists h, s !! getJobKey q (job_id job) = Some (Redis.VHash h)
            /\ job = Codec.parseJob (job_id job) h.
Proof.
  induction jobIds as [|d r IH]; [intros []|].
  cbn [jobsIn].
  destruct (s !! getJobKey q d) as [[ | | | | h]|] eqn:E; try exact IH.
  destruct (bool_decide (h = ∅)); [exact IH|].
  intros [<-|Hin]; [|exact (IH Hin)].
  exists h. split; [exact E | reflexivity].
Qed.

(** One round of the check. *)
Lemma checkJob_step (this : StalledJobChecker.t) (now : Z) (job : Job) (w : World)
    (la lw lf : list string) (h : Hash) :
  listAt (redis w) (getKey (StalledJobChecker.queue this) "active") = Some la ->
  listAt (redis w) (getKey (StalledJobChecker.queue this) "waiting") = Some lw ->
  listAt (redis w) (getKey (StalledJobChecker.queue this) "failed") = Some lf ->
  hashAt (redis w) (getJobKey (StalledJobChecker.queue this) (job_id job)) = Some h ->
  exists w',
    StalledJobChecker.checkJob this now job w = (Ok tt, w')
    /\ if StalledJobChecker.isFresh job now then w' = w
       else
         listAt (redis w') (getKey (StalledJobChecker.queue this) "active")
         = Some (without (job_id job) la)
         /\ listAt (redis w') (getKey (StalledJobChecker.queue this) "waiting")
            = Some (if retryable this job then job_id job :: lw else lw)
         /\ listAt (redis w') (getKey (StalledJobChecker.queue this) "failed")
            = Some (if retryable this job then lf else job_id job :: lf)
         /\ (exists h',
               redis w' !! getJobKey (StalledJobChecker.queue this) (job_id job)
               = Some (Redis.VHash h')
               /\ h' !! "attemptsMade" = Some (Redis.HNum (job_attemptsMade job + 1)))
         /\ (forall k,
               k <> getKey (StalledJobChecker.queue this) "active" ->
               k <> getKey (StalledJobChecker.queue this) "waiting" ->
               k <> getKey (StalledJobChecker.queue this) "failed" ->
               k <> getJobKey (StalledJobChecker.queue this) (job_id job) ->
               redis w' !! k = redis w !! k)
         /\ events w' = (events w ++ [stalledEvent this job])%list.
Proof.
  intros Hla Hlw Hlf Hh. set (q := StalledJobChecker.queue this) in *.
  unfold StalledJobChecker.checkJob, stalledEvent, retryable. fold q.
  destruct (StalledJobChecker.isFresh job now); [exists w; split; reflexivity|].
  destruct (job_attemptsMade job <? StalledJobChecker.maxRetries this).
  - rewrite (bind_ok _ _ _ _ _ (LREM_run _ 0 (job_id job) _ _ Hla)). rewrite lrem_all.
    set (s1 := Redis.putList (getKey q "active") (without (job_id job) la) (redis w)).
    assert (Hlw1 : listAt (redis (setRedis w s1)) (getKey q "waiting") = Some lw).
    { unfold s1. cbn [redis setRedis]. rewrite listAt_putList_ne by key_ne. exact Hlw. }
    rewrite (bind_ok _ _ _ _ _ (LPUSH_run _ (job_id job) _ _ Hlw1)).
    cbn [redis setRedis]. rewrite setRedis_setRedis.
    set (s2 := <[getKey q "waiting" := Redis.VList (job_id job :: lw)]> s1).
    assert (Hh2 : hashAt (redis (setRedis w s2)) (getJobKey q (job_id job)) = Some h).
    { unfold s2, s1. cbn [redis setRedis]. rewrite hashAt_insert_ne by key_ne.
      rewrite hashAt_putList_ne by key_ne. exact Hh. }
    unfold Cmd.HSET. rewrite (bind_ok _ _ _ _ _ (HMSET_run _ _ _ _ Hh2)).
    cbn [redis setRedis fold_left fst snd]. rewrite setRedis_setRedis.
    unfold emit. eexists. split; [reflexivity|].
    cbn [redis events setRedis setEvents]. unfold s2, s1.
    split. { rewrite !listAt_insert_ne by key_ne. apply listAt_putList. }
    split. { rewrite listAt_insert_ne by key_ne. apply listAt_insert. }
    split. { rewrite !listAt_insert_ne by key_ne. rewrite listAt_putList_ne by key_ne.
             exact Hlf. }
    split. { eexists. split; [apply lookup_insert_eq | apply lookup_insert_eq]. }
    split; [|reflexivity].
    intros k H1 H2 H3 H4. rewrite !lookup_insert_ne by congruence.
    apply lookup_putList_ne. congruence.
  - rewrite (bind_ok _ _ _ _ _ (moveToFailed_run q job _ _ w h la lf Hla Hlf Hh)).
    unfold ret. eexists. split; [reflexivity|].
    cbn [redis events setRedis setEvents].
    split; [apply listAt_failedStore_active|].
    split. { unfold failedStore. rewrite !listAt_insert_ne by key_ne.
             rewrite listAt_putList_ne by key_ne. exact Hlw. }
    split; [apply listAt_failedStore_failed|].
    split. { eexists. split; [apply lookup_failedStore_job | apply lookup_insert_eq]. }
    split; [|reflexivity].
    intros k H1 H2 H3 H4. apply lookup_failedStore_other; congruence.
Qed.

Lemma notAmong_nil (jobIds : list string) : notAmong [] jobIds = jobIds.
Proof.
  unfold notAmong. induction jobIds as [|x l IH]; [reflexivity|].
  cbn [List.filter existsb negb]. f_equal. exact IH.
Qed.

Lemma notAmong_cons (job : Job) (jobs : list Job) (jobIds : list string) :
  notAmong (job :: jobs) jobIds = notAmong jobs (without (job_id job) jobIds).
Proof.
  unfold notAmong. change (without (job_id job) jobIds) with (Redis.srem (job_id job) jobIds).
  rewrite srem_filter. apply filter_ext. intros x.
  cbn [existsb]. rewrite negb_orb. reflexivity.
Qed.

(** The loop of the check, for jobs whose hashes can be written and
    that agree on the attempts of one id. *)
Lemma checkJobs_loop (this : StalledJobChecker.t) (now : Z) (jobs : list Job) :
  forall (w : World) (la lw lf : list string),
  listAt (redis w) (getKey (StalledJobChecker.queue this) "active") = Some la ->
  listAt (redis w) (getKey (StalledJobChecker.queue this) "waiting") = Some lw ->
  listAt (redis w) (getKey (StalledJobChecker.queue this) "failed") = Some lf ->
  (forall job, In job jobs ->
     exists h, hashAt (redis w) (getJobKey (StalledJobChecker.queue this) (job_id job))
               = Some h) ->
  (forall a b, In a jobs -> In b jobs -> job_id a = job_id b ->
     job_attemptsMade a = job_attemptsMade b) ->
  exists w',
    forEach jobs (StalledJobChecker.checkJob this now) w = (Ok tt, w')
    /\ listAt (redis w') (getKey (StalledJobChecker.queue this) "active")
       = Some (notAmong (stalledAt now jobs) la)
    /\ listAt (redis w') (getKey (StalledJobChecker.queue this) "waiting")
       = Some (rev (map job_id (List.filter (retryable this) (stalledAt now jobs))) ++ lw)%list
    /\ listAt (redis w') (getKey (StalledJobChecker.queue this) "failed")
       = Some (rev (map job_id (List.filter (fun job => negb (retryable this job))
                                  (stalledAt now jobs))) ++ lf)%list
    /\ (forall job, In job (stalledAt now jobs) ->
        exists h',
          redis w' !! getJobKey (StalledJobChecker.queue this) (job_id job)
          = Some (Redis.VHash h')
          /\ h' !! "attemptsMade" = Some (Redis.HNum (job_attemptsMade job + 1)))
    /\ (forall k,
          k <> getKey (StalledJobChecker.queue this) "active" ->
          k <> getKey (StalledJobChecker.queue this) "waiting" ->
          k <> getKey (StalledJobChecker.queue this) "failed" ->
          (forall job, In job (stalledAt now jobs) ->
             k <> getJobKey (StalledJobChecker.queue this) (job_id job)) ->
          redis w' !! k = redis w !! k)
    /\ events w' = (events w ++ map (stalledEvent this) (stalledAt now jobs))%list.
Proof.
  set (q := StalledJobChecker.queue this).
  induction jobs as [|job r IH]; intros w la lw lf Hla Hlw Hlf Hhash Hsame.
  - exists w. cbn [forEach stalledAt List.filter map rev app].
    rewrite notAmong_nil, app_nil_r.
    split; [reflexivity|]. split; [exact Hla|]. split; [exact Hlw|]. split; [exact Hlf|].
    split; [intros job []|]. split; reflexivity.
  - destruct (Hhash job (or_introl eq_refl)) as [h Hh].
    destruct (checkJob_step this now job w la lw lf h Hla Hlw Hlf Hh) as (w1 & Hrun & Hstep).
    cbn [forEach]. rewrite (bind_ok _ _ _ _ _ Hrun).
    unfold stalledAt. cbn [List.filter]. fold (stalledAt now r).
    assert (Hsame' : forall a b, In a r -> In b r -> job_id a = job_id b ->
                       job_attemptsMade a = job_attemptsMade b).
    { intros a b Ha Hb. apply Hsame; right; assumption. }
    destruct (StalledJobChecker.isFresh job now); cbn [negb].
    + subst w1. apply (IH w la lw lf Hla Hlw Hlf); [|exact Hsame'].
      intros j Hj. apply Hhash. right. exact Hj.
    + destruct Hstep as (Hla1 & Hlw1 & Hlf1 & (h1 & Hk1 & Hatt1) & Hframe1 & Hev1).
      fold q in Hla1, Hlw1, Hlf1, Hk1, Hframe1.
      assert (Hhash1 : forall j, In j r ->
                exists h0, hashAt (redis w1) (getJobKey q (job_id j)) = Some h0).
      { intros j Hj. destruct (decide (job_id j = job_id job)) as [Heq|Hne].
        - exists h1. unfold hashAt. rewrite Heq, Hk1. reflexivity.
        - destruct (Hhash j (or_intror Hj)) as [h0 Hh0]. exists h0.
          unfold hashAt. rewrite Hframe1; [exact Hh0|key_ne|key_ne|key_ne|].
          intros Hk. apply getJobKey_inj in Hk. exact (Hne Hk). }
      destruct (IH w1 _ _ _ Hla1 Hlw1 Hlf1 Hhash1 Hsame')
        as (w' & Hloop & Hla' & Hlw' & Hlf' & Hatt' & Hframe' & Hev').
      fold q in Hla', Hlw', Hlf', Hatt', Hframe'.
      exists w'. split; [exact Hloop|].
      split; [rewrite notAmong_cons; exact Hla'|].
      split.
      { rewrite Hlw'. cbn [List.filter]. destruct (retryable this job); [|reflexivity].
        cbn [map rev]. rewrite <- app_assoc. reflexivity. }
      split.
      { rewrite Hlf'. cbn [List.filter]. destruct (retryable this job); [reflexivity|].
        cbn [negb map rev]. rewrite <- app_assoc. reflexivity. }
      split.
      { intros j [<-|Hj]; [|exact (Hatt' j Hj)].
        destruct (existsb (fun j0 => String.eqb (job_id j0) (job_id job)) (stalledAt now r))
          eqn:Hdup.
        - apply existsb_exists in Hdup as (j0 & Hj0 & Heq). apply String.eqb_eq in Heq.
          destruct (Hatt' j0 Hj0) as (h' & Hk' & Ha'). exists h'.
          rewrite <- Heq. split; [exact Hk'|].
          rewrite Ha'.
          rewrite (Hsame j0 job (or_intror (proj1 (proj1 (filter_In _ _ _) Hj0)))
                     (or_introl eq_refl) Heq).
          reflexivity.
        - exists h1. split; [|exact Hatt1].
          rewrite Hframe'; [exact Hk1|key_ne|key_ne|key_ne|].
          intros j0 Hj0 Hk. apply getJobKey_inj in Hk.
          assert (Hex : existsb (fun j1 => String.eqb (job_id j1) (job_id job))
                          (stalledAt now r) = true).
          { apply existsb_exists. exists j0. split; [exact Hj0|].
            apply String.eqb_eq. symmetry. exact Hk. }
          rewrite Hdup in Hex. discriminate Hex. }
      split.
      { intros k H1 H2 H3 H4. rewrite Hframe'; [|exact H1|exact H2|exact H3|].
        - apply Hframe1; [exact H1|exact H2|exact H3|]. apply H4. left. reflexivity.
        - intros j0 Hj0. apply H4. right. exact Hj0. }
      rewrite Hev', Hev1. cbn [map]. rewrite <- app_assoc. reflexivity.
Qed.

(** X23. The stalled-job check. Of the ids in the active list the
    check looks at those that have a job. A job picked up less than
    ten seconds ago is left alone. Every other one (also a job that
    was never stamped with a pick-up time) leaves the active list and
    its stored attempt counter grows by one: while its attempts are
    below the checker's maximum it is pushed on the waiting list and
    announced as stalled, otherwise it is pushed on the failed list
    and announced as failed. Ids without a job stay in the active
    list. *)
Theorem stalled_jobs_leave_the_active_list
    (this : StalledJobChecker.t) (w : World) (la lw lf : list string) :
  listAt (redis w) (getKey (StalledJobChecker.queue this) "active") = Some la ->
  listAt (redis w) (getKey (StalledJobChecker.queue this) "waiting") = Some lw ->
  listAt (redis w) (getKey (StalledJobChecker.queue this) "failed") = Some lf ->
  exists w',
    let stalled :=
      stalledAt (nowOf w) (jobsIn (StalledJobChecker.queue this) (redis w) la) in
    StalledJobChecker.checkStalledJobs this w = (Ok tt, w')
    /\ listAt (redis w') (getKey (StalledJobChecker.queue this) "active")
       = Some (notAmong stalled la)
    /\ listAt (redis w') (getKey (StalledJobChecker.queue this) "waiting")
       = Some (rev (map job_id (List.filter (retryable this) stalled)) ++ lw)%list
    /\ listAt (redis w') (getKey (StalledJobChecker.queue this) "failed")
       = Some (rev (map job_id (List.filter (fun job => negb (retryable this job)) stalled))
               ++ lf)%list
    /\ (forall job, In job stalled ->
        exists h',
          redis w' !! getJobKey (StalledJobChecker.queue this) (job_id job)
          = Some (Redis.VHash h')
          /\ h' !! "attemptsMade" = Some (Redis.HNum (job_attemptsMade job + 1)))
    /\ events w' = (events w ++ map (stalledEvent this) stalled)%list.
Proof.
  intros Hla Hlw Hlf. set (q := StalledJobChecker.queue this) in *.
  unfold StalledJobChecker.checkStalledJobs, tryCatch. fold q.
  rewrite (bind_ok _ _ _ _ _ (getJobs_list_run q JobStatus.active w la
             ltac:(discriminate) Hla)).
  destruct (jobsIn q (redis w) la) as [|job0 r0] eqn:Ejobs.
  - exists w. cbn. rewrite notAmong_nil, app_nil_r.
    split; [reflexivity|]. split; [exact Hla|]. split; [exact Hlw|]. split; [exact Hlf|].
    split; [intros job []|reflexivity].
  - replace (List.length (job0 :: r0) =? 0)%nat with false by reflexivity.
    rewrite <- Ejobs.
    rewrite (bind_ok _ _ _ _ _ (Date_now_run w)).
    assert (Hla1 : listAt (redis (ticked w)) (getKey q "active") = Some la)
      by (rewrite redis_ticked; exact Hla).
    assert (Hlw1 : listAt (redis (ticked w)) (getKey q "waiting") = Some lw)
      by (rewrite redis_ticked; exact Hlw).
    assert (Hlf1 : listAt (redis (ticked w)) (getKey q "failed") = Some lf)
      by (rewrite redis_ticked; exact Hlf).
    destruct (checkJobs_loop this (nowOf w) (jobsIn q (redis w) la) (ticked w) la lw lf
                Hla1 Hlw1 Hlf1)
      as (w' & Hloop & Hla' & Hlw' & Hlf' & Hatt' & _ & Hev').
    + intros job Hjob. apply jobsIn_In in Hjob as (h & Hk & _).
      exists h. rewrite redis_ticked. unfold hashAt. fold q. rewrite Hk. reflexivity.
    + intros a b Ha Hb Hid. apply jobsIn_In in Ha as (ha & Hka & Ea).
      apply jobsIn_In in Hb as (hb & Hkb & Eb). rewrite Hid, Hkb in Hka.
      rewrite Ea, Eb, Hid. congruence.
    + exists w'. fold q in Hloop, Hla', Hlw', Hlf', Hatt'. rewrite Hloop.
      split; [reflexivity|]. split; [exact Hla'|]. split; [exact Hlw'|].
      split; [exact Hlf'|]. split; [exact Hatt'|].
      rewrite Hev', events_ticked. reflexivity.
Qed.

Lemma stalled_jobs_leave_the_active_list_witness :
  exists w',
    StalledJobChecker.checkStalledJobs (StalledJobChecker.make plainQueue None None)
      stalledWorld = (Ok tt, w')
    /\ listAt (redis w') "queue:q:active" = Some ["A"]
    /\ listAt (redis w') "queue:q:waiting" = Some ["B"]
    /\ listAt (redis w') "queue:q:failed" = Some ["C"]
    /\ events w' = [JobStalled "B"; JobFailed "C"].
Proof.
  destruct (stalled_jobs_leave_the_active_list (StalledJobChecker.make plainQueue None None)
              stalledWorld ["A"; "B"; "C"] [] [])
    as (w' & Hrun & Ha & Hw & Hf & _ & He).
  - vm_compute. reflexivity.
  - vm_compute. reflexivity.
  - vm_compute. reflexivity.
  - exists w'. split; [exact Hrun|].
    split; [refine (eq_trans Ha _); vm_compute; reflexivity|].
    split; [refine (eq_trans Hw _); vm_compute; reflexivity|].
    split; [refine (eq_trans Hf _); vm_compute; reflexivity|].
    refine (eq_trans He _). vm_compute. reflexivity.
Defined.

(** ** Reading and emptying the dead-letter queue *)

Lemma entry_key_ne (k jobId : string) : k <> k +:+ ":" +:+ jobId.
Proof.
  intros H. apply (f_equal String.length) in H.
  rewrite !append_length in H. cbn in H. lia.
Qed.

Lemma entry_key_inj (k a b : string) : k +:+ ":" +:+ a = k +:+ ":" +:+ b -> a = b.
Proof.
  intros H. apply (inj (String.append _)) in H. apply (inj (String.append _)) in H. exact H.
Qed.

(** Reading one entry of the dead-letter list changes nothing, whatever
    the key holds. *)
Lemma collect_readonly (k : string) (jobIds : list string) (w : World) :
  exists jobs, DeadLetter.collect k jobIds w = (Ok jobs, w).
Proof.
  induction jobIds as [|d r [jobs IH]]; [exists []; reflexivity|].
  cbn [DeadLetter.collect].
  assert (Hfound : exists found,
            tryCatch
              (jobData ← Cmd.HGETALL (k +:+ ":" +:+ d);
               ret (if bool_decide (jobData = ∅) then None
                    else Some (DeadLetter.jobOf d jobData)))
              (fun _ => ret None) w = (Ok found, w)).
  { unfold tryCatch, Cmd.HGETALL, Cmd.asHash. rewrite !bind_run. unfold getStore.
    destruct (redis w !! (k +:+ ":" +:+ d)) as [[ | | | | h]|]; eexists; reflexivity. }
  destruct Hfound as [found Hfound].
  rewrite (bind_ok _ _ _ _ _ Hfound), (bind_ok _ _ _ _ _ IH). eexists. reflexivity.
Qed.

Lemma collect_present (k d : string) (r : list string) (w : World) (h : Hash) :
  redis w !! (k +:+ ":" +:+ d) = Some (Redis.VHash h) -> h <> ∅ ->
  exists jobs, DeadLetter.collect k (d :: r) w = (Ok (DeadLetter.jobOf d h :: jobs), w).
Proof.
  intros Hk Hne. destruct (collect_readonly k r w) as [jobs Hr]. exists jobs.
  cbn [DeadLetter.collect].
  assert (Hh : hashAt (redis w) (k +:+ ":" +:+ d) = Some h)
    by (unfold hashAt; rewrite Hk; reflexivity).
  assert (Hfound : tryCatch
              (jobData ← Cmd.HGETALL (k +:+ ":" +:+ d);
               ret (if bool_decide (jobData = ∅) then None
                    else Some (DeadLetter.jobOf d jobData)))
              (fun _ => ret None) w = (Ok (Some (DeadLetter.jobOf d h)), w)).
  { unfold tryCatch, Cmd.HGETALL. rewrite bind_run, (asHash_run _ _ _ Hh).
    rewrite bool_decide_eq_false_2 by exact Hne. reflexivity. }
  rewrite (bind_ok _ _ _ _ _ Hfound), (bind_ok _ _ _ _ _ Hr). reflexivity.
Qed.

Lemma deadLetterHash_nonempty (job : Job) (reason : string) (now : Z) (hd : Hash) :
  deadLetterHash job reason now hd <> ∅.
Proof. unfold deadLetterHash. cbn [fold_left fst snd]. apply insert_non_empty. Qed.

(** [moveToDeadLetter] on a store where the dead-letter list is [ld]
    and the failed list [lf]. *)
Lemma deadLetter_move (q : Queue) (this : DeadLetterQueue.t) (job : Job) (reason : string)
    (w : World) (hd : Hash) (ld lf : list string) :
  DeadLetterQueue.queueSuffix this = "-dead-letter" ->
  listAt (redis w) (DeadLetterQueue.deadLetterQueueKey q this) = Some ld ->
  hashAt (redis w) (DeadLetterQueue.deadLetterQueueKey q this +:+ ":" +:+ job_id job)
  = Some hd ->
  listAt (redis w) (getKey q "failed") = Some lf ->
  exists w1,
    DeadLetterQueue.moveToDeadLetter q this job reason w = (Ok (job_id job), w1)
    /\ listAt (redis w1) (DeadLetterQueue.deadLetterQueueKey q this) = Some (job_id job :: ld)
    /\ redis w1 !! (DeadLetterQueue.deadLetterQueueKey q this +:+ ":" +:+ job_id job)
       = Some (Redis.VHash (deadLetterHash job reason (nowOf w) hd))
    /\ listAt (redis w1) (getKey q "failed")
       = Some (if DeadLetterQueue.removeFromOriginalQueue this
               then without (job_id job) lf else lf)
    /\ (forall k,
          k <> DeadLetterQueue.deadLetterQueueKey q this ->
          k <> DeadLetterQueue.deadLetterQueueKey q this +:+ ":" +:+ job_id job ->
          k <> getKey q "failed" ->
          redis w1 !! k = redis w !! k).
Proof.
  intros Hsuf Hld Hhd Hlf. unfold DeadLetterQueue.moveToDeadLetter.
  set (dlqKey := DeadLetterQueue.deadLetterQueueKey q this) in *.
  rewrite (bind_ok _ _ _ _ _ (Date_now_run w)).
  assert (Hhd1 : hashAt (redis (ticked w)) (dlqKey +:+ ":" +:+ job_id job) = Some hd)
    by (rewrite redis_ticked; exact Hhd).
  rewrite (bind_ok _ _ _ _ _ (HMSET_run _ _ _ _ Hhd1)).
  fold (deadLetterHash job reason (nowOf w) hd). rewrite redis_ticked.
  set (s1 := <[dlqKey +:+ ":" +:+ job_id job
                 := Redis.VHash (deadLetterHash job reason (nowOf w) hd)]> (redis w)).
  assert (Hld1 : listAt (redis (setRedis (ticked w) s1)) dlqKey = Some ld).
  { unfold s1. cbn [redis setRedis].
    rewrite listAt_insert_ne by (intros H; exact (entry_key_ne _ _ (eq_sym H))).
    exact Hld. }
  rewrite (bind_ok _ _ _ _ _ (LPUSH_run _ (job_id job) _ _ Hld1)).
  cbn [redis setRedis]. rewrite setRedis_setRedis.
  set (s2 := <[dlqKey := Redis.VList (job_id job :: ld)]> s1).
  assert (Hlf2 : listAt s2 (getKey q "failed") = Some lf).
  { unfold s2, s1. rewrite !listAt_insert_ne by (subst dlqKey; dl_ne Hsuf). exact Hlf. }
  destruct (DeadLetterQueue.removeFromOriginalQueue this).
  - rewrite bind_run.
    rewrite (bind_ok _ _ _ _ _ (LREM_run _ 0 (job_id job) (setRedis (ticked w) s2) lf Hlf2)).
    rewrite lrem_all. unfold ret, emit. cbn [redis setRedis]. rewrite setRedis_setRedis.
    eexists. split; [reflexivity|]. cbn [redis setRedis setEvents].
    split. { rewrite listAt_putList_ne by (subst dlqKey; dl_ne Hsuf).
             unfold s2. apply listAt_insert. }
    split. { rewrite lookup_putList_ne by (subst dlqKey; dl_ne Hsuf).
             unfold s2. rewrite lookup_insert_ne by apply entry_key_ne.
             unfold s1. apply lookup_insert_eq. }
    split; [apply listAt_putList|].
    intros k H1 H2 H3. rewrite lookup_putList_ne by congruence.
    unfold s2, s1. rewrite !lookup_insert_ne by congruence. reflexivity.
  - rewrite bind_run. unfold ret, emit.
    eexists. split; [reflexivity|]. cbn [redis setRedis setEvents].
    split; [unfold s2; apply listAt_insert|].
    split. { unfold s2. rewrite lookup_insert_ne by apply entry_key_ne.
             unfold s1. apply lookup_insert_eq. }
    split; [exact Hlf2|].
    intros k H1 H2 H3. unfold s2, s1. rewrite !lookup_insert_ne by congruence. reflexivity.
Qed.

(** X24. What is dead-lettered can be listed and removed. After
    [moveToDeadLetter] the listing of the dead-letter queue starts
    with the job: id, payload, attempts and stack traces as the job
    had them, the reason that was given, and as timestamp the time of
    the move, not of the submission; the options are not kept. A
    following [removeJob] of the dead-letter queue answers true, takes
    the id out of the dead-letter list and deletes the entry. *)
Theorem dead_lettered_job_is_listed_and_removable
    (q : Queue) (this : DeadLetterQueue.t) (job : Job) (reason : string)
    (w : World) (hd : Hash) (ld lf : list string) :
  DeadLetterQueue.queueSuffix this = "-dead-letter" ->
  listAt (redis w) (DeadLetterQueue.deadLetterQueueKey q this) = Some ld ->
  hashAt (redis w) (DeadLetterQueue.deadLetterQueueKey q this +:+ ":" +:+ job_id job)
  = Some hd ->
  listAt (redis w) (getKey q "failed") = Some lf ->
  exists w1 w2 listed others,
    DeadLetterQueue.moveToDeadLetter q this job reason w = (Ok (job_id job), w1)
    /\ DeadLetter.getJobs q this 0 (-1) w1 = (Ok (listed :: others), w1)
    /\ job_id listed = job_id job
    /\ job_data listed = job_data job
    /\ job_name listed = job_name job
    /\ job_attemptsMade listed = job_attemptsMade job
    /\ job_stacktrace listed = job_stacktrace job
    /\ job_failedReason listed = Some (orS (Some reason) (orS (job_failedReason job) ""))
    /\ job_timestamp listed = nowOf w
    /\ job_opts listed = noOptions
    /\ DeadLetter.removeJob q this (job_id job) w1 = (Ok true, w2)
    /\ listAt (redis w2) (DeadLetterQueue.deadLetterQueueKey q this)
       = Some (without (job_id job) ld)
    /\ redis w2 !! (DeadLetterQueue.deadLetterQueueKey q this +:+ ":" +:+ job_id job) = None.
Proof.
  intros Hsuf Hld Hhd Hlf.
  destruct (deadLetter_move q this job reason w hd ld lf Hsuf Hld Hhd Hlf)
    as (w1 & Hmove & Hld1 & Hk1 & _ & _).
  set (dlqKey := DeadLetterQueue.deadLetterQueueKey q this) in *.
  destruct (collect_present dlqKey (job_id job) ld w1 _ Hk1
              (deadLetterHash_nonempty job reason (nowOf w) hd)) as [others Hcollect].
  exists w1. eexists. exists (DeadLetter.jobOf (job_id job) (deadLetterHash job reason (nowOf w) hd)).
  exists others. split; [exact Hmove|].
  split.
  { unfold DeadLetter.getJobs. fold dlqKey.
    rewrite (bind_ok _ _ _ _ _ (LRANGE_run _ 0 (-1) _ _ Hld1)), rangeOf_all.
    exact Hcollect. }
  unfold deadLetterHash, DeadLetter.jobOf, Codec.num, Codec.str, Codec.strings.
  cbn [fold_left fst snd job_id job_data job_name job_attemptsMade job_stacktrace
       job_failedReason job_timestamp job_opts].
  split; [reflexivity|].
  split. { rewrite !lookup_insert_ne by discriminate. rewrite lookup_insert_eq. reflexivity. }
  split. { rewrite !lookup_insert_ne by discriminate. rewrite lookup_insert_eq. reflexivity. }
  split. { rewrite !lookup_insert_ne by discriminate. rewrite lookup_insert_eq. reflexivity. }
  split. { rewrite !lookup_insert_ne by discriminate. rewrite lookup_insert_eq. reflexivity. }
  split. { rewrite !lookup_insert_ne by discriminate. rewrite lookup_insert_eq. reflexivity. }
  split. { rewrite !lookup_insert_ne by discriminate. rewrite lookup_insert_eq. reflexivity. }
  split; [reflexivity|].
  unfold DeadLetter.removeJob, tryCatch. fold dlqKey.
  rewrite (bind_ok _ _ _ _ _ (LREM_run _ 0 (job_id job) _ _ Hld1)).
  rewrite lrem_all, without_cons_same.
  rewrite bind_run, DEL_single. unfold ret. cbn [redis setRedis].
  split; [reflexivity|]. cbn [redis setRedis].
  split.
  { unfold listAt. rewrite lookup_delete_ne by apply not_eq_sym, entry_key_ne.
    apply listAt_putList. }
  apply lookup_delete_eq.
Qed.

Lemma dead_lettered_job_is_listed_and_removable_witness :
  exists w1 w2 listed others,
    DeadLetterQueue.moveToDeadLetter plainQueue (DeadLetterQueue.make None) thriceFailed
      "gave up" deadLetterWorld = (Ok "A", w1)
    /\ DeadLetter.getJobs plainQueue (DeadLetterQueue.make None) 0 (-1) w1
       = (Ok (listed :: others), w1)
    /\ job_attemptsMade listed = 3
    /\ job_failedReason listed = Some "gave up"
    /\ job_timestamp listed = 1000
    /\ DeadLetter.removeJob plainQueue (DeadLetterQueue.make None) "A" w1 = (Ok true, w2)
    /\ listAt (redis w2) "queue:q-dead-letter" = Some ["Z"]
    /\ redis w2 !! "queue:q-dead-letter:A" = None.
Proof.
  destruct (dead_lettered_job_is_listed_and_removable plainQueue (DeadLetterQueue.make None)
              thriceFailed "gave up" deadLetterWorld ∅ ["Z"] ["A"])
    as (w1 & w2 & listed & others & Hmove & Hlist & _ & _ & _ & Hatt & _ & Hreason & Htime
        & _ & Hrm & Hld & Hgone).
  - reflexivity.
  - vm_compute. reflexivity.
  - vm_compute. reflexivity.
  - vm_compute. reflexivity.
  - exists w1, w2, listed, others.
    split; [exact Hmove|]. split; [exact Hlist|]. split; [exact Hatt|].
    split; [exact Hreason|]. split; [exact Htime|]. split; [exact Hrm|].
    split; [exact Hld | exact Hgone].
Defined.

(** The loop of [clear] deletes one entry per listed id. *)
Lemma clear_loop (k : string) (jobIds : list string) :
  forall w : World,
  exists s',
    forEach jobIds (fun jobId => _ ← Cmd.DEL [k +:+ ":" +:+ jobId]; ret tt) w
    = (Ok tt, setRedis w s')
    /\ (forall jobId, In jobId jobIds -> s' !! (k +:+ ":" +:+ jobId) = None)
    /\ (forall k', (forall jobId, In jobId jobIds -> k' <> k +:+ ":" +:+ jobId) ->
        s' !! k' = redis w !! k').
Proof.
  induction jobIds as [|d r IH]; intros w.
  - exists (redis w). cbn [forEach]. rewrite setRedis_same.
    split; [reflexivity|]. split; [intros ? []|reflexivity].
  - cbn [forEach]. rewrite !bind_run, DEL_single. unfold ret at 1.
    destruct (IH (setRedis w (delete (k +:+ ":" +:+ d) (redis w)))) as (s' & Hrun & Hgone & Hother).
    exists s'. rewrite Hrun, setRedis_setRedis. cbn [redis setRedis] in Hother.
    split; [reflexivity|]. split.
    + intros jobId [<-|Hin]; [|exact (Hgone jobId Hin)].
      destruct (In_dec string_dec d r) as [Hd|Hd]; [exact (Hgone d Hd)|].
      rewrite Hother; [apply lookup_delete_eq|].
      intros jobId Hin Heq. apply entry_key_inj in Heq. subst. exact (Hd Hin).
    + intros k' Hk'. rewrite Hother by (intros jobId Hin; apply Hk'; right; exact Hin).
      apply lookup_delete_ne. apply not_eq_sym, Hk'. left. reflexivity.
Qed.

(** X25. [clear] empties the dead-letter queue and nothing else: the
    dead-letter list is empty afterwards, and the entry of every id it
    held is gone; every other key, among them the job hashes of the queue and
    dead-letter entries whose id was not in the list, keeps its
    value, and nothing is announced. *)
Theorem clear_removes_the_listed_entries_only
    (q : Queue) (this : DeadLetterQueue.t) (w : World) (ld : list string) :
  listAt (redis w) (DeadLetterQueue.deadLetterQueueKey q this) = Some ld ->
  exists w',
    DeadLetter.clear q this w = (Ok tt, w')
    /\ listAt (redis w') (DeadLetterQueue.deadLetterQueueKey q this) = Some []
    /\ (forall jobId, In jobId ld ->
        redis w' !! (DeadLetterQueue.deadLetterQueueKey q this +:+ ":" +:+ jobId) = None)
    /\ (forall k,
          k <> DeadLetterQueue.deadLetterQueueKey q this ->
          (forall jobId, In jobId ld ->
             k <> DeadLetterQueue.deadLetterQueueKey q this +:+ ":" +:+ jobId) ->
          redis w' !! k = redis w !! k)
    /\ events w' = events w.
Proof.
  intros Hld. set (dlqKey := DeadLetterQueue.deadLetterQueueKey q this) in *.
  unfold DeadLetter.clear, tryCatch. fold dlqKey.
  rewrite (bind_ok _ _ _ _ _ (LRANGE_run _ 0 (-1) _ _ Hld)), rangeOf_all.
  destruct ld as [|d r].
  - exists w. split; [reflexivity|]. split; [exact Hld|].
    split; [intros ? []|]. split; reflexivity.
  - replace (List.length (d :: r) =? 0)%nat with false by reflexivity.
    destruct (clear_loop dlqKey (d :: r) w) as (s' & Hrun & Hgone & Hother).
    rewrite (bind_ok _ _ _ _ _ Hrun), bind_run, DEL_single. unfold ret.
    eexists. split; [reflexivity|]. cbn [redis setRedis events].
    split; [unfold listAt; rewrite lookup_delete_eq; reflexivity|].
    split.
    { intros jobId Hin. rewrite lookup_delete_ne by apply entry_key_ne.
      exact (Hgone jobId Hin). }
    split; [|reflexivity].
    intros k H1 H2. rewrite lookup_delete_ne by congruence. apply Hother. exact H2.
Qed.

Lemma clear_removes_the_listed_entries_only_witness :
  exists w',
    DeadLetter.clear plainQueue (DeadLetterQueue.make None) deadLetterWorld = (Ok tt, w')
    /\ listAt (redis w') "queue:q-dead-letter" = Some []
    /\ redis w' !! "queue:q-dead-letter:Z" = None
    /\ redis w' !! "queue:q:failed" = Some (Redis.VList ["A"]).
Proof.
  destruct (clear_removes_the_listed_entries_only plainQueue (DeadLetterQueue.make None)
              deadLetterWorld ["Z"])
    as (w' & Hrun & Hld & Hgone & Hother & _).
  - vm_compute. reflexivity.
  - exists w'. split; [exact Hrun|]. split; [exact Hld|].
    split; [exact (Hgone "Z" (or_introl eq_refl))|].
    rewrite (Hother "queue:q:failed").
    + vm_compute. reflexivity.
    + discriminate.
    + intros jobId _. discriminate.
Defined.

(** ** Counting jobs *)

Lemma ZCARD_run (k : string) (w : World) (z : list (string * Z)) :
  windowAt (redis w) k = Some z ->
  Cmd.ZCARD k w = (Ok (Z.of_nat (List.length z)), w).
Proof.
  intros H. unfold Cmd.ZCARD.
  rewrite (bind_ok _ _ _ _ _ (asZSet_window _ _ _ H)). reflexivity.
Qed.

Lemma getJobCounts_run (q : Queue) (w : World) (lw la lc lf : list string)
    (z : list (string * Z)) :
  listAt (redis w) (getKey q "waiting") = Some lw ->
  listAt (redis w) (getKey q "active") = Some la ->
  listAt (redis w) (getKey q "completed") = Some lc ->
  listAt (redis w) (getKey q "failed") = Some lf ->
  windowAt (redis w) (getKey q "delayed") = Some z ->
  getJobCounts q w
  = (Ok {| count_waiting := Z.of_nat (List.length lw);
           count_active := Z.of_nat (List.length la);
           count_completed := Z.of_nat (List.length lc);
           count_failed := Z.of_nat (List.length lf);
           count_delayed := Z.of_nat (List.length z);
           count_paused := match redis w !! getKey q "paused" with
                           | Some _ => 1
                           | None => 0
                           end |}, w).
Proof.
  intros Hlw Hla Hlc Hlf Hz. unfold getJobCounts, tryCatch, countOf.
  cbn [JobStatus.name].
  rewrite (bind_ok _ _ _ _ _ (LLEN_run _ _ _ Hlw)).
  rewrite (bind_ok _ _ _ _ _ (LLEN_run _ _ _ Hla)).
  rewrite (bind_ok _ _ _ _ _ (LLEN_run _ _ _ Hlc)).
  rewrite (bind_ok _ _ _ _ _ (LLEN_run _ _ _ Hlf)).
  rewrite (bind_ok _ _ _ _ _ (ZCARD_run _ _ _ Hz)).
  rewrite !bind_run, EXISTS_run. unfold ret.
  destruct (redis w !! getKey q "paused"); reflexivity.
Qed.

Lemma countLevels_run (this : PriorityQueue.t) (level : Z -> list string) (w : World)
    (n : nat) :
  forall (p priorityJobs : Z),
  (forall i, (i < n)%nat ->
     listAt (redis w) (PriorityQueue.getPriorityKey this (p + Z.of_nat i))
     = Some (level (p + Z.of_nat i))) ->
  PriorityCounts.countLevels this n p priorityJobs w
  = (Ok (priorityJobs + Z.of_nat (List.length (idsFrom level n p))), w).
Proof.
  induction n as [|n IH]; intros p acc Hlev.
  - cbn [PriorityCounts.countLevels idsFrom List.length]. unfold ret. do 2 f_equal. lia.
  - cbn [PriorityCounts.countLevels idsFrom].
    assert (H0 : listAt (redis w) (PriorityQueue.getPriorityKey this p) = Some (level p)).
    { specialize (Hlev 0%nat ltac:(lia)). replace (p + Z.of_nat 0) with p in Hlev by lia.
      exact Hlev. }
    rewrite (bind_ok _ _ _ _ _ (LLEN_run _ _ _ H0)).
    rewrite IH.
    + do 2 f_equal. rewrite length_app. lia.
    + intros i Hi. specialize (Hlev (S i) ltac:(lia)).
      replace (p + 1 + Z.of_nat i) with (p + Z.of_nat (S i)) by lia. exact Hlev.
Qed.

Lemma idsFrom_snoc (level : Z -> list string) (n : nat) :
  forall p, idsFrom level (S n) p = (idsFrom level n p ++ level (p + Z.of_nat n))%list.
Proof.
  induction n as [|n IH]; intros p.
  - cbn [idsFrom]. rewrite app_nil_r. replace (p + Z.of_nat 0) with p by lia. reflexivity.
  - change (idsFrom level (S (S n)) p) with (level p ++ idsFrom level (S n) (p + 1))%list.
    rewrite IH. cbn [idsFrom]. rewrite <- app_assoc.
    replace (p + 1 + Z.of_nat n) with (p + Z.of_nat (S n)) by lia. reflexivity.
Qed.

Lemma idsFrom_levelsUp (level : Z -> list string) (n : nat) :
  idsFrom level n 0 = levelsUp level n.
Proof.
  induction n as [|n IH]; [reflexivity|].
  rewrite idsFrom_snoc, IH. reflexivity.
Qed.

Lemma levelsUp_empty (n : nat) : levelsUp (fun _ => []) n = [].
Proof. induction n as [|n IH]; [reflexivity|]. cbn [levelsUp]. rewrite IH. reflexivity. Qed.

Lemma priorityCounts_run (this : PriorityQueue.t) (level : Z -> list string) (w : World)
    (lw la lc lf : list string) (z : list (string * Z)) :
  listAt (redis w) (getKey (PriorityQueue.baseQueue this) "waiting") = Some lw ->
  (forall p, 0 <= p < PriorityQueue.priorityLevels this ->
     listAt (redis w) (PriorityQueue.getPriorityKey this p) = Some (level p)) ->
  listAt (redis w) (getKey (PriorityQueue.baseQueue this) "active") = Some la ->
  listAt (redis w) (getKey (PriorityQueue.baseQueue this) "completed") = Some lc ->
  listAt (redis w) (getKey (PriorityQueue.baseQueue this) "failed") = Some lf ->
  windowAt (redis w) (getKey (PriorityQueue.baseQueue this) "delayed") = Some z ->
  PriorityCounts.getJobCounts this w
  = (Ok {| count_waiting :=
             Z.of_nat (List.length lw)
             + Z.of_nat (List.length
                           (levelsUp level (Z.to_nat (PriorityQueue.priorityLevels this))));
           count_active := Z.of_nat (List.length la);
           count_completed := Z.of_nat (List.length lc);
           count_failed := Z.of_nat (List.length lf);
           count_delayed := Z.of_nat (List.length z);
           count_paused :=
             match redis w !! getKey (PriorityQueue.baseQueue this) "paused" with
             | Some _ => 1
             | None => 0
             end |}, w).
Proof.
  intros Hlw Hlev Hla Hlc Hlf Hz. unfold PriorityCounts.getJobCounts.
  rewrite (bind_ok _ _ _ _ _ (getJobCounts_run _ w lw la lc lf z Hlw Hla Hlc Hlf Hz)).
  assert (Hlev0 : forall i, (i < Z.to_nat (PriorityQueue.priorityLevels this))%nat ->
            listAt (redis w) (PriorityQueue.getPriorityKey this (0 + Z.of_nat i))
            = Some (level (0 + Z.of_nat i))).
  { intros i Hi. apply Hlev. lia. }
  rewrite (bind_ok _ _ _ _ _ (countLevels_run this level w _ 0 0 Hlev0)).
  rewrite idsFrom_levelsUp. unfold ret.
  cbn [count_waiting count_active count_completed count_failed count_delayed count_paused].
  replace (0 + Z.of_nat (List.length
                 (levelsUp level (Z.to_nat (PriorityQueue.priorityLevels this)))))
    with (Z.of_nat (List.length
                 (levelsUp level (Z.to_nat (PriorityQueue.priorityLevels this))))) by lia.
  reflexivity.
Qed.

Lemma priorityKey_ne_status (this : PriorityQueue.t) (p : Z) (status : JobStatus.t) :
  PriorityQueue.getPriorityKey this p
  <> getKey (PriorityQueue.baseQueue this) (JobStatus.name status).
Proof. unfold PriorityQueue.getPriorityKey. destruct status; cbn [JobStatus.name]; key_ne. Qed.

(** X26. The priority pump loses and invents no job. The counts of the
    priority queue put the ids of all priority levels under waiting;
    one pass of the pump, which moves them to the waiting list, leaves
    all six counts as they were. *)
Theorem pump_keeps_the_job_counts
    (this : PriorityQueue.t) (level : Z -> list string) (w : World)
    (lw la lc lf : list string) (z : list (string * Z)) :
  listAt (redis w) (getKey (PriorityQueue.baseQueue this) "waiting") = Some lw ->
  (forall p, 0 <= p < PriorityQueue.priorityLevels this ->
     listAt (redis w) (PriorityQueue.getPriorityKey this p) = Some (level p)) ->
  listAt (redis w) (getKey (PriorityQueue.baseQueue this) "active") = Some la ->
  listAt (redis w) (getKey (PriorityQueue.baseQueue this) "completed") = Some lc ->
  listAt (redis w) (getKey (PriorityQueue.baseQueue this) "failed") = Some lf ->
  windowAt (redis w) (getKey (PriorityQueue.baseQueue this) "delayed") = Some z ->
  exists counts w',
    PriorityCounts.getJobCounts this w = (Ok counts, w)
    /\ count_waiting counts
       = Z.of_nat (List.length lw)
         + Z.of_nat (List.length
                       (levelsUp level (Z.to_nat (PriorityQueue.priorityLevels this))))
    /\ PriorityQueue.moveJobsToWaiting this w = (Ok tt, w')
    /\ PriorityCounts.getJobCounts this w' = (Ok counts, w').
Proof.
  intros Hlw Hlev Hla Hlc Hlf Hz.
  set (q := PriorityQueue.baseQueue this) in *.
  set (n := Z.to_nat (PriorityQueue.priorityLevels this)).
  destruct (pump_loop this level n w lw Hlw) as (w' & Hrun & Hw' & Hgone & Hframe & _).
  { intros p Hp. apply Hlev. lia. }
  fold q in Hw', Hframe.
  assert (Hsame : forall status, status <> JobStatus.waiting ->
            redis w' !! getKey q (JobStatus.name status)
            = redis w !! getKey q (JobStatus.name status)).
  { intros status Hs. apply Hframe.
    - intros p _ H. exact (priorityKey_ne_status this _ status (eq_sym H)).
    - intros H. apply getKey_inj in H. destruct status; try discriminate H. congruence. }
  do 2 eexists. split.
  { exact (priorityCounts_run this level w lw la lc lf z Hlw Hlev Hla Hlc Hlf Hz). }
  split; [reflexivity|]. split; [exact Hrun|].
  rewrite (priorityCounts_run this (fun _ => []) w' _ la lc lf z Hw').
  - fold n. fold q. rewrite levelsUp_empty, length_app.
    assert (Hp := Hsame JobStatus.paused ltac:(discriminate)).
    cbn [JobStatus.name] in Hp. rewrite Hp.
    cbn [List.length].
    replace (Z.of_nat (List.length (levelsUp level n) + List.length lw) + Z.of_nat 0)
      with (Z.of_nat (List.length lw) + Z.of_nat (List.length (levelsUp level n))) by lia.
    reflexivity.
  - intros p Hp. replace p with (Z.of_nat (Z.to_nat p)) by lia. apply Hgone. lia.
  - unfold listAt. fold q.
    rewrite (Hsame JobStatus.active ltac:(discriminate) : redis w' !! getKey q "active" = _).
    exact Hla.
  - unfold listAt. fold q.
    rewrite (Hsame JobStatus.completed ltac:(discriminate) : redis w' !! getKey q "completed" = _).
    exact Hlc.
  - unfold listAt. fold q.
    rewrite (Hsame JobStatus.failed ltac:(discriminate) : redis w' !! getKey q "failed" = _).
    exact Hlf.
  - unfold windowAt. fold q.
    rewrite (Hsame JobStatus.delayed ltac:(discriminate) : redis w' !! getKey q "delayed" = _).
    exact Hz.
Qed.

Lemma pump_keeps_the_job_counts_witness :
  exists counts w',
    PriorityCounts.getJobCounts threeLevels levelsWorld = (Ok counts, levelsWorld)
    /\ count_waiting counts = 5
    /\ PriorityQueue.moveJobsToWaiting threeLevels levelsWorld = (Ok tt, w')
    /\ PriorityCounts.getJobCounts threeLevels w' = (Ok counts, w').
Proof.
  destruct (pump_keeps_the_job_counts threeLevels levelsOf levelsWorld ["w"] [] [] [] [])
    as (counts & w' & Hc & Hn & Hrun & Hc').
  - vm_compute. reflexivity.
  - intros p Hp. cbn in Hp.
    assert (Hcases : p = 0 \/ p = 1 \/ p = 2) by lia.
    destruct Hcases as [->|[->| ->]]; vm_compute; reflexivity.
  - vm_compute. reflexivity.
  - vm_compute. reflexivity.
  - vm_compute. reflexivity.
  - vm_compute. reflexivity.
  - exists counts, w'. split; [exact Hc|]. split; [exact Hn|]. split; [exact Hrun | exact Hc'].
Defined.
